(** * vizctrl: unit conversion, step rounding, the radial dial and the
    heading control, embedded over IEEE 754 binary64.

    The TypeScript sources compute with JavaScript numbers.  A number is
    modelled as a [spec_float] of the Standard Library at precision 53 and
    maximal exponent 1024, so that every arithmetic operation below rounds
    as the engine does, overflows to an infinity and produces NaN where the
    engine does. *)

From Stdlib Require Import ZArith QArith Qabs Qpower Bool List Lia Lqa String Ascii.
From Stdlib Require Import SpecFloat.
Import ListNotations.

Local Open Scope Z_scope.

(** ** JavaScript numbers *)

Module JS.

Definition number := spec_float.

Definition prec : Z := 53.
Definition emax : Z := 1024.

Definition NaN : number := S754_nan.
Definition Infinity : number := S754_infinity false.

Definition add (x y : number) : number := SFadd prec emax x y.
Definition sub (x y : number) : number := SFsub prec emax x y.
Definition mul (x y : number) : number := SFmul prec emax x y.
Definition div (x y : number) : number := SFdiv prec emax x y.
Definition neg (x : number) : number := SFopp x.

(** [x < y], [x <= y] and [x === y] on numbers: false as soon as one side
    is NaN, and the two zeros are equal. *)
Definition lt (x y : number) : bool := SFltb x y.
Definition le (x y : number) : bool := SFleb x y.
Definition strict_eq (x y : number) : bool := SFeqb x y.

Definition isNaN (x : number) : bool :=
  match x with S754_nan => true | _ => false end.

(** [Number.isFinite] on a value that is a number. *)
Definition isFinite (x : number) : bool :=
  match x with
  | S754_zero _ | S754_finite _ _ _ => true
  | S754_infinity _ | S754_nan => false
  end.

(** The number nearest to the rational [p / q], ties to even: the value of
    a decimal literal, and of a decimal string turned into a number. *)
Definition of_ratio (s : bool) (p : Z) (q : positive) : number :=
  match p with
  | Zpos _ =>
      let '(mz, ez, lz) := SFdiv_core_binary prec emax p 0 (Zpos q) 0 in
      binary_round_aux prec emax s mz ez lz
  | _ => S754_zero s
  end.

(** An integer literal. *)
Definition of_Z (z : Z) : number := binary_normalize prec emax z 0 false.

(** A decimal literal [m / 10^d], such as [0.3048 = dec 3048 4]. *)
Definition dec (m : Z) (d : nat) : number :=
  of_ratio (m <? 0) (Z.abs m) (Pos.pow 10 (Pos.of_nat d)).

(** [Math.abs]. *)
Definition Math_abs (x : number) : number := SFabs x.

(** [Math.max] and [Math.min] of two arguments: NaN if either is NaN, and
    [+0] counts as larger than [-0]. *)
Definition Math_max (a b : number) : number :=
  match SFcompare a b with
  | None => NaN
  | Some Lt => b
  | Some Gt => a
  | Some Eq =>
      match a, b with
      | S754_zero true, S754_zero false => b
      | _, _ => a
      end
  end.

Definition Math_min (a b : number) : number :=
  match SFcompare a b with
  | None => NaN
  | Some Lt => a
  | Some Gt => b
  | Some Eq =>
      match a, b with
      | S754_zero false, S754_zero true => b
      | _, _ => a
      end
  end.

(** [Math.round]: the nearest integer, a tie going towards +Infinity; the
    sign of a zero result is the sign of the argument. *)
Definition Math_round (x : number) : number :=
  match x with
  | S754_finite s m e =>
      if 0 <=? e then x
      else
        let n := (2 * cond_Zopp s (Zpos m) + 2 ^ (- e)) / 2 ^ (1 - e) in
        match n with
        | Z0 => S754_zero s
        | _ => binary_normalize prec emax n 0 s
        end
  | _ => x
  end.

(** [Math.floor]. *)
Definition Math_floor (x : number) : number :=
  match x with
  | S754_finite s m e =>
      if 0 <=? e then x
      else
        let n := cond_Zopp s (Zpos m) / 2 ^ (- e) in
        match n with
        | Z0 => S754_zero s
        | _ => binary_normalize prec emax n 0 s
        end
  | _ => x
  end.

(** [Number.isInteger] on a value that is a number. *)
Definition Number_isInteger (x : number) : bool :=
  match x with
  | S754_zero _ => true
  | S754_finite _ m e => if 0 <=? e then true else Zpos m mod 2 ^ (- e) =? 0
  | S754_infinity _ | S754_nan => false
  end.

(** The [%] operator: the remainder has the sign of the dividend and is
    computed exactly. *)
Definition rem (n d : number) : number :=
  match n, d with
  | S754_nan, _ | _, S754_nan => NaN
  | S754_infinity _, _ => NaN
  | _, S754_zero _ => NaN
  | _, S754_infinity _ => n
  | S754_zero _, _ => n
  | S754_finite sn mn en, S754_finite _ md ed =>
      let e := Z.min en ed in
      let a := Zpos mn * 2 ^ (en - e) in
      let b := Zpos md * 2 ^ (ed - e) in
      binary_normalize prec emax (cond_Zopp sn (a mod b)) e sn
  end.

(** *** Numbers to strings *)

Local Open Scope string_scope.
Local Open Scope Z_scope.

Definition digit_char (d : Z) : ascii := ascii_of_nat (48 + Z.to_nat d).

(** The last [k] decimal digits of [n], most significant first. *)
Fixpoint digits (k : nat) (n : Z) : string :=
  match k with
  | O => ""
  | S k' => digits k' (n / 10) ++ String (digit_char (n mod 10)) ""
  end.

Fixpoint ndigits_aux (fuel : nat) (n : Z) : nat :=
  match fuel with
  | O => 1%nat
  | S f => if n <? 10 then 1%nat else S (ndigits_aux f (n / 10))
  end.

(** The number of decimal digits of [n >= 0] (one for zero). *)
Definition ndigits (n : Z) : nat := ndigits_aux (Z.to_nat (Z.log2 n)) n.

(** The decimal representation of the integer [n >= 0]. *)
Definition string_of_Z (n : Z) : string := digits (ndigits n) n.

Fixpoint zeros (k : nat) : string :=
  match k with
  | O => ""
  | S k' => String "0" (zeros k')
  end.

(** The number nearest to [s * 10^q], for integers [s >= 0] and [q]. *)
Definition of_decimal (sign : bool) (s q : Z) : number :=
  if 0 <=? q then of_ratio sign (s * 10 ^ q) 1
  else of_ratio sign s (Z.to_pos (10 ^ (- q))).

(** [x < 10^n] for the positive rational [x = p / q]. *)
Definition below_pow10 (p q n : Z) : bool :=
  if 0 <=? n then p <? q * 10 ^ n else p * 10 ^ (- n) <? q.

Fixpoint scan_exponent (fuel : nat) (p q n : Z) : Z :=
  match fuel with
  | O => n
  | S f => if below_pow10 p q n then n else scan_exponent f p q (n + 1)
  end.

(** The integer [n] with [10^(n-1) <= p / q < 10^n].  The search starts
    from an estimate drawn from the binary logarithms; the exponent of a
    binary64 number lies between -324 and 309. *)
Definition decimal_exponent (p q : Z) : Z :=
  let est := (Z.log2 p - Z.log2 q) * 30103 / 100000 in
  scan_exponent 6 p q (Z.min 330 (Z.max (-330) (est - 2))).

(** The best decimal [s * 10^(n - k)] with [k] digits for [x = p / q]: of
    the two [k]-digit decimals around [x], one that reads back as [x], the
    closer one if both do, the even one on a tie. *)
Definition shortest_at (x : number) (p q n : Z) (k : nat) : option (Z * Z) :=
  let u := n - Z.of_nat k in
  let sl := if 0 <=? u then p / (q * 10 ^ u) else (p * 10 ^ (- u)) / q in
  let su := sl + 1 in
  let okl := SFeqb (of_decimal false sl u) x in
  let oku := SFeqb (of_decimal false su u) x in
  let mid :=
    if 0 <=? u then (2 * p ?= (2 * sl + 1) * (q * 10 ^ u))
    else (2 * (p * 10 ^ (- u)) ?= (2 * sl + 1) * q) in
  let pick (s : Z) :=
    if s =? 10 ^ Z.of_nat k then Some (s / 10, n + 1) else Some (s, n) in
  match okl, oku with
  | true, false => pick sl
  | false, true => pick su
  | true, true =>
      match mid with
      | Lt => pick sl
      | Gt => pick su
      | Eq => if Z.even sl then pick sl else pick su
      end
  | false, false => None
  end.

Fixpoint shortest_from (fuel : nat) (x : number) (p q n : Z) (k : nat)
  : nat * Z * Z :=
  match fuel with
  | O => (k, (if 0 <=? n - Z.of_nat k then p / (q * 10 ^ (n - Z.of_nat k))
              else (p * 10 ^ (Z.of_nat k - n)) / q), n)
  | S f =>
      match shortest_at x p q n k with
      | Some (s, n') => (k, s, n')
      | None => shortest_from f x p q n (S k)
      end
  end.

(** The digits [s], their number [k <= 17] and the exponent [n] of
    Number::toString: [k] is as small as possible with [s * 10^(n-k)]
    reading back as the number [m * 2^e]. *)
Definition shortest (m : positive) (e : Z) : nat * Z * Z :=
  let p := if 0 <=? e then Zpos m * 2 ^ e else Zpos m in
  let q := if 0 <=? e then 1 else 2 ^ (- e) in
  shortest_from 17 (S754_finite false m e) p q (decimal_exponent p q) 1.

(** Number::toString for a positive finite number. *)
Definition toString_pos (m : positive) (e : Z) : string :=
  let '(k, s, n) := shortest m e in
  let ds := digits k s in
  let kz := Z.of_nat k in
  if (kz <=? n) && (n <=? 21) then ds ++ zeros (Z.to_nat (n - kz))
  else if (0 <? n) && (n <=? 21) then
    digits (Z.to_nat n) (s / 10 ^ (kz - n)) ++ "." ++ digits (k - Z.to_nat n) s
  else if (-6 <? n) && (n <=? 0) then "0." ++ zeros (Z.to_nat (- n)) ++ ds
  else
    let ex := n - 1 in
    let es := (if 0 <=? ex then "+" else "-") ++ string_of_Z (Z.abs ex) in
    match k with
    | 1%nat => ds ++ "e" ++ es
    | _ => digits 1 (s / 10 ^ (kz - 1)) ++ "." ++ digits (k - 1) s ++ "e" ++ es
    end.

(** [x.toString()]. *)
Definition toString (x : number) : string :=
  match x with
  | S754_nan => "NaN"
  | S754_zero _ => "0"
  | S754_infinity s => if s then "-Infinity" else "Infinity"
  | S754_finite s m e => (if s then "-" else "") ++ toString_pos m e
  end.

(** 10^21 as a number: from there on [toFixed] gives [toString]. *)
Definition ten21 : number := of_Z (10 ^ 21).

(** The digits of [x.toFixed(f)] for a finite [|x| < 10^21]: the integer
    [n] nearest to [|x| * 10^f] (the larger one on a tie), written with a
    point before its last [f] digits and at least one digit before the
    point. *)
Definition toFixed_int (m : positive) (e : Z) (f : nat) : Z :=
  let p := Zpos m * 10 ^ Z.of_nat f in
  if 0 <=? e then p * 2 ^ e
  else (2 * p + 2 ^ (- e)) / 2 ^ (1 - e).

Definition toFixed_digits (n : Z) (f : nat) : string :=
  match f with
  | O => string_of_Z n
  | _ => string_of_Z (n / 10 ^ Z.of_nat f) ++ "." ++ digits f n
  end.

(** What the code can throw, and a computation that returns or throws. *)
Inductive exn :=
  | Error (message : string)
  | RangeError (message : string).

Definition Result (A : Type) : Type := exn + A.

Definition ret {A} (a : A) : Result A := inr a.

Definition bind {A B} (r : Result A) (k : A -> Result B) : Result B :=
  match r with
  | inl e => inl e
  | inr a => k a
  end.

(** The string of [x.toFixed(f)] for [0 <= f <= 100]. *)
Definition toFixed_string (x : number) (f : nat) : string :=
  match x with
  | S754_nan => "NaN"
  | S754_zero _ => toFixed_digits 0 f
  | S754_infinity _ => toString x
  | S754_finite s m e =>
      if SFleb ten21 (SFabs x) then toString x
      else (if s then "-" else "") ++ toFixed_digits (toFixed_int m e f) f
  end.

(** [x.toFixed(f)]: a RangeError unless [0 <= f <= 100]. *)
Definition toFixed (x : number) (f : nat) : Result string :=
  if (100 <? f)%nat then
    inl (RangeError "toFixed() digits argument must be between 0 and 100")
  else inr (toFixed_string x f).

(** *** Strings to numbers *)

Definition is_digit (c : ascii) : bool :=
  let n := nat_of_ascii c in ((48 <=? n) && (n <=? 57))%nat.

Definition digit_val (c : ascii) : Z := Z.of_nat (nat_of_ascii c) - 48.

(** Reads a run of decimal digits: the value accumulated onto [acc], the
    number of digits read added to [cnt], and the rest of the string. *)
Fixpoint read_digits (s : string) (acc : Z) (cnt : nat) : Z * nat * string :=
  match s with
  | String c s' =>
      if is_digit c then read_digits s' (10 * acc + digit_val c) (S cnt)
      else (acc, cnt, s)
  | EmptyString => (acc, cnt, s)
  end.

(** White space.  A string is the sequence of the bytes of its UTF-8
    encoding, so the white space and line terminator characters of
    ECMA-262 (StrWhiteSpaceChar) take one, two or three bytes.  One byte:
    TAB, LF, VT, FF, CR and the space. *)
Definition is_space (c : ascii) : bool :=
  let n := nat_of_ascii c in
  ((n =? 32) || (n =? 9) || (n =? 10) || (n =? 11) || (n =? 12) || (n =? 13))%nat.

(** Two bytes: the no-break space U+00A0. *)
Definition is_space2 (c1 c2 : ascii) : bool :=
  ((nat_of_ascii c1 =? 194) && (nat_of_ascii c2 =? 160))%nat.

(** Three bytes: U+1680, U+2000 to U+200A, the line and paragraph
    separators U+2028 and U+2029, U+202F, U+205F, U+3000 and the byte
    order mark U+FEFF. *)
Definition is_space3 (c1 c2 c3 : ascii) : bool :=
  let a := nat_of_ascii c1 in
  let b := nat_of_ascii c2 in
  let c := nat_of_ascii c3 in
  (((a =? 225) && (b =? 154) && (c =? 128))
   || ((a =? 226) && (b =? 128)
       && (((128 <=? c) && (c <=? 138)) || (c =? 168) || (c =? 169) || (c =? 175)))
   || ((a =? 226) && (b =? 129) && (c =? 159))
   || ((a =? 227) && (b =? 128) && (c =? 128))
   || ((a =? 239) && (b =? 187) && (c =? 191)))%nat.

Fixpoint trim_left (s : string) : string :=
  match s with
  | String c1 r1 =>
      if is_space c1 then trim_left r1
      else
        match r1 with
        | String c2 r2 =>
            if is_space2 c1 c2 then trim_left r2
            else
              match r2 with
              | String c3 r3 => if is_space3 c1 c2 c3 then trim_left r3 else s
              | EmptyString => s
              end
        | EmptyString => s
        end
  | EmptyString => s
  end.

(** The white space at the end goes: a string that is white space from
    some place on is cut there. *)
Fixpoint trim_right (s : string) : string :=
  match s with
  | String c r =>
      match trim_left s with
      | EmptyString => EmptyString
      | _ => String c (trim_right r)
      end
  | EmptyString => s
  end.

Definition trim (s : string) : string := trim_right (trim_left s).

(** The exponent part [e], [e+] or [e-] followed by digits; [None] when
    the string is not one. *)
Definition read_sign (s : string) : bool * string :=
  match s with
  | String c t =>
      if Ascii.eqb c "-" then (true, t)
      else if Ascii.eqb c "+" then (false, t)
      else (false, s)
  | EmptyString => (false, s)
  end.

Definition read_exponent (s : string) : option Z :=
  match s with
  | EmptyString => Some 0
  | String c s' =>
      if (Ascii.eqb c "e" || Ascii.eqb c "E")%bool then
        let '(sg, s'') := read_sign s' in
        match read_digits s'' 0 0 with
        | (_, O, _) => None
        | (v, _, EmptyString) => Some (if sg then - v else v)
        | _ => None
        end
      else None
  end.

(** An unsigned StrDecimalLiteral. *)
Definition read_decimal (sign : bool) (s : string) : number :=
  if String.eqb s "Infinity" then S754_infinity sign
  else
    let '(vi, ni, r1) := read_digits s 0 0 in
    let '(vf, nf, r2) :=
      match r1 with
      | String c t => if Ascii.eqb c "." then read_digits t vi 0 else (vi, O, r1)
      | EmptyString => (vi, O, r1)
      end in
    match (ni + nf)%nat with
    | O => NaN
    | _ =>
        match read_exponent r2 with
        | Some ex => of_decimal sign vf (ex - Z.of_nat nf)
        | None => NaN
        end
    end.

Definition radix_digit (radix : Z) (c : ascii) : option Z :=
  let n := Z.of_nat (nat_of_ascii c) in
  let v :=
    if (48 <=? n) && (n <=? 57) then n - 48
    else if (97 <=? n) && (n <=? 102) then n - 87
    else if (65 <=? n) && (n <=? 70) then n - 55
    else radix in
  if v <? radix then Some v else None.

Fixpoint read_radix (radix : Z) (s : string) (acc : Z) : option Z :=
  match s with
  | EmptyString => Some acc
  | String c s' =>
      match radix_digit radix c with
      | Some v => read_radix radix s' (radix * acc + v)
      | None => None
      end
  end.

Definition read_prefixed (radix : Z) (s : string) : number :=
  match s with
  | EmptyString => NaN
  | _ => match read_radix radix s 0 with
         | Some v => of_ratio false v 1
         | None => NaN
         end
  end.

(** The radix of a literal that starts with [0x], [0o] or [0b], and the
    digits after the prefix. *)
Definition read_radix_prefix (s : string) : option (Z * string) :=
  match s with
  | String z (String c t) =>
      if Ascii.eqb z "0" then
        if (Ascii.eqb c "x" || Ascii.eqb c "X")%bool then Some (16, t)
        else if (Ascii.eqb c "o" || Ascii.eqb c "O")%bool then Some (8, t)
        else if (Ascii.eqb c "b" || Ascii.eqb c "B")%bool then Some (2, t)
        else None
      else None
  | _ => None
  end.

(** [Number(s)] and unary [+s] on a string (StringToNumber). *)
Definition Number (s : string) : number :=
  let t := trim s in
  match t with
  | EmptyString => S754_zero false
  | _ =>
      match read_radix_prefix t with
      | Some (radix, r) => read_prefixed radix r
      | None => let '(sign, r) := read_sign t in read_decimal sign r
      end
  end.

(** [s.includes('.')]. *)
Fixpoint includes_dot (s : string) : bool :=
  match s with
  | EmptyString => false
  | String c s' => if Ascii.eqb c "." then true else includes_dot s'
  end.

(** [s.split('.')]. *)
Fixpoint split_dot (s : string) : list string :=
  match s with
  | EmptyString => [""]
  | String c s' =>
      if Ascii.eqb c "." then "" :: split_dot s'
      else match split_dot s' with
           | h :: t => String c h :: t
           | [] => [String c ""]
           end
  end.

Local Close Scope string_scope.

End JS.

Declare Scope js_scope.
Delimit Scope js_scope with js.
Bind Scope js_scope with JS.number.
Infix "+" := JS.add : js_scope.
Infix "-" := JS.sub : js_scope.
Infix "*" := JS.mul : js_scope.
Infix "/" := JS.div : js_scope.
Infix "%%" := JS.rem (at level 40, left associativity) : js_scope.
Infix "<?" := JS.lt : js_scope.
Infix "<=?" := JS.le : js_scope.
Notation "$ z" := (JS.of_Z z) (at level 1, format "$ z") : js_scope.
Notation "x <- r ;; k" := (JS.bind r (fun x => k))
  (at level 61, r at next level, right associativity).

(** ** The number inputs of the DOM *)

Module DOM.
Import JS.

(** A valid floating-point number of HTML: an optional [-], then digits,
    or a point followed by digits, or both, then optionally an exponent
    ([e] or [E], an optional sign and digits). *)
Definition valid_floating_point_number (s : string) : bool :=
  let r :=
    match s with
    | String c t => if Ascii.eqb c "-" then t else s
    | EmptyString => s
    end in
  let '(_, ni, r1) := read_digits r 0 0 in
  let '(digits_ok, r2) :=
    match r1 with
    | String c t =>
        if Ascii.eqb c "." then
          let '(_, nf, r2) := read_digits t 0 0 in (negb (nf =? 0)%nat, r2)
        else (negb (ni =? 0)%nat, r1)
    | EmptyString => (negb (ni =? 0)%nat, r1)
    end in
  digits_ok && match read_exponent r2 with Some _ => true | None => false end.

(** The [value] of an [<input type="number">] that holds the text [text],
    as an event handler reads it from [e.target.value]: the value
    sanitization of HTML keeps a valid floating-point number and puts the
    empty string in the place of anything else. *)
Definition number_input_value (text : string) : string :=
  if valid_floating_point_number text then text else "".

End DOM.

(** ** quantity.ts *)

Module Unit.
Inductive t := m | ft | ms | kmh | mph | kts.
Definition name (u : t) : string :=
  match u with
  | m => "m" | ft => "ft" | ms => "ms" | kmh => "kmh" | mph => "mph" | kts => "kts"
  end.
End Unit.

Module Quantity.
Import JS.

Record Quantity := { value : number; unit : Unit.t }.

(** The canonical factor of each unit: metres for length, metres per
    second for speed. *)
Definition factors (u : Unit.t) : option number :=
  Some
    match u with
    | Unit.m => $1
    | Unit.ft => dec 3048 4
    | Unit.ms => $1
    | Unit.kmh => $1000 / $3600
    | Unit.mph => dec 1609344 3 / $3600
    | Unit.kts => $1852 / $3600
    end%js.

Definition convert (qty : Quantity) (to : Unit.t) : Result Quantity :=
  match factors (unit qty), factors to with
  | Some fromFactor, Some toFactor =>
      let canonical := (value qty * fromFactor)%js in
      inr {| value := (canonical / toFactor)%js; unit := to |}
  | _, _ =>
      inl (Error ("Cannot convert from " ++ Unit.name (unit qty)
                    ++ " to " ++ Unit.name to))
  end.

(** The number of decimal places in the decimal representation of [n]. *)
Definition decimals (n : number) : nat :=
  let s := toString n in
  if negb (includes_dot s) then 0%nat
  else String.length (nth 1 (split_dot s) ""%string).

(** The [r] of [roundToStep]: the multiple of [step] nearest to [v],
    printed with the decimal places of [step] and read back. *)
Definition rounded (v step : number) : Result number :=
  let k := Math_round (v / step) in
  s <- toFixed (k * step) (decimals step) ;;
  ret (Number s).

(** Rounds [v] to the nearest multiple of [step]; the unrounded [v] when
    the result is not finite. *)
Definition roundToStep (v step : number) : Result number :=
  r <- rounded v step ;;
  ret (if isFinite r then r else v).

(** *** The formatters *)

Definition vround (n : number) : number := (Math_round (n * $100) / $100)%js.

Definition vtrim (n : number) : Result string :=
  if Number_isInteger n then toFixed n 0 else ret (toString n).

(** [format.length]. *)
Definition format_length (q : Quantity) : Result string :=
  let v := value q in
  match unit q with
  | Unit.ft => s <- toFixed v 0 ;; ret (s ++ " ft")%string
  | _ => s <- toFixed v 0 ;; ret (s ++ " m")%string
  end.

(** The table of [format.speed]; a unit outside it reads as [undefined]. *)
Definition speed_label (u : Unit.t) : option string :=
  match u with
  | Unit.ms => Some "m/s"%string
  | Unit.kmh => Some "km/h"%string
  | Unit.mph => Some "mph"%string
  | Unit.kts => Some "kt"%string
  | _ => None
  end.

(** [format.speed]. *)
Definition format_speed (q : Quantity) : Result string :=
  let unit := match speed_label (unit q) with Some l => l | None => "undefined"%string end in
  s <- vtrim (vround (value q)) ;;
  ret (s ++ " " ++ unit)%string.

End Quantity.


(** ** Dial.tsx *)

Module Dial.
Import JS.

(** The bounding rectangle of the dial's SVG element. *)
Record DOMRect := { left : number; top : number; width : number; height : number }.

Record Props := {
  value : number;
  min : number;
  max : number;
  step : number;
  size : number;
  startAngle : number;
  endAngle : number;
  disabled : bool
}.

Definition PI : number := dec 3141592653589793 15.

(** The props a caller gets when it passes only [value]. *)
Definition defaults (value : number) : Props :=
  {| value := value; min := $0; max := $100; step := $1; size := $160;
     startAngle := (neg PI * dec 75 2)%js; endAngle := (PI * dec 75 2)%js;
     disabled := false |}.

Section Component.

(** [Math.atan2], which the engine approximates: any function of its two
    arguments. *)
Variable atan2 : number -> number -> number.

Variable p : Props.

Definition clamp (v : number) : number := Math_min (max p) (Math_max (min p) v).

Definition range : number := (max p - min p)%js.

Definition angleFromValue (v : number) : number :=
  let t := ((v - min p) / range)%js in
  (startAngle p + t * (endAngle p - startAngle p))%js.

Definition round (v s : number) : Result number :=
  let k := (Math_round (v / s) * s)%js in
  let d := String.length (nth 1 (split_dot (toString s)) ""%string) in
  str <- toFixed k d ;;
  ret (Number str).

(** The interpolation fraction of an angle, before it is clamped. *)
Definition fraction (ang : number) : number :=
  ((ang - startAngle p) / (endAngle p - startAngle p))%js.

Definition valueFromAngle (ang : number) : Result number :=
  let t := fraction ang in
  let t := Math_min $1 (Math_max $0 t) in
  let raw := (min p + t * range)%js in
  r <- round raw (step p) ;;
  ret (clamp r).

(** The values handed to [onChange], in order. *)
Definition Emitted := list number.

(** [ref.current] is [None] while the element is not mounted. *)
Definition setFromPointer (ref : option DOMRect) (clientX clientY : number)
  : Result Emitted :=
  match ref with
  | None => ret []
  | Some box =>
      let x := (clientX - (left box + width box / $2))%js in
      let y := (clientY - (top box + height box / $2))%js in
      let ang := atan2 y x in
      v <- valueFromAngle ang ;;
      ret [v]
  end.

(** The interaction state: the [dragging] ref. *)
Record State := { dragging : bool }.

Inductive Event :=
  | PointerDown (clientX clientY : number)
  | PointerMove (clientX clientY : number)
  | PointerUp
  | KeyDown (key : string) (shiftKey : bool).

Definition move (st : State) (ref : option DOMRect) (clientX clientY : number)
  : Result Emitted :=
  if negb (dragging st) then ret [] else setFromPointer ref clientX clientY.

Definition up (st : State) : State := {| dragging := false |}.

Definition onPointerDown (st : State) (ref : option DOMRect)
  (clientX clientY : number) : State * Result Emitted :=
  if disabled p then (st, ret [])
  else ({| dragging := true |}, setFromPointer ref clientX clientY).

Definition coarse : number := Math_max (step p * $10)%js (step p).

Local Open Scope string_scope.

Definition onKeyDown (key : string) (shiftKey : bool) : Emitted :=
  if disabled p then []
  else
    let delta := if shiftKey then coarse else step p in
    if (key =? "ArrowRight") || (key =? "ArrowUp") then
      [clamp (value p + delta)%js]
    else if (key =? "ArrowLeft") || (key =? "ArrowDown") then
      [clamp (value p - delta)%js]
    else if key =? "PageUp" then [clamp (value p + coarse)%js]
    else if key =? "PageDown" then [clamp (value p - coarse)%js]
    else if key =? "Home" then [min p]
    else if key =? "End" then [max p]
    else [].

Local Close Scope string_scope.

(** One event of the component: the next state and what it emits. *)
Definition handle (st : State) (ref : option DOMRect) (ev : Event)
  : State * Result Emitted :=
  match ev with
  | PointerDown x y => onPointerDown st ref x y
  | PointerMove x y => (st, move st ref x y)
  | PointerUp => (up st, ret [])
  | KeyDown key shiftKey => (st, ret (onKeyDown key shiftKey))
  end.

(** The state after a sequence of events. *)
Definition run (st : State) (ref : option DOMRect) (evs : list Event) : State :=
  fold_left (fun s ev => fst (handle s ref ev)) evs st.

End Component.

(** *** The tick marks *)

Record Point := { x : number; y : number }.

(** The [ticks] prop. *)
Record Ticks := { every : number; majorEvery : option number }.

(** A tick mark: its [key] and the ends of its line. *)
Record Line := { key : number; x1 : number; y1 : number; x2 : number; y2 : number }.

Section Ticks.

(** [Math.cos] and [Math.sin], which the engine approximates: any two
    functions. *)
Variable cos sin : number -> number.

Variable p : Props.

Definition radius : number := (size p / $2)%js.
Definition stroke : number := $10%js.
Definition center : Point := {| x := radius; y := radius |}.

Definition polar (c : Point) (r ang : number) : Point :=
  {| x := (x c + r * cos ang)%js; y := (y c + r * sin ang)%js |}.

(** The body of the loop of [tickEls] for the value [v]. *)
Definition tick (major v : number) : Line :=
  let a := angleFromValue p v in
  let inner := (radius - stroke - $6)%js in
  let outer := (inner + (if strict_eq (v %% major) $0 then $12 else $6))%js in
  let p1 := polar center inner a in
  let p2 := polar center outer a in
  {| key := v; x1 := x p1; y1 := y p1; x2 := x p2; y2 := y p2 |}.

(** The loop [for (let v = min; v <= max + 1e-9; v += every)]: the lines
    pushed, or [None] when the loop has not ended after [fuel] rounds. *)
Fixpoint tick_loop (fuel : nat) (every major v : number) (els : list Line)
  : option (list Line) :=
  match fuel with
  | O => None
  | S f =>
      if (v <=? max p + of_decimal false 1 (-9))%js
      then tick_loop f every major (v + every)%js (els ++ [tick major v])
      else Some els
  end.

(** [tickEls]: [null] without a [ticks] prop, the lines otherwise. *)
Definition tickEls (fuel : nat) (ticks : option Ticks) : option (option (list Line)) :=
  match ticks with
  | None => Some None
  | Some t =>
      let major :=
        match majorEvery t with
        | Some m => m
        | None => (every t * $5)%js
        end in
      match tick_loop fuel (every t) major (min p) [] with
      | Some els => Some (Some els)
      | None => None
      end
  end.

End Ticks.
End Dial.

(** ** HeadingControl.tsx *)

Module HeadingControl.
Import JS.

Record Props := { value : number; step : number; snap : bool }.

Definition cardinals : list number := [$0; $90; $180; $270]%js.

Definition closest (deg : number) : number :=
  fold_left
    (fun acc cur =>
       if (Math_abs (cur - deg) <? Math_abs (acc - deg))%js then cur else acc)
    cardinals (nth 0 cardinals NaN).

(** [((v % 360) + 360) % 360]. *)
Definition normalise (v : number) : number := (((v %% $360) + $360) %% $360)%js.

(** The value [handleChange] hands to the caller's [onChange]. *)
Definition handleChange (p : Props) (v : number) : number :=
  let deg := normalise v in
  if snap p then
    if (Math_abs (closest deg - deg) <? step p)%js then closest deg else deg
  else deg.

(** The dial the control renders. *)
Definition dial (p : Props) : Dial.Props :=
  {| Dial.value := value p; Dial.min := $0; Dial.max := $359;
     Dial.step := step p; Dial.size := $160;
     Dial.startAngle := (neg Dial.PI * dec 75 2)%js;
     Dial.endAngle := (Dial.PI * dec 75 2)%js;
     Dial.disabled := false |}.

(** The quick-select buttons N, E, S and W: what each hands to the
    caller's [onChange] when clicked. *)
Definition buttons : list number := map (fun i => ($i * $90)%js) [0; 1; 2; 3].

(** The [ticks] the control passes to its dial. *)
Definition ticks : Dial.Ticks :=
  {| Dial.every := $10%js; Dial.majorEvery := Some $90%js |}.

End HeadingControl.

(** ** SpeedControl.tsx *)

Module SpeedControl.
Import JS.
Import Quantity.

Record Props := {
  value : Quantity;
  min : option Quantity;
  max : option Quantity;
  step : option number
}.

Definition unit_eqb (a b : Unit.t) : bool :=
  match a, b with
  | Unit.m, Unit.m | Unit.ft, Unit.ft | Unit.ms, Unit.ms
  | Unit.kmh, Unit.kmh | Unit.mph, Unit.mph | Unit.kts, Unit.kts => true
  | _, _ => false
  end.

Section Component.
Variable p : Props.

Definition unit : Unit.t := Quantity.unit (value p).

Definition toCurrent (q : Quantity) : Result Quantity :=
  if unit_eqb (Quantity.unit q) unit then ret q else convert q unit.

Definition vmin : Result number :=
  match min p with
  | Some q => q' <- toCurrent q ;; ret (Quantity.value q')
  | None => ret $0%js
  end.

Definition vmax : Result number :=
  match max p with
  | Some q => q' <- toCurrent q ;; ret (Quantity.value q')
  | None =>
      ret match unit with
          | Unit.ms => $100
          | Unit.kmh => $200
          | Unit.mph => $125
          | _ => $100
          end%js
  end.

Definition stp : number :=
  match step p with
  | Some s => s
  | None =>
      match unit with
      | Unit.ms => dec 5 1
      | _ => $5%js
      end
  end.

Definition clamp (n a b : number) : number := Math_min b (Math_max a n).

(** The [onChange] the control passes to its NumberField. *)
Definition numberChange (a b : number) (n : number) : Quantity :=
  {| Quantity.value := clamp n a b; Quantity.unit := unit |}.

(** NumberField, an [<input type="number">]: the numbers handed to its
    [onChange] when the input comes to hold [text], and on a key. *)
Definition NumberField_onChange (text : string) : list number :=
  [Number (DOM.number_input_value text)].

Definition NumberField_onKeyDown (value step : number) (key : string)
  : list number :=
  ((if (key =? "ArrowUp")%string then [(value + step)%js] else [])
   ++ (if (key =? "ArrowDown")%string then [(value - step)%js] else []))%list.

(** What the control emits on direct numeric entry and on a key pressed in
    the number field. *)
Definition onNumericEntry (text : string) : Result (list Quantity) :=
  a <- vmin ;; b <- vmax ;;
  ret (map (numberChange a b) (NumberField_onChange text)).

Definition onNumberKey (key : string) : Result (list Quantity) :=
  a <- vmin ;; b <- vmax ;;
  ret (map (numberChange a b)
         (NumberField_onKeyDown (Math_round (Quantity.value (value p))) stp key)).

(** The dial the control renders, once [vmin] and [vmax] are known. *)
Definition dial (a b : number) : Dial.Props :=
  {| Dial.value := Quantity.value (value p); Dial.min := a; Dial.max := b;
     Dial.step := stp; Dial.size := $160;
     Dial.startAngle := (neg Dial.PI * dec 75 2)%js;
     Dial.endAngle := (Dial.PI * dec 75 2)%js;
     Dial.disabled := false |}.

(** A click on a unit of the unit toggle. *)
Definition onUnit (u : Unit.t) : Result Quantity := convert (value p) u.

(** A click on the button of the preset [q]. *)
Definition onPreset (q : Quantity) : Result Quantity :=
  q' <- toCurrent q ;;
  ret {| Quantity.value := Math_round (Quantity.value q'); Quantity.unit := unit |}.

(** The [ticks] the control passes to its dial. *)
Definition ticks : Dial.Ticks :=
  {| Dial.every := (stp * $10)%js; Dial.majorEvery := Some (stp * $50)%js |}.

End Component.
End SpeedControl.


(** ** AltitudeControl.tsx *)

Module AltitudeControl.
Import JS.
Import Quantity.

Record Props := {
  value : Quantity;
  min : option Quantity;
  max : option Quantity;
  step : option number
}.

Section Component.
Variable p : Props.

Definition u : Unit.t := Quantity.unit (value p).

Definition toCurrent (q : Quantity) : Result Quantity :=
  if SpeedControl.unit_eqb (Quantity.unit q) u then ret q else convert q u.

Definition vmin : Result number :=
  match min p with
  | Some q => q' <- toCurrent q ;; ret (Quantity.value q')
  | None => ret $0%js
  end.

Definition vmax : Result number :=
  match max p with
  | Some q => q' <- toCurrent q ;; ret (Quantity.value q')
  | None =>
      ret match u with
          | Unit.ft => $60000
          | _ => $18288
          end%js
  end.

Definition stp : number :=
  match step p with
  | Some s => s
  | None =>
      match u with
      | Unit.ft => $10%js
      | _ => $5%js
      end
  end.

Definition clamp (n a b : number) : number := Math_min b (Math_max a n).

(** NumberField, as in SpeedControl.tsx. *)
Definition NumberField_onChange (text : string) : list number :=
  [Number (DOM.number_input_value text)].

Definition NumberField_onKeyDown (value step : number) (key : string)
  : list number :=
  ((if (key =? "ArrowUp")%string then [(value + step)%js] else [])
   ++ (if (key =? "ArrowDown")%string then [(value - step)%js] else []))%list.

Definition numberChange (a b : number) (n : number) : Quantity :=
  {| Quantity.value := clamp n a b; Quantity.unit := u |}.

Definition onNumericEntry (text : string) : Result (list Quantity) :=
  a <- vmin ;; b <- vmax ;;
  ret (map (numberChange a b) (NumberField_onChange text)).

Definition onNumberKey (key : string) : Result (list Quantity) :=
  a <- vmin ;; b <- vmax ;;
  ret (map (numberChange a b)
         (NumberField_onKeyDown (Math_round (Quantity.value (value p))) stp key)).

(** A click on a unit of the unit toggle. *)
Definition onUnit (nu : Unit.t) : Result Quantity := convert (value p) nu.

(** A click on the button of the preset [q]. *)
Definition onPreset (q : Quantity) : Result Quantity :=
  q' <- toCurrent q ;;
  ret {| Quantity.value := Math_round (Quantity.value q'); Quantity.unit := u |}.

End Component.
End AltitudeControl.

(** ** DurationInput.tsx *)

Module DurationInput.
Import JS.

Record Props := { value : number }.

(** What happens to a segment: its input, an [<input type="number">],
    comes to hold [text], a key is pressed in it, the wheel turns over it,
    or one of its two buttons is clicked. *)
Inductive SegmentEvent :=
  | Change (text : string)
  | KeyDown (key : string)
  | Wheel (deltaY : number)
  | ClickIncrease
  | ClickDecrease.

(** Segment: the calls it makes, in order, given what its three callbacks
    emit. *)
Definition Segment (onChange : number -> list number)
  (onIncrement onDecrement : list number) (ev : SegmentEvent) : list number :=
  match ev with
  | Change text => onChange (Number (DOM.number_input_value text))
  | KeyDown key =>
      ((if (key =? "ArrowUp")%string then onIncrement else [])
       ++ (if (key =? "ArrowDown")%string then onDecrement else []))%list
  | Wheel deltaY => if (deltaY <? $0)%js then onIncrement else onDecrement
  | ClickIncrease => onIncrement
  | ClickDecrease => onDecrement
  end.

Inductive Part := Hours | Minutes | Seconds.

Section Component.
Variable p : Props.

Definition hours : number := Math_floor (value p / $3600)%js.
Definition minutes : number := Math_floor ((value p %% $3600) / $60)%js.
Definition seconds : number := (value p %% $60)%js.

(** [setParts]: the total handed to the caller's [onChange]. *)
Definition setParts (h m s : number) : list number :=
  [Math_max $0 (h * $3600 + m * $60 + s)%js].

(** The three segments the control renders. *)
Definition segment (part : Part) (ev : SegmentEvent) : list number :=
  match part with
  | Hours =>
      Segment (fun n => setParts n minutes seconds)
        (setParts (hours + $1)%js minutes seconds)
        (setParts (Math_max $0 (hours - $1)%js) minutes seconds) ev
  | Minutes =>
      Segment (fun n => setParts hours n seconds)
        (setParts hours ((minutes + $1) %% $60)%js seconds)
        (setParts hours (if ($0 <? minutes)%js then (minutes - $1)%js else $59%js) seconds) ev
  | Seconds =>
      Segment (fun n => setParts hours minutes n)
        (setParts hours minutes ((seconds + $1) %% $60)%js)
        (setParts hours minutes (if ($0 <? seconds)%js then (seconds - $1)%js else $59%js)) ev
  end.

End Component.
End DurationInput.

Import ListNotations.
Local Open Scope string_scope.
Local Open Scope Z_scope.
Import JS.

Local Open Scope Z_scope.
Import JS.

(** ** The notions of the specification *)

Module Spec.

(** The dimension groups: length is [{m, ft}], speed is
    [{ms, kmh, mph, kts}]. *)
Inductive Dimension := Length | Speed.

Definition dimension (u : Unit.t) : Dimension :=
  match u with
  | Unit.m | Unit.ft => Length
  | Unit.ms | Unit.kmh | Unit.mph | Unit.kts => Speed
  end.

Definition same_dimension (a b : Unit.t) : bool :=
  match dimension a, dimension b with
  | Length, Length | Speed, Speed => true
  | _, _ => false
  end.

(** The exact value of a finite number. *)
Definition to_Q (x : number) : option Q :=
  match x with
  | S754_zero _ => Some 0%Q
  | S754_finite s m e => Some (inject_Z (cond_Zopp s (Zpos m)) * 2 ^ e)%Q
  | S754_infinity _ | S754_nan => None
  end.

(** [a] equals [b] within the relative tolerance [tol]: both are finite
    and [|a - b| <= tol * |b|]. *)
Definition within_tolerance (tol : Q) (a b : number) : bool :=
  match to_Q a, to_Q b with
  | Some qa, Some qb => Qle_bool (Qabs (qa - qb)) (tol * Qabs qb)
  | _, _ => false
  end.

(** [convert(convert({value: v, unit: A}, B), A).value]. *)
Definition round_trip (v : number) (A B : Unit.t) : Result number :=
  q1 <- Quantity.convert {| Quantity.value := v; Quantity.unit := A |} B ;;
  q2 <- Quantity.convert q1 A ;;
  ret (Quantity.value q2).

(** [x] is an integer multiple of [s], in exact arithmetic. *)
Definition multiple_of (x s : Q) : Prop := exists k : Z, (x == inject_Z k * s)%Q.

(** The same on finite numbers, decided: [v / s] is an integer. *)
Definition is_multiple (v s : number) : bool :=
  match to_Q v, to_Q s with
  | Some a, Some b =>
      negb (Qeq_bool b 0) && (Zpos (Qden (Qred (a / b))) =? 1)
  | _, _ => false
  end.

(** The integer a finite number is, when it is one. *)
Definition int_value (x : number) : option Z :=
  match x with
  | S754_zero _ => Some 0
  | S754_finite s m e =>
      if 0 <=? e then Some (cond_Zopp s (Zpos m * 2 ^ e))
      else if Zpos m mod 2 ^ (- e) =? 0 then Some (cond_Zopp s (Zpos m / 2 ^ (- e)))
      else None
  | S754_infinity _ | S754_nan => None
  end.

(** The cardinal nearest to a whole heading [r] of [[0, 360)], the lower
    one of two that are as near: 45 is as far from 0 as from 90. *)
Definition nearest_cardinal (r : Z) : Z :=
  if r <=? 45 then 0 else if r <=? 135 then 90 else if r <=? 225 then 180 else 270.

(** The four arrow keys of the dial. *)
Definition arrow_keys : list string :=
  ["ArrowRight"; "ArrowUp"; "ArrowLeft"; "ArrowDown"]%string.

End Spec.

Local Open Scope Z_scope.
Import JS.

(** ** The order of numbers *)

(** A number that is not NaN sits at a place in a lexicographic order of
    integer triples, and [SFcompare] compares the places. *)
Definition rank (x : number) : option (Z * Z * Z) :=
  match x with
  | S754_nan => None
  | S754_infinity true => Some (-2, 0, 0)
  | S754_finite true m e => Some (-1, - e, Zneg m)
  | S754_zero _ => Some (0, 0, 0)
  | S754_finite false m e => Some (1, e, Zpos m)
  | S754_infinity false => Some (2, 0, 0)
  end.

Definition lex3 (a b : Z * Z * Z) : comparison :=
  let '(a1, a2, a3) := a in
  let '(b1, b2, b3) := b in
  match a1 ?= b1 with
  | Eq => match a2 ?= b2 with
          | Eq => a3 ?= b3
          | c => c
          end
  | c => c
  end.

Definition lexle (a b : Z * Z * Z) : Prop :=
  let '(a1, a2, a3) := a in
  let '(b1, b2, b3) := b in
  a1 < b1 \/ (a1 = b1 /\ (a2 < b2 \/ (a2 = b2 /\ a3 <= b3))).

Definition lexlt (a b : Z * Z * Z) : Prop :=
  let '(a1, a2, a3) := a in
  let '(b1, b2, b3) := b in
  a1 < b1 \/ (a1 = b1 /\ (a2 < b2 \/ (a2 = b2 /\ a3 < b3))).

(** ** Shapes of numbers and of printed numbers *)

Definition isZero (x : number) : bool :=
  match x with S754_zero _ => true | _ => false end.

Fixpoint all_digits (s : string) : bool :=
  match s with
  | EmptyString => true
  | String c s' => is_digit c && all_digits s'
  end.

(** The characters of a printed or typed number. *)
Definition numchar (c : ascii) : bool :=
  is_digit c || Ascii.eqb c "." || Ascii.eqb c "e" || Ascii.eqb c "E"
  || Ascii.eqb c "+" || Ascii.eqb c "-".

Fixpoint numstr (s : string) : bool :=
  match s with
  | EmptyString => true
  | String c s' => numchar c && numstr s'
  end.

(** The value of a run of digits read onto [acc]. *)
Fixpoint dval (s : string) (acc : Z) : Z :=
  match s with
  | EmptyString => acc
  | String c s' => dval s' (10 * acc + digit_val c)
  end.

(** A printed number: digits, then maybe a point and digits, then maybe an
    exponent. *)
Definition exponent_part (ex : option (bool * string)) : string :=
  match ex with
  | Some (b, d3) => "e" ++ (if b then "+" else "-") ++ d3
  | None => ""
  end.

Definition numeral (d1 : string) (frac : option string) (ex : option (bool * string))
  : string :=
  d1 ++ match frac with Some d2 => "." ++ d2 | None => "" end ++ exponent_part ex.

Definition numeral_ok (d1 : string) (frac : option string) (ex : option (bool * string))
  : bool :=
  all_digits d1 && negb (String.eqb d1 "")
  && match frac with Some d2 => all_digits d2 | None => true end
  && match ex with
     | Some (_, d3) => all_digits d3 && negb (String.eqb d3 "")
     | None => true
     end.


(** ** Helpers of the statements and proofs *)

(** The step of the [reduce] that finds the closest cardinal, for any
    distance [key]. *)
Definition pick (key : number -> number) (acc cur : number) : number :=
  if lt (key cur) (key acc) then cur else acc.

(** [Math.atan2] on the positive x axis, where it is exactly 0. *)
Definition atan2_on_axis (y x : number) : number := $0%js.

(** The binary64 number of a positive integer below [2^53]. *)
Definition canon (s : bool) (K : Z) : number :=
  S754_finite s (Z.to_pos (K * 2 ^ (53 - Zdigits2 K))) (Zdigits2 K - 53).

(** Two numbers are the same datum. *)
Definition number_eqb (x y : number) : bool :=
  match x, y with
  | S754_zero a, S754_zero b => Bool.eqb a b
  | S754_infinity a, S754_infinity b => Bool.eqb a b
  | S754_nan, S754_nan => true
  | S754_finite a m e, S754_finite b m' e' => Bool.eqb a b && Pos.eqb m m' && Z.eqb e e'
  | _, _ => false
  end.

(** The integers [lo, lo + 1, ..., lo + n - 1]. *)
Definition Zrange (lo : Z) (n : nat) : list Z := map (fun i => lo + Z.of_nat i) (seq 0 n).

(** A mantissa [m] with its round bit [r] and its sticky bit [s] stands
    for the real [y]: [y] lies in [[m, m + 1)], at [m], below, at or
    above the middle as the bits say. *)
Definition loc_inv (mrs : shr_record) (y : Q) : Prop :=
  0 <= shr_m mrs /\
  match shr_r mrs, shr_s mrs with
  | false, false => (y == inject_Z (shr_m mrs))%Q
  | false, true => (inject_Z (shr_m mrs) < y /\ y < inject_Z (shr_m mrs) + (1 # 2))%Q
  | true, false => (y == inject_Z (shr_m mrs) + (1 # 2))%Q
  | true, true => (inject_Z (shr_m mrs) + (1 # 2) < y /\ y < inject_Z (shr_m mrs) + 1)%Q
  end.

(** The magnitude of a finite number. *)
Definition mag (x : number) : Q :=
  match x with
  | S754_finite _ m e => (inject_Z (Zpos m) * 2 ^ e)%Q
  | _ => 0%Q
  end.

(** A normal number: 53 significant bits. *)
Definition normal (x : number) : Prop :=
  match x with
  | S754_finite _ m e => 2 ^ 52 <= Zpos m < 2 ^ 53
  | _ => False
  end.

Definition exponent (x : number) : Z :=
  match x with
  | S754_finite _ _ e => e
  | _ => 0
  end.

Definition sign (x : number) : bool :=
  match x with
  | S754_finite s _ _ | S754_zero s | S754_infinity s => s
  | S754_nan => false
  end.

(** The unit roundoff [2^-53]. *)
Definition u53 : Q := 1 # (2 ^ 53).

(** A number as the engine represents it: the mantissa of a finite number
    is canonical and its exponent is in range. *)
Definition well_formed (x : number) : bool := valid_binary prec emax x.

(** The integer [Math.round] picks for the number [c * 2^e], [e < 0]:
    the floor of [c * 2^e + 1/2]. *)
Definition round_half_up (c e : Z) : Z := (2 * c + 2 ^ (- e)) / 2 ^ (1 - e).

(** The events of a segment that ask for one more: a click on the upper
    button, the key ArrowUp, the wheel turned up.  And those that ask for
    one less: the lower button, ArrowDown, the wheel turned any other way. *)
Definition is_increase (ev : DurationInput.SegmentEvent) : bool :=
  match ev with
  | DurationInput.ClickIncrease => true
  | DurationInput.KeyDown key => (key =? "ArrowUp")%string
  | DurationInput.Wheel deltaY => lt deltaY (of_Z 0)
  | _ => false
  end.

Definition is_decrease (ev : DurationInput.SegmentEvent) : bool :=
  match ev with
  | DurationInput.ClickDecrease => true
  | DurationInput.KeyDown key => (key =? "ArrowDown")%string
  | DurationInput.Wheel deltaY => negb (lt deltaY (of_Z 0))
  | _ => false
  end.

(** ** The dial over a sequence of events *)

(** What the dial hands to [onChange] at each event of a sequence, the
    [dragging] ref being carried from one event to the next. *)
Fixpoint emissions (atan2 : number -> number -> number) (p : Dial.Props)
  (st : Dial.State) (ref : option Dial.DOMRect) (evs : list Dial.Event)
  : list (Result Dial.Emitted) :=
  match evs with
  | [] => []
  | ev :: evs' =>
      snd (Dial.handle atan2 p st ref ev)
      :: emissions atan2 p (fst (Dial.handle atan2 p st ref ev)) ref evs'
  end.

Local Open Scope Z_scope.
Import JS.

(** ** The order of numbers *)

Lemma compare_rank (a b : number) :
  SFcompare a b =
  match rank a, rank b with
  | Some ra, Some rb => Some (lex3 ra rb)
  | _, _ => None
  end.
Proof.
  destruct a as [sa|sa| |sa ma ea], b as [sb|sb| |sb mb eb];
    try destruct sa; try destruct sb; simpl; try reflexivity.
  all: rewrite ?Z.compare_opp, ?(Z.compare_antisym eb ea).
  all: destruct (eb ?= ea); simpl; try reflexivity.
  all: destruct (ea ?= eb); simpl; reflexivity.
Qed.

Lemma lex3_refl a : lex3 a a = Eq.
Proof. destruct a as [[a1 a2] a3]. simpl. now rewrite !Z.compare_refl. Qed.

Lemma lex3_antisym a b : lex3 b a = CompOpp (lex3 a b).
Proof.
  destruct a as [[a1 a2] a3], b as [[b1 b2] b3]. simpl.
  rewrite (Z.compare_antisym a1 b1), (Z.compare_antisym a2 b2), (Z.compare_antisym a3 b3).
  destruct (a1 ?= b1), (a2 ?= b2), (a3 ?= b3); reflexivity.
Qed.

Lemma lex3_spec a b :
  match lex3 a b with
  | Lt => lexlt a b
  | Eq => a = b
  | Gt => lexlt b a
  end.
Proof.
  destruct a as [[a1 a2] a3], b as [[b1 b2] b3]. simpl.
  destruct (Z.compare_spec a1 b1); [|lia|lia].
  destruct (Z.compare_spec a2 b2); [|lia|lia].
  destruct (Z.compare_spec a3 b3); [|lia|lia].
  congruence.
Qed.

Lemma lexlt_trans a b c : lexlt a b -> lexlt b c -> lexlt a c.
Proof.
  destruct a as [[a1 a2] a3], b as [[b1 b2] b3], c as [[c1 c2] c3]. simpl. lia.
Qed.

Lemma lexlt_irrefl a : ~ lexlt a a.
Proof. destruct a as [[a1 a2] a3]. simpl. lia. Qed.

(** [lt] and [le] read through the ranks. *)
Lemma lt_rank a b :
  lt a b = true <-> exists ra rb, rank a = Some ra /\ rank b = Some rb /\ lexlt ra rb.
Proof.
  unfold lt, SFltb. rewrite compare_rank.
  destruct (rank a) as [ra|], (rank b) as [rb|]; split;
    try discriminate; try (intros (x & y & H1 & H2 & _); discriminate).
  - intros H. exists ra, rb. repeat split.
    pose proof (lex3_spec ra rb). destruct (lex3 ra rb); try discriminate. assumption.
  - intros (x & y & H1 & H2 & H). injection H1 as <-. injection H2 as <-.
    pose proof (lex3_spec ra rb). destruct (lex3 ra rb); try reflexivity.
    + subst. now apply lexlt_irrefl in H.
    + exfalso. apply (lexlt_irrefl ra). eapply lexlt_trans; eassumption.
Qed.

Lemma le_rank a b :
  le a b = true <->
  exists ra rb, rank a = Some ra /\ rank b = Some rb /\ (lexlt ra rb \/ ra = rb).
Proof.
  unfold le, SFleb. rewrite compare_rank.
  destruct (rank a) as [ra|], (rank b) as [rb|]; split;
    try discriminate; try (intros (x & y & H1 & H2 & _); discriminate).
  - intros H. exists ra, rb. repeat split.
    pose proof (lex3_spec ra rb). destruct (lex3 ra rb); try discriminate; auto.
  - intros (x & y & H1 & H2 & H). injection H1 as <-. injection H2 as <-.
    pose proof (lex3_spec ra rb). destruct (lex3 ra rb); try reflexivity.
    destruct H as [H|H].
    + exfalso. apply (lexlt_irrefl ra). eapply lexlt_trans; eassumption.
    + subst. now apply lexlt_irrefl in H0.
Qed.

Lemma rank_isNaN x : isNaN x = false <-> exists r, rank x = Some r.
Proof.
  destruct x as [s|s| |s m e]; try destruct s; simpl; split;
    try discriminate; eauto; intros [r H]; discriminate.
Qed.

Lemma le_refl x : isNaN x = false -> le x x = true.
Proof.
  intros H. apply rank_isNaN in H as [r H]. apply le_rank. exists r, r. auto.
Qed.

Lemma le_trans a b c : le a b = true -> le b c = true -> le a c = true.
Proof.
  rewrite !le_rank. intros (ra & rb & Ha & Hb & H1) (rb' & rc & Hb' & Hc & H2).
  rewrite Hb in Hb'. injection Hb' as <-. exists ra, rc. repeat split; trivial.
  destruct H1 as [H1|<-], H2 as [H2|<-]; auto. left. eapply lexlt_trans; eassumption.
Qed.

Lemma lt_le_trans a b c : lt a b = true -> le b c = true -> lt a c = true.
Proof.
  rewrite !lt_rank, le_rank. intros (ra & rb & Ha & Hb & H1) (rb' & rc & Hb' & Hc & H2).
  rewrite Hb in Hb'. injection Hb' as <-. exists ra, rc. repeat split; trivial.
  destruct H2 as [H2|<-]; auto. eapply lexlt_trans; eassumption.
Qed.

Lemma le_lt_trans a b c : le a b = true -> lt b c = true -> lt a c = true.
Proof.
  rewrite !lt_rank, le_rank. intros (ra & rb & Ha & Hb & H1) (rb' & rc & Hb' & Hc & H2).
  rewrite Hb in Hb'. injection Hb' as <-. exists ra, rc. repeat split; trivial.
  destruct H1 as [H1|<-]; auto. eapply lexlt_trans; eassumption.
Qed.

Lemma lt_le a b : lt a b = true -> le a b = true.
Proof.
  rewrite lt_rank, le_rank. intros (ra & rb & Ha & Hb & H). exists ra, rb. auto.
Qed.

(** Two numbers that are not NaN compare one way or the other. *)
Lemma not_lt_le a b :
  isNaN a = false -> isNaN b = false -> lt a b = false -> le b a = true.
Proof.
  intros Ha Hb H. apply rank_isNaN in Ha as [ra Ha]. apply rank_isNaN in Hb as [rb Hb].
  apply le_rank. exists rb, ra. repeat split; trivial.
  pose proof (lex3_spec ra rb) as Hs.
  destruct (lex3 ra rb) eqn:E; auto.
  exfalso. assert (lt a b = true); [|congruence].
  apply lt_rank. exists ra, rb. auto.
Qed.

Lemma lt_isNaN a b : lt a b = true -> isNaN a = false /\ isNaN b = false.
Proof.
  rewrite lt_rank. intros (ra & rb & Ha & Hb & _). split; apply rank_isNaN; eauto.
Qed.

Lemma le_isNaN a b : le a b = true -> isNaN a = false /\ isNaN b = false.
Proof.
  rewrite le_rank. intros (ra & rb & Ha & Hb & _). split; apply rank_isNaN; eauto.
Qed.

Lemma lt_not_le a b : lt a b = true -> le b a = false.
Proof.
  intros H. destruct (le b a) eqn:E; trivial.
  pose proof (lt_le_trans _ _ _ H E) as H1. apply lt_rank in H1 as (r1 & r2 & A & B & C).
  rewrite A in B. injection B as <-. now apply lexlt_irrefl in C.
Qed.

(** *** [Math.max], [Math.min] and clamping *)

Lemma Math_max_cases a b :
  isNaN a = false -> isNaN b = false ->
  (Math_max a b = a \/ Math_max a b = b) /\
  le a (Math_max a b) = true /\ le b (Math_max a b) = true.
Proof.
  intros Ha Hb. unfold Math_max.
  pose proof (le_refl _ Ha) as Ra. pose proof (le_refl _ Hb) as Rb.
  destruct (SFcompare a b) as [[ | | ]|] eqn:E.
  - assert (le a b = true) by (unfold le, SFleb; now rewrite E).
    assert (le b a = true).
    { unfold le, SFleb. rewrite compare_rank in *.
      destruct (rank a) as [ra|], (rank b) as [rb|]; try discriminate.
      rewrite lex3_antisym. injection E as ->. reflexivity. }
    destruct a as [[]|[]| |[]], b as [[]|[]| |[]]; auto.
  - assert (le a b = true) by (unfold le, SFleb; now rewrite E). auto.
  - assert (le b a = true).
    { unfold le, SFleb. rewrite compare_rank in *.
      destruct (rank a) as [ra|], (rank b) as [rb|]; try discriminate.
      rewrite lex3_antisym. injection E as ->. reflexivity. }
    auto.
  - rewrite compare_rank in E. apply rank_isNaN in Ha as [ra Ha], Hb as [rb Hb].
    rewrite Ha, Hb in E. discriminate.
Qed.

Lemma Math_min_cases a b :
  isNaN a = false -> isNaN b = false ->
  (Math_min a b = a \/ Math_min a b = b) /\
  le (Math_min a b) a = true /\ le (Math_min a b) b = true.
Proof.
  intros Ha Hb. unfold Math_min.
  pose proof (le_refl _ Ha) as Ra. pose proof (le_refl _ Hb) as Rb.
  destruct (SFcompare a b) as [[ | | ]|] eqn:E.
  - assert (le a b = true) by (unfold le, SFleb; now rewrite E).
    assert (le b a = true).
    { unfold le, SFleb. rewrite compare_rank in *.
      destruct (rank a) as [ra|], (rank b) as [rb|]; try discriminate.
      rewrite lex3_antisym. injection E as ->. reflexivity. }
    destruct a as [[]|[]| |[]], b as [[]|[]| |[]]; auto.
  - assert (le a b = true) by (unfold le, SFleb; now rewrite E). auto.
  - assert (le b a = true).
    { unfold le, SFleb. rewrite compare_rank in *.
      destruct (rank a) as [ra|], (rank b) as [rb|]; try discriminate.
      rewrite lex3_antisym. injection E as ->. reflexivity. }
    auto.
  - rewrite compare_rank in E. apply rank_isNaN in Ha as [ra Ha], Hb as [rb Hb].
    rewrite Ha, Hb in E. discriminate.
Qed.

Lemma Math_max_isNaN a b :
  isNaN a = false -> isNaN b = false -> isNaN (Math_max a b) = false.
Proof.
  intros Ha Hb. destruct (Math_max_cases a b Ha Hb) as [[->| ->] _]; trivial.
Qed.

Lemma Math_min_isNaN a b :
  isNaN a = false -> isNaN b = false -> isNaN (Math_min a b) = false.
Proof.
  intros Ha Hb. destruct (Math_min_cases a b Ha Hb) as [[->| ->] _]; trivial.
Qed.

(** [Math.min(hi, Math.max(lo, x))] lies between [lo] and [hi] as soon as
    [lo <= hi] and [x] is a number. *)
Lemma clamp_between lo hi x :
  le lo hi = true -> isNaN x = false ->
  le lo (Math_min hi (Math_max lo x)) = true /\
  le (Math_min hi (Math_max lo x)) hi = true /\
  (Math_min hi (Math_max lo x) = hi \/ Math_min hi (Math_max lo x) = lo
   \/ Math_min hi (Math_max lo x) = x).
Proof.
  intros Hle Hx.
  destruct (le_isNaN _ _ Hle) as [Hlo Hhi].
  destruct (Math_max_cases lo x Hlo Hx) as (Hm & Hm1 & Hm2).
  pose proof (Math_max_isNaN lo x Hlo Hx) as Hmn.
  destruct (Math_min_cases hi (Math_max lo x) Hhi Hmn) as (Hc & Hc1 & Hc2).
  split; [|split]; trivial.
  - destruct Hc as [Hc | Hc]; rewrite Hc; trivial.
  - destruct Hc as [Hc | Hc]; rewrite Hc; [now left|].
    destruct Hm as [Hm | Hm]; rewrite Hm; auto.
Qed.

Lemma isFinite_between lo hi x :
  isFinite lo = true -> isFinite hi = true ->
  le lo x = true -> le x hi = true -> isFinite x = true.
Proof.
  intros Hlo Hhi H1 H2.
  destruct x as [?|[]| |? ? ?]; trivial.
  all: destruct lo as [?|[]| |[] ? ?]; try discriminate.
  all: destruct hi as [?|[]| |[] ? ?]; discriminate.
Qed.

(** A number inside [[lo, hi]] is left alone by the clamp, up to the sign
    of a zero. *)
Lemma clamp_inside lo hi x :
  le lo x = true -> le x hi = true ->
  strict_eq (Math_min hi (Math_max lo x)) x = true.
Proof.
  intros H1 H2.
  destruct (le_isNaN _ _ H1) as [Hlo Hx]. destruct (le_isNaN _ _ H2) as [_ Hhi].
  assert (Hmx : strict_eq (Math_max lo x) x = true /\ isNaN (Math_max lo x) = false
                /\ le (Math_max lo x) hi = true).
  { unfold Math_max. unfold le, SFleb in H1.
    destruct (SFcompare lo x) as [[ | | ]|] eqn:E; try discriminate.
    - assert (G : strict_eq lo x = true) by (unfold strict_eq, SFeqb; now rewrite E).
      assert (L : le lo hi = true) by (eapply le_trans; [|exact H2]; unfold le, SFleb; now rewrite E).
      assert (Sx : strict_eq x x = true).
      { unfold strict_eq, SFeqb. rewrite compare_rank.
        apply rank_isNaN in Hx as [r ->]. now rewrite lex3_refl. }
      destruct lo as [[]|[]| |[]], x as [[]|[]| |[]]; auto.
    - split; [|auto].
      unfold strict_eq, SFeqb. rewrite compare_rank.
      apply rank_isNaN in Hx as [r ->]. now rewrite lex3_refl. }
  destruct Hmx as (A & B & C).
  set (y := Math_max lo x) in *.
  unfold Math_min. unfold le, SFleb in C.
  rewrite compare_rank in C. rewrite compare_rank.
  apply rank_isNaN in B as [ry Hy]. apply rank_isNaN in Hhi as [rh Hh].
  rewrite Hy, Hh in *. rewrite lex3_antisym.
  destruct (lex3 ry rh) eqn:E; try discriminate; simpl; trivial.
  assert (S : strict_eq hi x = true).
  { pose proof (lex3_spec ry rh) as Hs. rewrite E in Hs. subst rh.
    unfold strict_eq, SFeqb in *. rewrite compare_rank in *.
    rewrite Hh. rewrite Hy in A. exact A. }
  destruct hi as [[]|[]| |[]], y as [[]|[]| |[]]; auto.
Qed.

Lemma lt_compare a b :
  lt a b = true -> SFcompare a b = Some Lt /\ SFcompare b a = Some Gt.
Proof.
  unfold lt, SFltb. rewrite !compare_rank.
  destruct (rank a) as [ra|], (rank b) as [rb|]; try discriminate.
  rewrite (lex3_antisym ra rb). destruct (lex3 ra rb); try discriminate. now split.
Qed.

Local Open Scope Z_scope.
Import JS.

(** ** Rounding never yields NaN *)

Lemma iter_pos_invariant {A} (P : A -> Prop) (f : A -> A) :
  (forall x, P x -> P (f x)) -> forall n x, P x -> P (iter_pos f n x).
Proof.
  intros Hf. induction n as [n IH|n IH|]; intros x Hx; simpl; auto.
Qed.

Lemma shr_1_nonneg mrs : 0 <= shr_m mrs -> 0 <= shr_m (shr_1 mrs).
Proof.
  destruct mrs as [m r s]. simpl.
  destruct m as [|[p|p|]|[p|p|]]; simpl; lia.
Qed.

Lemma shr_nonneg mrs e n : 0 <= shr_m mrs -> 0 <= shr_m (fst (shr mrs e n)).
Proof.
  intros H. unfold shr. destruct n; simpl; trivial.
  apply iter_pos_invariant; trivial. apply shr_1_nonneg.
Qed.

Lemma shr_record_of_loc_m m l : shr_m (shr_record_of_loc m l) = m.
Proof. destruct l as [|[ | | ]]; reflexivity. Qed.

Lemma shr_fexp_nonneg m e l :
  0 <= m -> 0 <= shr_m (fst (shr_fexp prec emax m e l)).
Proof.
  intros H. unfold shr_fexp. apply shr_nonneg. now rewrite shr_record_of_loc_m.
Qed.

Lemma round_nearest_even_nonneg m l : 0 <= m -> 0 <= round_nearest_even m l.
Proof.
  intros H. unfold round_nearest_even.
  destruct l as [|[ | | ]]; try lia. destruct (Z.even m); lia.
Qed.

Lemma binary_round_aux_isNaN s mx ex lx :
  0 <= mx -> isNaN (binary_round_aux prec emax s mx ex lx) = false.
Proof.
  intros H. unfold binary_round_aux.
  pose proof (shr_fexp_nonneg mx ex lx H) as H1.
  destruct (shr_fexp prec emax mx ex lx) as [mrs' e'] eqn:E1. simpl in H1.
  pose proof (shr_fexp_nonneg
                (round_nearest_even (shr_m mrs') (loc_of_shr_record mrs')) e' loc_Exact
                (round_nearest_even_nonneg _ _ H1)) as H2.
  destruct (shr_fexp prec emax _ e' loc_Exact) as [mrs'' e''] eqn:E2. simpl in H2.
  destruct (shr_m mrs''); try lia; trivial.
  destruct (e'' <=? emax - prec); reflexivity.
Qed.

Lemma binary_round_isNaN s mx ex : isNaN (binary_round prec emax s mx ex) = false.
Proof.
  unfold binary_round. destruct (shl_align mx ex _) as [mz ez].
  apply binary_round_aux_isNaN. lia.
Qed.

Lemma binary_normalize_isNaN m e s : isNaN (binary_normalize prec emax m e s) = false.
Proof.
  unfold binary_normalize. destruct m; trivial; apply binary_round_isNaN.
Qed.

Lemma of_ratio_isNaN s p q : isNaN (of_ratio s p q) = false.
Proof.
  unfold of_ratio. destruct p as [|p|p]; trivial.
  unfold SFdiv_core_binary.
  set (m' := match _ with Z0 => Zpos p | Zpos _ => _ | Zneg _ => _ end).
  assert (Hm : 0 <= m').
  { subst m'. destruct (_ - _ - _); try lia. apply Z.shiftl_nonneg. lia. }
  pose proof (Z_div_mod m' (Zpos q) eq_refl) as Hd.
  destruct (Z.div_eucl m' (Zpos q)) as [qq r].
  apply binary_round_aux_isNaN. nia.
Qed.

Lemma of_decimal_isNaN s m q : isNaN (of_decimal s m q) = false.
Proof. unfold of_decimal. destruct (0 <=? q); apply of_ratio_isNaN. Qed.

(** *** The arithmetic operations *)

Lemma add_isNaN x y :
  isNaN x = false -> isFinite y = true -> isNaN (x + y)%js = false.
Proof.
  destruct x as [sx|sx| |sx mx ex], y as [sy|sy| |sy my ey]; try discriminate; intros _ _;
    trivial; unfold add, SFadd.
  - destruct sx, sy; reflexivity.
  - apply binary_normalize_isNaN.
Qed.

Lemma sub_isNaN x y :
  isNaN x = false -> isFinite y = true -> isNaN (x - y)%js = false.
Proof.
  destruct x as [sx|sx| |sx mx ex], y as [sy|sy| |sy my ey]; try discriminate; intros _ _;
    trivial; unfold sub, SFsub.
  - destruct sx, sy; reflexivity.
  - apply binary_normalize_isNaN.
Qed.

Lemma sub_finite_isNaN x y :
  isFinite x = true -> isNaN y = false -> isNaN (x - y)%js = false.
Proof.
  destruct x as [sx|sx| |sx mx ex], y as [sy|sy| |sy my ey]; try discriminate; intros _ _;
    trivial; unfold sub, SFsub.
  - destruct sx, sy; reflexivity.
  - apply binary_normalize_isNaN.
Qed.

Lemma mul_isNaN x y :
  isNaN x = false -> isFinite y = true -> isZero y = false -> isNaN (x * y)%js = false.
Proof.
  destruct x as [sx|sx| |sx mx ex], y as [sy|sy| |sy my ey]; try discriminate; intros _ _ _;
    trivial. apply binary_round_aux_isNaN. lia.
Qed.

Lemma mul_finite_isNaN x y :
  isFinite x = true -> isFinite y = true -> isNaN (x * y)%js = false.
Proof.
  destruct x as [sx|sx| |sx mx ex], y as [sy|sy| |sy my ey]; try discriminate; intros _ _;
    trivial. apply binary_round_aux_isNaN. lia.
Qed.

Lemma div_isNaN x y :
  isNaN x = false -> isFinite y = true -> isZero y = false -> isNaN (x / y)%js = false.
Proof.
  destruct x as [sx|sx| |sx mx ex], y as [sy|sy| |sy my ey]; try discriminate; intros _ _ _;
    trivial.
  unfold div, SFdiv. unfold SFdiv_core_binary.
  set (m' := match _ with Z0 => Zpos mx | Zpos _ => _ | Zneg _ => _ end).
  assert (Hm : 0 <= m').
  { subst m'. destruct (_ - _ - _); try lia. apply Z.shiftl_nonneg. lia. }
  pose proof (Z_div_mod m' (Zpos my) eq_refl) as Hd.
  destruct (Z.div_eucl m' (Zpos my)) as [qq r].
  apply binary_round_aux_isNaN. nia.
Qed.

Lemma Math_round_isNaN x : isNaN x = false -> isNaN (Math_round x) = false.
Proof.
  destruct x as [sx|sx| |sx mx ex]; trivial. intros _. unfold Math_round.
  destruct (0 <=? ex); trivial.
  destruct (_ / _); trivial; apply binary_round_isNaN.
Qed.

Lemma add_finite_isNaN x y :
  isFinite x = true -> isNaN y = false -> isNaN (x + y)%js = false.
Proof.
  destruct x as [sx|sx| |sx mx ex], y as [sy|sy| |sy my ey]; try discriminate; intros _ _;
    trivial; unfold add, SFadd.
  - destruct sx, sy; reflexivity.
  - apply binary_normalize_isNaN.
Qed.

Lemma sub_isFinite_inv x y :
  isFinite (x - y)%js = true -> isFinite x = true /\ isFinite y = true.
Proof.
  destruct x as [sx|sx| |sx mx ex], y as [sy|sy| |sy my ey]; auto;
    try destruct sx; try destruct sy; discriminate.
Qed.

Lemma isFinite_isNaN x : isFinite x = true -> isNaN x = false.
Proof. destruct x; trivial; discriminate. Qed.

Lemma Math_abs_isNaN x : isNaN (Math_abs x) = isNaN x.
Proof. destruct x; reflexivity. Qed.

Lemma sub_finite_isNaN_iff c x : isFinite c = true -> isNaN (c - x)%js = isNaN x.
Proof.
  intros Hc. destruct (isNaN x) eqn:E.
  - destruct x; try discriminate. destruct c; reflexivity.
  - now apply sub_finite_isNaN.
Qed.

Lemma lt_isZero x : lt $0 x = true -> isZero x = false.
Proof. destruct x as [s|s| |s m e]; trivial. intros H. discriminate H. Qed.

Local Open Scope Z_scope.
Import JS.

(** ** Strings of digits *)

Lemma length_append (a b : string) :
  String.length (a ++ b) = (String.length a + String.length b)%nat.
Proof. induction a as [|c a IH]; simpl; auto. Qed.

Lemma append_assoc (a b c : string) : (a ++ b) ++ c = a ++ (b ++ c).
Proof. induction a as [|x a IH]; simpl; congruence. Qed.

Lemma append_nil_r (a : string) : a ++ "" = a.
Proof. induction a as [|x a IH]; simpl; congruence. Qed.

Lemma length_digits k n : String.length (digits k n) = k.
Proof.
  revert n. induction k as [|k IH]; intros n; simpl; trivial.
  rewrite length_append, IH. simpl. lia.
Qed.

Lemma length_zeros k : String.length (zeros k) = k.
Proof. induction k; simpl; auto. Qed.

Lemma ndigits_aux_bounds fuel n : (1 <= ndigits_aux fuel n <= S fuel)%nat.
Proof.
  revert n. induction fuel as [|f IH]; intros n; simpl; [lia|].
  destruct (n <? 10); [lia|]. specialize (IH (n / 10)). lia.
Qed.

Lemma ndigits_pos n : (1 <= ndigits n)%nat.
Proof. apply ndigits_aux_bounds. Qed.

Lemma ndigits_aux_spec fuel n :
  0 <= n -> Z.log2 n <= Z.of_nat fuel -> n < 10 ^ Z.of_nat (ndigits_aux fuel n).
Proof.
  revert n. induction fuel as [|f IH]; intros n Hn Hl.
  - simpl. destruct (Z.eq_dec n 0) as [->|N0]; [reflexivity|].
    assert (n < 2 ^ 1); [|simpl in *; lia].
    apply Z.log2_lt_pow2; lia.
  - cbn [ndigits_aux]. destruct (Z.ltb_spec n 10) as [L|G]; [simpl; lia|].
    rewrite Nat2Z.inj_succ, Z.pow_succ_r by lia.
    assert (H := IH (n / 10)).
    assert (0 <= n / 10) by (apply Z.div_pos; lia).
    assert (Z.log2 (n / 10) <= Z.of_nat f).
    { assert (Z.log2 (n / 10) <= Z.log2 (n / 2)).
      { apply Z.log2_le_mono. apply Z.div_le_compat_l; lia. }
      rewrite <- Z.div2_div, Z.div2_spec, Z.log2_shiftr in H1 by lia.
      lia. }
    specialize (H H0 H1).
    pose proof (Z.div_mod n 10). pose proof (Z.mod_pos_bound n 10). lia.
Qed.

Lemma ndigits_spec n : 0 <= n -> n < 10 ^ Z.of_nat (ndigits n).
Proof.
  intros Hn. apply ndigits_aux_spec; trivial.
  rewrite Z2Nat.id; [lia|]. apply Z.log2_nonneg.
Qed.

Lemma ndigits_small n : 0 <= n < 1024 -> (ndigits n <= 10)%nat.
Proof.
  intros Hn. unfold ndigits.
  pose proof (ndigits_aux_bounds (Z.to_nat (Z.log2 n)) n).
  assert (Z.log2 n < 10).
  { destruct (Z.eq_dec n 0) as [->|]; [reflexivity|]. apply Z.log2_lt_pow2; lia. }
  pose proof (Z.log2_nonneg n). lia.
Qed.

Lemma length_string_of_Z n : String.length (string_of_Z n) = ndigits n.
Proof. apply length_digits. Qed.

(** *** How long [toString] can get *)

Lemma scan_exponent_bounds fuel p q n :
  n <= scan_exponent fuel p q n <= n + Z.of_nat fuel.
Proof.
  revert n. induction fuel as [|f IH]; intros n; cbn [scan_exponent]; [lia|].
  destruct (below_pow10 p q n); [lia|]. specialize (IH (n + 1)). lia.
Qed.

Lemma decimal_exponent_bounds p q : -330 <= decimal_exponent p q <= 336.
Proof.
  unfold decimal_exponent.
  match goal with |- context [scan_exponent 6 p q ?n] =>
    pose proof (scan_exponent_bounds 6 p q n) end.
  lia.
Qed.

Lemma shortest_at_bounds x p q n k s n' :
  shortest_at x p q n k = Some (s, n') -> n <= n' <= n + 1.
Proof.
  unfold shortest_at. intros H.
  repeat match type of H with
         | match ?c with _ => _ end = _ => destruct c
         end; try discriminate; injection H as _ <-; lia.
Qed.

Lemma shortest_from_bounds fuel x p q n k :
  let '(k', s, n') := shortest_from fuel x p q n k in
  (k <= k' <= k + fuel)%nat /\ n <= n' <= n + 1.
Proof.
  revert k. induction fuel as [|f IH]; intros k; cbn [shortest_from].
  - lia.
  - destruct (shortest_at x p q n k) as [[s n']|] eqn:E.
    + apply shortest_at_bounds in E. lia.
    + specialize (IH (S k)). destruct (shortest_from f x p q n (S k)) as [[k' s] n']. lia.
Qed.

Lemma shortest_bounds m e :
  let '(k, s, n) := shortest m e in (1 <= k <= 18)%nat /\ -330 <= n <= 337.
Proof.
  unfold shortest.
  set (p := if 0 <=? e then _ else _). set (q := if 0 <=? e then _ else _).
  pose proof (shortest_from_bounds 17 (S754_finite false m e) p q (decimal_exponent p q) 1) as H.
  pose proof (decimal_exponent_bounds p q).
  destruct (shortest_from _ _ _ _ _ _) as [[k s] n]. lia.
Qed.

Lemma length_toString_pos m e : (String.length (toString_pos m e) <= 40)%nat.
Proof.
  unfold toString_pos. pose proof (shortest_bounds m e) as H.
  destruct (shortest m e) as [[k s] n]. destruct H as [Hk Hn].
  destruct ((Z.of_nat k <=? n) && (n <=? 21)) eqn:E1.
  { apply andb_prop in E1 as [A B]. rewrite length_append, length_digits, length_zeros. lia. }
  destruct ((0 <? n) && (n <=? 21)) eqn:E2.
  { apply andb_prop in E2 as [A B].
    rewrite !length_append, !length_digits. simpl. lia. }
  destruct ((-6 <? n) && (n <=? 0)) eqn:E3.
  { apply andb_prop in E3 as [A B].
    cbn [append]. cbn [String.length]. rewrite !length_append, length_digits, length_zeros. lia. }
  assert (Hx : (ndigits (Z.abs (n - 1)) <= 10)%nat) by (apply ndigits_small; lia).
  assert (Hs : forall b : bool, (String.length ((if b then "+" else "-") ++ string_of_Z (Z.abs (n - 1))) <= 11)%nat).
  { intros b. rewrite length_append, length_string_of_Z. destruct b; simpl; lia. }
  specialize (Hs (0 <=? n - 1)).
  set (es := (if 0 <=? n - 1 then "+" else "-") ++ string_of_Z (Z.abs (n - 1))) in *.
  destruct k as [|[|k]].
  - lia.
  - rewrite !length_append, length_digits. simpl. lia.
  - rewrite !length_append, !length_digits. simpl. lia.
Qed.

Lemma length_toString x : (String.length (toString x) <= 41)%nat.
Proof.
  destruct x as [s|[]| |s m e]; simpl; try lia.
  rewrite length_append. pose proof (length_toString_pos m e). destruct s; simpl; lia.
Qed.

Lemma length_split_dot s i :
  (String.length (nth i (split_dot s) "") <= String.length s)%nat.
Proof.
  revert i. induction s as [|c s IH]; intros i.
  - destruct i as [|[|i]]; simpl; lia.
  - cbn [split_dot]. destruct (Ascii.eqb c ".").
    + destruct i as [|i]; simpl; [lia|]. specialize (IH i). lia.
    + destruct (split_dot s) as [|h t] eqn:E.
      * destruct i as [|[|i]]; simpl; lia.
      * destruct i as [|i].
        -- specialize (IH 0%nat). simpl in *. lia.
        -- specialize (IH (S i)). simpl in *. lia.
Qed.

(** [toFixed] is never called with more than 100 digits. *)
Lemma decimals_bound step : (Quantity.decimals step <= 41)%nat.
Proof.
  unfold Quantity.decimals. destruct (negb _); [lia|].
  pose proof (length_split_dot (toString step) 1). pose proof (length_toString step). lia.
Qed.

Lemma toFixed_inr x f :
  (f <= 100)%nat -> toFixed x f = inr (toFixed_string x f).
Proof.
  intros H. unfold toFixed. destruct (Nat.ltb_spec 100 f); [lia|]. reflexivity.
Qed.

Local Open Scope Z_scope.
Import JS.

(** ** Reading back what was printed *)

Arguments digit_char : simpl never.
Arguments is_digit : simpl never.
Arguments digit_val : simpl never.
Arguments is_space : simpl never.

Ltac not_char H c x :=
  destruct (Ascii.eqb_spec c x) as [->|_]; [discriminate H | idtac].

Lemma is_digit_numchar c : is_digit c = true -> numchar c = true.
Proof. intros H. unfold numchar. now rewrite H. Qed.

Lemma numchar_not_space c : numchar c = true -> is_space c = false.
Proof.
  intros H. destruct (is_space c) eqn:E; trivial.
  unfold is_space in E.
  repeat (apply orb_prop in E as [E|E]); apply Nat.eqb_eq in E;
    rewrite <- (ascii_nat_embedding c), E in H; discriminate H.
Qed.

Lemma digit_char_spec d :
  0 <= d < 10 -> is_digit (digit_char d) = true /\ digit_val (digit_char d) = d.
Proof.
  intros H.
  assert (d = 0 \/ d = 1 \/ d = 2 \/ d = 3 \/ d = 4 \/ d = 5 \/ d = 6 \/ d = 7
          \/ d = 8 \/ d = 9) as C by lia.
  repeat (destruct C as [->|C]; [split; reflexivity|]). subst; split; reflexivity.
Qed.

Lemma all_digits_app a b : all_digits (a ++ b) = all_digits a && all_digits b.
Proof. induction a as [|c a IH]; simpl; trivial. now rewrite IH, andb_assoc. Qed.

Lemma numstr_app a b : numstr (a ++ b) = numstr a && numstr b.
Proof. induction a as [|c a IH]; simpl; trivial. now rewrite IH, andb_assoc. Qed.

Lemma all_digits_numstr s : all_digits s = true -> numstr s = true.
Proof.
  induction s as [|c s IH]; simpl; trivial. intros H. apply andb_prop in H as [A B].
  now rewrite (is_digit_numchar _ A), IH.
Qed.

Lemma all_digits_digits k n : all_digits (digits k n) = true.
Proof.
  revert n. induction k as [|k IH]; intros n; simpl; trivial.
  rewrite all_digits_app, IH. cbn [all_digits andb].
  destruct (digit_char_spec (n mod 10)) as [-> _]; trivial.
  apply Z.mod_pos_bound. lia.
Qed.

Lemma all_digits_zeros k : all_digits (zeros k) = true.
Proof. induction k; simpl; trivial. Qed.

Lemma dval_app a b acc : dval (a ++ b) acc = dval b (dval a acc).
Proof. revert acc. induction a as [|c a IH]; intros acc; simpl; trivial. Qed.

Lemma dval_digits k n acc :
  dval (digits k n) acc = acc * 10 ^ Z.of_nat k + n mod 10 ^ Z.of_nat k.
Proof.
  revert n acc. induction k as [|k IH]; intros n acc.
  - simpl. rewrite Z.mod_1_r. lia.
  - cbn [digits]. rewrite dval_app, IH. cbn [dval].
    destruct (digit_char_spec (n mod 10)) as [_ ->]; [apply Z.mod_pos_bound; lia|].
    rewrite Nat2Z.inj_succ, Z.pow_succ_r by lia.
    rewrite (Z.rem_mul_r n 10 (10 ^ Z.of_nat k)) by lia. lia.
Qed.

Lemma read_digits_app ds rest acc cnt :
  all_digits ds = true ->
  read_digits (ds ++ rest) acc cnt
  = read_digits rest (dval ds acc) (cnt + String.length ds)%nat.
Proof.
  revert acc cnt. induction ds as [|c ds IH]; intros acc cnt H.
  - simpl. now rewrite Nat.add_0_r.
  - simpl in H. apply andb_prop in H as [A B]. cbn [append read_digits]. rewrite A.
    rewrite IH by trivial. cbn [dval String.length]. f_equal. lia.
Qed.

Lemma read_digits_all ds acc cnt :
  all_digits ds = true ->
  read_digits ds acc cnt = (dval ds acc, (cnt + String.length ds)%nat, "").
Proof.
  intros H. rewrite <- (append_nil_r ds) at 1. now rewrite read_digits_app.
Qed.

Lemma read_digits_stop c r acc cnt :
  is_digit c = false -> read_digits (String c r) acc cnt = (acc, cnt, String c r).
Proof. intros H. simpl. now rewrite H. Qed.

(** *** Trimming a string without white space *)

Lemma numchar_one_byte c :
  numchar c = true -> forall c2 c3, is_space2 c c2 = false /\ is_space3 c c2 c3 = false.
Proof.
  intros H c2 c3. unfold numchar in H.
  assert (L : (nat_of_ascii c < 128)%nat).
  { repeat (apply orb_prop in H as [H|H]);
      try (apply Ascii.eqb_eq in H; subst c; cbn; lia).
    unfold is_digit in H. apply andb_prop in H as [_ H]. apply Nat.leb_le in H. lia. }
  unfold is_space2, is_space3. split.
  - destruct (Nat.eqb_spec (nat_of_ascii c) 194); [lia|reflexivity].
  - destruct (Nat.eqb_spec (nat_of_ascii c) 225); [lia|].
    destruct (Nat.eqb_spec (nat_of_ascii c) 226); [lia|].
    destruct (Nat.eqb_spec (nat_of_ascii c) 227); [lia|].
    destruct (Nat.eqb_spec (nat_of_ascii c) 239); [lia|]. reflexivity.
Qed.

Lemma trim_left_numstr s : numstr s = true -> trim_left s = s.
Proof.
  destruct s as [|c s]; trivial. cbn [numstr trim_left]. intros H.
  apply andb_prop in H as [A _]. rewrite (numchar_not_space _ A).
  destruct s as [|c2 s]; trivial.
  destruct (numchar_one_byte c A c2 c2) as [-> _].
  destruct s as [|c3 s]; trivial.
  destruct (numchar_one_byte c A c2 c3) as [_ ->]. reflexivity.
Qed.

Lemma trim_right_numstr s : numstr s = true -> trim_right s = s.
Proof.
  induction s as [|c s IH]; trivial. intros H.
  cbn [trim_right]. rewrite (trim_left_numstr _ H).
  cbn [numstr] in H. apply andb_prop in H as [_ H]. now rewrite (IH H).
Qed.

Lemma trim_numstr s : numstr s = true -> trim s = s.
Proof.
  intros H. unfold trim. rewrite (trim_left_numstr s H). now apply trim_right_numstr.
Qed.

(** *** The shapes [toString] and [toFixed] print *)

Lemma read_radix_prefix_numstr s : numstr s = true -> read_radix_prefix s = None.
Proof.
  destruct s as [|z [|c t]]; trivial. simpl. intros H.
  apply andb_prop in H as [_ H]. apply andb_prop in H as [H _].
  destruct (Ascii.eqb z "0"); trivial.
  not_char H c "x"%char. not_char H c "X"%char. not_char H c "o"%char.
  not_char H c "O"%char. not_char H c "b"%char. not_char H c "B"%char.
  reflexivity.
Qed.

Lemma read_sign_digit c r : is_digit c = true -> read_sign (String c r) = (false, String c r).
Proof.
  intros H. simpl. not_char H c "-"%char. not_char H c "+"%char. reflexivity.
Qed.

Lemma numeral_numstr d1 frac ex :
  numeral_ok d1 frac ex = true -> numstr (numeral d1 frac ex) = true.
Proof.
  unfold numeral_ok, numeral, exponent_part. intros H.
  apply andb_prop in H as [H H3]. apply andb_prop in H as [H H2].
  apply andb_prop in H as [H1 _].
  rewrite !numstr_app, (all_digits_numstr _ H1). simpl.
  destruct frac as [d2|], ex as [[b d3]|]; simpl;
    rewrite ?numstr_app, ?(all_digits_numstr _ H2); simpl; trivial;
    apply andb_prop in H3 as [H3 _]; destruct b; simpl;
    now rewrite (all_digits_numstr _ H3).
Qed.

Lemma read_exponent_some ex :
  match ex with
  | Some (_, d3) => all_digits d3 && negb (String.eqb d3 "")
  | None => true
  end = true ->
  exists z, read_exponent (exponent_part ex) = Some z.
Proof.
  unfold exponent_part.
  destruct ex as [[b d3]|]; [|simpl; eauto]. intros H.
  apply andb_prop in H as [A B].
  assert (R : read_sign ((if b then "+" else "-") ++ d3) = (negb b, d3))
    by (destruct b; reflexivity).
  cbn [append read_exponent]. simpl (Ascii.eqb "e" "e" || _)%bool. cbv iota.
  rewrite R, (read_digits_all _ _ _ A).
  destruct d3 as [|c d3]; [discriminate|]. simpl. eauto.
Qed.

Lemma read_decimal_numeral sgn d1 frac ex :
  numeral_ok d1 frac ex = true ->
  isNaN (read_decimal sgn (numeral d1 frac ex)) = false.
Proof.
  intros H. unfold numeral_ok in H.
  apply andb_prop in H as [H H3]. apply andb_prop in H as [H H2].
  apply andb_prop in H as [H1 H0].
  destruct (read_exponent_some ex H3) as [z Hz]. clear H3.
  assert (Htl : exponent_part ex = "" \/ exists r, exponent_part ex = String "e" r).
  { destruct ex as [[b d3]|]; [right|left]; simpl; eauto. }
  unfold numeral, read_decimal.
  destruct d1 as [|c d1]; [discriminate|]. clear H0.
  assert (Hc : is_digit c = true) by (simpl in H1; now apply andb_prop in H1 as [? _]).
  replace (String.eqb (String c d1 ++ _) "Infinity") with false
    by (simpl; not_char Hc c "I"%char; reflexivity).
  rewrite (read_digits_app _ _ _ _ H1).
  assert (Hlen : (0 + String.length (String c d1) = S (String.length d1))%nat) by reflexivity.
  rewrite Hlen. clear Hlen.
  destruct frac as [d2|].
  - cbn [append]. rewrite read_digits_stop by reflexivity.
    simpl (Ascii.eqb "." "."). cbv iota.
    rewrite (read_digits_app _ _ _ _ H2).
    destruct Htl as [E|[r E]]; rewrite E in *.
    + simpl. apply of_decimal_isNaN.
    + rewrite read_digits_stop by reflexivity. simpl plus. rewrite Hz.
      apply of_decimal_isNaN.
  - cbn [append]. destruct Htl as [E|[r E]]; rewrite E in *.
    + simpl. apply of_decimal_isNaN.
    + rewrite read_digits_stop by reflexivity. simpl (Ascii.eqb "e" "."). cbv iota.
      simpl plus. rewrite Hz. apply of_decimal_isNaN.
Qed.

Lemma Number_numeral (sgn : bool) d1 frac ex :
  numeral_ok d1 frac ex = true ->
  Number ((if sgn then "-" else "") ++ numeral d1 frac ex)
  = read_decimal sgn (numeral d1 frac ex).
Proof.
  intros H. pose proof (numeral_numstr _ _ _ H) as Hn.
  assert (Hs : numstr ((if sgn then "-" else "") ++ numeral d1 frac ex) = true).
  { rewrite numstr_app, Hn. now destruct sgn. }
  unfold Number. rewrite (trim_numstr _ Hs), (read_radix_prefix_numstr _ Hs).
  unfold numeral_ok in H.
  apply andb_prop in H as [H _]. apply andb_prop in H as [H _].
  apply andb_prop in H as [H1 H0].
  destruct d1 as [|c d1]; [discriminate|].
  simpl in H1. apply andb_prop in H1 as [Hc _].
  destruct sgn.
  - reflexivity.
  - unfold numeral. cbn [append]. now rewrite read_sign_digit.
Qed.

Lemma Number_numeral_isNaN (sgn : bool) d1 frac ex :
  numeral_ok d1 frac ex = true ->
  isNaN (Number ((if sgn then "-" else "") ++ numeral d1 frac ex)) = false.
Proof.
  intros H. rewrite Number_numeral by trivial. now apply read_decimal_numeral.
Qed.

Local Open Scope Z_scope.
Import JS.

Lemma eqb_empty_length s : (0 < String.length s)%nat -> negb (String.eqb s "") = true.
Proof. destruct s; simpl; [lia|trivial]. Qed.

Lemma numeral_ok_intro d1 frac ex :
  all_digits d1 = true -> (0 < String.length d1)%nat ->
  match frac with Some d2 => all_digits d2 | None => true end = true ->
  match ex with
  | Some (_, d3) => all_digits d3 = true /\ (0 < String.length d3)%nat
  | None => True
  end ->
  numeral_ok d1 frac ex = true.
Proof.
  intros H1 H0 H2 H3. unfold numeral_ok. rewrite H1, H2, (eqb_empty_length _ H0). simpl.
  destruct ex as [[b d3]|]; trivial. destruct H3 as [A B].
  now rewrite A, (eqb_empty_length _ B).
Qed.

Ltac numeral_tac :=
  apply numeral_ok_intro; trivial; unfold string_of_Z;
  rewrite ?all_digits_app, ?all_digits_digits, ?all_digits_zeros,
    ?length_append, ?length_digits;
  trivial; simpl String.length;
  try match goal with |- context [ndigits ?n] => pose proof (ndigits_pos n) end;
  try lia.

(** What [toString] prints for a positive finite number is a numeral. *)
Lemma toString_pos_numeral m e :
  exists d1 frac ex,
    numeral_ok d1 frac ex = true /\ toString_pos m e = numeral d1 frac ex.
Proof.
  unfold toString_pos. pose proof (shortest_bounds m e) as H.
  destruct (shortest m e) as [[k s] n]. destruct H as [Hk Hn].
  destruct ((Z.of_nat k <=? n) && (n <=? 21)) eqn:E1.
  { exists (digits k s ++ zeros (Z.to_nat (n - Z.of_nat k))), None, None. split.
    - numeral_tac.
    - unfold numeral. simpl. now rewrite !append_nil_r. }
  destruct ((0 <? n) && (n <=? 21)) eqn:E2.
  { apply andb_prop in E2 as [A B]. apply Z.ltb_lt in A.
    exists (digits (Z.to_nat n) (s / 10 ^ (Z.of_nat k - n))), (Some (digits (k - Z.to_nat n) s)), None.
    split.
    - numeral_tac.
    - unfold numeral. simpl. now rewrite !append_nil_r. }
  destruct ((-6 <? n) && (n <=? 0)) eqn:E3.
  { exists "0", (Some (zeros (Z.to_nat (- n)) ++ digits k s)), None. split.
    - numeral_tac.
    - unfold numeral. simpl. now rewrite !append_nil_r. }
  assert (Hex : all_digits (string_of_Z (Z.abs (n - 1))) = true
                /\ (0 < String.length (string_of_Z (Z.abs (n - 1))))%nat).
  { split; [apply all_digits_digits|]. rewrite length_string_of_Z.
    pose proof (ndigits_pos (Z.abs (n - 1))). lia. }
  destruct k as [|[|k]]; [lia| |].
  - exists (digits 1 s), None, (Some (0 <=? n - 1, string_of_Z (Z.abs (n - 1)))). split.
    + numeral_tac.
    + reflexivity.
  - exists (digits 1 (s / 10 ^ (Z.of_nat (S (S k)) - 1))),
      (Some (digits (S (S k) - 1) s)), (Some (0 <=? n - 1, string_of_Z (Z.abs (n - 1)))).
    split.
    + numeral_tac.
    + unfold numeral, exponent_part. now rewrite !append_assoc.
Qed.

Lemma toFixed_digits_numeral n f :
  exists d1 frac,
    numeral_ok d1 frac None = true /\ toFixed_digits n f = numeral d1 frac None.
Proof.
  unfold toFixed_digits. destruct f as [|f].
  - exists (string_of_Z n), None. split.
    + numeral_tac.
    + unfold numeral. simpl. now rewrite !append_nil_r.
  - exists (string_of_Z (n / 10 ^ Z.of_nat (S f))), (Some (digits (S f) n)). split.
    + numeral_tac.
    + unfold numeral. simpl. now rewrite !append_nil_r.
Qed.

(** A number printed by [toString] reads back as a number. *)
Lemma Number_toString_isNaN x : isNaN x = false -> isNaN (Number (toString x)) = false.
Proof.
  destruct x as [s|[]| |s m e]; try discriminate; intros _; try reflexivity.
  cbn [toString]. destruct (toString_pos_numeral m e) as (d1 & frac & ex & Hok & ->).
  now apply Number_numeral_isNaN.
Qed.

(** So does a number printed by [toFixed]. *)
Lemma Number_toFixed_string_isNaN x f :
  isNaN x = false -> isNaN (Number (toFixed_string x f)) = false.
Proof.
  intros Hx. unfold toFixed_string.
  destruct x as [s|s| |s m e]; try discriminate.
  - destruct (toFixed_digits_numeral 0 f) as (d1 & frac & Hok & ->).
    now apply (Number_numeral_isNaN false).
  - now apply Number_toString_isNaN.
  - destruct (SFleb ten21 _); [now apply Number_toString_isNaN|].
    destruct (toFixed_digits_numeral (toFixed_int m e f) f) as (d1 & frac & Hok & ->).
    now apply Number_numeral_isNaN.
Qed.

(** *** [roundToStep] and the dial's [round] never throw *)

Lemma rounded_inr v step :
  Quantity.rounded v step
  = inr (Number (toFixed_string (Math_round (v / step) * step)%js (Quantity.decimals step))).
Proof.
  unfold Quantity.rounded. rewrite toFixed_inr; [reflexivity|].
  pose proof (decimals_bound step). lia.
Qed.

Lemma Dial_round_inr v s :
  Dial.round v s
  = inr (Number (toFixed_string (Math_round (v / s) * s)%js
                   (String.length (nth 1 (split_dot (toString s)) "")))).
Proof.
  unfold Dial.round. rewrite toFixed_inr; [reflexivity|].
  pose proof (length_split_dot (toString s) 1). pose proof (length_toString s). lia.
Qed.

(** The dial's [round] gives a number when [v] is one and the step is
    finite and not zero. *)
Lemma Dial_round_isNaN v s :
  isNaN v = false -> isFinite s = true -> isZero s = false ->
  exists r, Dial.round v s = inr r /\ isNaN r = false.
Proof.
  intros Hv Hs Hz. rewrite Dial_round_inr. eexists. split; [reflexivity|].
  apply Number_toFixed_string_isNaN.
  apply mul_isNaN; trivial. apply Math_round_isNaN. now apply div_isNaN.
Qed.

Local Open Scope Z_scope.
Import JS.

(** ** The value of a number input *)

(** What [read_digits] does to a string: it reads [k] digits and leaves
    a rest that does not start with a digit. *)
Lemma read_digits_shape s :
  exists k rest,
    (forall a c, exists v, read_digits s a c = (v, (c + k)%nat, rest)) /\
    (numstr rest = true -> numstr s = true) /\
    (k = 0%nat -> rest = s) /\
    match rest with String c _ => is_digit c = false | EmptyString => True end.
Proof.
  induction s as [|c s (k & rest & A & B & C & D)].
  - exists 0%nat, "". repeat split; trivial. intros a c. exists a. cbn.
    now rewrite Nat.add_0_r.
  - destruct (is_digit c) eqn:E.
    + exists (S k), rest. split; [|split; [|split]]; trivial.
      * intros a n. destruct (A (10 * a + digit_val c) (S n)) as [v Hv]. exists v.
        cbn [read_digits]. rewrite E, Hv. do 2 f_equal. lia.
      * intros H. cbn [numstr]. now rewrite (is_digit_numchar _ E), (B H).
      * discriminate.
    + exists 0%nat, (String c s). repeat split; trivial.
      intros a n. exists a. cbn [read_digits]. now rewrite E, Nat.add_0_r.
Qed.

Lemma read_exponent_numstr s z : read_exponent s = Some z -> numstr s = true.
Proof.
  destruct s as [|c s]; trivial. cbn [read_exponent].
  destruct (Ascii.eqb c "e" || Ascii.eqb c "E")%bool eqn:E; [|discriminate].
  assert (Nc : numchar c = true).
  { unfold numchar. apply orb_prop in E as [E|E]; rewrite E;
      now rewrite ?orb_true_r. }
  assert (G : forall t, match read_digits t 0 0 with
                        | (_, O, _) => None
                        | (v, _, EmptyString) => Some v
                        | _ => @None Z
                        end <> None -> numstr t = true).
  { intros t. destruct (read_digits_shape t) as (k & rest & A & B & _ & _).
    destruct (A 0 0%nat) as [v ->]. cbn [Nat.add].
    destruct k; [congruence|]. destruct rest; [|congruence]. intros _. now apply B. }
  intros H. cbn [numstr]. rewrite Nc. cbn [andb].
  destruct s as [|c' t].
  - discriminate.
  - cbn [read_sign] in H.
    destruct (Ascii.eqb_spec c' "-") as [->|N1].
    + cbn [numstr]. change (numchar "-") with true. cbn [andb]. apply G.
      destruct (read_digits t 0 0) as [[v n] r]. destruct n; [discriminate|].
      destruct r; congruence.
    + destruct (Ascii.eqb_spec c' "+") as [->|N2].
      * cbn [numstr]. change (numchar "+") with true. cbn [andb]. apply G.
        destruct (read_digits t 0 0) as [[v n] r]. destruct n; [discriminate|].
        destruct r; congruence.
      * apply G. destruct (read_digits (String c' t) 0 0) as [[v n] r].
        destruct n; [discriminate|]. destruct r; congruence.
Qed.

Lemma valid_numstr s : DOM.valid_floating_point_number s = true -> numstr s = true.
Proof.
  unfold DOM.valid_floating_point_number.
  set (r := match s with
            | String c t => if Ascii.eqb c "-" then t else s
            | EmptyString => s
            end).
  assert (Hr : numstr r = true -> numstr s = true).
  { subst r. destruct s as [|c t]; trivial.
    destruct (Ascii.eqb_spec c "-") as [->|_]; trivial. }
  destruct (read_digits_shape r) as (k & r1 & A & B & _ & _).
  destruct (A 0 0%nat) as [v ->]. intros H. apply Hr, B. clear Hr B A.
  destruct r1 as [|c t].
  - reflexivity.
  - destruct (Ascii.eqb_spec c ".") as [->|_].
    + destruct (read_digits_shape t) as (k2 & r2 & A2 & B2 & _ & _).
      destruct (A2 0 0%nat) as [v2 E2]. rewrite E2 in H.
      apply andb_prop in H as [_ H].
      cbn [numstr]. change (numchar ".") with true. cbn [andb]. apply B2.
      destruct (read_exponent r2) eqn:E; [|discriminate].
      now apply read_exponent_numstr in E.
    + apply andb_prop in H as [_ H].
      destruct (read_exponent (String c t)) eqn:E; [|discriminate].
      now apply read_exponent_numstr in E.
Qed.

(** A valid floating-point number reads as a number: [Number] of it is
    never NaN. *)
Lemma Number_valid s :
  DOM.valid_floating_point_number s = true -> isNaN (Number s) = false.
Proof.
  intros H. pose proof (valid_numstr s H) as Hn.
  unfold Number. rewrite (trim_numstr _ Hn), (read_radix_prefix_numstr _ Hn).
  unfold DOM.valid_floating_point_number in H.
  assert (G : forall sg r,
             (let '(_, ni, r1) := read_digits r 0 0 in
              let '(digits_ok, r2) :=
                match r1 with
                | String c t =>
                    if Ascii.eqb c "."
                    then let '(_, nf, r2) := read_digits t 0 0 in (negb (nf =? 0)%nat, r2)
                    else (negb (ni =? 0)%nat, r1)
                | EmptyString => (negb (ni =? 0)%nat, r1)
                end in
              digits_ok && match read_exponent r2 with Some _ => true | None => false end)
             = true ->
             isNaN (read_decimal sg r) = false).
  { intros sg r. unfold read_decimal.
    destruct (String.eqb_spec r "Infinity") as [->|NI].
    { cbn. intros G. discriminate G. }
    destruct (read_digits_shape r) as (k & r1 & A & _ & C & D).
    destruct (A 0 0%nat) as [vi E1]. rewrite E1. cbn [Nat.add].
    destruct r1 as [|c t].
    - intros G. apply andb_prop in G as [G _]. destruct k; [discriminate|].
      cbn [Nat.add read_exponent]. apply of_decimal_isNaN.
    - destruct (Ascii.eqb_spec c ".") as [->|_].
      + destruct (read_digits_shape t) as (k2 & r2 & A2 & _ & _ & _).
        destruct (A2 0 0%nat) as [v2 E2]. destruct (A2 vi 0%nat) as [v3 E3].
        rewrite E2, E3. cbn [Nat.add]. intros G. apply andb_prop in G as [G1 G2].
        destruct k2; [discriminate|]. rewrite Nat.add_succ_r.
        destruct (read_exponent r2); [|discriminate]. apply of_decimal_isNaN.
      + intros G. apply andb_prop in G as [G1 G2]. destruct k; [discriminate|].
        cbn [Nat.add]. destruct (read_exponent (String c t)); [|discriminate].
        apply of_decimal_isNaN. }
  destruct s as [|c t].
  - cbn in H. discriminate.
  - cbn [read_sign]. destruct (Ascii.eqb_spec c "-") as [->|N1].
    + now apply G.
    + destruct (Ascii.eqb_spec c "+") as [->|N2].
      * cbn in H. discriminate.
      * now apply G.
Qed.

Lemma number_input_value_cases text :
  DOM.number_input_value text = ""
  \/ (DOM.number_input_value text = text
      /\ DOM.valid_floating_point_number text = true).
Proof.
  unfold DOM.number_input_value.
  destruct (DOM.valid_floating_point_number text); auto.
Qed.

(** Whatever its text, a number input hands a text to [Number] that reads
    as a number. *)
Lemma Number_input_isNaN text : isNaN (Number (DOM.number_input_value text)) = false.
Proof.
  destruct (number_input_value_cases text) as [-> | [-> H]]; [reflexivity|].
  now apply Number_valid.
Qed.

(** A run of digits is a value the input keeps. *)
Lemma number_input_value_digits ds :
  all_digits ds = true -> ds <> "" -> DOM.number_input_value ds = ds.
Proof.
  intros H N. unfold DOM.number_input_value, DOM.valid_floating_point_number.
  destruct ds as [|c t]; [congruence|].
  assert (Hc : is_digit c = true) by (cbn in H; now apply andb_prop in H as [? _]).
  destruct (Ascii.eqb_spec c "-") as [->|_]; [discriminate Hc|].
  rewrite (read_digits_all _ 0 0%nat H). reflexivity.
Qed.

Lemma number_input_value_string_of_Z K :
  DOM.number_input_value (string_of_Z K) = string_of_Z K.
Proof.
  apply number_input_value_digits; [apply all_digits_digits|].
  intros E. pose proof (length_string_of_Z K) as L. rewrite E in L.
  pose proof (ndigits_pos K). cbn in L. lia.
Qed.

(** *** White space *)

(** [Number] reads a text made of white space only as 0. *)
Lemma Number_white_space s : trim_left s = "" -> Number s = S754_zero false.
Proof. intros H. unfold Number, trim. now rewrite H. Qed.

(** The no-break space U+00A0, the ideographic space U+3000 and the byte
    order mark U+FEFF are white space, before a number and after it. *)
Lemma Number_no_break_space :
  let nbsp := String (ascii_of_nat 194) (String (ascii_of_nat 160) "") in
  let wide := String (ascii_of_nat 227) (String (ascii_of_nat 128)
                (String (ascii_of_nat 128) "")) in
  let bom := String (ascii_of_nat 239) (String (ascii_of_nat 187)
               (String (ascii_of_nat 191) "")) in
  Number nbsp = S754_zero false /\
  Number (nbsp ++ " " ++ wide ++ bom) = S754_zero false /\
  Number (bom ++ "7" ++ nbsp ++ wide) = of_Z 7.
Proof. vm_compute. repeat split; reflexivity. Qed.

Local Open Scope Z_scope.
Import JS.

(** ** Rounding to binary64: the exact cases *)

Lemma fexp_eq e : fexp prec emax e = Z.max (e - 53) (-1074).
Proof. reflexivity. Qed.

Lemma Zdigits2_log2 m : 0 < m -> Zdigits2 m = Z.log2 m + 1.
Proof.
  destruct m as [|p|p]; try lia. intros _. simpl.
  assert (H : forall q, Zpos (digits2_pos q) = Zpos (Pos.size q)).
  { induction q; simpl; rewrite ?Pos2Z.inj_succ; congruence. }
  destruct p; simpl; rewrite ?Pos2Z.inj_succ, ?H; lia.
Qed.

Lemma Zdigits2_bounds m : 0 < m -> 2 ^ (Zdigits2 m - 1) <= m < 2 ^ Zdigits2 m.
Proof.
  intros H. rewrite Zdigits2_log2 by trivial.
  replace (Z.log2 m + 1 - 1) with (Z.log2 m) by lia.
  pose proof (Z.log2_spec m H). rewrite <- Z.add_1_r in *. lia.
Qed.

Lemma Zdigits2_pos m : 0 < m -> 0 < Zdigits2 m.
Proof. intros H. rewrite Zdigits2_log2 by trivial. pose proof (Z.log2_nonneg m). lia. Qed.

Lemma Zdigits2_unique m d : 0 < m -> 2 ^ (d - 1) <= m < 2 ^ d -> Zdigits2 m = d.
Proof.
  intros H Hd. rewrite Zdigits2_log2 by trivial.
  assert (0 <= d - 1).
  { destruct (Z.le_gt_cases 0 (d - 1)); trivial.
    assert (d <= 0) by lia. destruct Hd as [_ Hd].
    assert (2 ^ d <= 2 ^ 0) by (apply Z.pow_le_mono_r; lia). simpl in *. lia. }
  rewrite (Z.log2_unique m (d - 1)); try lia.
  replace (Z.succ (d - 1)) with d by lia. trivial.
Qed.

Lemma Zdigits2_mul_pow2 m n : 0 < m -> 0 <= n -> Zdigits2 (m * 2 ^ n) = Zdigits2 m + n.
Proof.
  intros Hm Hn. pose proof (Zdigits2_bounds m Hm) as [A B].
  pose proof (Zdigits2_pos m Hm).
  apply Zdigits2_unique.
  - apply Z.mul_pos_pos; trivial. apply Z.pow_pos_nonneg; lia.
  - replace (Zdigits2 m + n - 1) with (Zdigits2 m - 1 + n) by lia.
    rewrite !Z.pow_add_r by lia.
    pose proof (Z.pow_pos_nonneg 2 n). nia.
Qed.

Lemma iter_pos_nat {A} (f : A -> A) p x :
  iter_pos f p x = Nat.iter (Pos.to_nat p) f x.
Proof.
  revert x. induction p as [p IH|p IH|]; intros x; cbn [iter_pos].
  - rewrite !IH, Pos2Nat.inj_xI.
    replace (S (2 * Pos.to_nat p)) with (Pos.to_nat p + S (Pos.to_nat p))%nat by lia.
    rewrite Nat.iter_add, Nat.iter_succ_r. reflexivity.
  - rewrite !IH, Pos2Nat.inj_xO.
    replace (2 * Pos.to_nat p)%nat with (Pos.to_nat p + Pos.to_nat p)%nat by lia.
    now rewrite Nat.iter_add.
  - reflexivity.
Qed.

Lemma shr_1_even k :
  0 <= k ->
  shr_1 {| shr_m := 2 * k; shr_r := false; shr_s := false |}
  = {| shr_m := k; shr_r := false; shr_s := false |}.
Proof. destruct k; try lia; reflexivity. Qed.

Lemma shr_iter_exact n M :
  0 <= M ->
  Nat.iter n shr_1 {| shr_m := M * 2 ^ Z.of_nat n; shr_r := false; shr_s := false |}
  = {| shr_m := M; shr_r := false; shr_s := false |}.
Proof.
  revert M. induction n as [|n IH]; intros M HM.
  - simpl. now rewrite Z.mul_1_r.
  - rewrite Nat2Z.inj_succ, Z.pow_succ_r by lia. cbn [Nat.iter nat_rect].
    replace (M * (2 * 2 ^ Z.of_nat n)) with ((2 * M) * 2 ^ Z.of_nat n) by lia.
    change (nat_rect _ _ _ n) with (Nat.iter n shr_1
      {| shr_m := 2 * M * 2 ^ Z.of_nat n; shr_r := false; shr_s := false |}).
    rewrite IH by lia. now apply shr_1_even.
Qed.

Lemma shr_exact M e n :
  0 <= M -> 0 <= n ->
  shr {| shr_m := M * 2 ^ n; shr_r := false; shr_s := false |} e n
  = ({| shr_m := M; shr_r := false; shr_s := false |}, e + n).
Proof.
  intros HM Hn. unfold shr. destruct n as [|p|p]; try lia.
  - now rewrite Z.mul_1_r, Z.add_0_r.
  - rewrite iter_pos_nat. rewrite <- (positive_nat_Z p) at 1.
    now rewrite shr_iter_exact.
Qed.

Lemma shr_nonpos mrs e n : n <= 0 -> shr mrs e n = (mrs, e).
Proof. intros H. unfold shr. destruct n; trivial. lia. Qed.

(** A mantissa [M] that fits at the exponent [e], given with [n] more
    zero bits, is rounded to itself. *)
Lemma binary_round_aux_exact s M e n :
  0 < M -> 0 <= n ->
  fexp prec emax (Zdigits2 M + e) <= e ->
  (0 < n -> fexp prec emax (Zdigits2 M + e) = e) ->
  e <= emax - prec ->
  binary_round_aux prec emax s (M * 2 ^ n) (e - n) loc_Exact
  = S754_finite s (Z.to_pos M) e.
Proof.
  intros HM Hn Hf Hc He. unfold binary_round_aux, shr_fexp.
  rewrite Zdigits2_mul_pow2 by trivial.
  replace (Zdigits2 M + n + (e - n)) with (Zdigits2 M + e) by lia.
  cbn [shr_record_of_loc].
  assert (E1 : shr {| shr_m := M * 2 ^ n; shr_r := false; shr_s := false |} (e - n)
                 (fexp prec emax (Zdigits2 M + e) - (e - n))
               = ({| shr_m := M; shr_r := false; shr_s := false |}, e)).
  { destruct (Z.eq_dec n 0) as [->|N0].
    - rewrite shr_nonpos by lia. rewrite Z.mul_1_r. f_equal. lia.
    - rewrite Hc by lia. replace (e - (e - n)) with n by lia.
      rewrite shr_exact by lia. f_equal. lia. }
  rewrite E1. cbn [shr_m loc_of_shr_record round_nearest_even shr_record_of_loc].
  rewrite shr_nonpos by lia. cbn [shr_m].
  destruct M as [|m|m]; try lia.
  destruct (Z.leb_spec e (emax - prec)); [reflexivity|lia].
Qed.

Lemma shl_align_spec mx ex ex' :
  let '(mz, ez) := shl_align mx ex ex' in
  ez = Z.min ex ex' /\ Zpos mz = Zpos mx * 2 ^ (ex - ez).
Proof.
  unfold shl_align. destruct (ex' - ex) as [|d|d] eqn:E.
  - split; [lia|]. replace (ex - ex) with 0 by lia. lia.
  - split; [lia|]. replace (ex - ex) with 0 by lia. lia.
  - split; [lia|]. replace (ex - ex') with (Zpos d) by lia.
    clear E. induction d as [|d IH] using Pos.peano_ind.
    + simpl. lia.
    + rewrite Pos.iter_succ, Pos2Z.inj_xO, IH, Pos2Z.inj_succ, Z.pow_succ_r by lia. lia.
Qed.

Lemma digits_le_53 K : 0 < K < 2 ^ 53 -> 1 <= Zdigits2 K <= 53.
Proof.
  intros [H0 H1]. pose proof (Zdigits2_bounds K H0) as [A B].
  pose proof (Zdigits2_pos K H0). split; [lia|].
  destruct (Z.le_gt_cases (Zdigits2 K) 53); trivial.
  assert (2 ^ 53 <= 2 ^ (Zdigits2 K - 1)) by (apply Z.pow_le_mono_r; lia). lia.
Qed.

(** An integer [K] below [2^53] written as [K * 2^(-e)] at the exponent
    [e <= 0] is rounded exactly. *)
Lemma binary_round_int s K e :
  0 < K < 2 ^ 53 -> e <= 0 ->
  binary_round prec emax s (Z.to_pos (K * 2 ^ (- e))) e = canon s K.
Proof.
  intros HK He. pose proof (digits_le_53 K HK) as Hd.
  assert (HP : 0 < K * 2 ^ (- e)).
  { apply Z.mul_pos_pos; [lia|]. apply Z.pow_pos_nonneg; lia. }
  unfold binary_round.
  change (Zpos (digits2_pos (Z.to_pos (K * 2 ^ (- e)))))
    with (Zdigits2 (Zpos (Z.to_pos (K * 2 ^ (- e))))).
  rewrite Z2Pos.id by trivial.
  rewrite Zdigits2_mul_pow2 by lia.
  replace (Zdigits2 K + - e + e) with (Zdigits2 K) by lia.
  set (c := Zdigits2 K - 53).
  assert (Hc : fexp prec emax (Zdigits2 K) = c) by (rewrite fexp_eq; lia).
  rewrite Hc.
  pose proof (shl_align_spec (Z.to_pos (K * 2 ^ (- e))) e c) as Hs.
  destruct (shl_align _ e c) as [mz ez]. destruct Hs as [Hez Hmz].
  rewrite Z2Pos.id in Hmz by trivial.
  set (M := K * 2 ^ (- c)).
  assert (HM : 0 < M).
  { apply Z.mul_pos_pos; [lia|]. apply Z.pow_pos_nonneg; lia. }
  assert (HdM : Zdigits2 M = 53).
  { unfold M. rewrite Zdigits2_mul_pow2 by lia. lia. }
  assert (Hz : Zpos mz = M * 2 ^ (c - ez)).
  { rewrite Hmz. unfold M. rewrite <- !Z.mul_assoc, <- !Z.pow_add_r by lia.
    f_equal. f_equal. lia. }
  rewrite Hz. replace ez with (c - (c - ez)) at 2 by lia.
  rewrite binary_round_aux_exact; trivial; try lia.
  - unfold canon. replace (53 - Zdigits2 K) with (- c) by (unfold c; lia). reflexivity.
  - rewrite HdM, fexp_eq. lia.
  - intros _. rewrite HdM, fexp_eq. lia.
  - unfold emax, prec. lia.
Qed.

Lemma of_Z_pos K : 0 < K < 2 ^ 53 -> of_Z K = canon false K.
Proof.
  intros HK. unfold of_Z, binary_normalize. destruct K as [|p|p]; try lia.
  rewrite <- (binary_round_int false (Zpos p) 0) by lia.
  simpl (2 ^ (- 0)). rewrite Z.mul_1_r. reflexivity.
Qed.

Lemma of_Z_neg K : 0 < K < 2 ^ 53 -> of_Z (- K) = canon true K.
Proof.
  intros HK. unfold of_Z, binary_normalize. destruct K as [|p|p]; try lia.
  cbn [Z.opp].
  rewrite <- (binary_round_int true (Zpos p) 0) by lia.
  simpl (2 ^ (- 0)). rewrite Z.mul_1_r. reflexivity.
Qed.

(** An integer [K] below [2^53] in units of [2^e], [e <= 0], is
    normalised to the number of [K]. *)
Lemma binary_normalize_int K e sz :
  0 < Z.abs K < 2 ^ 53 -> e <= 0 ->
  binary_normalize prec emax (K * 2 ^ (- e)) e sz = of_Z K.
Proof.
  intros HK He.
  assert (Hp : 0 < 2 ^ (- e)) by (apply Z.pow_pos_nonneg; lia).
  destruct (Z.lt_trichotomy K 0) as [N|[->|P]]; [| lia |].
  - replace K with (- (- K)) by lia. rewrite of_Z_neg by lia.
    rewrite <- (binary_round_int true (- K) e) by lia.
    unfold binary_normalize.
    destruct (- - K * 2 ^ (- e)) as [|q|q] eqn:E; try nia.
    do 2 f_equal. rewrite <- Pos2Z.inj_iff. rewrite Z2Pos.id by nia.
    change (Zpos q) with (- Zneg q). lia.
  - rewrite of_Z_pos by lia.
    rewrite <- (binary_round_int false K e) by lia.
    unfold binary_normalize.
    destruct (K * 2 ^ (- e)) as [|q|q] eqn:E; try nia.
    reflexivity.
Qed.

Local Open Scope Z_scope.
Import JS.

(** ** quantity.ts: [convert] *)

(** C1, as stated, fails: feet and kilometres per hour are of different
    dimensions, and converting 1000 ft to km/h returns the finite number
    1097.28 instead of failing. *)
Lemma convert_ft_kmh_returns :
  Spec.dimension Unit.ft <> Spec.dimension Unit.kmh /\
  Quantity.convert {| Quantity.value := $1000; Quantity.unit := Unit.ft |} Unit.kmh
  = inr {| Quantity.value := dec 109728 2; Quantity.unit := Unit.kmh |}.
Proof. split; [discriminate|]. vm_compute. reflexivity. Qed.

(** C1, amended: [convert] fails only when a unit has no registered
    factor.  Every unit has one, so for every quantity and every target
    unit, of the same dimension or not, [convert] returns the quantity
    whose value is [value * factor(from) / factor(to)] in the target
    unit. *)
Theorem convert_returns (qty : Quantity.Quantity) (to : Unit.t) :
  exists fromFactor toFactor,
    Quantity.factors (Quantity.unit qty) = Some fromFactor /\
    Quantity.factors to = Some toFactor /\
    Quantity.convert qty to
    = inr {| Quantity.value := (Quantity.value qty * fromFactor / toFactor)%js;
             Quantity.unit := to |}.
Proof.
  unfold Quantity.convert, Quantity.factors. eexists; eexists.
  split; [reflexivity|]. split; reflexivity.
Qed.

(** C2, as stated, fails: 1e308 is finite, metres and feet are both
    lengths, and the round trip through feet overflows to Infinity. *)
Lemma round_trip_overflows :
  let v := of_decimal false 1 308 in
  isFinite v = true /\
  Spec.same_dimension Unit.m Unit.ft = true /\
  Spec.round_trip v Unit.m Unit.ft = inr Infinity /\
  Spec.within_tolerance (1 # 1000000000) Infinity v = false.
Proof. vm_compute. repeat split; reflexivity. Qed.

(** ** quantity.ts: [roundToStep] *)

(** C7, as stated, fails in three ways.  With the whole step 3, beyond
    2^53: -9523450352786614 snaps to -9523450352786612, which snaps again
    to -9523450352786610.  With the decimal step 0.1, where the value
    times 10 passes 2^51: -225235303845845.25 snaps to -225235303845845.2,
    which snaps again to -225235303845845.1.  With the step 1.000001e-9,
    which prints in exponent notation and so is given 9 decimal places
    where it has 15: 19499.1, a value below 2^49 / 10^9, snaps to
    19499.100000001, which snaps again to 19499.100000002. *)
Lemma roundToStep_not_idempotent :
  (let v := $(-9523450352786614)%js in
   let s := $3%js in
   isFinite v = true /\ lt $0 s = true /\
   Quantity.roundToStep v s = inr $(-9523450352786612)%js /\
   Quantity.roundToStep $(-9523450352786612)%js s = inr $(-9523450352786610)%js /\
   strict_eq $(-9523450352786612)%js $(-9523450352786610)%js = false)
  /\
  (let v := dec (-22523530384584525) 2 in
   let s := dec 1 1 in
   let r := dec (-2252353038458452) 1 in
   let r' := dec (-2252353038458451) 1 in
   isFinite v = true /\ lt $0 s = true /\
   Quantity.roundToStep v s = inr r /\
   Quantity.roundToStep r s = inr r' /\
   strict_eq r r' = false)
  /\
  (let v := dec 194991 1 in
   let s := dec 1000001 15 in
   let r := dec 19499100000001 9 in
   let r' := dec 19499100000002 9 in
   isFinite v = true /\ lt $0 s = true /\
   toString s = "1.000001e-9"%string /\ Quantity.decimals s = 9%nat /\
   Quantity.roundToStep v s = inr r /\
   Quantity.roundToStep r s = inr r' /\
   strict_eq r r' = false /\
   exists q, Spec.to_Q v = Some q /\
             (Qabs q * inject_Z (10 ^ 9) <= inject_Z (2 ^ 49))%Q).
Proof.
  split; [vm_compute; repeat split; reflexivity|].
  split; [vm_compute; repeat split; reflexivity|].
  cbv zeta. do 7 (split; [vm_compute; reflexivity|]).
  exists (5359871795291750 # 274877906944)%Q.
  split; [vm_compute; reflexivity|]. vm_compute. discriminate.
Qed.

(** C8: [roundToStep] never throws; it returns the rounded result [r]
    when [r] is finite and the unrounded [v] when it is not; with a step
    of zero it returns [v], whatever [v] is. *)
Theorem roundToStep_degenerate (v step : number) :
  exists r,
    Quantity.rounded v step = inr r /\
    Quantity.roundToStep v step = inr (if isFinite r then r else v) /\
    (isFinite r = false -> Quantity.roundToStep v step = inr v) /\
    Quantity.roundToStep v $0 = inr v.
Proof.
  eexists. split; [apply rounded_inr|].
  unfold Quantity.roundToStep. rewrite !rounded_inr. cbn [bind ret].
  split; [reflexivity|]. split.
  - intros ->. reflexivity.
  - destruct v as [s|s| |s m e]; try destruct s; vm_compute; reflexivity.
Qed.

Local Open Scope Z_scope.
Import JS.

(** ** HeadingControl.tsx: the closest cardinal *)

Section Argmin.
Variable key : number -> number.

Lemma fold_pick_nan l a : isNaN (key a) = true -> fold_left (pick key) l a = a.
Proof.
  intros Ha. induction l as [|x l IH]; trivial. cbn [fold_left]. unfold pick at 2.
  destruct (lt (key x) (key a)) eqn:E; trivial.
  apply lt_isNaN in E as [_ E]. congruence.
Qed.

Lemma fold_pick_min l a :
  (fold_left (pick key) l a = a \/ In (fold_left (pick key) l a) l) /\
  lt (key a) (key (fold_left (pick key) l a)) = false /\
  forall c, In c l -> lt (key c) (key (fold_left (pick key) l a)) = false.
Proof.
  revert a. induction l as [|x l IH]; intros a.
  - simpl. split; [now left|]. split; [|intros c []].
    destruct (lt (key a) (key a)) eqn:E; trivial.
    pose proof (lt_not_le _ _ E) as N. apply lt_le in E. congruence.
  - cbn [fold_left]. destruct (IH (pick key a x)) as (I1 & I2 & I3).
    set (r := fold_left (pick key) l (pick key a x)) in *.
    assert (Hax : lt (key a) (key r) = false /\ lt (key x) (key r) = false).
    { unfold pick in I2. destruct (lt (key x) (key a)) eqn:E.
      - split; trivial. destruct (lt (key a) (key r)) eqn:F; trivial.
        pose proof (lt_le_trans _ _ _ E (lt_le _ _ F)). congruence.
      - split; trivial. destruct (lt (key x) (key r)) eqn:F; trivial.
        destruct (isNaN (key a)) eqn:Na.
        + assert (r = a) as Hr.
          { subst r. unfold pick at 2. rewrite E. now apply fold_pick_nan. }
          rewrite Hr in F. congruence.
        + destruct (lt_isNaN _ _ F) as [Nx _].
          pose proof (not_lt_le _ _ Nx Na E) as L.
          pose proof (le_lt_trans _ _ _ L F). congruence. }
    destruct Hax as [Ha Hx]. split; [|split; trivial].
    + destruct I1 as [I1|I1]; [|right; now right].
      rewrite I1. unfold pick. destruct (lt (key x) (key a)); [right; now left|now left].
    + intros c [<-|Hc]; auto.
Qed.

End Argmin.

Lemma cardinals_finite c : In c HeadingControl.cardinals -> isFinite c = true.
Proof.
  unfold HeadingControl.cardinals.
  intros [<-|[<-|[<-|[<-|[]]]]]; vm_compute; reflexivity.
Qed.

Lemma closest_spec deg :
  In (HeadingControl.closest deg) HeadingControl.cardinals /\
  forall c, In c HeadingControl.cardinals ->
            lt (Math_abs (c - deg)) (Math_abs (HeadingControl.closest deg - deg)) = false.
Proof.
  pose proof (fold_pick_min (fun c => Math_abs (c - deg)%js) HeadingControl.cardinals
                (nth 0 HeadingControl.cardinals NaN)) as (H1 & _ & H3).
  change (fold_left _ HeadingControl.cardinals (nth 0 HeadingControl.cardinals NaN))
    with (HeadingControl.closest deg) in *.
  split; trivial. destruct H1 as [-> | H1]; trivial. now left.
Qed.

Lemma snap_iff deg step :
  (exists c, In c HeadingControl.cardinals /\ lt (Math_abs (c - deg)) step = true)
  <-> lt (Math_abs (HeadingControl.closest deg - deg)) step = true.
Proof.
  destruct (closest_spec deg) as [Hin Hmin]. split.
  - intros (c & Hc & Hlt). specialize (Hmin c Hc).
    destruct (lt_isNaN _ _ Hlt) as [Nc _].
    rewrite Math_abs_isNaN, sub_finite_isNaN_iff in Nc by now apply cardinals_finite.
    assert (Nr : isNaN (Math_abs (HeadingControl.closest deg - deg)) = false).
    { rewrite Math_abs_isNaN, sub_finite_isNaN_iff; trivial. now apply cardinals_finite. }
    assert (Nc' : isNaN (Math_abs (c - deg)) = false).
    { rewrite Math_abs_isNaN, sub_finite_isNaN_iff; trivial. now apply cardinals_finite. }
    eapply le_lt_trans; [|exact Hlt]. now apply not_lt_le.
  - intros H. eauto.
Qed.


Local Open Scope Z_scope.
Import JS.

(** ** HeadingControl.tsx: normalising an integer heading *)

Lemma number_eqb_eq x y : number_eqb x y = true -> x = y.
Proof.
  destruct x as [a|a| |a m e], y as [b|b| |b m' e']; try discriminate; simpl; intros H.
  - now rewrite (eqb_prop _ _ H).
  - now rewrite (eqb_prop _ _ H).
  - reflexivity.
  - apply andb_prop in H as [H He]. apply andb_prop in H as [Ha Hm].
    apply eqb_prop in Ha. apply Pos.eqb_eq in Hm. apply Z.eqb_eq in He. congruence.
Qed.

Lemma Zrange_In lo n z : lo <= z < lo + Z.of_nat n -> In z (Zrange lo n).
Proof.
  intros H. unfold Zrange. apply in_map_iff. exists (Z.to_nat (z - lo)). split; [lia|].
  apply in_seq. lia.
Qed.

Lemma forallb_Zrange (f : Z -> bool) lo n :
  forallb f (Zrange lo n) = true -> forall z, lo <= z < lo + Z.of_nat n -> f z = true.
Proof.
  intros H z Hz. rewrite forallb_forall in H. apply H. now apply Zrange_In.
Qed.

(** The second half of the normalisation, on every integer between -359
    and 359, by evaluation. *)
Lemma add_rem_360 K :
  -360 < K < 360 ->
  ((of_Z K + $360) %% $360)%js = of_Z (K mod 360).
Proof.
  intros H. apply number_eqb_eq.
  apply (forallb_Zrange
           (fun K => number_eqb ((of_Z K + $360) %% $360)%js (of_Z (K mod 360)))
           (-359) 719); [vm_compute; reflexivity|lia].
Qed.

Lemma add_rem_360_zero s : ((S754_zero s + $360) %% $360)%js = of_Z 0.
Proof. destruct s; vm_compute; reflexivity. Qed.

Lemma heading_range K :
  0 <= K < 360 ->
  le $0 (of_Z K) = true /\ lt (of_Z K) $360 = true /\ Spec.int_value (of_Z K) = Some K.
Proof.
  intros H.
  assert (G : (le $0 (of_Z K) && lt (of_Z K) $360
               && match Spec.int_value (of_Z K) with Some r => r =? K | None => false end
               = true)%bool).
  { apply (forallb_Zrange
             (fun K => (le $0 (of_Z K) && lt (of_Z K) $360
                        && match Spec.int_value (of_Z K) with
                           | Some r => r =? K
                           | None => false
                           end)%bool) 0 360); [vm_compute; reflexivity|lia]. }
  apply andb_prop in G as [G G3]. apply andb_prop in G as [G1 G2].
  repeat split; trivial.
  destruct (Spec.int_value (of_Z K)) as [r|]; [|discriminate].
  apply Z.eqb_eq in G3. now subst.
Qed.

(** The remainder of an integer-valued number by 360 is the number of the
    integer remainder, or a zero. *)
Lemma rem_360_int v d :
  Spec.int_value v = Some d ->
  (exists s, (v %% $360)%js = S754_zero s /\ Z.rem d 360 = 0) \/
  ((v %% $360)%js = of_Z (Z.rem d 360) /\ Z.rem d 360 <> 0).
Proof.
  destruct v as [s|s| |sn mn en]; try discriminate.
  - intros H. injection H as <-. left. exists s. split; reflexivity.
  - intros H.
    set (A := Z.abs d).
    assert (Hd : 0 < A /\ d = cond_Zopp sn A /\
                 Zpos mn * 2 ^ (en - Z.min en (-44)) = A * 2 ^ (- Z.min en (-44))).
    { unfold Spec.int_value in H. destruct (Z.leb_spec 0 en) as [P|N].
      - assert (Hd0 : d = cond_Zopp sn (Zpos mn * 2 ^ en)) by congruence. clear H.
        assert (0 < Zpos mn * 2 ^ en) by (apply Z.mul_pos_pos; [lia|apply Z.pow_pos_nonneg; lia]).
        assert (A = Zpos mn * 2 ^ en) as ->.
        { unfold A. rewrite Hd0. destruct sn; cbn [cond_Zopp]; lia. }
        repeat split; trivial.
        rewrite <- Z.mul_assoc, <- Z.pow_add_r by lia. do 2 f_equal; lia.
      - destruct (Z.eqb_spec (Zpos mn mod 2 ^ (- en)) 0) as [E|E]; [|discriminate].
        assert (Hd0 : d = cond_Zopp sn (Zpos mn / 2 ^ (- en))) by congruence. clear H.
        assert (Hp : 0 < 2 ^ (- en)) by (apply Z.pow_pos_nonneg; lia).
        pose proof (Z.div_mod (Zpos mn) (2 ^ (- en)) ltac:(lia)) as Hdm.
        rewrite E, Z.add_0_r in Hdm.
        assert (0 < Zpos mn / 2 ^ (- en)) by nia.
        assert (A = Zpos mn / 2 ^ (- en)) as ->.
        { unfold A. rewrite Hd0. destruct sn; cbn [cond_Zopp]; lia. }
        repeat split; trivial.
        rewrite Hdm at 1. rewrite (Z.mul_comm (2 ^ (- en))).
        rewrite <- Z.mul_assoc, <- Z.pow_add_r by lia. do 2 f_equal; lia. }
    destruct Hd as (HA & Hsd & Ha).
    change ($360%js) with (S754_finite false 6333186975989760 (-44)).
    cbn [rem]. set (e := Z.min en (-44)) in *.
    assert (He : e <= -44) by (unfold e; lia).
    assert (Hb : 6333186975989760 * 2 ^ (-44 - e) = 360 * 2 ^ (- e)).
    { change 6333186975989760 with (360 * 2 ^ 44).
      rewrite <- Z.mul_assoc, <- Z.pow_add_r by lia. do 2 f_equal; lia. }
    rewrite Ha, Hb.
    assert (Hp : 0 < 2 ^ (- e)) by (apply Z.pow_pos_nonneg; lia).
    rewrite Z.mul_mod_distr_r by lia.
    assert (Hr : Z.rem d 360 = cond_Zopp sn (A mod 360)).
    { rewrite Hsd. destruct sn; cbn [cond_Zopp].
      - rewrite Z.rem_opp_l by lia. rewrite Z.rem_mod_nonneg by lia. reflexivity.
      - rewrite Z.rem_mod_nonneg by lia. reflexivity. }
    pose proof (Z.mod_pos_bound A 360 ltac:(lia)) as Hm.
    replace (cond_Zopp sn (A mod 360 * 2 ^ (- e)))
      with (cond_Zopp sn (A mod 360) * 2 ^ (- e)) by (destruct sn; cbn [cond_Zopp]; lia).
    rewrite <- Hr.
    destruct (Z.eq_dec (Z.rem d 360) 0) as [Z0|NZ].
    + left. exists sn. rewrite Z0. split; trivial.
    + right. split; trivial. apply binary_normalize_int; [|lia].
      rewrite Hr. destruct sn; cbn [cond_Zopp] in *; lia.
Qed.

(** Normalising an integer-valued number gives the number of its residue
    modulo 360. *)
Lemma normalise_int v d :
  Spec.int_value v = Some d -> HeadingControl.normalise v = of_Z (d mod 360).
Proof.
  intros H. unfold HeadingControl.normalise.
  assert (Hmod : forall r, Z.rem d 360 = r -> r mod 360 = d mod 360).
  { intros r <-. rewrite (Z.quot_rem' d 360) at 2.
    rewrite Z.add_comm, Z.mul_comm, Z.mod_add by lia. reflexivity. }
  destruct (rem_360_int v d H) as [(s & -> & Hz)|[-> Hnz]].
  - rewrite add_rem_360_zero. now rewrite <- (Hmod 0 Hz).
  - pose proof (Z.rem_bound_abs d 360 ltac:(lia)) as Hb.
    rewrite add_rem_360 by lia. now rewrite (Hmod _ eq_refl).
Qed.




Local Open Scope Z_scope.
Import JS.

(** ** HeadingControl.tsx: snapping a whole heading *)

(** The closest cardinal of a whole heading between 0 and 359 and its
    distance, by evaluation on each of them. *)
Lemma closest_int r :
  0 <= r < 360 ->
  let c := Spec.nearest_cardinal r in
  HeadingControl.closest (of_Z r) = of_Z c /\
  Math_abs (of_Z c - of_Z r) = of_Z (Z.abs (c - r)) /\
  In c [0; 90; 180; 270] /\
  forall c', In c' [0; 90; 180; 270] -> Z.abs (c - r) <= Z.abs (c' - r).
Proof.
  intros H c. subst c.
  set (f := fun r =>
              let c := Spec.nearest_cardinal r in
              (number_eqb (HeadingControl.closest (of_Z r)) (of_Z c)
               && number_eqb (Math_abs (of_Z c - of_Z r)) (of_Z (Z.abs (c - r)))
               && existsb (Z.eqb c) [0; 90; 180; 270]
               && forallb (fun c' => Z.abs (c - r) <=? Z.abs (c' - r)) [0; 90; 180; 270])%bool).
  assert (G : f r = true).
  { apply (forallb_Zrange f 0 360); [vm_compute; reflexivity|lia]. }
  unfold f in G. cbv zeta in G.
  apply andb_prop in G as [G G4]. apply andb_prop in G as [G G3].
  apply andb_prop in G as [G1 G2].
  split; [now apply number_eqb_eq|]. split; [now apply number_eqb_eq|]. split.
  - apply existsb_exists in G3 as (x & Hx & E). apply Z.eqb_eq in E. now subst x.
  - intros c' Hc'. rewrite forallb_forall in G4. apply Z.leb_le. now apply G4.
Qed.

(** C5, as stated, fails: a heading at exactly one step from a cardinal
    is not replaced.  With snap enabled and a step of 2, the heading 92
    lies within one step of 90 (its distance to 90 is 2, which is not
    above the step) and is emitted as 92. *)
Lemma heading_one_step_away_not_snapped :
  let p := {| HeadingControl.value := $0; HeadingControl.step := $2;
              HeadingControl.snap := true |}%js in
  HeadingControl.normalise $92 = $92%js /\
  Math_abs ($90 - HeadingControl.normalise $92) = $2%js /\
  le (Math_abs ($90 - HeadingControl.normalise $92)) (HeadingControl.step p) = true /\
  HeadingControl.handleChange p $92 = $92%js /\
  strict_eq (HeadingControl.handleChange p $92) $90 = false.
Proof. vm_compute. repeat split; reflexivity. Qed.

(** C5, amended: with snap enabled, the control emits the closest
    cardinal exactly when some cardinal lies less than one step away from
    the normalised value (the code compares with [<], so a cardinal at
    exactly one step does not count), and the normalised value itself
    otherwise; the closest cardinal is one of 0, 90, 180 and 270 and no
    cardinal is nearer.  For a whole heading [d] the normalised value is
    [d mod 360] and the closest cardinal is the nearest of 0, 90, 180 and
    270 to it, the lower one of two that are as near: the control emits
    that cardinal when its distance to [d mod 360] is below the step, and
    [d mod 360] otherwise.  A heading of 91 with step 2 is emitted as 90,
    and so is 451; a heading of 95 is emitted as 95. *)
Theorem heading_snap_below_step (val step v : number) :
  let p := {| HeadingControl.value := val; HeadingControl.step := step;
              HeadingControl.snap := true |} in
  let deg := HeadingControl.normalise v in
  ((exists c, In c HeadingControl.cardinals /\ lt (Math_abs (c - deg)) step = true) ->
   HeadingControl.handleChange p v = HeadingControl.closest deg) /\
  ((forall c, In c HeadingControl.cardinals -> lt (Math_abs (c - deg)) step = false) ->
   HeadingControl.handleChange p v = deg) /\
  In (HeadingControl.closest deg) HeadingControl.cardinals /\
  (forall c, In c HeadingControl.cardinals ->
             lt (Math_abs (c - deg)) (Math_abs (HeadingControl.closest deg - deg)) = false) /\
  (forall d, Spec.int_value v = Some d ->
             let r := d mod 360 in
             let c := Spec.nearest_cardinal r in
             deg = of_Z r /\
             HeadingControl.closest deg = of_Z c /\
             In c [0; 90; 180; 270] /\
             (forall c', In c' [0; 90; 180; 270] -> Z.abs (c - r) <= Z.abs (c' - r)) /\
             HeadingControl.handleChange p v
             = if lt (of_Z (Z.abs (c - r))) step then of_Z c else of_Z r) /\
  HeadingControl.handleChange
    {| HeadingControl.value := val; HeadingControl.step := $2;
       HeadingControl.snap := true |} $91 = $90%js /\
  HeadingControl.handleChange
    {| HeadingControl.value := val; HeadingControl.step := $2;
       HeadingControl.snap := true |} $451 = $90%js /\
  HeadingControl.handleChange
    {| HeadingControl.value := val; HeadingControl.step := $2;
       HeadingControl.snap := true |} $95 = $95%js.
Proof.
  intros p deg. destruct (closest_spec deg) as [Hin Hmin].
  split; [|split; [|split; [|split; [|split; [|split; [|split]]]]]]; trivial.
  - intros H. apply snap_iff in H. unfold HeadingControl.handleChange.
    cbn [HeadingControl.snap HeadingControl.step p]. fold deg. now rewrite H.
  - intros H. unfold HeadingControl.handleChange.
    cbn [HeadingControl.snap HeadingControl.step p]. fold deg. now rewrite (H _ Hin).
  - intros d Hd r c. pose proof (normalise_int v d Hd) as Hn. fold deg in Hn. fold r in Hn.
    pose proof (Z.mod_pos_bound d 360 ltac:(lia)) as Hb. fold r in Hb.
    destruct (closest_int r Hb) as (C1 & C2 & C3 & C4). fold c in C1, C2, C3, C4.
    split; [exact Hn|]. rewrite Hn. split; [exact C1|]. split; [exact C3|].
    split; [exact C4|].
    unfold HeadingControl.handleChange. cbn [HeadingControl.snap HeadingControl.step p].
    fold deg. rewrite Hn, C1, C2. reflexivity.
Qed.

Local Open Scope Z_scope.
Import JS.

(** ** Dial.tsx *)

Lemma Dial_clamp_between p x :
  le (Dial.min p) (Dial.max p) = true -> isNaN x = false ->
  le (Dial.min p) (Dial.clamp p x) = true /\ le (Dial.clamp p x) (Dial.max p) = true.
Proof.
  intros H Hx. destruct (clamp_between _ _ x H Hx) as (A & B & _). now split.
Qed.

Lemma Dial_clamp_finite p x :
  le (Dial.min p) (Dial.max p) = true ->
  isFinite (Dial.min p) = true -> isFinite (Dial.max p) = true ->
  isNaN x = false -> isFinite (Dial.clamp p x) = true.
Proof.
  intros H H1 H2 Hx. destruct (Dial_clamp_between p x H Hx) as [A B].
  apply (isFinite_between (Dial.min p) (Dial.max p)); assumption.
Qed.

Lemma Dial_clamp_min p :
  lt (Dial.min p) (Dial.max p) = true -> Dial.clamp p (Dial.min p) = Dial.min p.
Proof.
  intros H. unfold Dial.clamp.
  destruct (lt_isNaN _ _ H) as [Hn _].
  assert (E : Math_max (Dial.min p) (Dial.min p) = Dial.min p).
  { destruct (Math_max_cases _ _ Hn Hn) as [[E|E] _]; exact E. }
  rewrite E. unfold Math_min. destruct (lt_compare _ _ H) as [_ ->]. reflexivity.
Qed.

Lemma Dial_clamp_max p :
  lt (Dial.min p) (Dial.max p) = true -> Dial.clamp p (Dial.max p) = Dial.max p.
Proof.
  intros H. unfold Dial.clamp.
  destruct (lt_isNaN _ _ H) as [_ Hn].
  assert (E : Math_max (Dial.min p) (Dial.max p) = Dial.max p).
  { unfold Math_max. destruct (lt_compare _ _ H) as [-> _]. reflexivity. }
  rewrite E. destruct (Math_min_cases _ _ Hn Hn) as [[F|F] _]; exact F.
Qed.

(** The clamped fraction is 0 before the start of the arc and 1 past its
    end. *)
Lemma fraction_below t : lt t $0 = true -> Math_min $1 (Math_max $0 t) = $0%js.
Proof.
  intros H. assert (E : Math_max $0 t = $0%js).
  { unfold Math_max. destruct (lt_compare _ _ H) as [_ ->]. reflexivity. }
  rewrite E. reflexivity.
Qed.

Lemma fraction_above t : lt $1 t = true -> Math_min $1 (Math_max $0 t) = $1%js.
Proof.
  intros H. assert (E : Math_max $0 t = t).
  { assert (L : lt $0 t = true) by (eapply le_lt_trans; [|exact H]; reflexivity).
    unfold Math_max. destruct (lt_compare _ _ L) as [-> _]. reflexivity. }
  rewrite E. unfold Math_min. destruct (lt_compare _ _ H) as [-> _]. reflexivity.
Qed.

(** Rounding does not see the sign of a zero. *)
Lemma Dial_round_zero s1 s2 s :
  Dial.round (S754_zero s1) s = Dial.round (S754_zero s2) s.
Proof.
  rewrite !Dial_round_inr.
  destruct s as [ss|ss| |ss ms es]; reflexivity.
Qed.

Lemma raw_at_zero p :
  isFinite (Dial.range p) = true ->
  Dial.round (Dial.min p + $0 * Dial.range p)%js (Dial.step p)
  = Dial.round (Dial.min p) (Dial.step p).
Proof.
  intros H. destruct (sub_isFinite_inv _ _ H) as [_ Hmin].
  fold (Dial.range p) in *.
  assert (Z : exists sg, ($0 * Dial.range p)%js = S754_zero sg).
  { destruct (Dial.range p) as [s|s| |s m e]; try discriminate; simpl; eauto. }
  destruct Z as [sg ->].
  destruct (Dial.min p) as [s|s| |s m e]; try discriminate.
  - assert (exists s', (S754_zero s + S754_zero sg)%js = S754_zero s') as [s' ->].
    { destruct s, sg; simpl; eauto. }
    apply Dial_round_zero.
  - reflexivity.
Qed.

(** A fraction that is a number resolves to a finite value within
    [[min, max]]. *)
Lemma valueFromAngle_in_range p ang :
  le (Dial.min p) (Dial.max p) = true ->
  isFinite (Dial.range p) = true ->
  isFinite (Dial.step p) = true -> isZero (Dial.step p) = false ->
  isNaN (Dial.fraction p ang) = false ->
  exists v, Dial.valueFromAngle p ang = inr v /\ isFinite v = true /\
            le (Dial.min p) v = true /\ le v (Dial.max p) = true.
Proof.
  intros Hle Hr Hs Hnz Ht.
  destruct (sub_isFinite_inv _ _ Hr) as [Hmax Hmin].
  unfold Dial.valueFromAngle.
  set (t := Math_min $1 (Math_max $0 (Dial.fraction p ang))).
  assert (Hfin : isFinite t = true).
  { destruct (clamp_between $0%js $1%js (Dial.fraction p ang) eq_refl Ht) as (A & B & _).
    apply (isFinite_between $0%js $1%js); trivial. }
  assert (Hraw : isNaN (Dial.min p + t * Dial.range p)%js = false).
  { apply add_finite_isNaN; trivial. now apply mul_finite_isNaN. }
  destruct (Dial_round_isNaN _ (Dial.step p) Hraw Hs Hnz) as (r & -> & Hn).
  cbn [bind ret]. eexists; split; [reflexivity|].
  destruct (Dial_clamp_between p r Hle Hn). split; [|now split].
  now apply Dial_clamp_finite.
Qed.

(** C3, as stated, fails: with [min = 1], [max = 10] and [step = 2], an
    angle before the start of the arc resolves to 2, which is neither
    [min] nor [max]. *)
Lemma valueFromAngle_before_start_not_min :
  let p := {| Dial.value := $5; Dial.min := $1; Dial.max := $10; Dial.step := $2;
              Dial.size := $160; Dial.startAngle := (neg Dial.PI * dec 75 2);
              Dial.endAngle := (Dial.PI * dec 75 2); Dial.disabled := false |}%js in
  let ang := $(-3)%js in
  lt (Dial.min p) (Dial.max p) = true /\ lt $0 (Dial.step p) = true /\
  lt ang (Dial.startAngle p) = true /\
  Dial.valueFromAngle p ang = inr $2%js /\
  strict_eq $2 (Dial.min p) = false /\ strict_eq $2 (Dial.max p) = false.
Proof. vm_compute. repeat split; reflexivity. Qed.

(** C3, amended: for a dial with [min < max], a finite [max - min] and a
    finite positive step, an angle whose fraction [t] is below 0 (before
    the start of the arc) resolves to [clamp(round(min, step))], and an
    angle whose fraction is above 1 (past the end) to
    [clamp(round(min + 1 * (max - min), step))].  Both lie within
    [[min, max]]; the first is exactly [min] when rounding leaves [min]
    unchanged, the second exactly [max] when rounding gives [max]. *)
Theorem valueFromAngle_outside_arc (p : Dial.Props) (ang : number) :
  lt (Dial.min p) (Dial.max p) = true ->
  isFinite (Dial.range p) = true ->
  isFinite (Dial.step p) = true -> lt $0 (Dial.step p) = true ->
  (lt (Dial.fraction p ang) $0 = true ->
   exists r,
     Dial.round (Dial.min p) (Dial.step p) = inr r /\
     Dial.valueFromAngle p ang = inr (Dial.clamp p r) /\
     le (Dial.min p) (Dial.clamp p r) = true /\
     le (Dial.clamp p r) (Dial.max p) = true /\
     (r = Dial.min p -> Dial.valueFromAngle p ang = inr (Dial.min p))) /\
  (lt $1 (Dial.fraction p ang) = true ->
   exists r,
     Dial.round (Dial.min p + $1 * Dial.range p)%js (Dial.step p) = inr r /\
     Dial.valueFromAngle p ang = inr (Dial.clamp p r) /\
     le (Dial.min p) (Dial.clamp p r) = true /\
     le (Dial.clamp p r) (Dial.max p) = true /\
     (r = Dial.max p -> Dial.valueFromAngle p ang = inr (Dial.max p))).
Proof.
  intros Hlt Hr Hs Hpos. pose proof (lt_le _ _ Hlt) as Hle. split; intros Ht.
  - destruct (lt_isNaN _ _ Ht) as [Hn _].
    destruct (valueFromAngle_in_range p ang Hle Hr Hs (lt_isZero _ Hpos) Hn) as (v & Hv & _ & A & B).
    unfold Dial.valueFromAngle in *. rewrite (fraction_below _ Ht) in *.
    rewrite raw_at_zero in * by trivial.
    destruct (Dial.round (Dial.min p) (Dial.step p)) as [e|r]; [discriminate|].
    cbn [bind ret] in *. injection Hv as <-. exists r. repeat split; trivial.
    intros ->. now rewrite Dial_clamp_min.
  - destruct (lt_isNaN _ _ Ht) as [_ Hn].
    destruct (valueFromAngle_in_range p ang Hle Hr Hs (lt_isZero _ Hpos) Hn) as (v & Hv & _ & A & B).
    unfold Dial.valueFromAngle in *. rewrite (fraction_above _ Ht) in *.
    destruct (Dial.round _ (Dial.step p)) as [e|r]; [discriminate|].
    cbn [bind ret] in *. injection Hv as <-. exists r. repeat split; trivial.
    intros ->. now rewrite Dial_clamp_max.
Qed.

Lemma valueFromAngle_outside_arc_witness :
  let p := Dial.defaults $50%js in
  (lt (Dial.fraction p $(-3)) $0 = true /\
   exists r,
     Dial.round (Dial.min p) (Dial.step p) = inr r /\
     Dial.valueFromAngle p $(-3) = inr (Dial.clamp p r) /\
     le (Dial.min p) (Dial.clamp p r) = true /\
     le (Dial.clamp p r) (Dial.max p) = true /\
     (r = Dial.min p -> Dial.valueFromAngle p $(-3) = inr (Dial.min p))) /\
  (lt $1 (Dial.fraction p $3) = true /\
   exists r,
     Dial.round (Dial.min p + $1 * Dial.range p)%js (Dial.step p) = inr r /\
     Dial.valueFromAngle p $3 = inr (Dial.clamp p r) /\
     le (Dial.min p) (Dial.clamp p r) = true /\
     le (Dial.clamp p r) (Dial.max p) = true /\
     (r = Dial.max p -> Dial.valueFromAngle p $3 = inr (Dial.max p))).
Proof.
  intros p. split; (split; [reflexivity|]).
  - exact (proj1 (valueFromAngle_outside_arc p $(-3)%js eq_refl eq_refl eq_refl eq_refl)
             eq_refl).
  - exact (proj2 (valueFromAngle_outside_arc p $3%js eq_refl eq_refl eq_refl eq_refl)
             eq_refl).
Defined.

Local Open Scope Z_scope.
Import JS.

(** *** The pointer *)

Lemma setFromPointer_eq atan2 p box clientX clientY :
  Dial.setFromPointer atan2 p (Some box) clientX clientY
  = (v <- Dial.valueFromAngle p
            (atan2 (clientY - (Dial.top box + Dial.height box / $2))%js
                   (clientX - (Dial.left box + Dial.width box / $2))%js) ;;
     ret [v]).
Proof. reflexivity. Qed.



(** *** The keyboard *)

Lemma delta_isNaN p (shiftKey : bool) :
  isFinite (Dial.step p) = true ->
  isNaN (if shiftKey then Dial.coarse p else Dial.step p) = false.
Proof.
  intros H. destruct shiftKey; [|now apply isFinite_isNaN].
  unfold Dial.coarse. apply Math_max_isNaN; [|now apply isFinite_isNaN].
  now apply mul_finite_isNaN.
Qed.

Lemma coarse_isNaN p : isFinite (Dial.step p) = true -> isNaN (Dial.coarse p) = false.
Proof. apply (delta_isNaN p true). Qed.

Lemma onKeyDown_in_range p key shiftKey v :
  le (Dial.min p) (Dial.max p) = true ->
  isFinite (Dial.min p) = true -> isFinite (Dial.max p) = true ->
  isFinite (Dial.value p) = true -> isFinite (Dial.step p) = true ->
  In v (Dial.onKeyDown p key shiftKey) ->
  isFinite v = true /\ le (Dial.min p) v = true /\ le v (Dial.max p) = true.
Proof.
  intros Hle Hmin Hmax Hv Hs.
  pose proof (delta_isNaN p shiftKey Hs) as Hd. pose proof (coarse_isNaN p Hs) as Hc.
  assert (C : forall x, isNaN x = false ->
                        isFinite (Dial.clamp p x) = true /\
                        le (Dial.min p) (Dial.clamp p x) = true /\
                        le (Dial.clamp p x) (Dial.max p) = true).
  { intros x Hx. split; [now apply Dial_clamp_finite|now apply Dial_clamp_between]. }
  unfold Dial.onKeyDown. destruct (Dial.disabled p); [intros []|].
  repeat match goal with
         | |- In _ (if ?b then _ else _) -> _ => destruct b
         end; intros Hin; try (destruct Hin as [<-|[]]); try (now destruct Hin).
  - apply C. now apply add_finite_isNaN.
  - apply C. now apply sub_finite_isNaN.
  - apply C. now apply add_finite_isNaN.
  - apply C. now apply sub_finite_isNaN.
  - repeat split; trivial. apply le_refl. now apply isFinite_isNaN.
  - repeat split; trivial. apply le_refl. now apply isFinite_isNaN.
Qed.

(** ** SpeedControl.tsx: the number field *)

Lemma numberChange_in_range p a b n :
  le a b = true -> isFinite a = true -> isFinite b = true -> isNaN n = false ->
  let q := SpeedControl.numberChange p a b n in
  Quantity.unit q = SpeedControl.unit p /\
  isFinite (Quantity.value q) = true /\
  le a (Quantity.value q) = true /\ le (Quantity.value q) b = true.
Proof.
  intros Hle Ha Hb Hn. cbn. unfold SpeedControl.clamp.
  destruct (clamp_between a b n Hle Hn) as (A & B & _).
  repeat split; trivial. apply (isFinite_between a b); trivial.
Qed.

(** C4, as stated, fails.  On a dial with a step of 0 a pointer press
    makes the dial call [onChange] with NaN: the dial's own [round]
    divides by the step and, unlike [roundToStep], has no way back from a
    result that is not finite.  On a dial whose maximum lies below its
    minimum a key emits the maximum, which is below the minimum.  On a
    dial whose value is NaN a key emits NaN.  And a click on a preset of
    the speed control is not clamped: the preset 500 km/h is emitted as
    500 where the maximum is 200. *)
Lemma onChange_not_finite_in_range :
  let p := {| Dial.value := $50; Dial.min := $0; Dial.max := $100; Dial.step := $0;
              Dial.size := $160; Dial.startAngle := (neg Dial.PI * dec 75 2);
              Dial.endAngle := (Dial.PI * dec 75 2); Dial.disabled := false |}%js in
  let box := {| Dial.left := $0; Dial.top := $0; Dial.width := $160;
                Dial.height := $160 |}%js in
  let q := {| Dial.value := $50; Dial.min := $100; Dial.max := $0; Dial.step := $1;
              Dial.size := $160; Dial.startAngle := (neg Dial.PI * dec 75 2);
              Dial.endAngle := (Dial.PI * dec 75 2); Dial.disabled := false |}%js in
  let r := {| Dial.value := NaN; Dial.min := $0; Dial.max := $100; Dial.step := $1;
              Dial.size := $160; Dial.startAngle := (neg Dial.PI * dec 75 2);
              Dial.endAngle := (Dial.PI * dec 75 2); Dial.disabled := false |}%js in
  let s := {| SpeedControl.value := {| Quantity.value := $50; Quantity.unit := Unit.kmh |};
              SpeedControl.min := None; SpeedControl.max := None;
              SpeedControl.step := None |}%js in
  let fast := {| Quantity.value := $500; Quantity.unit := Unit.kmh |}%js in
  (Dial.setFromPointer atan2_on_axis p (Some box) $100 $80 = inr [NaN]
   /\ isFinite NaN = false)
  /\ (Dial.onKeyDown q "ArrowUp" false = [$0%js]
      /\ le (Dial.min q) $0 = false)
  /\ Dial.onKeyDown r "ArrowUp" false = [NaN]
  /\ (SpeedControl.onPreset s fast = inr fast
      /\ SpeedControl.vmax s = inr $200%js
      /\ le (Quantity.value fast) $200 = false).
Proof. vm_compute. repeat split; reflexivity. Qed.

(** C4, amended.  Four gestures make a control call [onChange] with a
    finite value within its range, each under the conditions written
    here.  A pointer press or drag on a dial: [min <= max], [max - min]
    and the step are finite, the step is not 0, and the angle of the
    pointer gives a fraction [t] that is a number.  A key pressed on a
    dial: [min <= max], and [min], [max], the value and the step are
    finite.  A text in the number field of the speed control, whatever the
    text: the limits [vmin <= vmax] are finite (the input hands the
    handler a valid number or the empty text, never a text that reads as
    NaN).  ArrowUp or ArrowDown pressed in that number field: the limits
    [vmin <= vmax], the value and the step are finite.  A click on a
    preset or on the unit toggle, whose value is not clamped, is not one
    of the four. *)
Theorem onChange_finite_in_range :
  (forall atan2 p box clientX clientY,
      le (Dial.min p) (Dial.max p) = true ->
      isFinite (Dial.range p) = true ->
      isFinite (Dial.step p) = true -> isZero (Dial.step p) = false ->
      isNaN (Dial.fraction p
               (atan2 (clientY - (Dial.top box + Dial.height box / $2))%js
                      (clientX - (Dial.left box + Dial.width box / $2))%js)) = false ->
      exists v,
        Dial.setFromPointer atan2 p (Some box) clientX clientY = inr [v] /\
        isFinite v = true /\ le (Dial.min p) v = true /\ le v (Dial.max p) = true)
  /\ (forall p key shiftKey v,
         le (Dial.min p) (Dial.max p) = true ->
         isFinite (Dial.min p) = true -> isFinite (Dial.max p) = true ->
         isFinite (Dial.value p) = true -> isFinite (Dial.step p) = true ->
         In v (Dial.onKeyDown p key shiftKey) ->
         isFinite v = true /\ le (Dial.min p) v = true /\ le v (Dial.max p) = true)
  /\ (forall p a b text,
         SpeedControl.vmin p = inr a -> SpeedControl.vmax p = inr b ->
         le a b = true -> isFinite a = true -> isFinite b = true ->
         exists q,
           SpeedControl.onNumericEntry p text = inr [q] /\
           Quantity.unit q = SpeedControl.unit p /\
           isFinite (Quantity.value q) = true /\
           le a (Quantity.value q) = true /\ le (Quantity.value q) b = true)
  /\ (forall p a b key,
         SpeedControl.vmin p = inr a -> SpeedControl.vmax p = inr b ->
         le a b = true -> isFinite a = true -> isFinite b = true ->
         isFinite (Quantity.value (SpeedControl.value p)) = true ->
         isFinite (SpeedControl.stp p) = true ->
         exists qs,
           SpeedControl.onNumberKey p key = inr qs /\
           forall q, In q qs ->
             Quantity.unit q = SpeedControl.unit p /\
             isFinite (Quantity.value q) = true /\
             le a (Quantity.value q) = true /\ le (Quantity.value q) b = true).
Proof.
  split; [|split; [|split]].
  - intros atan2 p box x y Hle Hr Hs Hnz Ht. rewrite setFromPointer_eq.
    destruct (valueFromAngle_in_range p _ Hle Hr Hs Hnz Ht) as (v & -> & Hv).
    exists v. split; [reflexivity|exact Hv].
  - intros p key shiftKey v. apply onKeyDown_in_range.
  - intros p a b text Ha Hb Hle Fa Fb. unfold SpeedControl.onNumericEntry.
    rewrite Ha, Hb. cbn [bind ret map SpeedControl.NumberField_onChange].
    eexists. split; [reflexivity|]. apply numberChange_in_range; trivial.
    apply Number_input_isNaN.
  - intros p a b key Ha Hb Hle Fa Fb Fv Fs. unfold SpeedControl.onNumberKey.
    rewrite Ha, Hb. cbn [bind ret]. eexists. split; [reflexivity|].
    intros q Hq. apply in_map_iff in Hq as (n & <- & Hn).
    apply numberChange_in_range; trivial.
    assert (Fr : isNaN (Math_round (Quantity.value (SpeedControl.value p))) = false)
      by (apply Math_round_isNaN; now apply isFinite_isNaN).
    unfold SpeedControl.NumberField_onKeyDown in Hn.
    apply in_app_or in Hn.
    destruct Hn as [Hn|Hn]; destruct (String.eqb key _); try (now destruct Hn);
      destruct Hn as [<-|[]].
    + now apply add_isNaN.
    + now apply sub_isNaN.
Qed.

Local Open Scope Z_scope.
Import JS.

Lemma onChange_finite_in_range_witness :
  let p := Dial.defaults $50%js in
  let box := {| Dial.left := $0; Dial.top := $0; Dial.width := $160;
                Dial.height := $160 |}%js in
  let s := {| SpeedControl.value := {| Quantity.value := $50; Quantity.unit := Unit.kmh |};
              SpeedControl.min := None; SpeedControl.max := None;
              SpeedControl.step := None |}%js in
  (exists v,
      Dial.setFromPointer atan2_on_axis p (Some box) $100 $80 = inr [v] /\
      isFinite v = true /\ le (Dial.min p) v = true /\ le v (Dial.max p) = true)
  /\ (isFinite $51 = true /\ le (Dial.min p) $51 = true /\ le $51 (Dial.max p) = true)
  /\ (exists q,
         SpeedControl.onNumericEntry s "2e3" = inr [q] /\
         Quantity.unit q = SpeedControl.unit s /\
         isFinite (Quantity.value q) = true /\
         le $0 (Quantity.value q) = true /\ le (Quantity.value q) $200 = true)
  /\ (exists qs,
         SpeedControl.onNumberKey s "ArrowUp" = inr qs /\
         forall q, In q qs ->
           Quantity.unit q = SpeedControl.unit s /\
           isFinite (Quantity.value q) = true /\
           le $0 (Quantity.value q) = true /\ le (Quantity.value q) $200 = true).
Proof.
  intros p box s.
  destruct onChange_finite_in_range as (A & B & C & D).
  split; [|split; [|split]].
  - apply (A atan2_on_axis p box); reflexivity.
  - apply (B p "ArrowRight" false); try reflexivity. vm_compute. now left.
  - apply (C s); reflexivity.
  - apply (D s); reflexivity.
Defined.

(** *** Arrow keys *)

Lemma multiple_of_add (a d s : Q) :
  Spec.multiple_of d s ->
  (Spec.multiple_of (a + d) s <-> Spec.multiple_of a s) /\
  (Spec.multiple_of (a - d) s <-> Spec.multiple_of a s).
Proof.
  intros [k Hk]. unfold Spec.multiple_of. repeat split; intros [j Hj].
  - exists (j - k). unfold Z.sub. rewrite inject_Z_plus, inject_Z_opp.
    rewrite Qmult_plus_distr_l, <- Hj. rewrite Hk. ring.
  - exists (j + k). rewrite inject_Z_plus, Qmult_plus_distr_l, <- Hj, <- Hk. reflexivity.
  - exists (j + k). rewrite inject_Z_plus, Qmult_plus_distr_l, <- Hj, Hk. ring.
  - exists (j - k). unfold Z.sub. rewrite inject_Z_plus, inject_Z_opp.
    rewrite Qmult_plus_distr_l, <- Hj, Hk. ring.
Qed.

(** C10, as stated, fails: on a dial from 0 to 100 with step 1, the value
    99.5 is not a multiple of the step, and the right arrow emits 100,
    which is one. *)
Lemma arrow_key_clamps_onto_grid :
  let p := {| Dial.value := dec 995 1; Dial.min := $0; Dial.max := $100;
              Dial.step := $1; Dial.size := $160;
              Dial.startAngle := (neg Dial.PI * dec 75 2);
              Dial.endAngle := (Dial.PI * dec 75 2); Dial.disabled := false |}%js in
  lt (Dial.min p) (Dial.max p) = true /\ lt $0 (Dial.step p) = true /\
  Spec.is_multiple (Dial.value p) (Dial.step p) = false /\
  Dial.onKeyDown p "ArrowRight" false = [$100%js] /\
  Spec.is_multiple $100 (Dial.step p) = true.
Proof. vm_compute. repeat split; reflexivity. Qed.

(** The same happens without clamping when the addition rounds: 1e-20 is
    not a multiple of 1, and 1e-20 + 1 is the number 1. *)
Lemma arrow_key_absorbs_value :
  let p := {| Dial.value := dec 1 20; Dial.min := $0; Dial.max := $100;
              Dial.step := $1; Dial.size := $160;
              Dial.startAngle := (neg Dial.PI * dec 75 2);
              Dial.endAngle := (Dial.PI * dec 75 2); Dial.disabled := false |}%js in
  Spec.is_multiple (Dial.value p) (Dial.step p) = false /\
  Dial.onKeyDown p "ArrowRight" false = [$1%js] /\
  Spec.is_multiple $1 (Dial.step p) = true.
Proof. vm_compute. repeat split; reflexivity. Qed.

(** C10, amended: on an enabled dial an arrow key emits exactly
    [clamp(value + delta)] (right, up) or [clamp(value - delta)] (left,
    down), where [delta] is [step], or [max(step * 10, step)] with shift;
    nothing is rounded to the step grid.  When the sum lies within
    [[min, max]] the emitted value equals it; and when the emitted value
    is exactly the sum (no clamping, no rounding in the addition) and
    [delta] is a multiple of [step], the emitted value is a multiple of
    [step] if and only if the caller's value is. *)
Theorem arrow_key_emits (p : Dial.Props) (key : string) (shiftKey : bool) :
  Dial.disabled p = false ->
  In key Spec.arrow_keys ->
  let delta := if shiftKey then Math_max (Dial.step p * $10)%js (Dial.step p)
               else Dial.step p in
  let up := (String.eqb key "ArrowRight" || String.eqb key "ArrowUp")%bool in
  let next := if up then (Dial.value p + delta)%js else (Dial.value p - delta)%js in
  Dial.onKeyDown p key shiftKey = [Dial.clamp p next] /\
  (le (Dial.min p) next = true -> le next (Dial.max p) = true ->
   strict_eq (Dial.clamp p next) next = true) /\
  (forall a d s e : Q,
      Spec.to_Q (Dial.value p) = Some a -> Spec.to_Q delta = Some d ->
      Spec.to_Q (Dial.step p) = Some s -> Spec.to_Q (Dial.clamp p next) = Some e ->
      (e == if up then a + d else a - d)%Q ->
      Spec.multiple_of d s ->
      (Spec.multiple_of e s <-> Spec.multiple_of a s)).
Proof.
  intros Hd Hk delta up next. split; [|split].
  - unfold Dial.onKeyDown. rewrite Hd. fold (Dial.coarse p). subst next up delta.
    unfold Dial.coarse.
    destruct Hk as [<-|[<-|[<-|[<-|[]]]]]; reflexivity.
  - intros H1 H2. now apply clamp_inside.
  - intros a d s e _ _ _ _ He Hm.
    destruct (multiple_of_add a d s Hm) as [Hp Hn].
    destruct up; unfold Spec.multiple_of in *; setoid_rewrite He; assumption.
Qed.

Lemma arrow_key_emits_witness :
  let p := {| Dial.value := dec 5 1; Dial.min := $0; Dial.max := $100;
              Dial.step := $1; Dial.size := $160;
              Dial.startAngle := (neg Dial.PI * dec 75 2);
              Dial.endAngle := (Dial.PI * dec 75 2); Dial.disabled := false |}%js in
  Dial.onKeyDown p "ArrowRight" false = [Dial.clamp p (dec 5 1 + $1)%js] /\
  strict_eq (Dial.clamp p (dec 5 1 + $1)%js) (dec 5 1 + $1)%js = true /\
  exists a s e : Q,
    Spec.to_Q (Dial.value p) = Some a /\ Spec.to_Q (Dial.step p) = Some s /\
    Spec.to_Q (Dial.clamp p (dec 5 1 + $1)%js) = Some e /\
    (Spec.multiple_of e s <-> Spec.multiple_of a s).
Proof.
  intros p.
  destruct (arrow_key_emits p "ArrowRight" false eq_refl (or_introl eq_refl))
    as (A & B & C).
  split; [exact A|]. split; [exact (B eq_refl eq_refl)|].
  do 3 eexists. split; [reflexivity|]. split; [reflexivity|]. split; [reflexivity|].
  eapply C; try reflexivity.
  exists 1. reflexivity.
Defined.

Local Open Scope Z_scope.
Import JS.

(** ** Rounding to binary64: the error of one operation *)

Lemma pow2_pos e : (0 < 2 ^ e)%Q.
Proof. apply Qpower_0_lt. reflexivity. Qed.

Lemma pow2_add a b : (2 ^ (a + b) == 2 ^ a * 2 ^ b)%Q.
Proof. apply Qpower_plus. discriminate. Qed.

Lemma pow2_inject n : 0 <= n -> (inject_Z (2 ^ n) == 2 ^ n)%Q.
Proof. intros H. now rewrite Zpower_Qpower. Qed.

Lemma pow2_opp_1 : (2 ^ (-1) == 1 # 2)%Q.
Proof. reflexivity. Qed.

Lemma shr_1_spec m r s :
  0 <= m ->
  shr_1 {| shr_m := m; shr_r := r; shr_s := s |}
  = {| shr_m := m / 2; shr_r := Z.odd m; shr_s := r || s |}.
Proof.
  intros H. destruct m as [|[p|p|]|p]; try lia; cbn [shr_1]; f_equal.
  - rewrite Pos2Z.inj_xI. rewrite Z.add_comm, Z.mul_comm, Z.div_add by lia. reflexivity.
  - rewrite Pos2Z.inj_xO. rewrite Z.mul_comm, Z.div_mul by lia. reflexivity.
Qed.

(** Shifting by one bit halves the real and keeps it in place. *)
Lemma shr_1_inv mrs y : loc_inv mrs y -> loc_inv (shr_1 mrs) (y * (1 # 2)).
Proof.
  destruct mrs as [m r s]. unfold loc_inv. cbn [shr_m shr_r shr_s].
  intros [Hm H]. rewrite shr_1_spec by trivial. cbn [shr_m shr_r shr_s].
  split; [apply Z.div_pos; lia|].
  pose proof (Z.div_mod m 2 ltac:(lia)) as Hd.
  rewrite Zmod_odd in Hd.
  assert (E : (inject_Z m == 2 * inject_Z (m / 2) + (if Z.odd m then 1 else 0))%Q).
  { rewrite Hd at 1. rewrite inject_Z_plus, inject_Z_mult.
    destruct (Z.odd m); reflexivity. }
  set (k := inject_Z (m / 2)) in *. set (q := inject_Z m) in *.
  clearbody k q. clear Hd.
  destruct (Z.odd m), r, s; cbn [orb]; lra.
Qed.

Lemma shr_iter_inv n mrs y :
  loc_inv mrs y -> loc_inv (Nat.iter n shr_1 mrs) (y * 2 ^ (- Z.of_nat n)).
Proof.
  induction n as [|n IH]; intros H.
  - simpl. unfold loc_inv in *. destruct H as [H0 H]. split; trivial.
    destruct (shr_r mrs), (shr_s mrs); lra.
  - cbn [Nat.iter nat_rect]. apply shr_1_inv in IH; trivial.
    change (nat_rect _ _ _ n) with (Nat.iter n shr_1 mrs).
    assert (E : (y * 2 ^ (- Z.of_nat (S n)) == y * 2 ^ (- Z.of_nat n) * (1 # 2))%Q).
    { replace (- Z.of_nat (S n)) with (- Z.of_nat n + -1) by lia.
      rewrite pow2_add, pow2_opp_1. ring. }
    unfold loc_inv in *. destruct IH as [I0 I]. split; trivial.
    destruct (shr_r _), (shr_s _); rewrite E; trivial.
Qed.

Lemma shr_inv mrs e n y :
  0 <= n -> loc_inv mrs y ->
  loc_inv (fst (shr mrs e n)) (y * 2 ^ (- n)) /\ snd (shr mrs e n) = e + n.
Proof.
  intros Hn H. unfold shr. destruct n as [|p|p]; try lia.
  - cbn [fst snd]. split; [|lia].
    unfold loc_inv in *. destruct H as [H0 H]. split; trivial.
    change (2 ^ (- 0))%Q with 1%Q.
    destruct (shr_r mrs), (shr_s mrs); lra.
  - cbn [fst snd]. split; [|reflexivity].
    rewrite iter_pos_nat. rewrite <- (positive_nat_Z p). now apply shr_iter_inv.
Qed.

Lemma shr_record_of_loc_inv_exact m : 0 <= m -> loc_inv (shr_record_of_loc m loc_Exact) (inject_Z m).
Proof. intros H. split; [exact H|]. simpl. reflexivity. Qed.

(** Rounding to nearest moves the real by at most one half. *)
Lemma round_nearest_even_inv mrs y :
  loc_inv mrs y ->
  let M := round_nearest_even (shr_m mrs) (loc_of_shr_record mrs) in
  shr_m mrs <= M <= shr_m mrs + 1 /\
  (inject_Z M - (1 # 2) <= y <= inject_Z M + (1 # 2))%Q.
Proof.
  destruct mrs as [m r s]. unfold loc_inv. cbn [shr_m shr_r shr_s].
  intros [H0 H].
  assert (E : (inject_Z (m + 1) == inject_Z m + 1)%Q) by (rewrite inject_Z_plus; reflexivity).
  destruct r, s; cbn [loc_of_shr_record round_nearest_even];
    try (destruct (Z.even m)); (split; [lia|]); rewrite ?E; lra.
Qed.

Lemma loc_inv_bounds mrs y :
  loc_inv mrs y -> (inject_Z (shr_m mrs) <= y < inject_Z (shr_m mrs) + 1)%Q.
Proof.
  unfold loc_inv. intros [_ H]. destruct (shr_r mrs), (shr_s mrs); lra.
Qed.

(** A mantissa of at least 53 bits whose real [y * 2^ex] lies above the
    subnormal range is rounded to a normal number within the relative
    error [2^-53], or to infinity when it is too large. *)
Lemma binary_round_aux_large s mx ex lx y :
  0 < mx -> loc_inv (shr_record_of_loc mx lx) y ->
  53 <= Zdigits2 mx -> -1021 <= Zdigits2 mx + ex ->
  (binary_round_aux prec emax s mx ex lx = S754_infinity s /\ 1023 < Zdigits2 mx + ex)
  \/
  exists M e',
    binary_round_aux prec emax s mx ex lx = S754_finite s M e' /\
    2 ^ 52 <= Zpos M < 2 ^ 53 /\
    Zdigits2 mx + ex - 53 <= e' <= Zdigits2 mx + ex - 52 /\
    (Qabs (inject_Z (Zpos M) * 2 ^ e' - y * 2 ^ ex) <= y * 2 ^ ex * u53)%Q.
Proof.
  intros Hmx Hinv Hd HD.
  set (d := Zdigits2 mx) in *. set (n := d - 53). set (e1 := ex + n).
  assert (Hn : 0 <= n) by (unfold n; lia).
  unfold binary_round_aux, shr_fexp. fold d.
  assert (Hf : fexp prec emax (d + ex) - ex = n) by (rewrite fexp_eq; unfold n; lia).
  rewrite Hf.
  destruct (shr_inv (shr_record_of_loc mx lx) ex n y Hn Hinv) as [I1 E1].
  destruct (shr (shr_record_of_loc mx lx) ex n) as [mrs' e'] eqn:Es.
  cbn [fst snd] in I1, E1. subst e'. fold e1.
  (* bounds on the real *)
  assert (Hm0 : shr_m (shr_record_of_loc mx lx) = mx) by apply shr_record_of_loc_m.
  pose proof (loc_inv_bounds _ _ Hinv) as Hy. rewrite Hm0 in Hy.
  pose proof (Zdigits2_bounds mx Hmx) as [Bl Bu]. fold d in Bl, Bu.
  set (y1 := (y * 2 ^ (- n))%Q) in *.
  assert (P52 : (inject_Z (2 ^ 52) == 4503599627370496)%Q) by reflexivity.
  assert (P53 : (inject_Z (2 ^ 53) == 9007199254740992)%Q) by reflexivity.
  assert (Hy1 : (4503599627370496 <= y1 /\ y1 < 9007199254740992)%Q).
  { assert (Pn : (0 < 2 ^ (- n))%Q) by apply pow2_pos.
    assert (A : (inject_Z (2 ^ (d - 1)) * 2 ^ (- n) == 4503599627370496)%Q).
    { rewrite pow2_inject by lia. rewrite <- pow2_add.
      replace (d - 1 + - n) with 52 by (unfold n; lia). reflexivity. }
    assert (B : (inject_Z (2 ^ d) * 2 ^ (- n) == 9007199254740992)%Q).
    { rewrite pow2_inject by lia. rewrite <- pow2_add.
      replace (d + - n) with 53 by (unfold n; lia). reflexivity. }
    assert (L : (inject_Z (2 ^ (d - 1)) <= y)%Q).
    { eapply Qle_trans; [|apply Hy]. rewrite <- Zle_Qle. exact Bl. }
    assert (U : (y < inject_Z (2 ^ d))%Q).
    { eapply Qlt_le_trans; [apply Hy|].
      change 1%Q with (inject_Z 1). rewrite <- inject_Z_plus, <- Zle_Qle. lia. }
    unfold y1. split.
    - rewrite <- A. apply Qmult_le_compat_r; [exact L|]. now apply Qlt_le_weak.
    - rewrite <- B. apply Qmult_lt_compat_r; trivial. }
  pose proof (loc_inv_bounds _ _ I1) as Hm1.
  destruct I1 as [I0 I1'].
  pose proof (round_nearest_even_inv mrs' y1 (conj I0 I1')) as [HM HMy].
  set (m1 := shr_m mrs') in *.
  set (M0 := round_nearest_even m1 (loc_of_shr_record mrs')) in *.
  assert (Hm1b : 2 ^ 52 <= m1 < 2 ^ 53).
  { split.
    - assert (2 ^ 52 - 1 < m1); [|lia].
      rewrite Zlt_Qlt. unfold Z.sub. rewrite inject_Z_plus, P52.
      change (inject_Z (- (1))) with (- (1))%Q. lra.
    - rewrite Zlt_Qlt, P53. lra. }
  assert (HM0 : 2 ^ 52 <= M0 <= 2 ^ 53) by lia.
  (* the value of the result *)
  assert (Hval : forall M e', (inject_Z (Zpos M) * 2 ^ e' == inject_Z M0 * 2 ^ e1)%Q ->
             (Qabs (inject_Z (Zpos M) * 2 ^ e' - y * 2 ^ ex) <= y * 2 ^ ex * u53)%Q).
  { intros M e' ->.
    assert (Ey : (y * 2 ^ ex == y1 * 2 ^ e1)%Q).
    { unfold y1, e1. rewrite <- Qmult_assoc, <- pow2_add.
      replace (- n + (ex + n)) with ex by lia. reflexivity. }
    rewrite Ey. pose proof (pow2_pos e1) as Pe.
    set (E := (2 ^ e1)%Q) in *. set (q := inject_Z M0) in *.
    assert (Hu : (u53 == 1 # 9007199254740992)%Q) by reflexivity.
    rewrite Hu. clearbody E q y1.
    apply Qabs_Qle_condition. split; nra. }
  destruct (Z.eq_dec M0 (2 ^ 53)) as [E53|N53].
  - (* the rounding carried into the next binade *)
    assert (Hd54 : Zdigits2 M0 = 54) by (rewrite E53; reflexivity).
    assert (Hf2 : fexp prec emax (Zdigits2 M0 + e1) - e1 = 1)
      by (rewrite Hd54, fexp_eq; unfold e1, n; lia).
    rewrite Hf2. cbn [shr_record_of_loc]. rewrite E53.
    change (2 ^ 53) with (2 ^ 52 * 2 ^ 1). rewrite shr_exact by lia.
    cbn [shr_m]. change (2 ^ 52) with (Zpos (Z.to_pos (2 ^ 52))).
    destruct (Z.leb_spec (e1 + 1) (emax - prec)) as [_|G];
      [|left; split; [reflexivity|unfold emax, prec, e1, n in G; lia]].
    right. eexists; eexists. split; [reflexivity|]. split; [simpl; lia|].
    split; [unfold e1, n; lia|].
    apply Hval. rewrite E53, pow2_add.
    assert (X : (inject_Z (2 ^ 53) == inject_Z (Zpos (Z.to_pos (2 ^ 52))) * 2 ^ 1)%Q)
      by reflexivity.
    rewrite X. ring.
  - assert (Hd53 : Zdigits2 M0 = 53) by (apply Zdigits2_unique; simpl; lia).
    assert (Hf2 : fexp prec emax (Zdigits2 M0 + e1) - e1 = 0)
      by (rewrite Hd53, fexp_eq; unfold e1, n; lia).
    rewrite Hf2. rewrite shr_nonpos by lia. rewrite shr_record_of_loc_m.
    destruct M0 as [|M|M] eqn:EM; try lia.
    destruct (Z.leb_spec e1 (emax - prec)) as [_|G];
      [|left; split; [reflexivity|unfold emax, prec, e1, n in G; lia]].
    right. eexists; eexists. split; [reflexivity|]. split; [lia|].
    split; [unfold e1, n; lia|].
    apply Hval. reflexivity.
Qed.

(** In the normal range the result is finite. *)
Lemma binary_round_aux_normal s mx ex lx y :
  0 < mx -> loc_inv (shr_record_of_loc mx lx) y ->
  53 <= Zdigits2 mx -> -1021 <= Zdigits2 mx + ex <= 1023 ->
  exists M e',
    binary_round_aux prec emax s mx ex lx = S754_finite s M e' /\
    2 ^ 52 <= Zpos M < 2 ^ 53 /\
    Zdigits2 mx + ex - 53 <= e' <= Zdigits2 mx + ex - 52 /\
    (Qabs (inject_Z (Zpos M) * 2 ^ e' - y * 2 ^ ex) <= y * 2 ^ ex * u53)%Q.
Proof.
  intros Hmx Hinv Hd HD.
  destruct (binary_round_aux_large s mx ex lx y Hmx Hinv Hd ltac:(lia)) as [[_ G]|H];
    [lia|exact H].
Qed.

Lemma normal_digits m : 2 ^ 52 <= m < 2 ^ 53 -> Zdigits2 m = 53.
Proof. intros H. apply Zdigits2_unique; simpl; lia. Qed.

(** *** Multiplication *)

Lemma mul_error x y :
  normal x -> normal y ->
  -1021 <= exponent x + exponent y + 105 -> exponent x + exponent y + 106 <= 1023 ->
  exists M e',
    (x * y)%js = S754_finite (xorb (sign x) (sign y)) M e' /\
    2 ^ 52 <= Zpos M < 2 ^ 53 /\
    exponent x + exponent y + 52 <= e' <= exponent x + exponent y + 54 /\
    (Qabs (inject_Z (Zpos M) * 2 ^ e' - mag x * mag y) <= mag x * mag y * u53)%Q.
Proof.
  destruct x as [| | |sx mx ex], y as [| | |sy my ey]; try contradiction.
  cbn [normal exponent sign mag]. intros Hx Hy Hlo Hhi.
  assert (HP : 2 ^ 104 <= Zpos mx * Zpos my < 2 ^ 106).
  { change (2 ^ 104) with (2 ^ 52 * 2 ^ 52). change (2 ^ 106) with (2 ^ 53 * 2 ^ 53). nia. }
  assert (Hd : 105 <= Zdigits2 (Zpos mx * Zpos my) <= 106).
  { pose proof (Zdigits2_bounds (Zpos mx * Zpos my) ltac:(lia)) as [A B].
    set (d := Zdigits2 (Zpos mx * Zpos my)) in *. split.
    - destruct (Z.le_gt_cases 105 d); trivial.
      assert (2 ^ d <= 2 ^ 104) by (apply Z.pow_le_mono_r; lia). lia.
    - destruct (Z.le_gt_cases d 106); trivial.
      assert (2 ^ 106 <= 2 ^ (d - 1)) by (apply Z.pow_le_mono_r; lia). lia. }
  destruct (binary_round_aux_normal (xorb sx sy) (Zpos mx * Zpos my) (ex + ey) loc_Exact
              (inject_Z (Zpos mx * Zpos my))) as (M & e' & E & HM & He & Herr);
    try lia.
  { apply shr_record_of_loc_inv_exact. lia. }
  exists M, e'. split; [exact E|]. split; [exact HM|]. split; [lia|].
  assert (Ev : (inject_Z (Zpos mx * Zpos my) * 2 ^ (ex + ey)
                == inject_Z (Zpos mx) * 2 ^ ex * (inject_Z (Zpos my) * 2 ^ ey))%Q).
  { rewrite inject_Z_mult, pow2_add. ring. }
  rewrite <- Ev. exact Herr.
Qed.

(** *** Division *)

Lemma new_location_inv q my r :
  0 <= q -> 0 < my -> 0 <= r < my ->
  loc_inv (shr_record_of_loc q (new_location my r)) (inject_Z q + inject_Z r / inject_Z my).
Proof.
  intros Hq Hmy Hr. split; [now rewrite shr_record_of_loc_m|].
  assert (Pm : (0 < inject_Z my)%Q) by (change 0%Q with (inject_Z 0); now rewrite <- Zlt_Qlt).
  set (t := (inject_Z r / inject_Z my)%Q).
  assert (T0 : r = 0 -> (t == 0)%Q).
  { intros ->. unfold t. change (inject_Z 0) with 0%Q. field. lra. }
  assert (Tp : 0 < r -> (0 < t)%Q).
  { intros H. unfold t. apply Qlt_shift_div_l; trivial.
    rewrite Qmult_0_l. change 0%Q with (inject_Z 0). now rewrite <- Zlt_Qlt. }
  assert (T1 : (t < 1)%Q).
  { unfold t. apply Qlt_shift_div_r; trivial. rewrite Qmult_1_l, <- Zlt_Qlt. lia. }
  assert (Tlt : 2 * r < my -> (t < 1 # 2)%Q).
  { intros H. unfold t. apply Qlt_shift_div_r; trivial.
    assert (E : ((1 # 2) * inject_Z my == inject_Z my / 2)%Q) by (field).
    rewrite E. apply Qlt_shift_div_l; [reflexivity|].
    change 2%Q with (inject_Z 2). rewrite <- inject_Z_mult, <- Zlt_Qlt. lia. }
  assert (Tgt : my < 2 * r -> (1 # 2 < t)%Q).
  { intros H. unfold t. apply Qlt_shift_div_l; trivial.
    assert (E : ((1 # 2) * inject_Z my == inject_Z my / 2)%Q) by (field).
    rewrite E. apply Qlt_shift_div_r; [reflexivity|].
    change 2%Q with (inject_Z 2). rewrite <- inject_Z_mult, <- Zlt_Qlt. lia. }
  assert (Teq : 2 * r = my -> (t == 1 # 2)%Q).
  { intros H. unfold t. rewrite <- H, inject_Z_mult. change (inject_Z 2) with 2%Q.
    field. intros Z. rewrite <- H, inject_Z_mult in Pm. change (inject_Z 2) with 2%Q in Pm.
    lra. }
  assert (En : new_location my r
               = if Z.even my then new_location_even my r else new_location_odd my r).
  { unfold new_location. now destruct (Z.even my). }
  assert (Ee : new_location_even my r
               = if r =? 0 then loc_Exact else loc_Inexact (2 * r ?= my)) by reflexivity.
  assert (Eo : new_location_odd my r
               = if r =? 0 then loc_Exact
                 else loc_Inexact match 2 * r + 1 ?= my with Gt => Gt | _ => Lt end)
    by reflexivity.
  rewrite En, Ee, Eo. clear En Ee Eo.
  destruct (Z.eqb_spec r 0) as [R0|R0].
  { destruct (Z.even my); cbn [shr_record_of_loc shr_r shr_s shr_m];
      specialize (T0 R0); lra. }
  assert (Rp : 0 < r) by lia. specialize (Tp Rp).
  destruct (Z.even my) eqn:Ev.
  - destruct (Z.compare_spec (2 * r) my) as [C|C|C];
      cbn [shr_record_of_loc shr_r shr_s shr_m].
    + specialize (Teq C). lra.
    + specialize (Tlt C). lra.
    + specialize (Tgt C). lra.
  - assert (Hodd : Z.odd my = true) by (rewrite <- Z.negb_even, Ev; reflexivity).
    rewrite Z.odd_spec in Hodd. destruct Hodd as [k Hk].
    destruct (Z.compare_spec (2 * r + 1) my) as [C|C|C];
      cbn [shr_record_of_loc shr_r shr_s shr_m].
    + assert (C' : 2 * r < my) by lia. specialize (Tlt C'). lra.
    + assert (C' : 2 * r < my) by lia. specialize (Tlt C'). lra.
    + assert (C' : my < 2 * r) by lia. specialize (Tgt C'). lra.
Qed.

Lemma div_error x y :
  normal x -> normal y ->
  -1021 <= exponent x - exponent y -> exponent x - exponent y + 1 <= 1023 ->
  exists M e',
    (x / y)%js = S754_finite (xorb (sign x) (sign y)) M e' /\
    2 ^ 52 <= Zpos M < 2 ^ 53 /\
    exponent x - exponent y - 53 <= e' <= exponent x - exponent y - 51 /\
    (Qabs (inject_Z (Zpos M) * 2 ^ e' - mag x / mag y) <= mag x / mag y * u53)%Q.
Proof.
  destruct x as [| | |sx mx ex], y as [| | |sy my ey]; try contradiction.
  cbn [normal exponent sign mag]. intros Hx Hy Hlo Hhi.
  unfold div, SFdiv, SFdiv_core_binary.
  rewrite (normal_digits _ Hx), (normal_digits _ Hy).
  assert (He : Z.min (fexp prec emax (53 + ex - (53 + ey))) (ex - ey) = ex - ey - 53)
    by (rewrite fexp_eq; lia).
  rewrite He. replace (ex - ey - (ex - ey - 53)) with 53 by lia.
  cbv iota. rewrite Z.shiftl_mul_pow2 by lia.
  pose proof (Z_div_mod (Zpos mx * 2 ^ 53) (Zpos my) ltac:(lia)) as Hdm.
  destruct (Z.div_eucl (Zpos mx * 2 ^ 53) (Zpos my)) as [q r]. destruct Hdm as [Hdm Hr].
  assert (Hq : 2 ^ 52 <= q < 2 ^ 54).
  { change (2 ^ 53) with 9007199254740992 in *. change (2 ^ 52) with 4503599627370496 in *.
    change (2 ^ 54) with 18014398509481984. nia. }
  assert (Hd : 53 <= Zdigits2 q <= 54).
  { pose proof (Zdigits2_bounds q ltac:(lia)) as [A B].
    set (d := Zdigits2 q) in *. split.
    - destruct (Z.le_gt_cases 53 d); trivial.
      assert (2 ^ d <= 2 ^ 52) by (apply Z.pow_le_mono_r; lia). lia.
    - destruct (Z.le_gt_cases d 54); trivial.
      assert (2 ^ 54 <= 2 ^ (d - 1)) by (apply Z.pow_le_mono_r; lia). lia. }
  destruct (binary_round_aux_normal (xorb sx sy) q (ex - ey - 53) (new_location (Zpos my) r)
              (inject_Z q + inject_Z r / inject_Z (Zpos my))) as (M & e' & E & HM & He' & Herr);
    try lia.
  { apply new_location_inv; lia. }
  exists M, e'. split; [exact E|]. split; [exact HM|]. split; [lia|].
  assert (Ev : ((inject_Z q + inject_Z r / inject_Z (Zpos my)) * 2 ^ (ex - ey - 53)
                == inject_Z (Zpos mx) * 2 ^ ex / (inject_Z (Zpos my) * 2 ^ ey))%Q).
  { assert (Pm : ~ (inject_Z (Zpos my) == 0)%Q).
    { intros Z. assert (0 < inject_Z (Zpos my))%Q by (change 0%Q with (inject_Z 0);
        rewrite <- Zlt_Qlt; lia). lra. }
    pose proof (pow2_pos ey) as Pey.
    assert (Em : (inject_Z (Zpos mx) * inject_Z (2 ^ 53)
                  == inject_Z (Zpos my) * inject_Z q + inject_Z r)%Q).
    { rewrite <- !inject_Z_mult, <- inject_Z_plus. now rewrite Hdm. }
    replace (ex - ey - 53) with (ex + (- ey + -53)) by lia.
    rewrite !pow2_add.
    assert (E53 : (inject_Z (2 ^ 53) * 2 ^ (-53) == 1)%Q) by reflexivity.
    assert (Eey : (2 ^ (- ey) == / 2 ^ ey)%Q) by apply Qpower_opp.
    rewrite Eey.
    assert (G : ((inject_Z q + inject_Z r / inject_Z (Zpos my))
                 == inject_Z (Zpos mx) * inject_Z (2 ^ 53) / inject_Z (Zpos my))%Q).
    { rewrite Em. field. exact Pm. }
    rewrite G.
    transitivity (inject_Z (Zpos mx) * (inject_Z (2 ^ 53) * 2 ^ (-53)) * 2 ^ ex
                  / (inject_Z (Zpos my) * 2 ^ ey))%Q.
    - field. split; [lra|exact Pm].
    - rewrite E53. field. split; [lra|exact Pm]. }
  rewrite <- Ev. exact Herr.
Qed.

Local Open Scope Z_scope.
Import JS.

(** ** quantity.ts: the round trip of [convert] *)

Lemma mag_pos x : normal x -> (0 < mag x)%Q.
Proof.
  destruct x as [| | |s m e]; try contradiction. intros _. cbn [mag].
  pose proof (pow2_pos e).
  assert (0 < inject_Z (Zpos m))%Q by (change 0%Q with (inject_Z 0); rewrite <- Zlt_Qlt; lia).
  nra.
Qed.

Lemma rel_scale p q u c :
  (0 < c -> Qabs (p - q) <= q * u -> Qabs (p * c - q * c) <= q * c * u)%Q.
Proof.
  intros Hc H. rewrite Qabs_Qle_condition in *. destruct H as [H1 H2]. split; nra.
Qed.

Lemma rel_chain4 r z1 z2 z3 z4 :
  (0 <= r ->
   Qabs (z1 - r) <= r * u53 -> Qabs (z2 - z1) <= z1 * u53 ->
   Qabs (z3 - z2) <= z2 * u53 -> Qabs (z4 - z3) <= z3 * u53 ->
   Qabs (z4 - r) <= r * (1 # 1000000000))%Q.
Proof.
  change u53 with (1 # 9007199254740992)%Q.
  intros Hr H1 H2 H3 H4. rewrite Qabs_Qle_condition in *. lra.
Qed.

(** Multiplying by a factor and dividing by another, then undoing both,
    moves a normal number by at most four roundings. *)
Lemma round_trip_error v a b :
  normal v -> -1049 <= exponent v <= 944 ->
  normal a -> sign a = false -> -54 <= exponent a <= -52 ->
  normal b -> sign b = false -> -54 <= exponent b <= -52 ->
  exists M e,
    (v * a / b * b / a)%js = S754_finite (sign v) M e /\
    (Qabs (inject_Z (Zpos M) * 2 ^ e - mag v) <= mag v * (1 # 1000000000))%Q.
Proof.
  intros Nv Ev Na Sa Ea Nb Sb Eb.
  pose proof (mag_pos v Nv) as Pv. pose proof (mag_pos a Na) as Pa.
  pose proof (mag_pos b Nb) as Pb.
  destruct (mul_error v a Nv Na) as (M1 & e1 & E1 & N1 & X1 & R1); try lia.
  rewrite E1, Sa, xorb_false_r. set (t1 := S754_finite (sign v) M1 e1) in *.
  destruct (div_error t1 b N1 Nb) as (M2 & e2 & E2 & N2 & X2 & R2);
    cbn [exponent t1]; try lia.
  rewrite E2. cbn [sign t1]. rewrite Sb, xorb_false_r.
  set (t2 := S754_finite (sign v) M2 e2) in *. cbn [exponent t1] in X2.
  destruct (mul_error t2 b N2 Nb) as (M3 & e3 & E3 & N3 & X3 & R3);
    cbn [exponent t2]; try lia.
  rewrite E3. cbn [sign t2]. rewrite Sb, xorb_false_r.
  set (t3 := S754_finite (sign v) M3 e3) in *. cbn [exponent t2] in X3.
  destruct (div_error t3 a N3 Na) as (M4 & e4 & E4 & N4 & X4 & R4);
    cbn [exponent t3]; try lia.
  rewrite E4. cbn [sign t3]. rewrite Sa, xorb_false_r.
  exists M4, e4. split; [reflexivity|].
  cbn [mag t1 t2 t3] in R1, R2, R3, R4.
  set (x1 := (inject_Z (Zpos M1) * 2 ^ e1)%Q) in *.
  set (x2 := (inject_Z (Zpos M2) * 2 ^ e2)%Q) in *.
  set (x3 := (inject_Z (Zpos M3) * 2 ^ e3)%Q) in *.
  set (x4 := (inject_Z (Zpos M4) * 2 ^ e4)%Q) in *.
  set (x0 := mag v) in *. set (fa := mag a) in *. set (fb := mag b) in *.
  assert (Za : ~ (fa == 0)%Q) by lra. assert (Zb : ~ (fb == 0)%Q) by lra.
  apply (rel_scale _ _ _ fb Pb) in R2.
  assert (Q2 : (x1 / fb * fb == x1)%Q) by (field; exact Zb).
  rewrite Q2 in R2.
  apply (rel_scale _ _ _ fa Pa) in R4.
  assert (Q4 : (x3 / fa * fa == x3)%Q) by (field; exact Za).
  rewrite Q4 in R4.
  assert (P0 : (0 <= x0 * fa)%Q) by nra.
  pose proof (rel_chain4 _ _ _ _ _ P0 R1 R2 R3 R4) as R.
  assert (Pia : (0 < / fa)%Q) by (apply Qinv_lt_0_compat; exact Pa).
  apply (rel_scale _ _ _ (/ fa)%Q Pia) in R.
  assert (Qa : (x4 * fa * / fa == x4)%Q) by (field; exact Za).
  assert (Qb : (x0 * fa * / fa == x0)%Q) by (field; exact Za).
  rewrite Qa, Qb in R. exact R.
Qed.

Lemma factors_normal u :
  exists f, Quantity.factors u = Some f /\
            normal f /\ sign f = false /\ -54 <= exponent f <= -52.
Proof.
  destruct u; eexists; (split; [reflexivity|]); vm_compute;
    repeat split; discriminate.
Qed.

(** A well-formed number between two positive numbers in magnitude, the
    lower one above the subnormal range, is normal. *)
Lemma between_normal v ml el mh eh :
  well_formed v = true -> -1074 < el ->
  le (S754_finite false ml el) (Math_abs v) = true ->
  le (Math_abs v) (S754_finite false mh eh) = true ->
  normal v /\ el <= exponent v <= eh.
Proof.
  intros W Hel Hlo Hhi.
  apply le_rank in Hlo. destruct Hlo as (ra & rb & A & B & Hlo).
  apply le_rank in Hhi. destruct Hhi as (rc & rd & C & D & Hhi).
  destruct v as [s|s| |s m e]; cbn in A, B, C, D;
    try discriminate; injection A as <-; injection B as <-;
    injection C as <-; injection D as <-; cbn [lexlt] in Hlo, Hhi.
  - destruct Hlo as [Hlo|Hlo]; [lia|discriminate].
  - destruct Hhi as [Hhi|Hhi]; [lia|discriminate].
  - assert (Ee : el <= e <= eh).
    { split.
      - destruct Hlo as [Hlo|Hlo]; [lia|]. injection Hlo as <- _. lia.
      - destruct Hhi as [Hhi|Hhi]; [lia|]. injection Hhi as -> _. lia. }
    split; [|exact Ee]. cbn [normal].
    unfold well_formed, valid_binary, bounded, canonical_mantissa in W.
    apply andb_prop in W. destruct W as [W _]. apply Z.eqb_eq in W.
    rewrite fexp_eq in W.
    assert (Hd : Zdigits2 (Zpos m) = 53)
      by (change (Zdigits2 (Zpos m)) with (Zpos (digits2_pos m)); lia).
    pose proof (Zdigits2_bounds (Zpos m) ltac:(lia)) as Hb. rewrite Hd in Hb.
    exact Hb.
Qed.

(** A well-formed number between 1e-300 and 1e300 in magnitude is normal. *)
Lemma range_normal v :
  well_formed v = true ->
  le (of_decimal false 1 (-300)) (Math_abs v) = true ->
  le (Math_abs v) (of_decimal false 1 300) = true ->
  normal v /\ -1049 <= exponent v <= 944.
Proof.
  intros W Hlo Hhi.
  change (of_decimal false 1 (-300)) with (S754_finite false 6032057205060441 (-1049)) in Hlo.
  change (of_decimal false 1 300) with (S754_finite false 6724873095247260 944) in Hhi.
  refine (between_normal v _ (-1049) _ 944 W _ Hlo Hhi). lia.
Qed.

Lemma within_tolerance_finite tol s M e m' e' :
  (Qabs (inject_Z (Zpos M) * 2 ^ e - inject_Z (Zpos m') * 2 ^ e')
   <= inject_Z (Zpos m') * 2 ^ e' * tol)%Q ->
  Spec.within_tolerance tol (S754_finite s M e) (S754_finite s m' e') = true.
Proof.
  intros H. unfold Spec.within_tolerance, Spec.to_Q. apply Qle_bool_iff.
  pose proof (pow2_pos e'). 
  assert (0 < inject_Z (Zpos m'))%Q by (change 0%Q with (inject_Z 0); rewrite <- Zlt_Qlt; lia).
  assert (P : (0 <= inject_Z (Zpos m') * 2 ^ e')%Q) by nra.
  destruct s; cbn [cond_Zopp].
  - change (Z.opp (Zpos M)) with (- (Zpos M))%Z. change (Z.opp (Zpos m')) with (- Zpos m')%Z.
    rewrite !inject_Z_opp.
    assert (E1 : (- inject_Z (Zpos M) * 2 ^ e - - inject_Z (Zpos m') * 2 ^ e'
                  == - (inject_Z (Zpos M) * 2 ^ e - inject_Z (Zpos m') * 2 ^ e'))%Q) by ring.
    assert (E2 : (- inject_Z (Zpos m') * 2 ^ e' == - (inject_Z (Zpos m') * 2 ^ e'))%Q) by ring.
    rewrite E1, E2, !Qabs_opp, (Qabs_pos _ P).
    rewrite (Qmult_comm tol). exact H.
  - rewrite (Qabs_pos _ P). rewrite (Qmult_comm tol). exact H.
Qed.

Lemma round_trip_zero A B v :
  isZero v = true ->
  Spec.round_trip v A B = inr v /\ Spec.within_tolerance (1 # 1000000000) v v = true.
Proof.
  destruct v as [s| | |]; try discriminate. intros _.
  destruct s, A, B; vm_compute; split; reflexivity.
Qed.

Lemma round_trip_eq v A B a b :
  Quantity.factors A = Some a -> Quantity.factors B = Some b ->
  Spec.round_trip v A B = inr (v * a / b * b / a)%js.
Proof.
  intros Ha Hb. unfold Spec.round_trip, Quantity.convert.
  cbn [Quantity.unit Quantity.value]. rewrite Ha, Hb.
  cbn [bind Quantity.unit Quantity.value]. rewrite ?Ha, ?Hb. reflexivity.
Qed.

(** C2, amended: for every pair of units of the same dimension and every
    number [v] that is zero or lies between 1e-300 and 1e300 in magnitude,
    converting [v] from [A] to [B] and back returns a value equal to [v]
    within the relative tolerance 1e-9. *)
Theorem round_trip_within_tolerance (A B : Unit.t) (v : number) :
  Spec.same_dimension A B = true ->
  well_formed v = true ->
  isZero v = true \/
  (le (of_decimal false 1 (-300)) (Math_abs v) = true /\
   le (Math_abs v) (of_decimal false 1 300) = true) ->
  exists r,
    Spec.round_trip v A B = inr r /\
    Spec.within_tolerance (1 # 1000000000) r v = true.
Proof.
  intros _ W [Z|[Hlo Hhi]].
  - exists v. now apply round_trip_zero.
  - destruct (range_normal v W Hlo Hhi) as [Nv Ev].
    destruct (factors_normal A) as (a & Fa & Na & Sa & Ea).
    destruct (factors_normal B) as (b & Fb & Nb & Sb & Eb).
    destruct (round_trip_error v a b Nv Ev Na Sa Ea Nb Sb Eb) as (M & e & E & R).
    exists (S754_finite (sign v) M e). split.
    + rewrite (round_trip_eq v A B a b Fa Fb). now rewrite E.
    + destruct v as [| | |s m' e']; try contradiction.
      cbn [sign]. apply within_tolerance_finite. exact R.
Qed.

Lemma round_trip_within_tolerance_witness :
  exists r,
    Spec.round_trip (dec 1234 1) Unit.kmh Unit.kts = inr r /\
    Spec.within_tolerance (1 # 1000000000) r (dec 1234 1) = true.
Proof.
  apply round_trip_within_tolerance.
  - reflexivity.
  - vm_compute. reflexivity.
  - right. split; vm_compute; reflexivity.
Defined.

Local Open Scope Z_scope.
Import JS.

(** ** Integers as numbers *)

Lemma canon_mantissa K :
  0 < K < 2 ^ 53 -> 2 ^ 52 <= K * 2 ^ (53 - Zdigits2 K) < 2 ^ 53.
Proof.
  intros HK. pose proof (digits_le_53 K HK) as Hd.
  pose proof (Zdigits2_bounds K ltac:(lia)) as [A B].
  set (d := Zdigits2 K) in *.
  assert (P : 0 < 2 ^ (53 - d)) by (apply Z.pow_pos_nonneg; lia).
  assert (E1 : 2 ^ (d - 1) * 2 ^ (53 - d) = 2 ^ 52)
    by (rewrite <- Z.pow_add_r by lia; f_equal; lia).
  assert (E2 : 2 ^ d * 2 ^ (53 - d) = 2 ^ 53)
    by (rewrite <- Z.pow_add_r by lia; f_equal; lia).
  rewrite <- E1, <- E2. clear E1 E2 HK.
  split.
  - apply Z.mul_le_mono_nonneg_r; lia.
  - apply Z.mul_lt_mono_pos_r; lia.
Qed.

Lemma canon_normal s K :
  0 < K < 2 ^ 53 ->
  normal (canon s K) /\ sign (canon s K) = s /\
  exponent (canon s K) = Zdigits2 K - 53 /\ (mag (canon s K) == inject_Z K)%Q.
Proof.
  intros HK. pose proof (canon_mantissa K HK) as Hm.
  pose proof (digits_le_53 K HK) as Hd.
  unfold canon. cbn [normal sign exponent mag].
  rewrite Z2Pos.id by lia. repeat split; try lia.
  rewrite inject_Z_mult, pow2_inject by lia.
  rewrite <- Qmult_assoc, <- pow2_add.
  replace (53 - Zdigits2 K + (Zdigits2 K - 53)) with 0 by lia.
  change (2 ^ 0)%Q with 1%Q. ring.
Qed.

Lemma SFdiv_core_binary_int P :
  0 < P < 2 ^ 53 ->
  SFdiv_core_binary prec emax P 0 1 0
  = (P * 2 ^ (54 - Zdigits2 P), Zdigits2 P - 54, loc_Exact).
Proof.
  intros HP. pose proof (digits_le_53 P HP) as Hd.
  unfold SFdiv_core_binary. change (Zdigits2 1) with 1. rewrite fexp_eq.
  set (d := Zdigits2 P) in *.
  replace (Z.min (Z.max (d + 0 - (1 + 0) - 53) (-1074)) (0 - 0)) with (d - 54) by lia.
  replace (0 - 0 - (d - 54)) with (54 - d) by lia.
  destruct (54 - d) as [|n|n] eqn:E; try lia. rewrite <- E.
  rewrite Z.shiftl_mul_pow2 by lia.
  pose proof (Z_div_mod (P * 2 ^ (54 - d)) 1 ltac:(lia)) as H.
  destruct (Z.div_eucl (P * 2 ^ (54 - d)) 1) as [q r]. destruct H as [H1 H2].
  assert (r = 0) by lia. subst r. replace q with (P * 2 ^ (54 - d)) by lia.
  reflexivity.
Qed.

(** The number read from the decimal digits of an integer below [2^53]
    is that integer. *)
Lemma of_ratio_int s P : 0 < P < 2 ^ 53 -> of_ratio s P 1 = canon s P.
Proof.
  intros HP. pose proof (digits_le_53 P HP) as Hd.
  pose proof (canon_mantissa P HP) as Hm.
  unfold of_ratio. destruct P as [|p|p] eqn:EP; try lia. rewrite <- EP in *.
  rewrite SFdiv_core_binary_int by lia.
  set (d := Zdigits2 P) in *.
  replace (P * 2 ^ (54 - d)) with (P * 2 ^ (53 - d) * 2 ^ 1)
    by (rewrite <- Z.mul_assoc, <- Z.pow_add_r by lia; do 2 f_equal; lia).
  replace (d - 54) with (d - 53 - 1) by lia.
  rewrite binary_round_aux_exact; try lia.
  - reflexivity.
  - rewrite (normal_digits _ Hm), fexp_eq. lia.
  - intros _. rewrite (normal_digits _ Hm), fexp_eq. lia.
  - unfold emax, prec. lia.
Qed.

Lemma Zdigits2_mul_lower K S :
  0 < K -> 0 < S -> Zdigits2 K + Zdigits2 S - 1 <= Zdigits2 (K * S).
Proof.
  intros HK HS.
  pose proof (Zdigits2_bounds K HK) as [A1 B1].
  pose proof (Zdigits2_bounds S HS) as [A2 B2].
  pose proof (Zdigits2_bounds (K * S) ltac:(nia)) as [A3 B3].
  pose proof (Zdigits2_pos K HK). pose proof (Zdigits2_pos S HS).
  assert (H1 : 2 ^ (Zdigits2 K - 1 + (Zdigits2 S - 1)) <= K * S).
  { rewrite Z.pow_add_r by lia.
    assert (0 < 2 ^ (Zdigits2 K - 1)) by (apply Z.pow_pos_nonneg; lia).
    assert (0 < 2 ^ (Zdigits2 S - 1)) by (apply Z.pow_pos_nonneg; lia). nia. }
  destruct (Z.le_gt_cases (Zdigits2 K + Zdigits2 S - 1) (Zdigits2 (K * S))); trivial.
  assert (2 ^ Zdigits2 (K * S) <= 2 ^ (Zdigits2 K - 1 + (Zdigits2 S - 1))).
  { apply Z.pow_le_mono_r; lia. }
  lia.
Qed.

(** The product of two integers is exact while it stays below [2^53]. *)
Lemma mul_canon sk ss K S :
  0 < K -> 0 < S -> K * S < 2 ^ 53 ->
  (canon sk K * canon ss S)%js = canon (xorb sk ss) (K * S).
Proof.
  intros HK HS HP.
  assert (HK' : 0 < K < 2 ^ 53) by nia. assert (HS' : 0 < S < 2 ^ 53) by nia.
  assert (HP' : 0 < K * S < 2 ^ 53) by nia.
  pose proof (canon_mantissa K HK') as MK. pose proof (canon_mantissa S HS') as MS.
  pose proof (canon_mantissa (K * S) HP') as MP.
  pose proof (digits_le_53 K HK') as DK. pose proof (digits_le_53 S HS') as DS.
  pose proof (digits_le_53 (K * S) HP') as DP.
  pose proof (Zdigits2_mul_lower K S HK HS) as DL.
  unfold canon, mul, SFmul.
  rewrite Pos2Z.inj_mul, !Z2Pos.id by lia.
  set (dk := Zdigits2 K) in *. set (ds := Zdigits2 S) in *. set (dp := Zdigits2 (K * S)) in *.
  set (n := 53 - dk - ds + dp).
  replace (K * 2 ^ (53 - dk) * (S * 2 ^ (53 - ds)))
    with (K * S * 2 ^ (53 - dp) * 2 ^ n).
  2:{ unfold n. rewrite <- !Z.mul_assoc. f_equal.
      rewrite (Z.mul_comm (2 ^ (53 - dk))), <- !Z.mul_assoc. f_equal.
      rewrite <- !Z.pow_add_r by lia. f_equal. lia. }
  replace (dk - 53 + (ds - 53)) with (dp - 53 - n) by (unfold n; lia).
  rewrite binary_round_aux_exact; try (unfold n; lia).
  - reflexivity.
  - rewrite (normal_digits _ MP), fexp_eq. lia.
  - intros _. rewrite (normal_digits _ MP), fexp_eq. lia.
  - unfold emax, prec. lia.
Qed.

(** *** [Math.round] *)

Lemma binary_normalize_canon n sz :
  0 < Z.abs n < 2 ^ 53 ->
  binary_normalize prec emax n 0 sz = canon (n <? 0) (Z.abs n).
Proof.
  intros Hn. pose proof (binary_normalize_int n 0 sz Hn ltac:(lia)) as H.
  change (2 ^ (- 0)) with 1 in H. rewrite Z.mul_1_r in H. rewrite H.
  destruct (Z.ltb_spec n 0).
  - replace n with (- Z.abs n) at 1 by lia. apply of_Z_neg. lia.
  - replace n with (Z.abs n) at 1 by lia. apply of_Z_pos. lia.
Qed.

Lemma Math_round_finite s m e :
  e < 0 ->
  let n := round_half_up (cond_Zopp s (Zpos m)) e in
  0 < Z.abs n < 2 ^ 53 ->
  Math_round (S754_finite s m e) = canon (n <? 0) (Z.abs n).
Proof.
  intros He n Hn. unfold Math_round.
  destruct (Z.leb_spec 0 e); [lia|].
  fold (round_half_up (cond_Zopp s (Zpos m)) e). fold n.
  destruct n as [|p|p] eqn:E; [simpl in Hn; lia| |];
    rewrite <- E; apply binary_normalize_canon; rewrite E; exact Hn.
Qed.

Lemma Math_round_finite_zero s m e :
  e < 0 -> round_half_up (cond_Zopp s (Zpos m)) e = 0 ->
  Math_round (S754_finite s m e) = S754_zero s.
Proof.
  intros He Hn. unfold Math_round.
  destruct (Z.leb_spec 0 e); [lia|].
  fold (round_half_up (cond_Zopp s (Zpos m)) e). now rewrite Hn.
Qed.

(** *** Printing and reading an integer *)

Lemma toFixed_int_canon K :
  0 < K < 2 ^ 53 ->
  toFixed_int (Z.to_pos (K * 2 ^ (53 - Zdigits2 K))) (Zdigits2 K - 53) 0 = K.
Proof.
  intros HK. pose proof (digits_le_53 K HK) as Hd.
  pose proof (canon_mantissa K HK) as Hm.
  unfold toFixed_int. rewrite Z2Pos.id by lia.
  change (10 ^ Z.of_nat 0) with 1. rewrite Z.mul_1_r.
  set (d := Zdigits2 K) in *.
  destruct (Z.leb_spec 0 (d - 53)).
  - replace (d - 53) with 0 by lia. replace (53 - d) with 0 by lia.
    change (2 ^ 0) with 1. lia.
  - replace (- (d - 53)) with (53 - d) by lia.
    replace (1 - (d - 53)) with (1 + (53 - d)) by lia.
    rewrite Z.pow_add_r by lia. change (2 ^ 1) with 2.
    set (P := 2 ^ (53 - d)) in *.
    assert (0 < P) by (apply Z.pow_pos_nonneg; lia).
    replace (2 * (K * P) + P) with ((2 * K + 1) * P) by ring.
    rewrite Z.div_mul_cancel_r by lia.
    replace (2 * K + 1) with (1 + K * 2) by ring.
    rewrite Z.div_add by lia. reflexivity.
Qed.

Lemma toFixed_string_canon s K :
  0 < K < 2 ^ 53 ->
  toFixed_string (canon s K) 0 = (if s then "-" else "") ++ string_of_Z K.
Proof.
  intros HK. pose proof (digits_le_53 K HK) as Hd.
  unfold canon, toFixed_string.
  change ten21 with (S754_finite false 7629394531250000 17).
  unfold SFleb, SFcompare, SFabs.
  destruct (Z.compare_spec 17 (Zdigits2 K - 53)); try lia.
  rewrite toFixed_int_canon by trivial. reflexivity.
Qed.

Lemma SFeqb_refl s m e : SFeqb (S754_finite s m e) (S754_finite s m e) = true.
Proof.
  unfold SFeqb, SFcompare. rewrite Z.compare_refl, !Pos.compare_cont_refl.
  now destruct s.
Qed.

Lemma read_decimal_digits sg d1 :
  all_digits d1 = true -> (0 < String.length d1)%nat ->
  read_decimal sg d1 = of_decimal sg (dval d1 0) 0.
Proof.
  intros H1 H0. destruct d1 as [|c d1]; [simpl in H0; lia|]. clear H0.
  assert (Hc : is_digit c = true) by (simpl in H1; now apply andb_prop in H1 as [? _]).
  unfold read_decimal.
  replace (String.eqb (String c d1) "Infinity") with false
    by (simpl; not_char Hc c "I"%char; reflexivity).
  rewrite (read_digits_all _ _ _ H1).
  assert (Hlen : (0 + String.length (String c d1) = S (String.length d1))%nat) by reflexivity.
  rewrite Hlen. reflexivity.
Qed.

Lemma dval_string_of_Z K : 0 <= K -> dval (string_of_Z K) 0 = K.
Proof.
  intros HK. unfold string_of_Z. rewrite dval_digits.
  rewrite Z.mod_small; [lia|]. split; trivial. now apply ndigits_spec.
Qed.

(** Reading the decimal digits of an integer below [2^53] gives that
    integer. *)
Lemma Number_string_of_Z (sg : bool) K :
  0 < K < 2 ^ 53 ->
  Number ((if sg then "-" else "") ++ string_of_Z K) = canon sg K.
Proof.
  intros HK.
  assert (Hd : all_digits (string_of_Z K) = true) by apply all_digits_digits.
  assert (Hl : (0 < String.length (string_of_Z K))%nat).
  { rewrite length_string_of_Z. pose proof (ndigits_pos K). lia. }
  assert (Hn : numeral (string_of_Z K) None None = string_of_Z K).
  { unfold numeral, exponent_part. cbn [append]. apply append_nil_r. }
  rewrite <- Hn, Number_numeral by (now apply numeral_ok_intro).
  rewrite Hn, read_decimal_digits, dval_string_of_Z by (trivial; lia).
  unfold of_decimal. change (0 <=? 0) with true. cbv iota.
  change (10 ^ 0) with 1. rewrite Z.mul_1_r. now apply of_ratio_int.
Qed.

(** *** An integer prints without a decimal point *)

Lemma includes_dot_digits s : all_digits s = true -> includes_dot s = false.
Proof.
  induction s as [|c s IH]; simpl; trivial. intros H.
  apply andb_prop in H as [Hc Hs]. not_char Hc c "."%char. now apply IH.
Qed.

Lemma scan_exponent_spec fuel p q n :
  scan_exponent fuel p q n = n + Z.of_nat fuel
  \/ below_pow10 p q (scan_exponent fuel p q n) = true.
Proof.
  revert n. induction fuel as [|f IH]; intros n; cbn [scan_exponent].
  - left. lia.
  - destruct (below_pow10 p q n) eqn:E; [now right|].
    destruct (IH (n + 1)) as [H|H]; [left; lia|now right].
Qed.

Lemma shortest_from_int fuel x p q n k :
  (forall k', Z.of_nat k' = n -> shortest_at x p q n k' <> None) ->
  Z.of_nat k <= n <= 20 ->
  let '(k', s, n') := shortest_from fuel x p q n k in Z.of_nat k' <= n' <= 21.
Proof.
  intros Hat. revert k. induction fuel as [|f IH]; intros k Hk; cbn [shortest_from].
  - lia.
  - destruct (shortest_at x p q n k) as [[s n']|] eqn:E.
    + apply shortest_at_bounds in E. lia.
    + assert (Z.of_nat k <> n) by (intros H; now apply (Hat k H)).
      apply IH. lia.
Qed.

Lemma shortest_at_int S q n k :
  0 < S < 2 ^ 53 -> 0 < q -> Z.of_nat k = n ->
  shortest_at (canon false S) (S * q) q n k <> None.
Proof.
  intros HS Hq Hk. unfold shortest_at.
  replace (n - Z.of_nat k) with 0 by lia.
  change (0 <=? 0) with true. cbv iota. change (10 ^ 0) with 1.
  rewrite Z.mul_1_r, Z.div_mul by lia.
  assert (E : of_decimal false S 0 = canon false S).
  { unfold of_decimal. change (0 <=? 0) with true. cbv iota.
    change (10 ^ 0) with 1. rewrite Z.mul_1_r. now apply of_ratio_int. }
  rewrite E. unfold canon at 1 2. rewrite SFeqb_refl.
  destruct (SFeqb _ _); [destruct (_ ?= _); [destruct (Z.even S)| |]|];
    try destruct (S =? _); try destruct (S + 1 =? _); discriminate.
Qed.

Lemma digits_le_50 S : 0 < S <= 10 ^ 15 -> 1 <= Zdigits2 S <= 50.
Proof.
  intros [H0 H1]. pose proof (Zdigits2_bounds S H0) as [A B].
  pose proof (Zdigits2_pos S H0). split; [lia|].
  destruct (Z.le_gt_cases (Zdigits2 S) 50); trivial.
  assert (2 ^ 50 <= 2 ^ (Zdigits2 S - 1)) by (apply Z.pow_le_mono_r; lia).
  change (10 ^ 15) with 1000000000000000 in H1.
  change (2 ^ 50) with 1125899906842624 in *. lia.
Qed.

Lemma decimal_exponent_int S :
  0 < S <= 10 ^ 15 ->
  let d := Zdigits2 S in
  1 <= decimal_exponent (S * 2 ^ (53 - d)) (2 ^ (53 - d)) <= 20.
Proof.
  intros HS d. pose proof (digits_le_50 S HS) as Hd. fold d in Hd.
  assert (HS' : 0 < S < 2 ^ 53).
  { change (10 ^ 15) with 1000000000000000 in HS.
    change (2 ^ 53) with 9007199254740992. lia. }
  pose proof (canon_mantissa S HS') as Hm. fold d in Hm.
  set (q := 2 ^ (53 - d)) in *. set (p := S * q) in *.
  assert (Hq : 0 < q) by (apply Z.pow_pos_nonneg; lia).
  unfold decimal_exponent.
  assert (Lp : Z.log2 p = 52) by (apply Z.log2_unique; simpl; lia).
  assert (Lq : Z.log2 q = 53 - d) by (apply Z.log2_pow2; lia).
  rewrite Lp, Lq.
  set (est := (52 - (53 - d)) * 30103 / 100000).
  assert (He : 0 <= est <= 14).
  { unfold est. split.
    - apply Z.div_pos; lia.
    - apply Z.lt_succ_r. apply Z.div_lt_upper_bound; lia. }
  set (start := Z.min 330 (Z.max (-330) (est - 2))).
  assert (Hs : -2 <= start <= 12) by (unfold start; lia).
  pose proof (scan_exponent_bounds 6 p q start) as Hb.
  destruct (scan_exponent_spec 6 p q start) as [H|H]; [lia|].
  split; [|lia].
  set (r := scan_exponent 6 p q start) in *.
  destruct (Z.le_gt_cases 1 r) as [|Hr]; trivial. exfalso.
  unfold below_pow10 in H. destruct (Z.leb_spec 0 r).
  - replace r with 0 in H by lia. change (10 ^ 0) with 1 in H.
    apply Z.ltb_lt in H. unfold p in H. nia.
  - apply Z.ltb_lt in H.
    assert (0 < 10 ^ (- r)) by (apply Z.pow_pos_nonneg; lia).
    unfold p in H. nia.
Qed.

(** The string of an integer number up to [10^15] has no decimal point. *)
Lemma toString_int_no_dot S :
  0 < S <= 10 ^ 15 -> includes_dot (toString (canon false S)) = false.
Proof.
  intros HS. pose proof (digits_le_50 S HS) as Hd.
  assert (HS' : 0 < S < 2 ^ 53).
  { change (10 ^ 15) with 1000000000000000 in HS.
    change (2 ^ 53) with 9007199254740992. lia. }
  pose proof (canon_mantissa S HS') as Hm.
  pose proof (decimal_exponent_int S HS) as Hn. cbv zeta in Hn.
  unfold canon, toString. cbn [append]. unfold toString_pos, shortest.
  destruct (Z.leb_spec 0 (Zdigits2 S - 53)); [lia|].
  rewrite Z2Pos.id by lia.
  replace (- (Zdigits2 S - 53)) with (53 - Zdigits2 S) by lia.
  set (q := 2 ^ (53 - Zdigits2 S)) in *.
  assert (Hq : 0 < q) by (apply Z.pow_pos_nonneg; lia).
  set (n := decimal_exponent (S * q) q) in *.
  pose proof (shortest_from_int 17
                (S754_finite false (Z.to_pos (S * q)) (Zdigits2 S - 53))
                (S * q) q n 1) as Hsf.
  destruct (shortest_from 17 _ (S * q) q n 1) as [[k s] n'].
  assert (Hk : Z.of_nat k <= n' <= 21).
  { apply Hsf; [|lia]. intros k' Hk'.
    apply (shortest_at_int S q n k' HS' Hq Hk'). }
  destruct (Z.leb_spec (Z.of_nat k) n'); [|lia].
  destruct (Z.leb_spec n' 21); [|lia]. cbn [andb].
  apply includes_dot_digits. now rewrite all_digits_app, all_digits_digits, all_digits_zeros.
Qed.

Lemma decimals_int S : 0 < S <= 10 ^ 15 -> Quantity.decimals (canon false S) = 0%nat.
Proof.
  intros HS. unfold Quantity.decimals. now rewrite toString_int_no_dot.
Qed.

(** *** Between the integers and their scaled values *)

Lemma pow2_inv e : (2 ^ (- e) * 2 ^ e == 1)%Q.
Proof. rewrite <- pow2_add. replace (- e + e) with 0 by lia. reflexivity. Qed.

Lemma scaled_le N M e :
  e <= 0 -> N * 2 ^ (- e) <= M -> (inject_Z N <= inject_Z M * 2 ^ e)%Q.
Proof.
  intros He H. rewrite Zle_Qle, inject_Z_mult, pow2_inject in H by lia.
  pose proof (pow2_pos e) as Pt. pose proof (pow2_inv e) as Pi.
  assert (E : (inject_Z N == inject_Z N * 2 ^ (- e) * 2 ^ e)%Q).
  { rewrite <- Qmult_assoc, Pi. ring. }
  rewrite E. apply Qmult_le_compat_r; [exact H|]. now apply Qlt_le_weak.
Qed.

Lemma scaled_lt_l M N e :
  e <= 0 -> (inject_Z M * 2 ^ e < inject_Z N)%Q -> M < N * 2 ^ (- e).
Proof.
  intros He H. rewrite Zlt_Qlt, inject_Z_mult, pow2_inject by lia.
  pose proof (pow2_pos (- e)) as Pt. pose proof (pow2_inv e) as Pi.
  assert (E : (inject_Z M == inject_Z M * 2 ^ e * 2 ^ (- e))%Q).
  { rewrite <- Qmult_assoc, (Qmult_comm (2 ^ e)), Pi. ring. }
  rewrite E. apply Qmult_lt_compat_r; trivial.
Qed.

Lemma scaled_lt_r N M e :
  e <= 0 -> (inject_Z N < inject_Z M * 2 ^ e)%Q -> N * 2 ^ (- e) < M.
Proof.
  intros He H. rewrite Zlt_Qlt, inject_Z_mult, pow2_inject by lia.
  pose proof (pow2_pos (- e)) as Pt. pose proof (pow2_inv e) as Pi.
  assert (E : (inject_Z M == inject_Z M * 2 ^ e * 2 ^ (- e))%Q).
  { rewrite <- Qmult_assoc, (Qmult_comm (2 ^ e)), Pi. ring. }
  rewrite E. apply Qmult_lt_compat_r; trivial.
Qed.

Lemma pow2_le a b : a <= b -> (2 ^ a <= 2 ^ b)%Q.
Proof.
  intros H. replace b with (a + (b - a)) by lia. rewrite pow2_add.
  pose proof (pow2_pos a).
  assert (1 <= 2 ^ (b - a))%Q.
  { rewrite <- pow2_inject by lia. change 1%Q with (inject_Z 1).
    rewrite <- Zle_Qle. assert (0 < 2 ^ (b - a)) by (apply Z.pow_pos_nonneg; lia). lia. }
  nra.
Qed.

Lemma round_half_up_bound c e :
  e < 0 ->
  let P := 2 ^ (- e) in
  let n := round_half_up c e in
  2 * P * n <= 2 * c + P < 2 * P * (n + 1).
Proof.
  intros He P n. unfold n, round_half_up.
  replace (1 - e) with (1 + - e) by lia. rewrite Z.pow_add_r by lia.
  change (2 ^ 1) with 2. fold P.
  assert (HP : 0 < P) by (apply Z.pow_pos_nonneg; lia).
  pose proof (Z.div_mod (2 * c + P) (2 * P) ltac:(lia)).
  pose proof (Z.mod_pos_bound (2 * c + P) (2 * P) ltac:(lia)).
  lia.
Qed.

Lemma round_half_up_unique c e K :
  e < 0 ->
  2 * 2 ^ (- e) * K <= 2 * c + 2 ^ (- e) < 2 * 2 ^ (- e) * (K + 1) ->
  round_half_up c e = K.
Proof.
  intros He H. pose proof (round_half_up_bound c e He) as B. cbv zeta in B.
  assert (HP : 0 < 2 ^ (- e)) by (apply Z.pow_pos_nonneg; lia).
  set (P := 2 ^ (- e)) in *. set (n := round_half_up c e) in *. nia.
Qed.

(** [Math.round] of a number with a fraction picks an integer no
    further than one half in magnitude. *)
Lemma round_half_up_abs s M e :
  e < 0 -> 0 < M ->
  let n := round_half_up (cond_Zopp s M) e in
  (n <? 0) = (s && negb (n =? 0)) /\ Z.abs n * (2 * 2 ^ (- e)) <= 2 * M + 2 ^ (- e).
Proof.
  intros He HM n. pose proof (round_half_up_bound (cond_Zopp s M) e He) as B.
  cbv zeta in B. fold n in B.
  assert (HP : 0 < 2 ^ (- e)) by (apply Z.pow_pos_nonneg; lia).
  set (P := 2 ^ (- e)) in *.
  destruct s; cbn [cond_Zopp andb] in *.
  - assert (n <= 0) by nia. split; [|nia].
    destruct (Z.ltb_spec n 0), (Z.eqb_spec n 0); simpl; trivial; lia.
  - assert (0 <= n) by nia. split; [|nia].
    destruct (Z.ltb_spec n 0); trivial; lia.
Qed.

Local Open Scope Z_scope.
Import JS.

(** ** Quotients far below one half *)

Lemma Zdigits2_nonneg m : 0 <= m -> 0 <= Zdigits2 m.
Proof.
  intros H. destruct (Z.eq_dec m 0) as [->|N]; [simpl; lia|].
  pose proof (Zdigits2_pos m ltac:(lia)). lia.
Qed.

Lemma Zdigits2_le m k : 0 <= k -> 0 <= m < 2 ^ k -> Zdigits2 m <= k.
Proof.
  intros Hk [H0 H1]. destruct (Z.eq_dec m 0) as [->|N]; [simpl; lia|].
  pose proof (Zdigits2_bounds m ltac:(lia)) as [A B].
  pose proof (Zdigits2_pos m ltac:(lia)).
  destruct (Z.le_gt_cases (Zdigits2 m) k); trivial.
  assert (2 ^ k <= 2 ^ (Zdigits2 m - 1)) by (apply Z.pow_le_mono_r; lia). lia.
Qed.

Lemma Zdigits2_lt m : 0 <= m -> m < 2 ^ Zdigits2 m.
Proof.
  intros H. destruct (Z.eq_dec m 0) as [->|N]; [reflexivity|].
  apply Zdigits2_bounds. lia.
Qed.

Lemma Zdigits2_div_pow2 m n :
  0 <= m -> 0 <= n -> Zdigits2 (m / 2 ^ n) <= Z.max (Zdigits2 m - n) 0.
Proof.
  intros Hm Hn. assert (HP : 0 < 2 ^ n) by (apply Z.pow_pos_nonneg; lia).
  pose proof (Z.div_pos m (2 ^ n) Hm HP) as Hq.
  destruct (Z.eq_dec (m / 2 ^ n) 0) as [->|N]; [simpl; lia|].
  pose proof (Zdigits2_bounds (m / 2 ^ n) ltac:(lia)) as [A B].
  pose proof (Zdigits2_pos (m / 2 ^ n) ltac:(lia)) as Pq.
  pose proof (Zdigits2_lt m Hm) as Bm. pose proof (Zdigits2_nonneg m Hm) as Pm.
  pose proof (Z.mul_div_le m (2 ^ n) HP) as Hd.
  set (dq := Zdigits2 (m / 2 ^ n)) in *. set (dm := Zdigits2 m) in *.
  assert (H1 : 2 ^ (dq - 1 + n) <= m).
  { rewrite Z.pow_add_r by lia. nia. }
  destruct (Z.le_gt_cases dq (dm - n)); [lia|].
  assert (2 ^ dm <= 2 ^ (dq - 1 + n)) by (apply Z.pow_le_mono_r; lia). lia.
Qed.

Lemma shr_iter_m n mrs :
  0 <= shr_m mrs -> shr_m (Nat.iter n shr_1 mrs) = shr_m mrs / 2 ^ Z.of_nat n.
Proof.
  intros H. induction n as [|n IH].
  - simpl. now rewrite Z.div_1_r.
  - cbn [Nat.iter nat_rect]. change (nat_rect _ _ _ n) with (Nat.iter n shr_1 mrs).
    destruct (Nat.iter n shr_1 mrs) as [m r s]. cbn [shr_m] in IH.
    assert (0 <= m).
    { rewrite IH. apply Z.div_pos; trivial. apply Z.pow_pos_nonneg; lia. }
    rewrite shr_1_spec by trivial. cbn [shr_m]. rewrite IH.
    rewrite Z.div_div by (try apply Z.pow_pos_nonneg; lia).
    rewrite Nat2Z.inj_succ, Z.pow_succ_r by lia. f_equal. ring.
Qed.

Lemma shr_top mrs e n :
  0 <= shr_m mrs ->
  0 <= shr_m (fst (shr mrs e n)) /\
  Zdigits2 (shr_m (fst (shr mrs e n))) + snd (shr mrs e n)
  <= Z.max (Zdigits2 (shr_m mrs) + e) (e + n).
Proof.
  intros H. split; [now apply shr_nonneg|].
  unfold shr. destruct n as [|p|p]; cbn [fst snd]; try lia.
  rewrite iter_pos_nat, shr_iter_m, positive_nat_Z by trivial.
  pose proof (Zdigits2_div_pow2 (shr_m mrs) (Zpos p) H ltac:(lia)). lia.
Qed.

Lemma shr_fexp_top m e l :
  0 <= m ->
  0 <= shr_m (fst (shr_fexp prec emax m e l)) /\
  Zdigits2 (shr_m (fst (shr_fexp prec emax m e l))) + snd (shr_fexp prec emax m e l)
  <= Z.max (Zdigits2 m + e) (-1074).
Proof.
  intros H. unfold shr_fexp.
  pose proof (shr_top (shr_record_of_loc m l) e (fexp prec emax (Zdigits2 m + e) - e)) as T.
  rewrite shr_record_of_loc_m in T. destruct (T H) as [T1 T2].
  split; [exact T1|]. pose proof (fexp_eq (Zdigits2 m + e)) as F.
  set (f := fexp prec emax (Zdigits2 m + e)) in *. lia.
Qed.

Lemma round_nearest_even_top m l :
  0 <= m ->
  0 <= round_nearest_even m l /\ Zdigits2 (round_nearest_even m l) <= Zdigits2 m + 1.
Proof.
  intros H. pose proof (Zdigits2_lt m H) as B. pose proof (Zdigits2_nonneg m H) as P.
  assert (R : m <= round_nearest_even m l <= m + 1).
  { unfold round_nearest_even. destruct l as [|[ | | ]]; try lia. destruct (Z.even m); lia. }
  split; [lia|]. apply Zdigits2_le; [lia|].
  rewrite Z.pow_add_r by lia. change (2 ^ 1) with 2. lia.
Qed.

(** A mantissa whose leading bit lies below one eighth is rounded to
    zero or to a number below one half. *)
Lemma binary_round_aux_top s mx ex lx :
  0 <= mx -> Zdigits2 mx + ex <= -3 ->
  binary_round_aux prec emax s mx ex lx = S754_zero s
  \/ exists M e, binary_round_aux prec emax s mx ex lx = S754_finite s M e
                 /\ Zdigits2 (Zpos M) + e <= -1.
Proof.
  intros H T. unfold binary_round_aux.
  destruct (shr_fexp_top mx ex lx H) as [A1 A2].
  destruct (shr_fexp prec emax mx ex lx) as [mrs' e']. cbn [fst snd] in A1, A2.
  destruct (round_nearest_even_top (shr_m mrs') (loc_of_shr_record mrs') A1) as [B1 B2].
  set (M1 := round_nearest_even (shr_m mrs') (loc_of_shr_record mrs')) in *.
  destruct (shr_fexp_top M1 e' loc_Exact B1) as [C1 C2].
  destruct (shr_fexp prec emax M1 e' loc_Exact) as [mrs'' e'']. cbn [fst snd] in C1, C2.
  destruct (shr_m mrs'') as [|M|M] eqn:EM; [now left|right|lia].
  assert (HT : Zdigits2 (Zpos M) + e'' <= -1) by lia.
  pose proof (Zdigits2_pos (Zpos M) ltac:(lia)).
  destruct (Z.leb_spec e'' (emax - prec)) as [_|G]; [|unfold emax, prec in G; lia].
  exists M, e''. split; [reflexivity|exact HT].
Qed.

Lemma SFdiv_core_top m1 e1 m2 e2 :
  0 < m1 -> 0 < m2 ->
  let '(q, e', l) := SFdiv_core_binary prec emax m1 e1 m2 e2 in
  0 <= q /\ Zdigits2 q + e' <= Zdigits2 m1 + e1 - e2.
Proof.
  intros H1 H2. unfold SFdiv_core_binary.
  set (e' := Z.min _ (e1 - e2)).
  assert (He : e' <= e1 - e2) by (unfold e'; lia).
  set (m' := match e1 - e2 - e' with 0 => m1 | Zpos _ => _ | Zneg _ => 0 end).
  assert (Hm : m' = m1 * 2 ^ (e1 - e2 - e')).
  { unfold m'. destruct (e1 - e2 - e') as [|p|p] eqn:E; try lia.
    apply Z.shiftl_mul_pow2. lia. }
  assert (Hp : 0 < 2 ^ (e1 - e2 - e')) by (apply Z.pow_pos_nonneg; lia).
  pose proof (Z_div_mod m' m2 ltac:(lia)) as Hd.
  destruct (Z.div_eucl m' m2) as [q r]. destruct Hd as [Hd Hr].
  assert (Hq : 0 <= q) by nia. split; [exact Hq|].
  assert (Hqm : q <= m') by nia.
  pose proof (Zdigits2_mul_pow2 m1 (e1 - e2 - e') H1 ltac:(lia)) as Dm.
  rewrite <- Hm in Dm.
  pose proof (Zdigits2_lt m' ltac:(nia)) as Bm.
  pose proof (Zdigits2_pos m1 H1).
  assert (Zdigits2 q <= Zdigits2 m') by (apply Zdigits2_le; lia).
  lia.
Qed.

Lemma Math_round_tiny s M e :
  Zdigits2 (Zpos M) + e <= -1 -> Math_round (S754_finite s M e) = S754_zero s.
Proof.
  intros T. pose proof (Zdigits2_pos (Zpos M) ltac:(lia)) as P.
  pose proof (Zdigits2_lt (Zpos M) ltac:(lia)) as B.
  assert (He : e < 0) by lia.
  apply Math_round_finite_zero; trivial.
  apply round_half_up_unique; trivial.
  assert (HP : 2 ^ (Zdigits2 (Zpos M) + 1) <= 2 ^ (- e)) by (apply Z.pow_le_mono_r; lia).
  rewrite Z.pow_add_r in HP by lia. change (2 ^ 1) with 2 in HP.
  destruct s; cbn [cond_Zopp]; lia.
Qed.

(** A well-formed number below [2^-971] divided by an integer rounds to
    zero. *)
Lemma div_tiny sv m e S :
  Zdigits2 (Zpos m) <= 53 -> e <= -1025 -> 0 < S < 2 ^ 53 ->
  Math_round (S754_finite sv m e / canon false S) = S754_zero sv.
Proof.
  intros Hd He HS. pose proof (digits_le_53 S HS) as Ds.
  pose proof (canon_mantissa S HS) as Ms.
  unfold canon, div, SFdiv. rewrite Z2Pos.id by lia.
  pose proof (SFdiv_core_top (Zpos m) e (S * 2 ^ (53 - Zdigits2 S)) (Zdigits2 S - 53)
                ltac:(lia) ltac:(lia)) as T.
  destruct (SFdiv_core_binary prec emax (Zpos m) e _ _) as [[q e'] l].
  destruct T as [T1 T2]. rewrite xorb_false_r.
  destruct (binary_round_aux_top sv q e' l T1 ltac:(lia)) as [E|(M & e'' & E & HT)];
    rewrite E; [reflexivity|]. now apply Math_round_tiny.
Qed.

Local Open Scope Z_scope.
Import JS.

(** ** quantity.ts: [roundToStep] on an integer step *)

Lemma step_bounds S : 0 < S <= 10 ^ 15 -> 0 < S < 2 ^ 50.
Proof.
  change (10 ^ 15) with 1000000000000000. change (2 ^ 50) with 1125899906842624. lia.
Qed.

Lemma roundToStep_int v S :
  0 < S <= 10 ^ 15 ->
  Quantity.roundToStep v (canon false S)
  = inr (let r := Number (toFixed_string (Math_round (v / canon false S) * canon false S) 0) in
         if isFinite r then r else v).
Proof.
  intros HS. unfold Quantity.roundToStep, Quantity.rounded.
  rewrite decimals_int, toFixed_inr by (trivial; lia). reflexivity.
Qed.

Lemma snap_zero sz S :
  Number (toFixed_string (S754_zero sz * canon false S) 0) = S754_zero false.
Proof. destruct sz; reflexivity. Qed.

Lemma snap_canon sg K S :
  0 < K -> 0 < S -> K * S < 2 ^ 53 ->
  Number (toFixed_string (canon sg K * canon false S) 0) = canon sg (K * S).
Proof.
  intros HK HS HP. rewrite mul_canon, xorb_false_r by trivial.
  rewrite toFixed_string_canon, Number_string_of_Z by nia. reflexivity.
Qed.

Lemma roundToStep_zero sz S :
  0 < S <= 10 ^ 15 ->
  Quantity.roundToStep (S754_zero sz) (canon false S) = inr (S754_zero false).
Proof.
  intros HS. rewrite roundToStep_int by trivial.
  unfold canon at 1. cbn [div SFdiv Math_round]. now rewrite snap_zero.
Qed.

Lemma mag_lt_pow2 x b :
  normal x -> exponent x <= b - 53 -> (mag x < 2 ^ b)%Q.
Proof.
  destruct x as [| | |s m e]; try contradiction. cbn [normal exponent mag].
  intros Hm He. pose proof (pow2_le e (b - 53) He) as Hp. pose proof (pow2_pos e).
  assert (Eb : (2 ^ b == inject_Z (2 ^ 53) * 2 ^ (b - 53))%Q).
  { rewrite pow2_inject by lia. rewrite <- pow2_add. replace (53 + (b - 53)) with b by lia.
    reflexivity. }
  rewrite Eb.
  assert (Hq : (inject_Z (Zpos m) < inject_Z (2 ^ 53))%Q) by (rewrite <- Zlt_Qlt; lia).
  assert (0 < inject_Z (Zpos m))%Q by (change 0%Q with (inject_Z 0); rewrite <- Zlt_Qlt; lia).
  nra.
Qed.

Lemma normal_below_exponent M e :
  2 ^ 52 <= M -> (inject_Z M * 2 ^ e < inject_Z (2 ^ 52))%Q -> e < 0.
Proof.
  intros HM H. destruct (Z.lt_ge_cases e 0) as [|He]; trivial. exfalso.
  pose proof (pow2_le 0 e He) as Hp. change (2 ^ 0)%Q with 1%Q in Hp.
  assert (Hq : (inject_Z (2 ^ 52) <= inject_Z M)%Q) by (rewrite <- Zle_Qle; lia).
  assert (0 < inject_Z (2 ^ 52))%Q by reflexivity.
  nra.
Qed.

(** The first snap: the quotient is rounded to zero or to an integer [K]
    whose product with the step is still exact. *)
Lemma first_pass v S :
  normal v -> -1024 <= exponent v <= -3 -> 0 < S <= 10 ^ 15 ->
  Math_round (v / canon false S) = S754_zero (sign v)
  \/ exists K, 0 < K < 2 ^ 52 /\ K * S < 2 ^ 53 /\
               Math_round (v / canon false S) = canon (sign v) K.
Proof.
  intros Nv Ev HS. pose proof (step_bounds S HS) as HS'.
  assert (HS53 : 0 < S < 2 ^ 53) by (change (2 ^ 50) with 1125899906842624 in HS';
                                       change (2 ^ 53) with 9007199254740992; lia).
  destruct (canon_normal false S HS53) as (Ns & Ss & Es & Ms).
  pose proof (digits_le_50 S HS) as Ds.
  pose proof (mag_lt_pow2 v 50 Nv ltac:(lia)) as Bv.
  pose proof (mag_pos v Nv) as Pv.
  destruct (div_error v (canon false S) Nv Ns) as (M & e & E & NM & He & R);
    try (rewrite Es; lia).
  rewrite E, Ss, xorb_false_r. clear E.
  set (Y := (mag v / mag (canon false S))%Q) in *.
  set (x := (inject_Z (Zpos M) * 2 ^ e)%Q) in *.
  assert (PS : (1 <= inject_Z S)%Q) by (change 1%Q with (inject_Z 1); rewrite <- Zle_Qle; lia).
  assert (BS : (inject_Z S < inject_Z (2 ^ 50))%Q) by (rewrite <- Zlt_Qlt; lia).
  assert (EY : (Y * inject_Z S == mag v)%Q).
  { unfold Y. rewrite Ms. field. lra. }
  assert (PY : (0 <= Y)%Q).
  { unfold Y. rewrite Ms. apply Qle_shift_div_l; lra. }
  apply Qabs_Qle_condition in R. destruct R as [R1 R2].
  change u53 with (1 # 9007199254740992)%Q in R1, R2.
  change (2 ^ 50)%Q with 1125899906842624%Q in Bv.
  change (inject_Z (2 ^ 50)) with 1125899906842624%Q in BS.
  assert (BY : (Y <= mag v)%Q) by nra.
  assert (Hx : (x < inject_Z (2 ^ 52))%Q).
  { change (inject_Z (2 ^ 52)) with 4503599627370496%Q. lra. }
  pose proof (normal_below_exponent _ _ (proj1 NM) Hx) as He0.
  pose proof (round_half_up_abs (sign v) (Zpos M) e He0 ltac:(lia)) as [Hs Hn].
  set (n := round_half_up (cond_Zopp (sign v) (Zpos M)) e) in *.
  destruct (Z.eq_dec n 0) as [Z0|N0].
  { left. now apply Math_round_finite_zero. }
  right. exists (Z.abs n).
  assert (Ha : (inject_Z (Z.abs n) * 2 <= 2 * x + 1)%Q).
  { assert (L : (inject_Z (Z.abs n * 2) <= inject_Z (2 * Zpos M + 2 ^ (- e)) * 2 ^ e)%Q).
    { apply scaled_le; lia. }
    rewrite inject_Z_plus, !inject_Z_mult, pow2_inject in L by lia.
    pose proof (pow2_inv e) as Pi.
    change (inject_Z 2) with 2%Q in L.
    assert (E2 : ((2 * inject_Z (Zpos M) + 2 ^ (- e)) * 2 ^ e == 2 * x + 2 ^ (- e) * 2 ^ e)%Q)
      by (unfold x; ring).
    rewrite E2, Pi in L. exact L. }
  set (a := inject_Z (Z.abs n)) in *.
  assert (Hprod : Z.abs n * S < 2 ^ 53).
  { rewrite Zlt_Qlt, inject_Z_mult. fold a.
    change (inject_Z (2 ^ 53)) with 9007199254740992%Q. nra. }
  assert (Hlt : 0 < Z.abs n < 2 ^ 52).
  { split; [lia|]. rewrite Zlt_Qlt. fold a.
    change (inject_Z (2 ^ 52)) with 4503599627370496%Q. lra. }
  split; [exact Hlt|]. split; [exact Hprod|].
  assert (Hlt' : 0 < Z.abs n < 2 ^ 53)
    by (change (2 ^ 52) with 4503599627370496 in Hlt;
        change (2 ^ 53) with 9007199254740992; lia).
  rewrite (Math_round_finite _ _ _ He0 Hlt'). fold n. rewrite Hs.
  destruct (Z.eqb_spec n 0); [contradiction|]. now rewrite andb_true_r.
Qed.

(** The second snap: dividing the snapped value by the step gives the
    same integer back. *)
Lemma second_pass sg K S :
  0 < K < 2 ^ 52 -> 0 < S <= 10 ^ 15 -> K * S < 2 ^ 53 ->
  Math_round (canon sg (K * S) / canon false S) = canon sg K.
Proof.
  intros HK HS HP. pose proof (step_bounds S HS) as HS'.
  assert (HS53 : 0 < S < 2 ^ 53) by (change (2 ^ 50) with 1125899906842624 in HS';
                                       change (2 ^ 53) with 9007199254740992; lia).
  assert (HP53 : 0 < K * S < 2 ^ 53) by nia.
  destruct (canon_normal false S HS53) as (Ns & Ss & Es & Ms).
  destruct (canon_normal sg (K * S) HP53) as (Np & Sp & Ep & Mp).
  pose proof (digits_le_53 S HS53) as Ds. pose proof (digits_le_53 (K * S) HP53) as Dp.
  destruct (div_error (canon sg (K * S)) (canon false S) Np Ns) as (M & e & E & NM & He & R);
    try (rewrite Es, Ep; lia).
  rewrite E, Sp, Ss, xorb_false_r. clear E.
  assert (PS : (1 <= inject_Z S)%Q) by (change 1%Q with (inject_Z 1); rewrite <- Zle_Qle; lia).
  assert (EY : (mag (canon sg (K * S)) / mag (canon false S) == inject_Z K)%Q).
  { rewrite Mp, Ms, inject_Z_mult. field. lra. }
  rewrite EY in R. clear EY.
  set (x := (inject_Z (Zpos M) * 2 ^ e)%Q) in *.
  assert (PK : (0 < inject_Z K)%Q) by (change 0%Q with (inject_Z 0); rewrite <- Zlt_Qlt; lia).
  assert (BK : (inject_Z K <= inject_Z (2 ^ 52 - 1))%Q) by (rewrite <- Zle_Qle; lia).
  change (inject_Z (2 ^ 52 - 1)) with 4503599627370495%Q in BK.
  apply Qabs_Qle_condition in R. destruct R as [R1 R2].
  change u53 with (1 # 9007199254740992)%Q in R1, R2.
  assert (Hx : (x < inject_Z (2 ^ 52))%Q).
  { change (inject_Z (2 ^ 52)) with 4503599627370496%Q. lra. }
  pose proof (normal_below_exponent _ _ (proj1 NM) Hx) as He0.
  assert (U : 2 * Zpos M < (2 * K + 1) * 2 ^ (- e)).
  { apply scaled_lt_l; [lia|]. rewrite inject_Z_plus, !inject_Z_mult.
    change (inject_Z 2) with 2%Q. change (inject_Z 1) with 1%Q.
    rewrite <- Qmult_assoc. fold x. lra. }
  assert (L : (2 * K - 1) * 2 ^ (- e) < 2 * Zpos M).
  { apply scaled_lt_r; [lia|]. unfold Z.sub. rewrite inject_Z_plus, !inject_Z_mult.
    change (inject_Z 2) with 2%Q. change (inject_Z (- (1))) with (- (1))%Q.
    rewrite <- Qmult_assoc. fold x. lra. }
  assert (Hn : round_half_up (cond_Zopp sg (Zpos M)) e = cond_Zopp sg K).
  { apply round_half_up_unique; trivial.
    assert (0 < 2 ^ (- e)) by (apply Z.pow_pos_nonneg; lia).
    destruct sg; cbn [cond_Zopp]; nia. }
  assert (Hlt : 0 < Z.abs (cond_Zopp sg K) < 2 ^ 53).
  { change (2 ^ 52) with 4503599627370496 in HK. change (2 ^ 53) with 9007199254740992.
    destruct sg; cbn [cond_Zopp]; lia. }
  pose proof (Math_round_finite sg M e He0) as MR. cbv zeta in MR.
  rewrite Hn in MR. rewrite (MR Hlt).
  destruct sg; cbn [cond_Zopp]; f_equal; lia.
Qed.

(** A well-formed number of magnitude at most [10^15]: zero, or finite
    with an exponent of at most -3 and a mantissa of at most 53 bits,
    all of them used above the subnormal range. *)
Lemma below_1e15 v :
  well_formed v = true -> le (Math_abs v) (of_Z (10 ^ 15)) = true ->
  isZero v = true
  \/ exists s m e, v = S754_finite s m e /\ e <= -3 /\ Zdigits2 (Zpos m) <= 53
                   /\ (-1074 < e -> normal v).
Proof.
  intros W H.
  change (of_Z (10 ^ 15)) with (S754_finite false 8000000000000000 (-3)) in H.
  apply le_rank in H. destruct H as (ra & rb & A & B & H).
  destruct v as [s|s| |s m e]; cbn in A, B; try discriminate;
    injection A as <-; injection B as <-; cbn [lexlt] in H.
  - now left.
  - destruct H as [H|H]; [lia|discriminate].
  - right. exists s, m, e. split; [reflexivity|].
    assert (He : e <= -3).
    { destruct H as [H|H]; [lia|]. injection H as -> _. lia. }
    split; [exact He|].
    unfold well_formed, valid_binary, bounded, canonical_mantissa in W.
    apply andb_prop in W. destruct W as [W _]. apply Z.eqb_eq in W.
    rewrite fexp_eq in W.
    change (Zpos (digits2_pos m)) with (Zdigits2 (Zpos m)) in W.
    split; [lia|]. intros Hn. cbn [normal].
    assert (Hd : Zdigits2 (Zpos m) = 53) by lia.
    pose proof (Zdigits2_bounds (Zpos m) ltac:(lia)) as Hb. rewrite Hd in Hb.
    exact Hb.
Qed.

(** For every integer step from 1 to 10^15 and every number [v] of
    magnitude at most 10^15, [roundToStep] returns a value that
    [roundToStep] leaves unchanged. *)
Lemma roundToStep_integer_step (v : number) (S : Z) :
  1 <= S <= 10 ^ 15 ->
  well_formed v = true ->
  le (Math_abs v) (of_Z (10 ^ 15)) = true ->
  exists r,
    Quantity.roundToStep v (of_Z S) = inr r /\
    Quantity.roundToStep r (of_Z S) = inr r.
Proof.
  intros HS W Hv. assert (HS0 : 0 < S <= 10 ^ 15) by lia.
  pose proof (step_bounds S HS0) as HS'.
  assert (HS53 : 0 < S < 2 ^ 53) by (change (2 ^ 50) with 1125899906842624 in HS';
                                       change (2 ^ 53) with 9007199254740992; lia).
  rewrite (of_Z_pos S HS53).
  assert (Hz : forall sz, Math_round (v / canon false S) = S754_zero sz ->
               exists r, Quantity.roundToStep v (canon false S) = inr r /\
                         Quantity.roundToStep r (canon false S) = inr r).
  { intros sz E. exists (S754_zero false). split; [|now apply roundToStep_zero].
    rewrite roundToStep_int, E by trivial. cbv zeta. now rewrite snap_zero. }
  destruct (below_1e15 v W Hv) as [Z|(s & m & e & -> & He & Hd & Hn)].
  - clear W Hv Hz. destruct v as [sz| | |]; try discriminate Z.
    exists (S754_zero false). split; now apply roundToStep_zero.
  - destruct (Z.le_gt_cases (-1024) e) as [Hlo|Hlo].
    + specialize (Hn ltac:(lia)).
      destruct (first_pass _ S Hn ltac:(cbn [exponent]; lia) HS0) as [E|(K & HK & HP & E)].
      * now apply (Hz _ E).
      * assert (HP53 : 0 < K * S < 2 ^ 53) by nia.
        exists (canon s (K * S)). cbn [sign] in E. split.
        -- rewrite roundToStep_int, E by trivial. cbv zeta.
           rewrite snap_canon by lia. reflexivity.
        -- rewrite roundToStep_int, second_pass by trivial. cbv zeta.
           rewrite snap_canon by lia. reflexivity.
    + apply (Hz s). now apply div_tiny; try lia.
Qed.

Local Open Scope Z_scope.
Import JS.

(** ** Decimal literals: the error of reading one *)

Lemma Zdigits2_quotient m' Q q r :
  0 < m' -> 0 < Q -> m' = Q * q + r -> 0 <= r < Q ->
  53 + Zdigits2 Q <= Zdigits2 m' ->
  0 < q /\ Zdigits2 m' - Zdigits2 Q <= Zdigits2 q <= Zdigits2 m' - Zdigits2 Q + 1.
Proof.
  intros Hm HQ E Hr Hd.
  pose proof (Zdigits2_pos Q HQ) as PQ.
  pose proof (Zdigits2_bounds m' Hm) as [Ml Mu].
  pose proof (Zdigits2_bounds Q HQ) as [Ql Qu].
  set (a := Zdigits2 m') in *. set (b := Zdigits2 Q) in *.
  assert (Ea : 2 ^ (a - 1) = 2 ^ (a - b - 1) * 2 ^ b)
    by (rewrite <- Z.pow_add_r by lia; f_equal; lia).
  assert (Ea' : 2 ^ a = 2 ^ (a - b + 1) * 2 ^ (b - 1))
    by (rewrite <- Z.pow_add_r by lia; f_equal; lia).
  assert (P1 : 0 < 2 ^ (a - b - 1)) by (apply Z.pow_pos_nonneg; lia).
  assert (P2 : 0 < 2 ^ (a - b + 1)) by (apply Z.pow_pos_nonneg; lia).
  assert (L : 2 ^ (a - b - 1) <= q) by nia.
  assert (U : q < 2 ^ (a - b + 1)) by nia.
  assert (Hq : 0 < q) by lia.
  split; [exact Hq|].
  pose proof (Zdigits2_bounds q Hq) as [ql qu].
  set (c := Zdigits2 q) in *. pose proof (Zdigits2_pos q Hq) as Pc. fold c in Pc.
  split.
  - destruct (Z.le_gt_cases (a - b) c); trivial.
    assert (2 ^ c <= 2 ^ (a - b - 1)) by (apply Z.pow_le_mono_r; lia). lia.
  - destruct (Z.le_gt_cases c (a - b + 1)); trivial.
    assert (2 ^ (a - b + 1) <= 2 ^ (c - 1)) by (apply Z.pow_le_mono_r; lia). lia.
Qed.

(** The number nearest to [p / q] is within the relative error [2^-53] of
    it, or infinite when the ratio is too large. *)
Lemma of_ratio_error s p (q : positive) :
  0 < p -> -1021 <= Zdigits2 p - Zdigits2 (Zpos q) ->
  (of_ratio s p q = S754_infinity s /\ 1022 < Zdigits2 p - Zdigits2 (Zpos q))
  \/
  exists M e,
    of_ratio s p q = S754_finite s M e /\
    2 ^ 52 <= Zpos M < 2 ^ 53 /\
    Zdigits2 p - Zdigits2 (Zpos q) - 53 <= e <= Zdigits2 p - Zdigits2 (Zpos q) - 51 /\
    (Qabs (inject_Z (Zpos M) * 2 ^ e - inject_Z p / inject_Z (Zpos q))
     <= inject_Z p / inject_Z (Zpos q) * u53)%Q.
Proof.
  intros Hp Hlo. unfold of_ratio. destruct p as [|p|p]; try lia.
  unfold SFdiv_core_binary.
  set (d1 := Zdigits2 (Zpos p)) in *. set (d2 := Zdigits2 (Zpos q)) in *.
  set (sh := Z.max (53 + d2 - d1) 0).
  assert (He : Z.min (fexp prec emax (d1 + 0 - (d2 + 0))) (0 - 0) = - sh)
    by (rewrite fexp_eq; unfold sh; lia).
  rewrite He. replace (0 - 0 - - sh) with sh by lia.
  set (m' := match sh with 0 => Zpos p | Zpos _ => Z.shiftl (Zpos p) sh | Zneg _ => 0 end).
  assert (Hsh : 0 <= sh) by (unfold sh; lia).
  assert (Hm : m' = Zpos p * 2 ^ sh).
  { unfold m'. destruct sh as [|k|k] eqn:E; try lia.
    apply Z.shiftl_mul_pow2. lia. }
  pose proof (Z_div_mod m' (Zpos q) ltac:(lia)) as Hdm.
  destruct (Z.div_eucl m' (Zpos q)) as [Q0 r]. destruct Hdm as [Hdm Hr].
  pose proof (Zdigits2_mul_pow2 (Zpos p) sh ltac:(lia) Hsh) as Dm. rewrite <- Hm in Dm.
  fold d1 in Dm.
  assert (Pm' : 0 < m') by (rewrite Hm; apply Z.mul_pos_pos; [lia|apply Z.pow_pos_nonneg; lia]).
  destruct (Zdigits2_quotient m' (Zpos q) Q0 r Pm' ltac:(lia) Hdm Hr) as [HQ0 HD].
  { fold d2. unfold sh in Dm. lia. }
  fold d2 in HD. rewrite Dm in HD.
  assert (Ev : ((inject_Z Q0 + inject_Z r / inject_Z (Zpos q)) * 2 ^ (- sh)
                == inject_Z (Zpos p) / inject_Z (Zpos q))%Q).
  { assert (Pm : ~ (inject_Z (Zpos q) == 0)%Q).
    { intros Z. assert (0 < inject_Z (Zpos q))%Q by (change 0%Q with (inject_Z 0);
        rewrite <- Zlt_Qlt; lia). lra. }
    assert (Em : (inject_Z (Zpos p) * inject_Z (2 ^ sh)
                  == inject_Z (Zpos q) * inject_Z Q0 + inject_Z r)%Q).
    { rewrite <- !inject_Z_mult, <- inject_Z_plus. now rewrite <- Hm, Hdm. }
    rewrite pow2_inject in Em by trivial.
    pose proof (pow2_inv sh) as Pi. pose proof (pow2_pos sh) as Ps.
    assert (G : ((inject_Z Q0 + inject_Z r / inject_Z (Zpos q))
                 == inject_Z (Zpos p) * 2 ^ sh / inject_Z (Zpos q))%Q).
    { rewrite Em. field. exact Pm. }
    rewrite G.
    transitivity (inject_Z (Zpos p) * (2 ^ (- sh) * 2 ^ sh) / inject_Z (Zpos q))%Q.
    - field. exact Pm.
    - rewrite Pi. field. exact Pm. }
  assert (D53 : 53 <= Zdigits2 Q0) by (unfold sh in *; lia).
  assert (Dlo : -1021 <= Zdigits2 Q0 + - sh) by (unfold sh in *; lia).
  destruct (binary_round_aux_large s Q0 (- sh) (new_location (Zpos q) r)
              (inject_Z Q0 + inject_Z r / inject_Z (Zpos q)) HQ0
              ltac:(apply new_location_inv; lia) D53 Dlo)
    as [[E G]|(M & e' & E & HM & He' & Herr)].
  - left. split; [exact E|]. unfold sh in *. lia.
  - right. exists M, e'. split; [exact E|]. split; [exact HM|].
    split; [unfold sh in *; lia|]. rewrite <- Ev. exact Herr.
Qed.

Lemma digits_pow10 (d : nat) :
  (d <= 41)%nat -> 0 < 10 ^ Z.of_nat d /\ 1 <= Zdigits2 (10 ^ Z.of_nat d) <= 137.
Proof.
  intros H. assert (P : 0 < 10 ^ Z.of_nat d) by (apply Z.pow_pos_nonneg; lia).
  split; [exact P|]. pose proof (Zdigits2_pos _ P). split; [lia|].
  apply Zdigits2_le; [lia|]. split; [lia|].
  apply Z.le_lt_trans with (10 ^ 41); [apply Z.pow_le_mono_r; lia|reflexivity].
Qed.

(** The same for the decimal [N / 10^d] with at most 41 decimal places. *)
Lemma of_decimal_error s N (d : nat) :
  0 < N -> (d <= 41)%nat ->
  (of_decimal s N (- Z.of_nat d) = S754_infinity s /\ 1022 < Zdigits2 N)
  \/
  exists M e,
    of_decimal s N (- Z.of_nat d) = S754_finite s M e /\
    2 ^ 52 <= Zpos M < 2 ^ 53 /\
    Zdigits2 N - 190 <= e <= Zdigits2 N - 52 /\
    (Qabs (inject_Z (Zpos M) * 2 ^ e - inject_Z N / inject_Z (10 ^ Z.of_nat d))
     <= inject_Z N / inject_Z (10 ^ Z.of_nat d) * u53)%Q.
Proof.
  intros HN Hd. destruct (digits_pow10 d Hd) as [P10 D10].
  pose proof (Zdigits2_pos N HN) as DN.
  assert (E : exists q : positive,
             of_decimal s N (- Z.of_nat d) = of_ratio s N q /\ Zpos q = 10 ^ Z.of_nat d).
  { unfold of_decimal. destruct d as [|d].
    - exists 1%positive. split; [|reflexivity]. simpl. now rewrite Z.mul_1_r.
    - destruct (Z.leb_spec 0 (- Z.of_nat (S d))) as [G|_]; [lia|].
      rewrite Z.opp_involutive. exists (Z.to_pos (10 ^ Z.of_nat (S d))).
      split; [reflexivity|]. apply Z2Pos.id. exact P10. }
  destruct E as (q & -> & Eq). rewrite <- Eq in *.
  destruct (of_ratio_error s N q HN ltac:(lia)) as [[E G]|(M & e & E & HM & He & Herr)].
  - left. split; [exact E|lia].
  - right. exists M, e. repeat split; trivial; lia.
Qed.

(** *** Reading what [toFixed] prints *)

Lemma Number_toFixed_digits (sg : bool) N (f : nat) :
  0 <= N ->
  Number ((if sg then "-" else "") ++ toFixed_digits N f) = of_decimal sg N (- Z.of_nat f).
Proof.
  intros HN. assert (P10 : 0 < 10 ^ Z.of_nat f) by (apply Z.pow_pos_nonneg; lia).
  unfold toFixed_digits. destruct f as [|f].
  - assert (Hd : all_digits (string_of_Z N) = true) by apply all_digits_digits.
    assert (Hl : (0 < String.length (string_of_Z N))%nat).
    { rewrite length_string_of_Z. pose proof (ndigits_pos N). lia. }
    assert (Hn : numeral (string_of_Z N) None None = string_of_Z N).
    { unfold numeral, exponent_part. cbn [append]. apply append_nil_r. }
    rewrite <- Hn, Number_numeral by (now apply numeral_ok_intro).
    rewrite Hn, read_decimal_digits, dval_string_of_Z by (trivial; lia). reflexivity.
  - set (k := S f) in *.
    set (d1 := string_of_Z (N / 10 ^ Z.of_nat k)). set (d2 := digits k N).
    assert (H1 : all_digits d1 = true) by apply all_digits_digits.
    assert (H2 : all_digits d2 = true) by apply all_digits_digits.
    assert (Hl : (0 < String.length d1)%nat).
    { unfold d1. rewrite length_string_of_Z. pose proof (ndigits_pos (N / 10 ^ Z.of_nat k)). lia. }
    assert (Hn : numeral d1 (Some d2) None = d1 ++ "." ++ d2).
    { unfold numeral, exponent_part. now rewrite append_nil_r. }
    assert (Hok : numeral_ok d1 (Some d2) None = true).
    { unfold numeral_ok. rewrite H1, H2, eqb_empty_length by trivial. reflexivity. }
    rewrite <- Hn, Number_numeral by exact Hok. rewrite Hn.
    unfold read_decimal.
    destruct d1 as [|c d1'] eqn:Ed1; [simpl in Hl; lia|]. rewrite <- Ed1 in *.
    assert (Hc : is_digit c = true).
    { rewrite Ed1 in H1. simpl in H1. now apply andb_prop in H1 as [? _]. }
    replace (String.eqb (d1 ++ "." ++ d2) "Infinity") with false
      by (rewrite Ed1; simpl; not_char Hc c "I"%char; reflexivity).
    rewrite (read_digits_app _ _ _ _ H1). cbn [append].
    rewrite read_digits_stop by reflexivity.
    simpl (Ascii.eqb "." "."). cbv iota.
    rewrite (read_digits_all _ _ _ H2).
    assert (Hlen : (0 + String.length d1 + (0 + String.length d2))%nat
                   = S (String.length d1 + f)%nat).
    { unfold d2. rewrite length_digits. unfold k. lia. }
    rewrite Hlen. cbn [read_exponent].
    assert (Ev : dval d2 (dval d1 0) = N).
    { unfold d2, d1. rewrite dval_digits, dval_string_of_Z
        by (apply Z.div_pos; lia).
      pose proof (Z.div_mod N (10 ^ Z.of_nat k) ltac:(lia)). lia. }
    rewrite Ev. f_equal. unfold d2. rewrite length_digits. lia.
Qed.

Local Open Scope Z_scope.
Import JS.

(** ** quantity.ts: [roundToStep] on a decimal step *)

(** *** Three bounds on the reals *)

(** The integer [K] picked by the first snap, times the digits [S] of
    the step, stays below [2^50 + 1]. *)
Lemma grid_first (st VT w x K KS S : Q) :
  (0 < st -> 1 <= S -> 0 <= w -> VT <= 562949953421312 ->
   S * (1 - (1 # 9007199254740992)) <= st -> st <= S * (1 + (1 # 9007199254740992)) ->
   w * st == VT ->
   x <= w * (1 + (1 # 9007199254740992)) ->
   1 <= K -> 2 * K <= 2 * x + 1 ->
   KS == K * S ->
   KS < 1125899906842625)%Q.
Proof.
  intros Hst HS Hw HV L U Ew Hx HK HKx EKS.
  assert (K2 : (K <= 2 * x)%Q) by lra.
  assert (K3 : (K <= 2 * (w * (1 + (1 # 9007199254740992))))%Q) by lra.
  assert (P1 : (K * st <= 2 * (1 + (1 # 9007199254740992)) * VT)%Q).
  { rewrite <- Ew. nra. }
  assert (P2 : (K * (S * (1 - (1 # 9007199254740992))) <= K * st)%Q) by nra.
  rewrite EKS. nra.
Qed.

(** The product [K * step], scaled by [10^d], is nearer to [K * S] than
    one half. *)
Lemma grid_product (st KS K S YT : Q) :
  (0 < K -> 1 <= S -> KS == K * S -> KS <= 1125899906842624 ->
   S * (1 - (1 # 9007199254740992)) <= st -> st <= S * (1 + (1 # 9007199254740992)) ->
   K * st * (1 - (1 # 9007199254740992)) <= YT ->
   YT <= K * st * (1 + (1 # 9007199254740992)) ->
   KS - (1 # 2) < YT /\ YT < KS + (1 # 2))%Q.
Proof.
  intros HK HS E B L U Yl Yu.
  assert (A1 : (K * st <= KS * (1 + (1 # 9007199254740992)))%Q) by (rewrite E; nra).
  assert (A2 : (KS * (1 - (1 # 9007199254740992)) <= K * st)%Q) by (rewrite E; nra).
  assert (P : (0 < KS)%Q) by (rewrite E; nra).
  split; nra.
Qed.

(** The snapped value divided by the step is nearer to [K] than one
    half. *)
Lemma grid_second (st RT w2 x2 K KS S : Q) :
  (0 < st -> 1 <= K -> 1 <= S -> KS == K * S -> KS <= 1125899906842624 ->
   S * (1 - (1 # 9007199254740992)) <= st -> st <= S * (1 + (1 # 9007199254740992)) ->
   KS * (1 - (1 # 9007199254740992)) <= RT -> RT <= KS * (1 + (1 # 9007199254740992)) ->
   w2 * st == RT ->
   w2 * (1 - (1 # 9007199254740992)) <= x2 -> x2 <= w2 * (1 + (1 # 9007199254740992)) ->
   K - (1 # 2) < x2 /\ x2 < K + (1 # 2))%Q.
Proof.
  intros Hst HK HS E B L U Rl Ru Ew Xl Xu.
  assert (BK : (K <= 1125899906842624)%Q) by nra.
  assert (W0 : (0 <= w2)%Q) by nra.
  assert (W1 : (w2 * (1 - (1 # 9007199254740992)) <= K * (1 + (1 # 9007199254740992)))%Q).
  { assert (w2 * (S * (1 - (1 # 9007199254740992)))
            <= K * S * (1 + (1 # 9007199254740992)))%Q.
    { assert (w2 * (S * (1 - (1 # 9007199254740992))) <= w2 * st)%Q by nra.
      rewrite <- E. lra. }
    nra. }
  assert (W2 : (K * (1 - (1 # 9007199254740992)) <= w2 * (1 + (1 # 9007199254740992)))%Q).
  { assert (K * S * (1 - (1 # 9007199254740992))
            <= w2 * (S * (1 + (1 # 9007199254740992))))%Q.
    { assert (w2 * st <= w2 * (S * (1 + (1 # 9007199254740992))))%Q by nra.
      rewrite <- E. lra. }
    nra. }
  split; nra.
Qed.

(** *** A quotient far below one half *)

Lemma SFdiv_core_low m1 e1 m2 e2 :
  0 < m1 -> 0 < m2 ->
  Zdigits2 m1 + e1 <= Zdigits2 m2 + e2 - 4 ->
  let '(q, e', l) := SFdiv_core_binary prec emax m1 e1 m2 e2 in
  0 <= q /\ Zdigits2 q + e' <= -3.
Proof.
  intros H1 H2 Hd. unfold SFdiv_core_binary.
  set (e' := Z.min _ (e1 - e2)).
  assert (He : e' <= e1 - e2) by (unfold e'; lia).
  assert (He' : e' <= -57) by (unfold e'; rewrite fexp_eq; lia).
  set (m' := match e1 - e2 - e' with 0 => m1 | Zpos _ => _ | Zneg _ => 0 end).
  assert (Hm : m' = m1 * 2 ^ (e1 - e2 - e')).
  { unfold m'. destruct (e1 - e2 - e') as [|p|p] eqn:E; try lia.
    apply Z.shiftl_mul_pow2. lia. }
  assert (Hp : 0 < 2 ^ (e1 - e2 - e')) by (apply Z.pow_pos_nonneg; lia).
  pose proof (Z_div_mod m' m2 ltac:(lia)) as Hdm.
  destruct (Z.div_eucl m' m2) as [q r]. destruct Hdm as [Hdm Hr].
  assert (Hq : 0 <= q) by nia. split; [exact Hq|].
  destruct (Z.eq_dec q 0) as [->|Nq]; [simpl; lia|].
  assert (Pq : 0 < q) by lia.
  pose proof (Zdigits2_mul_pow2 m1 (e1 - e2 - e') H1 ltac:(lia)) as Dm.
  rewrite <- Hm in Dm.
  pose proof (Zdigits2_bounds m' ltac:(nia)) as [_ Bm].
  pose proof (Zdigits2_bounds m2 H2) as [B2 _].
  pose proof (Zdigits2_bounds q Pq) as [Bq _].
  pose proof (Zdigits2_pos m2 H2) as P2. pose proof (Zdigits2_pos q Pq) as P3.
  set (dq := Zdigits2 q) in *. set (d2 := Zdigits2 m2) in *. set (dm := Zdigits2 m') in *.
  assert (L : 2 ^ (dq - 1 + (d2 - 1)) <= m').
  { rewrite Z.pow_add_r by lia. nia. }
  destruct (Z.le_gt_cases dm (dq - 1 + (d2 - 1))) as [G|G]; [|lia].
  assert (2 ^ dm <= 2 ^ (dq - 1 + (d2 - 1))) by (apply Z.pow_le_mono_r; lia). lia.
Qed.

(** A number whose leading bit lies four places or more below that of
    the step is rounded, after the division, to zero. *)
Lemma div_small sv m e ms es :
  Zdigits2 (Zpos m) + e <= Zdigits2 (Zpos ms) + es - 4 ->
  Math_round (S754_finite sv m e / S754_finite false ms es) = S754_zero sv.
Proof.
  intros Hd. unfold div, SFdiv.
  pose proof (SFdiv_core_low (Zpos m) e (Zpos ms) es ltac:(lia) ltac:(lia) Hd) as T.
  destruct (SFdiv_core_binary prec emax (Zpos m) e _ _) as [[q e'] l].
  destruct T as [T1 T2]. rewrite xorb_false_r.
  destruct (binary_round_aux_top sv q e' l T1 T2) as [E|(M & e'' & E & HT)];
    rewrite E; [reflexivity|]. now apply Math_round_tiny.
Qed.

(** *** Where a normal number lies *)

Lemma normal_above_exponent M e a :
  M < 2 ^ 53 -> (2 ^ a <= inject_Z M * 2 ^ e)%Q -> a - 53 < e.
Proof.
  intros HM H. destruct (Z.lt_ge_cases (a - 53) e) as [|He]; trivial. exfalso.
  pose proof (pow2_le e (a - 53) He) as Hp. pose proof (pow2_pos e) as Pe.
  assert (Hq : (inject_Z M <= inject_Z (2 ^ 53 - 1))%Q) by (rewrite <- Zle_Qle; lia).
  assert (Ea : (2 ^ a == inject_Z (2 ^ 53) * 2 ^ (a - 53))%Q).
  { rewrite pow2_inject by lia. rewrite <- pow2_add. replace (53 + (a - 53)) with a by lia.
    reflexivity. }
  rewrite Ea in H.
  change (inject_Z (2 ^ 53)) with 9007199254740992%Q in H.
  change (inject_Z (2 ^ 53 - 1)) with 9007199254740991%Q in Hq.
  pose proof (pow2_pos (a - 53)) as Pa.
  destruct (Qlt_le_dec (inject_Z M) 0) as [N|N]; nra.
Qed.

Lemma normal_below M e a :
  2 ^ 52 <= M -> (inject_Z M * 2 ^ e < 2 ^ a)%Q -> e < a - 52.
Proof.
  intros HM H. destruct (Z.lt_ge_cases e (a - 52)) as [|He]; trivial. exfalso.
  pose proof (pow2_le (a - 52) e He) as Hp. pose proof (pow2_pos (a - 52)) as Pe.
  assert (Hq : (inject_Z (2 ^ 52) <= inject_Z M)%Q) by (rewrite <- Zle_Qle; lia).
  assert (Ea : (2 ^ a == inject_Z (2 ^ 52) * 2 ^ (a - 52))%Q).
  { rewrite pow2_inject by lia. rewrite <- pow2_add. replace (52 + (a - 52)) with a by lia.
    reflexivity. }
  rewrite Ea in H.
  change (inject_Z (2 ^ 52)) with 4503599627370496%Q in *.
  nra.
Qed.

Lemma Qabs_cond_Zopp (s : bool) (m : positive) e :
  (Qabs (inject_Z (cond_Zopp s (Zpos m)) * 2 ^ e) == inject_Z (Zpos m) * 2 ^ e)%Q.
Proof.
  pose proof (pow2_pos e) as Pe.
  assert (Pm : (0 < inject_Z (Zpos m))%Q) by (change 0%Q with (inject_Z 0); rewrite <- Zlt_Qlt; lia).
  destruct s; cbn [cond_Zopp].
  - change (- Zpos m) with (Z.opp (Zpos m)). rewrite inject_Z_opp.
    setoid_replace (- inject_Z (Zpos m) * 2 ^ e)%Q with (- (inject_Z (Zpos m) * 2 ^ e))%Q by ring.
    rewrite Qabs_opp. apply Qabs_pos. nra.
  - apply Qabs_pos. nra.
Qed.

(** *** The two snaps *)

Section Grid.

(** The step: a positive normal number [ms * 2^es] within the relative
    error [2^-53] of the decimal [S / 10^d], where [d] is the number of
    decimal places the code finds in it. *)
Variable ms : positive.
Variable es : Z.
Variable S : Z.
Variable d : nat.

Local Abbreviation step := (S754_finite false ms es).
Local Abbreviation T := (inject_Z (10 ^ Z.of_nat d)).
Local Abbreviation sigma := (inject_Z (Zpos ms) * 2 ^ es)%Q.

Hypothesis Hms : 2 ^ 52 <= Zpos ms < 2 ^ 53.
Hypothesis HS : 1 <= S.
Hypothesis Hd : (d <= 41)%nat.
Hypothesis Hdec : Quantity.decimals step = d.
Hypothesis Hlo : (inject_Z S * (1 - u53) <= sigma * T)%Q.
Hypothesis Hhi : (sigma * T <= inject_Z S * (1 + u53))%Q.

Lemma grid_T : (1 <= T /\ T <= 2 ^ 137)%Q.
Proof.
  assert (P : 0 < 10 ^ Z.of_nat d) by (apply Z.pow_pos_nonneg; lia).
  split.
  - change 1%Q with (inject_Z 1). rewrite <- Zle_Qle. lia.
  - assert (E : (2 ^ 137 == inject_Z (2 ^ 137))%Q) by reflexivity.
    rewrite E, <- Zle_Qle.
    apply Z.le_trans with (10 ^ 41); [apply Z.pow_le_mono_r; lia|].
    apply Z.lt_le_incl. reflexivity.
Qed.

Lemma grid_S : (1 <= inject_Z S)%Q.
Proof. change 1%Q with (inject_Z 1). rewrite <- Zle_Qle. exact HS. Qed.

Lemma grid_sigma : (0 < sigma)%Q.
Proof.
  pose proof (pow2_pos es).
  assert (0 < inject_Z (Zpos ms))%Q by (change 0%Q with (inject_Z 0); rewrite <- Zlt_Qlt; lia).
  nra.
Qed.

Lemma grid_es : -190 <= es.
Proof.
  pose proof grid_T as [T1 T2]. pose proof grid_S as PS. pose proof grid_sigma as Ps.
  assert (E : (2 ^ (-138) * 2 ^ 137 == 1 # 2)%Q) by reflexivity.
  assert (P : (0 < 2 ^ 137)%Q) by reflexivity.
  assert (H : (2 ^ (-138) <= sigma)%Q).
  { change u53 with (1 # 9007199254740992)%Q in Hlo.
    set (s := sigma) in *. set (t := T) in *. set (a := (2 ^ (-138))%Q) in *.
    set (b := (2 ^ 137)%Q) in *. clearbody s t a b. nra. }
  pose proof (normal_above_exponent (Zpos ms) es (-138) ltac:(lia) H). lia.
Qed.

Lemma roundToStep_decimal v :
  Quantity.roundToStep v step
  = inr (let r := Number (toFixed_string (Math_round (v / step) * step)%js d) in
         if isFinite r then r else v).
Proof.
  unfold Quantity.roundToStep. rewrite rounded_inr, Hdec. reflexivity.
Qed.

Lemma of_decimal_zero s q : of_decimal s 0 q = S754_zero s.
Proof. unfold of_decimal. destruct (0 <=? q); reflexivity. Qed.

Lemma snap_grid_zero sz :
  Number (toFixed_string (S754_zero sz * step)%js d) = S754_zero false.
Proof.
  cbn [mul SFmul toFixed_string].
  pose proof (Number_toFixed_digits false 0 d ltac:(lia)) as H. cbn [append] in H.
  rewrite H. apply of_decimal_zero.
Qed.

Lemma roundToStep_grid_zero sz :
  Quantity.roundToStep (S754_zero sz) step = inr (S754_zero false).
Proof.
  rewrite roundToStep_decimal. cbn [div SFdiv Math_round]. cbv zeta.
  now rewrite snap_grid_zero.
Qed.

(** The first snap: the quotient is rounded to zero or to an integer
    [K] with [K * S <= 2^50]. *)
Lemma first_pass_grid sv m e :
  well_formed (S754_finite sv m e) = true ->
  (inject_Z (Zpos m) * 2 ^ e * T <= inject_Z (2 ^ 49))%Q ->
  Math_round (S754_finite sv m e / step) = S754_zero sv
  \/ exists K, 0 < K /\ K * S <= 2 ^ 50 /\
               Math_round (S754_finite sv m e / step) = canon sv K.
Proof.
  intros W HV.
  pose proof grid_T as [T1 T2]. pose proof grid_S as PS. pose proof grid_sigma as Ps.
  pose proof grid_es as Les.
  unfold well_formed, valid_binary, bounded, canonical_mantissa in W.
  apply andb_prop in W. destruct W as [W _]. apply Z.eqb_eq in W.
  rewrite fexp_eq in W. change (Zpos (digits2_pos m)) with (Zdigits2 (Zpos m)) in W.
  destruct (Z.le_gt_cases (Zdigits2 (Zpos m) + e) (53 + es - 4)) as [Small|Big].
  { left. apply div_small. rewrite (normal_digits _ Hms). exact Small. }
  assert (Dm : Zdigits2 (Zpos m) = 53) by lia.
  assert (Nm : 2 ^ 52 <= Zpos m < 2 ^ 53).
  { pose proof (Zdigits2_bounds (Zpos m) ltac:(lia)) as Hb. rewrite Dm in Hb. exact Hb. }
  set (V := (inject_Z (Zpos m) * 2 ^ e)%Q) in *.
  assert (PV : (0 < V)%Q).
  { unfold V. pose proof (pow2_pos e).
    assert (0 < inject_Z (Zpos m))%Q by (change 0%Q with (inject_Z 0); rewrite <- Zlt_Qlt; lia).
    nra. }
  change (inject_Z (2 ^ 49)) with 562949953421312%Q in HV.
  assert (Ee : e < -2).
  { assert (H : (V < 2 ^ 50)%Q).
    { change (2 ^ 50)%Q with 1125899906842624%Q. nra. }
    pose proof (normal_below (Zpos m) e 50 ltac:(lia) H). lia. }
  destruct (div_error (S754_finite sv m e) step Nm Hms) as (M & e' & E & NM & He & R);
    try (cbn [exponent]; lia).
  rewrite E. cbn [sign]. rewrite xorb_false_r. clear E.
  cbn [mag] in R. fold V in R.
  set (w := (V / sigma)%Q) in *.
  set (x := (inject_Z (Zpos M) * 2 ^ e')%Q) in *.
  assert (Ew : (w * sigma == V)%Q).
  { unfold w. field. pose proof (pow2_pos es).
    assert (0 < inject_Z (Zpos ms))%Q by (change 0%Q with (inject_Z 0); rewrite <- Zlt_Qlt; lia).
    split; intros Z; rewrite Z in *; lra. }
  assert (Pw : (0 <= w)%Q).
  { unfold w. apply Qle_shift_div_l; [exact Ps|]. lra. }
  apply Qabs_Qle_condition in R. destruct R as [R1 R2].
  change u53 with (1 # 9007199254740992)%Q in R1, R2, Hlo, Hhi.
  assert (Ew' : (w * (sigma * T) == V * T)%Q) by (rewrite <- Ew; ring).
  assert (Bw : (w * (1 - (1 # 9007199254740992)) <= 562949953421312)%Q).
  { set (st := (sigma * T)%Q) in *. set (s := inject_Z S) in *. set (VT := (V * T)%Q) in *.
    clearbody st s VT w. clear - Ew' Pw Hlo PS HV. nra. }
  assert (Hx : (x < inject_Z (2 ^ 52))%Q).
  { change (inject_Z (2 ^ 52)) with 4503599627370496%Q. lra. }
  pose proof (normal_below_exponent _ _ (proj1 NM) Hx) as He0.
  pose proof (round_half_up_abs sv (Zpos M) e' He0 ltac:(lia)) as [Hs Hn].
  set (n := round_half_up (cond_Zopp sv (Zpos M)) e') in *.
  destruct (Z.eq_dec n 0) as [Z0|N0].
  { left. now apply Math_round_finite_zero. }
  right. exists (Z.abs n).
  assert (Ha : (inject_Z (Z.abs n) * 2 <= 2 * x + 1)%Q).
  { assert (L : (inject_Z (Z.abs n * 2) <= inject_Z (2 * Zpos M + 2 ^ (- e')) * 2 ^ e')%Q).
    { apply scaled_le; lia. }
    rewrite inject_Z_plus, !inject_Z_mult, pow2_inject in L by lia.
    pose proof (pow2_inv e') as Pi.
    change (inject_Z 2) with 2%Q in L.
    assert (E2 : ((2 * inject_Z (Zpos M) + 2 ^ (- e')) * 2 ^ e'
                  == 2 * x + 2 ^ (- e') * 2 ^ e')%Q) by (unfold x; ring).
    rewrite E2, Pi in L. exact L. }
  assert (PK : (1 <= inject_Z (Z.abs n))%Q).
  { change 1%Q with (inject_Z 1). rewrite <- Zle_Qle. lia. }
  assert (HKS : Z.abs n * S <= 2 ^ 50).
  { assert (G : (inject_Z (Z.abs n * S) < 1125899906842625)%Q).
    { assert (Pst : (0 < sigma * T)%Q) by (apply Qmult_lt_0_compat; [exact Ps|lra]).
      assert (X1 : (x <= w * (1 + (1 # 9007199254740992)))%Q) by lra.
      assert (X2 : (2 * inject_Z (Z.abs n) <= 2 * x + 1)%Q) by lra.
      assert (X3 : (inject_Z (Z.abs n * S) == inject_Z (Z.abs n) * inject_Z S)%Q)
        by (rewrite inject_Z_mult; reflexivity).
      exact (grid_first (sigma * T) (V * T) w x (inject_Z (Z.abs n)) _ (inject_Z S)
               Pst PS Pw HV Hlo Hhi Ew' X1 PK X2 X3). }
    change 1125899906842625%Q with (inject_Z (2 ^ 50 + 1)) in G.
    rewrite <- Zlt_Qlt in G. lia. }
  split; [lia|]. split; [exact HKS|].
  assert (Hlt' : 0 < Z.abs n < 2 ^ 53).
  { split; [lia|]. apply Z.le_lt_trans with (Z.abs n * S); [nia|].
    apply Z.le_lt_trans with (2 ^ 50); [exact HKS|reflexivity]. }
  rewrite (Math_round_finite _ _ _ He0 Hlt'). fold n. rewrite Hs.
  destruct (Z.eqb_spec n 0); [contradiction|]. now rewrite andb_true_r.
Qed.

(** The product of [K] and the step, printed with [d] decimals, reads
    as the decimal [K * S / 10^d]. *)
Lemma snap_grid sv K :
  0 < K -> K * S <= 2 ^ 50 ->
  Number (toFixed_string (canon sv K * step)%js d) = of_decimal sv (K * S) (- Z.of_nat d).
Proof.
  intros HK HKS.
  pose proof grid_T as [T1 T2]. pose proof grid_S as PS. pose proof grid_sigma as Ps.
  pose proof grid_es as Les.
  assert (HK53 : 0 < K < 2 ^ 53).
  { split; [lia|]. apply Z.le_lt_trans with (K * S); [nia|].
    apply Z.le_lt_trans with (2 ^ 50); [exact HKS|reflexivity]. }
  assert (BKS : (inject_Z (K * S) <= 1125899906842624)%Q).
  { change 1125899906842624%Q with (inject_Z (2 ^ 50)). now rewrite <- Zle_Qle. }
  assert (EKS : (inject_Z (K * S) == inject_Z K * inject_Z S)%Q)
    by (rewrite inject_Z_mult; reflexivity).
  assert (PK : (0 < inject_Z K)%Q) by (change 0%Q with (inject_Z 0); rewrite <- Zlt_Qlt; lia).
  assert (PK1 : (1 <= inject_Z K)%Q) by (change 1%Q with (inject_Z 1); rewrite <- Zle_Qle; lia).
  change u53 with (1 # 9007199254740992)%Q in Hlo, Hhi.
  assert (BS : (inject_Z S <= 1125899906842624)%Q).
  { rewrite EKS in BKS. set (k := inject_Z K) in *. set (s := inject_Z S) in *.
    clearbody k s. clear - BKS PK1 PS. nra. }
  destruct (canon_normal sv K HK53) as (Nk & Sk & Ek & Mk).
  pose proof (digits_le_53 K HK53) as Dk.
  assert (Ues : es < -1).
  { assert (H : (sigma < 2 ^ 51)%Q).
    { change (2 ^ 51)%Q with 2251799813685248%Q.
      set (sg := sigma) in *. set (t := T) in *. set (s := inject_Z S) in *.
      clearbody sg t s. clear - Hhi BS T1 Ps PS. nra. }
    pose proof (normal_below (Zpos ms) es 51 ltac:(lia) H). lia. }
  destruct (mul_error (canon sv K) step Nk Hms) as (M & e' & E & NM & He & R);
    try (rewrite Ek; cbn [exponent]; lia).
  rewrite E, Sk. cbn [sign]. rewrite xorb_false_r. clear E.
  cbn [mag] in R. rewrite Mk in R.
  set (Y := (inject_Z (Zpos M) * 2 ^ e')%Q) in *.
  apply Qabs_Qle_condition in R. destruct R as [R1 R2].
  change u53 with (1 # 9007199254740992)%Q in R1, R2.
  assert (Yl : (inject_Z K * (sigma * T) * (1 - (1 # 9007199254740992)) <= Y * T)%Q).
  { set (sg := sigma) in *. set (t := T) in *. set (k := inject_Z K) in *.
    clearbody sg t k Y. clear - R1 T1. nra. }
  assert (Yu : (Y * T <= inject_Z K * (sigma * T) * (1 + (1 # 9007199254740992)))%Q).
  { set (sg := sigma) in *. set (t := T) in *. set (k := inject_Z K) in *.
    clearbody sg t k Y. clear - R2 T1. nra. }
  destruct (grid_product (sigma * T) (inject_Z (K * S)) (inject_Z K) (inject_Z S) (Y * T)
              PK PS EKS BKS Hlo Hhi Yl Yu) as [G1 G2].
  assert (PY : (0 < Y)%Q).
  { unfold Y. pose proof (pow2_pos e').
    assert (0 < inject_Z (Zpos M))%Q by (change 0%Q with (inject_Z 0); rewrite <- Zlt_Qlt; lia).
    nra. }
  assert (He0 : e' < 0).
  { apply (normal_below_exponent (Zpos M) e' (proj1 NM)).
    change (inject_Z (2 ^ 52)) with 4503599627370496%Q. fold Y.
    set (t := T) in *. set (ks := inject_Z (K * S)) in *.
    clearbody t ks Y. clear - G2 BKS T1 PY. nra. }
  unfold toFixed_string.
  change ten21 with (S754_finite false 7629394531250000 17).
  unfold SFleb, SFcompare, SFabs.
  destruct (Z.compare_spec 17 e'); try lia.
  assert (EN : toFixed_int M e' d = K * S).
  { unfold toFixed_int. destruct (Z.leb_spec 0 e'); [lia|].
    change ((2 * (Zpos M * 10 ^ Z.of_nat d) + 2 ^ (- e')) / 2 ^ (1 - e'))
      with (round_half_up (Zpos M * 10 ^ Z.of_nat d) e').
    apply round_half_up_unique; [exact He0|].
    assert (YE : (inject_Z (2 * (Zpos M * 10 ^ Z.of_nat d)) * 2 ^ e' == 2 * (Y * T))%Q).
    { rewrite !inject_Z_mult. change (inject_Z 2) with 2%Q. unfold Y. ring. }
    assert (U : 2 * (Zpos M * 10 ^ Z.of_nat d) < (2 * (K * S) + 1) * 2 ^ (- e')).
    { apply scaled_lt_l; [lia|]. rewrite YE, inject_Z_plus, inject_Z_mult.
      change (inject_Z 2) with 2%Q. change (inject_Z 1) with 1%Q. lra. }
    assert (L : (2 * (K * S) - 1) * 2 ^ (- e') < 2 * (Zpos M * 10 ^ Z.of_nat d)).
    { apply scaled_lt_r; [lia|]. rewrite YE. unfold Z.sub.
      rewrite inject_Z_plus, inject_Z_mult.
      change (inject_Z 2) with 2%Q. change (inject_Z (- (1))) with (- (1))%Q. lra. }
    assert (0 < 2 ^ (- e')) by (apply Z.pow_pos_nonneg; lia).
    nia. }
  rewrite EN. apply Number_toFixed_digits. nia.
Qed.

(** The snapped value is the normal number nearest to [K * S / 10^d]. *)
Lemma snapped_grid sv K :
  0 < K -> K * S <= 2 ^ 50 ->
  exists M e,
    of_decimal sv (K * S) (- Z.of_nat d) = S754_finite sv M e /\
    2 ^ 52 <= Zpos M < 2 ^ 53 /\ -190 <= e <= -1 /\
    (inject_Z (K * S) * (1 - u53) <= inject_Z (Zpos M) * 2 ^ e * T)%Q /\
    (inject_Z (Zpos M) * 2 ^ e * T <= inject_Z (K * S) * (1 + u53))%Q.
Proof.
  intros HK HKS. pose proof grid_T as [T1 T2].
  assert (HN : 0 < K * S) by nia.
  assert (DN : 1 <= Zdigits2 (K * S) <= 51).
  { pose proof (Zdigits2_pos _ HN). split; [lia|].
    apply Zdigits2_le; [lia|]. split; [lia|].
    apply Z.le_lt_trans with (2 ^ 50); [exact HKS|reflexivity]. }
  destruct (of_decimal_error sv (K * S) d HN Hd) as [[_ G]|(M & e & E & HM & He & R)]; [lia|].
  exists M, e. split; [exact E|]. split; [exact HM|]. split; [lia|].
  set (R0 := (inject_Z (Zpos M) * 2 ^ e)%Q) in *. set (N := inject_Z (K * S)) in *.
  assert (PN : (0 < N)%Q) by (unfold N; change 0%Q with (inject_Z 0); now rewrite <- Zlt_Qlt).
  set (t := T) in *.
  assert (Ew : (N / t * t == N)%Q) by (field; intros Z; rewrite Z in T1; lra).
  apply Qabs_Qle_condition in R. destruct R as [R1 R2].
  change u53 with (1 # 9007199254740992)%Q in *.
  set (w := (N / t)%Q) in *. clearbody w R0 N t. clear - R1 R2 Ew T1 PN. split; nra.
Qed.

(** The second snap: the snapped value divided by the step rounds to the
    same integer [K]. *)
Lemma second_pass_grid sv K M e :
  0 < K -> K * S <= 2 ^ 50 ->
  2 ^ 52 <= Zpos M < 2 ^ 53 -> -190 <= e <= -1 ->
  (inject_Z (K * S) * (1 - u53) <= inject_Z (Zpos M) * 2 ^ e * T)%Q ->
  (inject_Z (Zpos M) * 2 ^ e * T <= inject_Z (K * S) * (1 + u53))%Q ->
  Math_round (S754_finite sv M e / step) = canon sv K.
Proof.
  intros HK HKS HM He Rl Ru.
  pose proof grid_T as [T1 T2]. pose proof grid_S as PS. pose proof grid_sigma as Ps.
  pose proof grid_es as Les.
  assert (HK53 : 0 < K < 2 ^ 53).
  { split; [lia|]. apply Z.le_lt_trans with (K * S); [nia|].
    apply Z.le_lt_trans with (2 ^ 50); [exact HKS|reflexivity]. }
  assert (BKS : (inject_Z (K * S) <= 1125899906842624)%Q).
  { change 1125899906842624%Q with (inject_Z (2 ^ 50)). now rewrite <- Zle_Qle. }
  assert (EKS : (inject_Z (K * S) == inject_Z K * inject_Z S)%Q)
    by (rewrite inject_Z_mult; reflexivity).
  assert (PK1 : (1 <= inject_Z K)%Q) by (change 1%Q with (inject_Z 1); rewrite <- Zle_Qle; lia).
  change u53 with (1 # 9007199254740992)%Q in Hlo, Hhi, Rl, Ru.
  assert (BS : (inject_Z S <= 1125899906842624)%Q).
  { rewrite EKS in BKS. set (k := inject_Z K) in *. set (s := inject_Z S) in *.
    clearbody k s. clear - BKS PK1 PS. nra. }
  assert (Ues : es < -1).
  { assert (H : (sigma < 2 ^ 51)%Q).
    { change (2 ^ 51)%Q with 2251799813685248%Q.
      set (sg := sigma) in *. set (t := T) in *. set (s := inject_Z S) in *.
      clearbody sg t s. clear - Hhi BS T1 Ps PS. nra. }
    pose proof (normal_below (Zpos ms) es 51 ltac:(lia) H). lia. }
  destruct (div_error (S754_finite sv M e) step HM Hms) as (M' & e' & E & NM & He' & R);
    try (cbn [exponent]; lia).
  rewrite E. cbn [sign]. rewrite xorb_false_r. clear E.
  cbn [mag] in R.
  set (R0 := (inject_Z (Zpos M) * 2 ^ e)%Q) in *.
  set (w := (R0 / sigma)%Q) in *.
  set (x := (inject_Z (Zpos M') * 2 ^ e')%Q) in *.
  assert (Ew : (w * sigma == R0)%Q).
  { unfold w. field. pose proof (pow2_pos es).
    assert (0 < inject_Z (Zpos ms))%Q by (change 0%Q with (inject_Z 0); rewrite <- Zlt_Qlt; lia).
    split; intros Z; rewrite Z in *; lra. }
  assert (Ew' : (w * (sigma * T) == R0 * T)%Q) by (rewrite <- Ew; ring).
  assert (Pst : (0 < sigma * T)%Q) by (apply Qmult_lt_0_compat; [exact Ps|lra]).
  apply Qabs_Qle_condition in R. destruct R as [R1 R2].
  change u53 with (1 # 9007199254740992)%Q in R1, R2.
  assert (X1 : (w * (1 - (1 # 9007199254740992)) <= x)%Q) by lra.
  assert (X2 : (x <= w * (1 + (1 # 9007199254740992)))%Q) by lra.
  destruct (grid_second (sigma * T) (R0 * T) w x (inject_Z K) (inject_Z (K * S)) (inject_Z S)
              Pst PK1 PS EKS BKS Hlo Hhi Rl Ru Ew' X1 X2) as [G1 G2].
  assert (BK : (inject_Z K <= inject_Z (2 ^ 52 - 1))%Q) by (rewrite <- Zle_Qle; nia).
  change (inject_Z (2 ^ 52 - 1)) with 4503599627370495%Q in BK.
  assert (Hx : (x < inject_Z (2 ^ 52))%Q).
  { change (inject_Z (2 ^ 52)) with 4503599627370496%Q.
    assert (inject_Z K <= 1125899906842624)%Q.
    { set (k := inject_Z K) in *. set (s := inject_Z S) in *. set (ks := inject_Z (K * S)) in *.
      clearbody k s ks. clear - BKS EKS PK1 PS. nra. }
    lra. }
  pose proof (normal_below_exponent _ _ (proj1 NM) Hx) as He0.
  assert (U : 2 * Zpos M' < (2 * K + 1) * 2 ^ (- e')).
  { apply scaled_lt_l; [lia|]. rewrite inject_Z_plus, !inject_Z_mult.
    change (inject_Z 2) with 2%Q. change (inject_Z 1) with 1%Q.
    rewrite <- Qmult_assoc. fold x. lra. }
  assert (L : (2 * K - 1) * 2 ^ (- e') < 2 * Zpos M').
  { apply scaled_lt_r; [lia|]. unfold Z.sub. rewrite inject_Z_plus, !inject_Z_mult.
    change (inject_Z 2) with 2%Q. change (inject_Z (- (1))) with (- (1))%Q.
    rewrite <- Qmult_assoc. fold x. lra. }
  assert (Hn : round_half_up (cond_Zopp sv (Zpos M')) e' = cond_Zopp sv K).
  { apply round_half_up_unique; trivial.
    assert (0 < 2 ^ (- e')) by (apply Z.pow_pos_nonneg; lia).
    destruct sv; cbn [cond_Zopp]; nia. }
  assert (Hlt : 0 < Z.abs (cond_Zopp sv K) < 2 ^ 53).
  { destruct sv; cbn [cond_Zopp]; lia. }
  pose proof (Math_round_finite sv M' e' He0) as MR. cbv zeta in MR.
  rewrite Hn in MR. rewrite (MR Hlt).
  destruct sv; cbn [cond_Zopp]; f_equal; lia.
Qed.

(** [roundToStep] returns a value that it leaves unchanged. *)
Lemma roundToStep_grid v q :
  well_formed v = true -> Spec.to_Q v = Some q ->
  (Qabs q * T <= inject_Z (2 ^ 49))%Q ->
  exists r, Quantity.roundToStep v step = inr r /\ Quantity.roundToStep r step = inr r.
Proof.
  intros W Eq Hq.
  assert (Hz : forall sz, Math_round (v / step) = S754_zero sz ->
               exists r, Quantity.roundToStep v step = inr r /\
                         Quantity.roundToStep r step = inr r).
  { intros sz E. exists (S754_zero false). split; [|apply roundToStep_grid_zero].
    rewrite roundToStep_decimal, E. cbv zeta. now rewrite snap_grid_zero. }
  destruct v as [sz| | |sv m e]; try discriminate Eq.
  - exists (S754_zero false). split; apply roundToStep_grid_zero.
  - cbn [Spec.to_Q] in Eq. injection Eq as <-.
    assert (HV : (inject_Z (Zpos m) * 2 ^ e * T <= inject_Z (2 ^ 49))%Q).
    { rewrite <- (Qabs_cond_Zopp sv m e). exact Hq. }
    destruct (first_pass_grid sv m e W HV) as [E|(K & HK & HKS & E)].
    + now apply (Hz _ E).
    + destruct (snapped_grid sv K HK HKS) as (M & e' & Er & HM & He & Rl & Ru).
      exists (S754_finite sv M e'). split.
      * rewrite roundToStep_decimal, E. cbv zeta.
        rewrite snap_grid, Er by trivial. reflexivity.
      * rewrite roundToStep_decimal, (second_pass_grid sv K M e') by trivial. cbv zeta.
        rewrite snap_grid, Er by trivial. reflexivity.
Qed.

End Grid.

(** An infinite step: the product is NaN, and [roundToStep] returns its
    argument. *)
Lemma roundToStep_infinite_step v q :
  Spec.to_Q v = Some q ->
  Quantity.roundToStep v (S754_infinity false) = inr v.
Proof.
  destruct v as [[]| | |[] m e]; try discriminate; intros _; reflexivity.
Qed.

(** [roundToStep] on a decimal step [S / 10^d], for values up to
    [2^49 / 10^d] in magnitude, returns a value that it leaves
    unchanged. *)
Lemma roundToStep_decimal_step (v step : number) (S : Z) (d : nat) (q : Q) :
  1 <= S ->
  step = of_decimal false S (- Z.of_nat d) ->
  Quantity.decimals step = d ->
  well_formed v = true ->
  Spec.to_Q v = Some q ->
  (Qabs q * inject_Z (10 ^ Z.of_nat d) <= inject_Z (2 ^ 49))%Q ->
  exists r, Quantity.roundToStep v step = inr r /\ Quantity.roundToStep r step = inr r.
Proof.
  intros HS Es Hdec W Eq Hq.
  assert (Hd : (d <= 41)%nat) by (rewrite <- Hdec; apply decimals_bound).
  destruct (of_decimal_error false S d ltac:(lia) Hd) as [[E _]|(M & e & E & HM & He & R)];
    rewrite E in Es; subst step.
  - exists v. split; apply (roundToStep_infinite_step v q Eq).
  - assert (P10 : 0 < 10 ^ Z.of_nat d) by (apply Z.pow_pos_nonneg; lia).
    assert (T1 : (1 <= inject_Z (10 ^ Z.of_nat d))%Q)
      by (change 1%Q with (inject_Z 1); rewrite <- Zle_Qle; lia).
    assert (B : (inject_Z S * (1 - u53) <= inject_Z (Zpos M) * 2 ^ e * inject_Z (10 ^ Z.of_nat d)
                 /\ inject_Z (Zpos M) * 2 ^ e * inject_Z (10 ^ Z.of_nat d)
                    <= inject_Z S * (1 + u53))%Q).
    { set (R0 := (inject_Z (Zpos M) * 2 ^ e)%Q) in *. set (N := inject_Z S) in *.
      assert (PN : (0 < N)%Q) by (unfold N; change 0%Q with (inject_Z 0); rewrite <- Zlt_Qlt; lia).
      set (t := inject_Z (10 ^ Z.of_nat d)) in *.
      assert (Ew : (N / t * t == N)%Q) by (field; intros Z; rewrite Z in T1; lra).
      apply Qabs_Qle_condition in R. destruct R as [R1 R2].
      change u53 with (1 # 9007199254740992)%Q in *.
      set (w := (N / t)%Q) in *. clearbody w R0 N t. clear - R1 R2 Ew T1 PN. split; nra. }
    destruct B as [Hlo Hhi].
    exact (roundToStep_grid M e S d HM HS Hd Hdec Hlo Hhi v q W Eq Hq).
Qed.

(** C7, amended.  Snapping is idempotent, [roundToStep] returning a value
    [r] that [roundToStep] leaves unchanged, in two cases.  First, for
    every whole step from 1 to 10^15 and every value of magnitude at most
    10^15.  Second, for every step that is the number nearest to a
    decimal [S / 10^d], with [S >= 1] a whole number and [d] the number of
    decimal places [roundToStep] finds in the step, and every value [v]
    with [|v| * 10^d <= 2^49].  The steps 0.5, 0.25, 0.1 and 0.01 are such
    decimals. *)
Theorem roundToStep_idempotent :
  (forall (v : number) (S : Z),
     1 <= S <= 10 ^ 15 ->
     well_formed v = true ->
     le (Math_abs v) (of_Z (10 ^ 15)) = true ->
     exists r,
       Quantity.roundToStep v (of_Z S) = inr r /\
       Quantity.roundToStep r (of_Z S) = inr r)
  /\
  (forall (v step : number) (S : Z) (d : nat) (q : Q),
     1 <= S ->
     step = of_decimal false S (- Z.of_nat d) ->
     Quantity.decimals step = d ->
     well_formed v = true ->
     Spec.to_Q v = Some q ->
     (Qabs q * inject_Z (10 ^ Z.of_nat d) <= inject_Z (2 ^ 49))%Q ->
     exists r,
       Quantity.roundToStep v step = inr r /\
       Quantity.roundToStep r step = inr r)
  /\
  Forall (fun '(n, d) => dec n d = of_decimal false n (- Z.of_nat d)
                         /\ Quantity.decimals (dec n d) = d)
    [(5, 1%nat); (25, 2%nat); (1, 1%nat); (1, 2%nat)].
Proof.
  split; [exact roundToStep_integer_step|].
  split; [exact roundToStep_decimal_step|].
  repeat constructor.
Qed.

Lemma roundToStep_idempotent_witness :
  let v := dec 123456 2 in
  let step := dec 25 2 in
  exists r,
    Quantity.roundToStep v step = inr r /\
    Quantity.roundToStep r step = inr r.
Proof.
  intros v step.
  destruct roundToStep_idempotent as (_ & H & _).
  apply (H v step 25 2%nat (5429652300748554 # 4398046511104)%Q).
  - lia.
  - reflexivity.
  - reflexivity.
  - reflexivity.
  - reflexivity.
  - vm_compute. discriminate.
Defined.

Local Open Scope Z_scope.
Import JS.

(** ** Arithmetic on integers below [2^53] is exact *)

Lemma of_Z_0 : of_Z 0 = S754_zero false.
Proof. reflexivity. Qed.

Lemma of_Z_canon z :
  0 < Z.abs z < 2 ^ 53 -> of_Z z = canon (z <? 0) (Z.abs z).
Proof.
  intros H. destruct (Z.ltb_spec z 0).
  - replace z with (- Z.abs z) at 1 by lia. apply of_Z_neg. lia.
  - replace z with (Z.abs z) at 1 by lia. apply of_Z_pos. lia.
Qed.

Lemma Zdigits2_mono a b : 0 < a <= b -> Zdigits2 a <= Zdigits2 b.
Proof.
  intros H. pose proof (Zdigits2_bounds a ltac:(lia)) as [A1 A2].
  pose proof (Zdigits2_bounds b ltac:(lia)) as [B1 B2].
  pose proof (Zdigits2_pos a ltac:(lia)). pose proof (Zdigits2_pos b ltac:(lia)).
  destruct (Z.le_gt_cases (Zdigits2 a) (Zdigits2 b)); trivial.
  assert (2 ^ Zdigits2 b <= 2 ^ (Zdigits2 a - 1)) by (apply Z.pow_le_mono_r; lia). lia.
Qed.

(** *** The order *)

Lemma lex3_canon A B :
  0 < A < 2 ^ 53 -> 0 < B < 2 ^ 53 ->
  match Zdigits2 A - 53 ?= Zdigits2 B - 53 with
  | Eq => A * 2 ^ (53 - Zdigits2 A) ?= B * 2 ^ (53 - Zdigits2 B)
  | c => c
  end = (A ?= B).
Proof.
  intros HA HB. pose proof (digits_le_53 A HA) as DA. pose proof (digits_le_53 B HB) as DB.
  pose proof (Zdigits2_bounds A ltac:(lia)) as [A1 A2].
  pose proof (Zdigits2_bounds B ltac:(lia)) as [B1 B2].
  destruct (Z.compare_spec (Zdigits2 A - 53) (Zdigits2 B - 53)) as [E|L|G].
  - replace (Zdigits2 B) with (Zdigits2 A) by lia.
    assert (P : 0 < 2 ^ (53 - Zdigits2 A)) by (apply Z.pow_pos_nonneg; lia).
    destruct (Z.compare_spec A B) as [->|L'|G'].
    + apply Z.compare_refl.
    + apply Z.compare_lt_iff. nia.
    + apply Z.compare_gt_iff. nia.
  - symmetry. apply Z.compare_lt_iff.
    destruct (Z.lt_ge_cases A B) as [|G]; trivial.
    pose proof (Zdigits2_mono B A ltac:(lia)). lia.
  - symmetry. apply Z.compare_gt_iff.
    destruct (Z.lt_ge_cases B A) as [|G']; trivial.
    pose proof (Zdigits2_mono A B ltac:(lia)). lia.
Qed.

Lemma compare_canon sa sb A B :
  0 < A < 2 ^ 53 -> 0 < B < 2 ^ 53 ->
  SFcompare (canon sa A) (canon sb B) = Some (cond_Zopp sa A ?= cond_Zopp sb B).
Proof.
  intros HA HB. pose proof (lex3_canon A B HA HB) as L.
  pose proof (lex3_canon B A HB HA) as L'.
  pose proof (canon_mantissa A HA) as MA. pose proof (canon_mantissa B HB) as MB.
  unfold canon, SFcompare.
  assert (EA : forall c, Pos.compare_cont c (Z.to_pos (A * 2 ^ (53 - Zdigits2 A)))
                           (Z.to_pos (B * 2 ^ (53 - Zdigits2 B)))
                         = match A * 2 ^ (53 - Zdigits2 A) ?= B * 2 ^ (53 - Zdigits2 B) with
                           | Eq => c | r => r end).
  { intros c. rewrite Pos.compare_cont_spec. unfold Pos.switch_Eq.
    rewrite <- Z2Pos.inj_compare by lia. now destruct (_ ?= _). }
  assert (EB : forall c, Pos.compare_cont c (Z.to_pos (B * 2 ^ (53 - Zdigits2 B)))
                           (Z.to_pos (A * 2 ^ (53 - Zdigits2 A)))
                         = match B * 2 ^ (53 - Zdigits2 B) ?= A * 2 ^ (53 - Zdigits2 A) with
                           | Eq => c | r => r end).
  { intros c. rewrite Pos.compare_cont_spec. unfold Pos.switch_Eq.
    rewrite <- Z2Pos.inj_compare by lia. now destruct (_ ?= _). }
  destruct sa, sb; cbn [cond_Zopp].
  - rewrite Z.compare_opp. rewrite <- L'.
    rewrite (Z.compare_antisym (Zdigits2 A - 53) (Zdigits2 B - 53)).
    destruct (Zdigits2 A - 53 ?= Zdigits2 B - 53); cbn [CompOpp]; trivial.
    rewrite EA. rewrite (Z.compare_antisym (A * _) (B * _)).
    now destruct (A * 2 ^ (53 - Zdigits2 A) ?= B * 2 ^ (53 - Zdigits2 B)).
  - f_equal. symmetry. apply Z.compare_lt_iff. lia.
  - f_equal. symmetry. apply Z.compare_gt_iff. lia.
  - rewrite <- L. destruct (Zdigits2 A - 53 ?= Zdigits2 B - 53); trivial.
    rewrite EA. now destruct (A * 2 ^ (53 - Zdigits2 A) ?= B * 2 ^ (53 - Zdigits2 B)).
Qed.

(** Comparing the numbers of two integers compares the integers. *)
Lemma compare_of_Z a b :
  Z.abs a < 2 ^ 53 -> Z.abs b < 2 ^ 53 ->
  SFcompare (of_Z a) (of_Z b) = Some (a ?= b).
Proof.
  intros Ha Hb.
  destruct (Z.eq_dec a 0) as [->|Na], (Z.eq_dec b 0) as [->|Nb].
  - reflexivity.
  - rewrite of_Z_0, (of_Z_canon b) by lia. unfold canon. cbn [SFcompare].
    destruct (Z.ltb_spec b 0); f_equal; symmetry;
      [apply Z.compare_gt_iff|apply Z.compare_lt_iff]; lia.
  - rewrite of_Z_0, (of_Z_canon a) by lia. unfold canon. cbn [SFcompare].
    destruct (Z.ltb_spec a 0); f_equal; symmetry;
      [apply Z.compare_lt_iff|apply Z.compare_gt_iff]; lia.
  - rewrite (of_Z_canon a), (of_Z_canon b), compare_canon by lia.
    f_equal. f_equal.
    + destruct (Z.ltb_spec a 0); cbn [cond_Zopp]; lia.
    + destruct (Z.ltb_spec b 0); cbn [cond_Zopp]; lia.
Qed.

Lemma le_of_Z a b :
  Z.abs a < 2 ^ 53 -> Z.abs b < 2 ^ 53 -> le (of_Z a) (of_Z b) = (a <=? b).
Proof.
  intros Ha Hb. unfold le, SFleb. rewrite compare_of_Z by trivial.
  unfold Z.leb. now destruct (a ?= b).
Qed.

Lemma lt_of_Z a b :
  Z.abs a < 2 ^ 53 -> Z.abs b < 2 ^ 53 -> lt (of_Z a) (of_Z b) = (a <? b).
Proof.
  intros Ha Hb. unfold lt, SFltb. rewrite compare_of_Z by trivial.
  unfold Z.ltb. now destruct (a ?= b).
Qed.

Lemma strict_eq_of_Z a b :
  Z.abs a < 2 ^ 53 -> Z.abs b < 2 ^ 53 -> strict_eq (of_Z a) (of_Z b) = (a =? b).
Proof.
  intros Ha Hb. unfold strict_eq, SFeqb. rewrite compare_of_Z by trivial.
  destruct (Z.compare_spec a b) as [->|L|G].
  - now rewrite Z.eqb_refl.
  - symmetry. apply Z.eqb_neq. lia.
  - symmetry. apply Z.eqb_neq. lia.
Qed.

Lemma Math_max_of_Z a b :
  Z.abs a < 2 ^ 53 -> Z.abs b < 2 ^ 53 ->
  Math_max (of_Z a) (of_Z b) = of_Z (Z.max a b).
Proof.
  intros Ha Hb. unfold Math_max. rewrite compare_of_Z by trivial.
  destruct (Z.compare_spec a b) as [->|L|G].
  - rewrite Z.max_id. now destruct (of_Z b) as [[]| | |].
  - now rewrite Z.max_r by lia.
  - now rewrite Z.max_l by lia.
Qed.

Lemma Math_min_of_Z a b :
  Z.abs a < 2 ^ 53 -> Z.abs b < 2 ^ 53 ->
  Math_min (of_Z a) (of_Z b) = of_Z (Z.min a b).
Proof.
  intros Ha Hb. unfold Math_min. rewrite compare_of_Z by trivial.
  destruct (Z.compare_spec a b) as [->|L|G].
  - rewrite Z.min_id. now destruct (of_Z b) as [[]| | |].
  - now rewrite Z.min_l by lia.
  - now rewrite Z.min_r by lia.
Qed.

(** *** Sums and differences *)

Lemma add_finite sx mx ex sy my ey :
  (S754_finite sx mx ex + S754_finite sy my ey)%js
  = binary_normalize prec emax
      (cond_Zopp sx (Zpos (fst (shl_align mx ex (Z.min ex ey))))
       + cond_Zopp sy (Zpos (fst (shl_align my ey (Z.min ex ey)))))
      (Z.min ex ey) false.
Proof. reflexivity. Qed.

Lemma sub_finite sx mx ex sy my ey :
  (S754_finite sx mx ex - S754_finite sy my ey)%js
  = binary_normalize prec emax
      (cond_Zopp sx (Zpos (fst (shl_align mx ex (Z.min ex ey))))
       - cond_Zopp sy (Zpos (fst (shl_align my ey (Z.min ex ey)))))
      (Z.min ex ey) false.
Proof. reflexivity. Qed.

(** The mantissa of an integer, aligned to a lower exponent. *)
Lemma aligned_canon A ez :
  0 < A < 2 ^ 53 -> ez <= Zdigits2 A - 53 ->
  Zpos (fst (shl_align (Z.to_pos (A * 2 ^ (53 - Zdigits2 A))) (Zdigits2 A - 53) ez))
  = A * 2 ^ (- ez).
Proof.
  intros HA He. pose proof (digits_le_53 A HA) as DA.
  pose proof (canon_mantissa A HA) as MA.
  pose proof (shl_align_spec (Z.to_pos (A * 2 ^ (53 - Zdigits2 A))) (Zdigits2 A - 53) ez) as H.
  destruct (shl_align _ _ ez) as [mz ez']. destruct H as [H1 H2]. cbn [fst].
  rewrite H2, Z2Pos.id by lia. rewrite <- Z.mul_assoc, <- Z.pow_add_r by lia.
  do 2 f_equal. lia.
Qed.

Lemma cond_Zopp_mul s a b : cond_Zopp s (a * b) = cond_Zopp s a * b.
Proof. destruct s; cbn [cond_Zopp]; lia. Qed.

Lemma cond_Zopp_abs z : cond_Zopp (z <? 0) (Z.abs z) = z.
Proof. destruct (Z.ltb_spec z 0); cbn [cond_Zopp]; lia. Qed.

Lemma binary_normalize_scaled K e :
  Z.abs K < 2 ^ 53 -> e <= 0 ->
  binary_normalize prec emax (K * 2 ^ (- e)) e false = of_Z K.
Proof.
  intros HK He. destruct (Z.eq_dec K 0) as [->|N]; [reflexivity|].
  apply binary_normalize_int; lia.
Qed.

Lemma add_of_Z a b :
  Z.abs a < 2 ^ 53 -> Z.abs b < 2 ^ 53 -> Z.abs (a + b) < 2 ^ 53 ->
  (of_Z a + of_Z b)%js = of_Z (a + b).
Proof.
  intros Ha Hb Hab.
  destruct (Z.eq_dec a 0) as [->|Na].
  { rewrite of_Z_0. cbn [Z.add]. destruct (of_Z b) as [[]| | |] eqn:E; try reflexivity.
    all: exfalso; destruct (Z.eq_dec b 0) as [->|Nb]; [discriminate E|];
      rewrite of_Z_canon in E by lia; discriminate E. }
  destruct (Z.eq_dec b 0) as [->|Nb].
  { rewrite of_Z_0, Z.add_0_r, (of_Z_canon a) by lia. reflexivity. }
  rewrite (of_Z_canon a), (of_Z_canon b) by lia.
  pose proof (digits_le_53 (Z.abs a) ltac:(lia)) as Da.
  pose proof (digits_le_53 (Z.abs b) ltac:(lia)) as Db.
  unfold canon. rewrite add_finite.
  set (ez := Z.min (Zdigits2 (Z.abs a) - 53) (Zdigits2 (Z.abs b) - 53)).
  rewrite !aligned_canon by (unfold ez; lia).
  replace (cond_Zopp (a <? 0) (Z.abs a * 2 ^ (- ez)) + cond_Zopp (b <? 0) (Z.abs b * 2 ^ (- ez)))
    with ((a + b) * 2 ^ (- ez)).
  - apply binary_normalize_scaled; [trivial|unfold ez; lia].
  - rewrite !cond_Zopp_mul, !cond_Zopp_abs. ring.
Qed.

Lemma sub_of_Z a b :
  Z.abs a < 2 ^ 53 -> Z.abs b < 2 ^ 53 -> Z.abs (a - b) < 2 ^ 53 ->
  (of_Z a - of_Z b)%js = of_Z (a - b).
Proof.
  intros Ha Hb Hab.
  destruct (Z.eq_dec b 0) as [->|Nb].
  { rewrite of_Z_0, Z.sub_0_r. destruct (of_Z a) as [[]| | |] eqn:E; try reflexivity.
    all: exfalso; destruct (Z.eq_dec a 0) as [->|Na]; [discriminate E|];
      rewrite of_Z_canon in E by lia; discriminate E. }
  destruct (Z.eq_dec a 0) as [->|Na].
  { rewrite of_Z_0, (of_Z_canon b), (of_Z_canon (0 - b)) by lia.
    unfold canon. cbn [sub SFsub]. replace (Z.abs (0 - b)) with (Z.abs b) by lia.
    f_equal. destruct (Z.ltb_spec b 0), (Z.ltb_spec (0 - b) 0); trivial; lia. }
  rewrite (of_Z_canon a), (of_Z_canon b) by lia.
  pose proof (digits_le_53 (Z.abs a) ltac:(lia)) as Da.
  pose proof (digits_le_53 (Z.abs b) ltac:(lia)) as Db.
  unfold canon. rewrite sub_finite.
  set (ez := Z.min (Zdigits2 (Z.abs a) - 53) (Zdigits2 (Z.abs b) - 53)).
  rewrite !aligned_canon by (unfold ez; lia).
  replace (cond_Zopp (a <? 0) (Z.abs a * 2 ^ (- ez)) - cond_Zopp (b <? 0) (Z.abs b * 2 ^ (- ez)))
    with ((a - b) * 2 ^ (- ez)).
  - apply binary_normalize_scaled; [trivial|unfold ez; lia].
  - rewrite !cond_Zopp_mul, !cond_Zopp_abs. ring.
Qed.

(** *** Products *)

Lemma mul_of_Z a b :
  0 <= a < 2 ^ 53 -> 0 <= b < 2 ^ 53 -> a * b < 2 ^ 53 ->
  (of_Z a * of_Z b)%js = of_Z (a * b).
Proof.
  intros Ha Hb Hab.
  destruct (Z.eq_dec a 0) as [->|Na].
  { rewrite Z.mul_0_l, of_Z_0. destruct (Z.eq_dec b 0) as [->|Nb]; [reflexivity|].
    rewrite (of_Z_pos b) by lia. reflexivity. }
  destruct (Z.eq_dec b 0) as [->|Nb].
  { rewrite Z.mul_0_r, of_Z_0, (of_Z_pos a) by lia. reflexivity. }
  rewrite (of_Z_pos a), (of_Z_pos b), (of_Z_pos (a * b)) by nia.
  rewrite mul_canon by lia. reflexivity.
Qed.

(** *** Remainders *)

Lemma rem_of_Z a b :
  0 <= a < 2 ^ 53 -> 0 < b < 2 ^ 53 -> (of_Z a %% of_Z b)%js = of_Z (a mod b).
Proof.
  intros Ha Hb. rewrite (of_Z_pos b) by lia.
  destruct (Z.eq_dec a 0) as [->|Na].
  { rewrite Z.mod_0_l by lia. reflexivity. }
  rewrite (of_Z_pos a) by lia.
  pose proof (digits_le_53 a ltac:(lia)) as Da. pose proof (digits_le_53 b Hb) as Db.
  pose proof (canon_mantissa a ltac:(lia)) as Ma. pose proof (canon_mantissa b Hb) as Mb.
  unfold canon. cbn [rem]. rewrite !Z2Pos.id by lia.
  set (e := Z.min (Zdigits2 a - 53) (Zdigits2 b - 53)).
  assert (He : e <= 0) by (unfold e; lia).
  assert (Ea : a * 2 ^ (53 - Zdigits2 a) * 2 ^ (Zdigits2 a - 53 - e) = a * 2 ^ (- e)).
  { rewrite <- Z.mul_assoc, <- Z.pow_add_r by (unfold e; lia). do 2 f_equal. lia. }
  assert (Eb : b * 2 ^ (53 - Zdigits2 b) * 2 ^ (Zdigits2 b - 53 - e) = b * 2 ^ (- e)).
  { rewrite <- Z.mul_assoc, <- Z.pow_add_r by (unfold e; lia). do 2 f_equal. lia. }
  rewrite Ea, Eb.
  assert (Hp : 0 < 2 ^ (- e)) by (apply Z.pow_pos_nonneg; lia).
  rewrite Z.mul_mod_distr_r by lia. cbn [cond_Zopp].
  pose proof (Z.mod_pos_bound a b ltac:(lia)).
  apply binary_normalize_scaled; lia.
Qed.

(** *** Quotients *)

Lemma new_location_exact n : new_location n 0 = loc_Exact.
Proof. unfold new_location. now destruct (Z.even n). Qed.

Lemma Zdigits2_mul_upper K B :
  0 < K -> 0 < B -> Zdigits2 (K * B) <= Zdigits2 K + Zdigits2 B.
Proof.
  intros HK HB. pose proof (Zdigits2_lt K ltac:(lia)). pose proof (Zdigits2_lt B ltac:(lia)).
  pose proof (Zdigits2_pos K HK). pose proof (Zdigits2_pos B HB).
  apply Zdigits2_le; [lia|]. rewrite Z.pow_add_r by lia. nia.
Qed.

(** Dividing a multiple of [B] by [B] is exact. *)
Lemma div_canon_exact sk K B :
  0 < K -> 0 < B -> K * B < 2 ^ 53 ->
  (canon sk (K * B) / canon false B)%js = canon sk K.
Proof.
  intros HK HB HP.
  assert (HK' : 0 < K < 2 ^ 53) by nia. assert (HB' : 0 < B < 2 ^ 53) by nia.
  assert (HX : 0 < K * B < 2 ^ 53) by nia.
  pose proof (canon_mantissa K HK') as MK. pose proof (canon_mantissa B HB') as MB.
  pose proof (canon_mantissa (K * B) HX) as MX.
  pose proof (digits_le_53 K HK') as DK. pose proof (digits_le_53 B HB') as DB.
  pose proof (digits_le_53 (K * B) HX) as DX.
  pose proof (Zdigits2_mul_upper K B HK HB) as DU.
  unfold canon, div, SFdiv, SFdiv_core_binary. rewrite !Z2Pos.id by lia.
  rewrite (normal_digits _ MX), (normal_digits _ MB).
  set (dk := Zdigits2 K) in *. set (db := Zdigits2 B) in *. set (dx := Zdigits2 (K * B)) in *.
  assert (He : Z.min (fexp prec emax (53 + (dx - 53) - (53 + (db - 53)))) (dx - 53 - (db - 53))
               = dx - db - 53) by (rewrite fexp_eq; lia).
  rewrite He. replace (dx - 53 - (db - 53) - (dx - db - 53)) with 53 by lia.
  cbv iota. rewrite Z.shiftl_mul_pow2 by lia.
  set (q := K * 2 ^ (53 - dx + db)).
  assert (Hq : K * B * 2 ^ (53 - dx) * 2 ^ 53 = q * (B * 2 ^ (53 - db))).
  { unfold q. replace (53 - dx + db) with ((53 - dx) + 53 - (53 - db)) by lia.
    assert (E : 2 ^ (53 - dx + 53) = 2 ^ (53 - dx + 53 - (53 - db)) * 2 ^ (53 - db)).
    { rewrite <- Z.pow_add_r by lia. f_equal. lia. }
    rewrite <- (Z.mul_assoc _ (2 ^ (53 - dx))), <- Z.pow_add_r by lia. rewrite E. ring. }
  pose proof (Z_div_mod (K * B * 2 ^ (53 - dx) * 2 ^ 53) (B * 2 ^ (53 - db)) ltac:(lia)) as Hd.
  destruct (Z.div_eucl _ (B * 2 ^ (53 - db))) as [q' r]. destruct Hd as [Hd Hr].
  assert (Eq' : q' = q /\ r = 0).
  { rewrite Hq in Hd. assert (Hm : 0 < B * 2 ^ (53 - db)) by lia.
    assert (E1 : q' = q * (B * 2 ^ (53 - db)) / (B * 2 ^ (53 - db))).
    { apply (Z.div_unique _ _ q' r); [left; exact Hr|exact Hd]. }
    rewrite Z.div_mul in E1 by lia. subst q'. split; [reflexivity|lia]. }
  destruct Eq' as [-> ->]. rewrite new_location_exact, xorb_false_r.
  set (n := dk + db - dx).
  assert (Hn : 0 <= n) by (unfold n; lia).
  replace q with (K * 2 ^ (53 - dk) * 2 ^ n).
  2:{ unfold q, n. rewrite <- Z.mul_assoc, <- Z.pow_add_r by lia. do 2 f_equal. lia. }
  replace (dx - db - 53) with (dk - 53 - n) by (unfold n; lia).
  rewrite binary_round_aux_exact; try lia.
  - reflexivity.
  - rewrite (normal_digits _ MK), fexp_eq. lia.
  - intros _. rewrite (normal_digits _ MK), fexp_eq. lia.
  - unfold emax, prec. lia.
Qed.

Lemma div_of_Z k b :
  0 <= k -> 0 < b < 2 ^ 53 -> k * b < 2 ^ 53 -> (of_Z (k * b) / of_Z b)%js = of_Z k.
Proof.
  intros Hk Hb Hp. rewrite (of_Z_pos b) by lia.
  destruct (Z.eq_dec k 0) as [->|N]; [reflexivity|].
  rewrite (of_Z_pos (k * b)), (of_Z_pos k) by nia.
  apply div_canon_exact; lia.
Qed.

(** *** Integers are their own floor and their own rounding *)

Lemma Number_isInteger_of_Z z : Z.abs z < 2 ^ 53 -> Number_isInteger (of_Z z) = true.
Proof.
  intros H. destruct (Z.eq_dec z 0) as [->|N]; [reflexivity|].
  rewrite of_Z_canon by lia. pose proof (digits_le_53 (Z.abs z) ltac:(lia)) as D.
  pose proof (canon_mantissa (Z.abs z) ltac:(lia)) as M.
  unfold canon, Number_isInteger. destruct (Z.leb_spec 0 (Zdigits2 (Z.abs z) - 53)); trivial.
  rewrite Z2Pos.id by lia.
  replace (- (Zdigits2 (Z.abs z) - 53)) with (53 - Zdigits2 (Z.abs z)) by lia.
  rewrite Z.mod_mul; [reflexivity|]. apply Z.pow_nonzero; lia.
Qed.

Lemma Math_floor_of_Z z : Z.abs z < 2 ^ 53 -> Math_floor (of_Z z) = of_Z z.
Proof.
  intros H. destruct (Z.eq_dec z 0) as [->|N]; [reflexivity|].
  rewrite of_Z_canon by lia. pose proof (digits_le_53 (Z.abs z) ltac:(lia)) as D.
  pose proof (canon_mantissa (Z.abs z) ltac:(lia)) as M.
  unfold canon at 1, Math_floor. destruct (Z.leb_spec 0 (Zdigits2 (Z.abs z) - 53)).
  - reflexivity.
  - rewrite Z2Pos.id by lia.
    replace (- (Zdigits2 (Z.abs z) - 53)) with (53 - Zdigits2 (Z.abs z)) by lia.
    rewrite cond_Zopp_mul, cond_Zopp_abs.
    rewrite Z.div_mul by (apply Z.pow_nonzero; lia).
    destruct z as [|pz|pz] eqn:E; [lia| |]; rewrite <- E;
      rewrite binary_normalize_canon by lia; reflexivity.
Qed.

Lemma Math_round_of_Z z : Z.abs z < 2 ^ 53 -> Math_round (of_Z z) = of_Z z.
Proof.
  intros H. destruct (Z.eq_dec z 0) as [->|N]; [reflexivity|].
  rewrite of_Z_canon by lia. pose proof (digits_le_53 (Z.abs z) ltac:(lia)) as D.
  pose proof (canon_mantissa (Z.abs z) ltac:(lia)) as M.
  unfold canon at 1.
  destruct (Z.eq_dec (Zdigits2 (Z.abs z)) 53) as [E|E].
  - unfold Math_round. rewrite E. cbn [Z.sub Z.add Z.opp Z.leb Z.compare Z.pos_sub].
    unfold canon. rewrite E. reflexivity.
  - assert (He : Zdigits2 (Z.abs z) - 53 < 0) by lia.
    assert (Hn : round_half_up (cond_Zopp (z <? 0) (Zpos (Z.to_pos
                    (Z.abs z * 2 ^ (53 - Zdigits2 (Z.abs z)))))) (Zdigits2 (Z.abs z) - 53) = z).
    { apply round_half_up_unique; trivial. rewrite Z2Pos.id by lia.
      replace (- (Zdigits2 (Z.abs z) - 53)) with (53 - Zdigits2 (Z.abs z)) by lia.
      rewrite cond_Zopp_mul, cond_Zopp_abs.
      assert (0 < 2 ^ (53 - Zdigits2 (Z.abs z))) by (apply Z.pow_pos_nonneg; lia). nia. }
    pose proof (Math_round_finite (z <? 0) (Z.to_pos (Z.abs z * 2 ^ (53 - Zdigits2 (Z.abs z))))
                  (Zdigits2 (Z.abs z) - 53) He) as R.
    cbv zeta in R. rewrite Hn in R. apply R. lia.
Qed.

(** *** The floor of a quotient *)

Lemma Math_floor_between M e k :
  e < 0 -> k * 2 ^ (- e) <= Zpos M < (k + 1) * 2 ^ (- e) ->
  Math_floor (S754_finite false M e) = of_Z k.
Proof.
  intros He H. unfold Math_floor. destruct (Z.leb_spec 0 e); [lia|].
  cbn [cond_Zopp].
  assert (HP : 0 < 2 ^ (- e)) by (apply Z.pow_pos_nonneg; lia).
  assert (E : Zpos M / 2 ^ (- e) = k).
  { symmetry. apply (Z.div_unique _ _ k (Zpos M - k * 2 ^ (- e))); [left|]; lia. }
  rewrite E. unfold of_Z. now destruct k.
Qed.

(** The floor of the rounded quotient of two integers below [2^53] is
    their integer quotient. *)
Lemma floor_div_of_Z V B :
  0 <= V < 2 ^ 53 -> 0 < B < 2 ^ 53 ->
  Math_floor (of_Z V / of_Z B)%js = of_Z (V / B).
Proof.
  intros HV HB.
  pose proof (Z.div_mod V B ltac:(lia)) as Hdm.
  pose proof (Z.mod_pos_bound V B ltac:(lia)) as Hr.
  assert (Hk : 0 <= V / B) by (apply Z.div_pos; lia).
  set (k := V / B) in *. set (r := V mod B) in *.
  destruct (Z.eq_dec r 0) as [R0|R0].
  { assert (EV : V = k * B) by lia. rewrite EV at 1.
    rewrite div_of_Z by (trivial; nia). apply Math_floor_of_Z. nia. }
  assert (HV0 : 0 < V) by nia.
  assert (HB2 : 2 <= B) by lia.
  rewrite (of_Z_pos V), (of_Z_pos B) by lia.
  destruct (canon_normal false V ltac:(lia)) as (NV & SV & EV & MV).
  destruct (canon_normal false B HB) as (NB & SB & EB & MB).
  pose proof (digits_le_53 V ltac:(lia)) as DV. pose proof (digits_le_53 B HB) as DB.
  destruct (div_error (canon false V) (canon false B) NV NB) as (M & e & E & NM & He & R);
    try (rewrite EV, EB; lia).
  rewrite E, SV, SB. cbn [xorb]. clear E.
  rewrite MV, MB in R.
  set (x := (inject_Z (Zpos M) * 2 ^ e)%Q) in *.
  set (Y := (inject_Z V / inject_Z B)%Q) in *.
  assert (PB : (2 <= inject_Z B)%Q) by (change 2%Q with (inject_Z 2); rewrite <- Zle_Qle; lia).
  assert (EY : (Y * inject_Z B == inject_Z V)%Q) by (unfold Y; field; lra).
  assert (EVq : (inject_Z V == inject_Z k * inject_Z B + inject_Z r)%Q).
  { rewrite <- inject_Z_mult, <- inject_Z_plus. rewrite Hdm at 1.
    now rewrite (Z.mul_comm B k). }
  assert (Pr : (1 <= inject_Z r)%Q) by (change 1%Q with (inject_Z 1); rewrite <- Zle_Qle; lia).
  assert (Br : (inject_Z r <= inject_Z B - 1)%Q).
  { change 1%Q with (inject_Z 1). unfold Qminus. rewrite <- inject_Z_opp, <- inject_Z_plus.
    rewrite <- Zle_Qle. lia. }
  assert (BV : (inject_Z V < inject_Z (2 ^ 53))%Q) by (rewrite <- Zlt_Qlt; lia).
  change (inject_Z (2 ^ 53)) with 9007199254740992%Q in BV.
  assert (PV : (0 < inject_Z V)%Q) by (change 0%Q with (inject_Z 0); rewrite <- Zlt_Qlt; lia).
  assert (Pk : (0 <= inject_Z k)%Q) by (change 0%Q with (inject_Z 0); rewrite <- Zle_Qle; lia).
  apply Qabs_Qle_condition in R. destruct R as [R1 R2].
  change u53 with (1 # 9007199254740992)%Q in R1, R2.
  set (Bq := inject_Z B) in *. set (Vq := inject_Z V) in *.
  set (kq := inject_Z k) in *. set (rq := inject_Z r) in *.
  assert (L1 : (kq * Bq < x * Bq)%Q) by nra.
  assert (L2 : (x * Bq < (kq + 1) * Bq)%Q) by nra.
  assert (Lk : (kq < x)%Q) by nra.
  assert (Uk : (x < kq + 1)%Q) by nra.
  assert (Bk : k < 2 ^ 52).
  { change (2 ^ 53) with (2 * 2 ^ 52) in HV. nia. }
  assert (Hx : (x < inject_Z (2 ^ 52))%Q).
  { assert (kq + 1 <= inject_Z (2 ^ 52))%Q.
    { unfold kq. change 1%Q with (inject_Z 1). rewrite <- inject_Z_plus, <- Zle_Qle. lia. }
    lra. }
  pose proof (normal_below_exponent _ _ (proj1 NM) Hx) as He0.
  apply Math_floor_between; trivial. split.
  - assert (k * 2 ^ (- e) < Zpos M); [|lia]. apply scaled_lt_r; [lia|exact Lk].
  - apply scaled_lt_l; [lia|]. rewrite inject_Z_plus. exact Uk.
Qed.

Lemma mul_of_Z_pos_r a b :
  Z.abs a < 2 ^ 53 -> 0 < b < 2 ^ 53 -> Z.abs (a * b) < 2 ^ 53 ->
  (of_Z a * of_Z b)%js = of_Z (a * b).
Proof.
  intros Ha Hb Hab.
  destruct (Z.eq_dec a 0) as [->|Na].
  { rewrite Z.mul_0_l, of_Z_0, (of_Z_pos b) by lia. reflexivity. }
  rewrite (of_Z_canon a), (of_Z_pos b), (of_Z_canon (a * b)) by nia.
  rewrite mul_canon, xorb_false_r by nia.
  f_equal; [|nia]. destruct (Z.ltb_spec a 0), (Z.ltb_spec (a * b) 0); trivial; nia.
Qed.

(** *** Reading a typed integer *)

Lemma Number_string_of_Z_nonneg K :
  0 <= K < 2 ^ 53 -> Number (string_of_Z K) = of_Z K.
Proof.
  intros H. destruct (Z.eq_dec K 0) as [->|N]; [reflexivity|].
  rewrite of_Z_pos by lia. apply (Number_string_of_Z false). lia.
Qed.

Lemma Number_input_string_of_Z K :
  0 <= K < 2 ^ 53 -> Number (DOM.number_input_value (string_of_Z K)) = of_Z K.
Proof.
  intros H. rewrite number_input_value_string_of_Z. now apply Number_string_of_Z_nonneg.
Qed.

Lemma strict_eq_finite y s m e :
  strict_eq y (S754_finite s m e) = true -> y = S754_finite s m e.
Proof.
  destruct y as [sy|sy| |sy my ey]; unfold strict_eq, SFeqb, SFcompare.
  - now destruct sy, s.
  - now destruct sy.
  - discriminate.
  - destruct sy, s; try discriminate;
      destruct (Z.compare_spec ey e) as [->|L|G]; try discriminate;
      destruct (Pos.compare_cont Eq my m) eqn:E; try discriminate;
      apply Pos.compare_eq in E; now subst.
Qed.

Local Open Scope Z_scope.
Import JS.

(** ** DurationInput.tsx *)

Lemma big_bounds V : 0 <= V <= 10 ^ 15 -> 0 <= V < 2 ^ 50.
Proof.
  change (10 ^ 15) with 1000000000000000. change (2 ^ 50) with 1125899906842624. lia.
Qed.

Ltac small := change (2 ^ 53) with 9007199254740992 in *;
              change (2 ^ 50) with 1125899906842624 in *; lia.

Section Duration.
Variable V : Z.
Hypothesis HV : 0 <= V <= 10 ^ 15.

Let p := {| DurationInput.value := of_Z V |}.

Lemma duration_hours : DurationInput.hours p = of_Z (V / 3600).
Proof.
  pose proof (big_bounds V HV). unfold DurationInput.hours, p. cbn [DurationInput.value].
  apply floor_div_of_Z; small.
Qed.

Lemma duration_minutes : DurationInput.minutes p = of_Z (V mod 3600 / 60).
Proof.
  pose proof (big_bounds V HV). unfold DurationInput.minutes, p. cbn [DurationInput.value].
  rewrite rem_of_Z by small.
  pose proof (Z.mod_pos_bound V 3600 ltac:(lia)).
  apply floor_div_of_Z; small.
Qed.

Lemma duration_seconds : DurationInput.seconds p = of_Z (V mod 60).
Proof.
  pose proof (big_bounds V HV). unfold DurationInput.seconds, p. cbn [DurationInput.value].
  apply rem_of_Z; small.
Qed.

End Duration.

(** [setParts] on integers: the total, or zero when it is negative. *)
Lemma setParts_of_Z h m s :
  Z.abs h <= 10 ^ 12 -> Z.abs m <= 10 ^ 12 -> Z.abs s <= 10 ^ 15 ->
  DurationInput.setParts (of_Z h) (of_Z m) (of_Z s)
  = [of_Z (Z.max 0 (h * 3600 + m * 60 + s))].
Proof.
  change (10 ^ 15) with 1000000000000000. change (10 ^ 12) with 1000000000000.
  intros Hh Hm Hs. unfold DurationInput.setParts.
  rewrite !mul_of_Z_pos_r by (change (2 ^ 53) with 9007199254740992; lia).
  rewrite !add_of_Z by (change (2 ^ 53) with 9007199254740992; lia).
  rewrite Math_max_of_Z by (change (2 ^ 53) with 9007199254740992; lia).
  reflexivity.
Qed.

Lemma Segment_increase onChange inc dec ev :
  is_increase ev = true -> DurationInput.Segment onChange inc dec ev = inc.
Proof.
  destruct ev as [text|key|d| |]; simpl; try discriminate; trivial.
  - intros H. apply String.eqb_eq in H. subst key. simpl. apply app_nil_r.
  - now intros ->.
Qed.

Lemma Segment_decrease onChange inc dec ev :
  is_decrease ev = true -> DurationInput.Segment onChange inc dec ev = dec.
Proof.
  destruct ev as [text|key|d| |]; simpl; try discriminate; trivial.
  - intros H. apply String.eqb_eq in H. subst key. reflexivity.
  - intros H. apply negb_true_iff in H. now rewrite H.
Qed.

Lemma parts_facts V :
  0 <= V ->
  0 <= V / 3600 /\ 0 <= V mod 3600 / 60 < 60 /\ 0 <= V mod 60 < 60 /\
  V / 3600 * 3600 + V mod 3600 / 60 * 60 + V mod 60 = V /\ V / 3600 <= V.
Proof.
  intros H.
  pose proof (Z.div_mod V 3600 ltac:(lia)). pose proof (Z.mod_pos_bound V 3600 ltac:(lia)).
  pose proof (Z.div_mod (V mod 3600) 60 ltac:(lia)).
  pose proof (Z.mod_pos_bound (V mod 3600) 60 ltac:(lia)).
  pose proof (Z.div_mod V 60 ltac:(lia)). pose proof (Z.mod_pos_bound V 60 ltac:(lia)).
  assert (0 <= V / 3600) by (apply Z.div_pos; lia).
  assert (0 <= V mod 3600 / 60) by (apply Z.div_pos; lia).
  lia.
Qed.

Ltac parts V HV :=
  pose proof (big_bounds V HV);
  destruct (parts_facts V ltac:(lia)) as (? & ? & ? & ? & ?);
  rewrite ?(duration_hours V HV), ?(duration_minutes V HV), ?(duration_seconds V HV).

Ltac bound := change (2 ^ 53) with 9007199254740992 in *;
              change (2 ^ 50) with 1125899906842624 in *;
              change (10 ^ 15) with 1000000000000000 in *;
              change (10 ^ 12) with 1000000000000 in *; lia.

(** X1. A duration of whole seconds splits into hours, minutes below 60 and
    seconds below 60, and the three parts put together again give the
    duration back. *)
Theorem duration_round_trip V :
  0 <= V <= 10 ^ 15 ->
  let p := {| DurationInput.value := of_Z V |} in
  DurationInput.hours p = of_Z (V / 3600) /\
  DurationInput.minutes p = of_Z (V mod 3600 / 60) /\
  DurationInput.seconds p = of_Z (V mod 60) /\
  0 <= V mod 3600 / 60 < 60 /\ 0 <= V mod 60 < 60 /\
  DurationInput.setParts (DurationInput.hours p) (DurationInput.minutes p)
    (DurationInput.seconds p) = [of_Z V].
Proof.
  intros HV p. subst p.
  repeat split; try apply duration_hours; try apply duration_minutes;
    try apply duration_seconds; trivial; try (apply parts_facts; lia).
  parts V HV. rewrite setParts_of_Z by bound. do 2 f_equal. lia.
Qed.

Lemma duration_round_trip_witness :
  let p := {| DurationInput.value := of_Z 3661 |} in
  DurationInput.hours p = of_Z (3661 / 3600) /\
  DurationInput.minutes p = of_Z (3661 mod 3600 / 60) /\
  DurationInput.seconds p = of_Z (3661 mod 60) /\
  0 <= 3661 mod 3600 / 60 < 60 /\ 0 <= 3661 mod 60 < 60 /\
  DurationInput.setParts (DurationInput.hours p) (DurationInput.minutes p)
    (DurationInput.seconds p) = [of_Z 3661].
Proof. apply (duration_round_trip 3661). simpl. lia. Defined.

(** X2. Asking a segment for one more adds an hour, a minute or a second,
    except that the minutes and the seconds wrap from 59 to 0 without a
    carry: the duration then drops by 59 minutes, or by 59 seconds. *)
Theorem duration_increase V ev :
  0 <= V <= 10 ^ 15 -> is_increase ev = true ->
  let p := {| DurationInput.value := of_Z V |} in
  DurationInput.segment p DurationInput.Hours ev = [of_Z (V + 3600)] /\
  DurationInput.segment p DurationInput.Minutes ev
  = [of_Z (if V mod 3600 / 60 =? 59 then V - 59 * 60 else V + 60)] /\
  DurationInput.segment p DurationInput.Seconds ev
  = [of_Z (if V mod 60 =? 59 then V - 59 else V + 1)].
Proof.
  intros HV Hev p. subst p. unfold DurationInput.segment.
  rewrite !Segment_increase by trivial. parts V HV.
  rewrite !add_of_Z, !rem_of_Z by bound.
  pose proof (Z.mod_pos_bound (V mod 3600 / 60 + 1) 60 ltac:(lia)).
  pose proof (Z.mod_pos_bound (V mod 60 + 1) 60 ltac:(lia)).
  rewrite !setParts_of_Z by bound.
  repeat split; do 2 f_equal.
  - lia.
  - destruct (Z.eqb_spec (V mod 3600 / 60) 59) as [E|E].
    + rewrite E. change ((59 + 1) mod 60) with 0. lia.
    + rewrite (Z.mod_small (V mod 3600 / 60 + 1) 60) by lia. lia.
  - destruct (Z.eqb_spec (V mod 60) 59) as [E|E].
    + rewrite E. change ((59 + 1) mod 60) with 0. lia.
    + rewrite (Z.mod_small (V mod 60 + 1) 60) by lia. lia.
Qed.

Lemma duration_increase_witness :
  let p := {| DurationInput.value := of_Z 3599 |} in
  DurationInput.segment p DurationInput.Hours DurationInput.ClickIncrease
  = [of_Z (3599 + 3600)] /\
  DurationInput.segment p DurationInput.Minutes DurationInput.ClickIncrease
  = [of_Z (if 3599 mod 3600 / 60 =? 59 then 3599 - 59 * 60 else 3599 + 60)] /\
  DurationInput.segment p DurationInput.Seconds DurationInput.ClickIncrease
  = [of_Z (if 3599 mod 60 =? 59 then 3599 - 59 else 3599 + 1)].
Proof.
  apply (duration_increase 3599 DurationInput.ClickIncrease).
  - simpl. lia.
  - reflexivity.
Defined.

(** X3. Asking a segment for one less takes off an hour, a minute or a second,
    except that the hours stay at 0 and that the minutes and the seconds
    wrap from 0 to 59 without a borrow: the duration then grows by 59
    minutes, or by 59 seconds. *)
Theorem duration_decrease V ev :
  0 <= V <= 10 ^ 15 -> is_decrease ev = true ->
  let p := {| DurationInput.value := of_Z V |} in
  DurationInput.segment p DurationInput.Hours ev
  = [of_Z (if V <? 3600 then V else V - 3600)] /\
  DurationInput.segment p DurationInput.Minutes ev
  = [of_Z (if V mod 3600 / 60 =? 0 then V + 59 * 60 else V - 60)] /\
  DurationInput.segment p DurationInput.Seconds ev
  = [of_Z (if V mod 60 =? 0 then V + 59 else V - 1)].
Proof.
  intros HV Hev p. subst p. unfold DurationInput.segment.
  rewrite !Segment_decrease by trivial. parts V HV.
  rewrite !lt_of_Z, !sub_of_Z, Math_max_of_Z by bound.
  repeat split.
  - rewrite setParts_of_Z by bound. do 2 f_equal.
    destruct (Z.ltb_spec V 3600) as [L|L].
    + assert (V / 3600 = 0) by (apply Z.div_small; lia). lia.
    + assert (1 <= V / 3600) by (apply Z.div_le_lower_bound; lia). lia.
  - destruct (Z.ltb_spec 0 (V mod 3600 / 60)) as [L|L],
             (Z.eqb_spec (V mod 3600 / 60) 0) as [E|E]; try lia;
      rewrite setParts_of_Z by bound; do 2 f_equal; lia.
  - destruct (Z.ltb_spec 0 (V mod 60)) as [L|L],
             (Z.eqb_spec (V mod 60) 0) as [E|E]; try lia;
      rewrite setParts_of_Z by bound; do 2 f_equal; lia.
Qed.

Lemma duration_decrease_witness :
  let p := {| DurationInput.value := of_Z 60 |} in
  DurationInput.segment p DurationInput.Hours DurationInput.ClickDecrease
  = [of_Z (if 60 <? 3600 then 60 else 60 - 3600)] /\
  DurationInput.segment p DurationInput.Minutes DurationInput.ClickDecrease
  = [of_Z (if 60 mod 3600 / 60 =? 0 then 60 + 59 * 60 else 60 - 60)] /\
  DurationInput.segment p DurationInput.Seconds DurationInput.ClickDecrease
  = [of_Z (if 60 mod 60 =? 0 then 60 + 59 else 60 - 1)].
Proof.
  apply (duration_decrease 60 DurationInput.ClickDecrease).
  - simpl. lia.
  - reflexivity.
Defined.

Lemma Math_max_zero_nonneg x :
  isNaN (Math_max $0 x)%js = true \/ le $0%js (Math_max $0 x)%js = true.
Proof.
  destruct (isNaN x) eqn:E.
  - left. destruct x; try discriminate. reflexivity.
  - right. now destruct (Math_max_cases $0%js x eq_refl E) as (_ & H & _).
Qed.

Lemma In_Segment f inc dec ev t :
  In t (DurationInput.Segment f inc dec ev) ->
  (exists n, In t (f n)) \/ In t inc \/ In t dec.
Proof.
  destruct ev as [text|key|d| |]; simpl; eauto.
  - intros H. apply in_app_or in H as [H|H].
    + destruct (key =? "ArrowUp")%string; [auto|contradiction].
    + destruct (key =? "ArrowDown")%string; [auto|contradiction].
  - destruct (lt d _); auto.
Qed.

(** X4. Whatever the duration shown, the segment and what happens to it, the
    control never hands a negative duration to its caller: what it emits
    is at least 0, or is NaN. *)
Theorem duration_never_negative (p : DurationInput.Props) part ev t :
  In t (DurationInput.segment p part ev) ->
  isNaN t = true \/ le $0%js t = true.
Proof.
  intros H. unfold DurationInput.segment in H.
  assert (G : forall h m s, In t (DurationInput.setParts h m s) ->
                            isNaN t = true \/ le $0%js t = true).
  { intros h m s [<-|[]]. apply Math_max_zero_nonneg. }
  destruct part; apply In_Segment in H as [[n H]|[H|H]]; eapply G; exact H.
Qed.

Lemma duration_never_negative_witness :
  isNaN (of_Z 0) = true \/ le $0%js (of_Z 0) = true.
Proof.
  apply (duration_never_negative {| DurationInput.value := of_Z 60 |}
           DurationInput.Hours (DurationInput.Change "-5")).
  vm_compute. left. reflexivity.
Defined.

(** X5. Typing a whole number into a segment replaces that part and keeps the
    two others: the typed hours, minutes or seconds are not brought into
    range, 75 typed as the seconds counts for 75 seconds. *)
Theorem duration_entry V K :
  0 <= V <= 10 ^ 15 -> 0 <= K <= 10 ^ 12 ->
  let p := {| DurationInput.value := of_Z V |} in
  let ev := DurationInput.Change (string_of_Z K) in
  DurationInput.segment p DurationInput.Hours ev
  = [of_Z (K * 3600 + V mod 3600)] /\
  DurationInput.segment p DurationInput.Minutes ev
  = [of_Z (V / 3600 * 3600 + K * 60 + V mod 60)] /\
  DurationInput.segment p DurationInput.Seconds ev
  = [of_Z (V / 3600 * 3600 + V mod 3600 / 60 * 60 + K)].
Proof.
  intros HV HK p ev. subst p ev. unfold DurationInput.segment, DurationInput.Segment.
  parts V HV. rewrite Number_input_string_of_Z by bound.
  rewrite !setParts_of_Z by bound.
  pose proof (Z.div_mod V 3600 ltac:(lia)). pose proof (Z.mod_pos_bound V 3600 ltac:(lia)).
  pose proof (Z.div_mod (V mod 3600) 60 ltac:(lia)).
  repeat split; do 2 f_equal; lia.
Qed.

Lemma duration_entry_witness :
  let p := {| DurationInput.value := of_Z 3661 |} in
  let ev := DurationInput.Change (string_of_Z 75) in
  DurationInput.segment p DurationInput.Hours ev
  = [of_Z (75 * 3600 + 3661 mod 3600)] /\
  DurationInput.segment p DurationInput.Minutes ev
  = [of_Z (3661 / 3600 * 3600 + 75 * 60 + 3661 mod 60)] /\
  DurationInput.segment p DurationInput.Seconds ev
  = [of_Z (3661 / 3600 * 3600 + 3661 mod 3600 / 60 * 60 + 75)].
Proof. apply (duration_entry 3661 75); simpl; lia. Defined.

Local Open Scope Z_scope.
Import JS.

(** ** HeadingControl.tsx: what the handler leaves as it is *)

Lemma cardinal_fixed c :
  In c HeadingControl.cardinals ->
  HeadingControl.normalise c = c /\ HeadingControl.closest c = c.
Proof.
  unfold HeadingControl.cardinals.
  intros [<-|[<-|[<-|[<-|[]]]]]; split; vm_compute; reflexivity.
Qed.

Lemma handleChange_cardinal p c :
  In c HeadingControl.cardinals -> HeadingControl.handleChange p c = c.
Proof.
  intros H. destruct (cardinal_fixed c H) as [E1 E2].
  unfold HeadingControl.handleChange. rewrite E1, E2.
  destruct (HeadingControl.snap p); trivial. now destruct (lt _ _).
Qed.

Lemma normalise_residue r :
  0 <= r < 360 -> HeadingControl.normalise (of_Z r) = of_Z r.
Proof.
  intros H. destruct (heading_range r H) as (_ & _ & Hi).
  rewrite (normalise_int _ _ Hi). now rewrite Z.mod_small.
Qed.

(** X6. A heading that has gone through the handler goes through it again
    unchanged: on whole numbers of degrees, snapping or not and whatever
    the step, the handler is idempotent. *)
Theorem heading_idempotent (p : HeadingControl.Props) (v : number) (d : Z) :
  Spec.int_value v = Some d ->
  HeadingControl.handleChange p (HeadingControl.handleChange p v)
  = HeadingControl.handleChange p v.
Proof.
  intros H. pose proof (normalise_int v d H) as Hn.
  pose proof (Z.mod_pos_bound d 360 ltac:(lia)) as Hb.
  pose proof (normalise_residue _ Hb) as Hr.
  destruct (closest_spec (HeadingControl.normalise v)) as [Hin _].
  assert (E : HeadingControl.handleChange p v
              = if HeadingControl.snap p
                then if lt (Math_abs (HeadingControl.closest (HeadingControl.normalise v)
                                      - HeadingControl.normalise v)) (HeadingControl.step p)
                     then HeadingControl.closest (HeadingControl.normalise v)
                     else HeadingControl.normalise v
                else HeadingControl.normalise v) by reflexivity.
  destruct (HeadingControl.snap p) eqn:Es.
  - destruct (lt _ (HeadingControl.step p)) eqn:El; rewrite E.
    + now apply handleChange_cardinal.
    + unfold HeadingControl.handleChange. rewrite Es, Hn, Hr, <- Hn, El. reflexivity.
  - rewrite E. unfold HeadingControl.handleChange. rewrite Es, Hn. exact Hr.
Qed.

Lemma heading_idempotent_witness :
  let p := {| HeadingControl.value := $0; HeadingControl.step := $5;
              HeadingControl.snap := true |}%js in
  HeadingControl.handleChange p (HeadingControl.handleChange p $(-88)%js)
  = HeadingControl.handleChange p $(-88)%js.
Proof. intros p. exact (heading_idempotent p $(-88)%js (-88) eq_refl). Defined.

(** X7. The buttons N, E, S and W hand 0, 90, 180 and 270 to the caller, past
    the handler; these are the headings the handler would have left as
    they are, whatever the step and the snap. *)
Theorem heading_buttons (p : HeadingControl.Props) :
  HeadingControl.buttons = HeadingControl.cardinals /\
  forall b, In b HeadingControl.buttons -> HeadingControl.handleChange p b = b.
Proof.
  assert (E : HeadingControl.buttons = HeadingControl.cardinals) by (vm_compute; reflexivity).
  split; [exact E|]. rewrite E. intros b. apply handleChange_cardinal.
Qed.

(** X8. A heading that is not finite comes out as NaN: the remainder of an
    infinity is NaN, and no comparison with NaN snaps it. *)
Theorem heading_not_finite (p : HeadingControl.Props) (v : number) :
  isFinite v = false -> isNaN (HeadingControl.handleChange p v) = true.
Proof.
  intros H.
  assert (E : HeadingControl.normalise v = NaN).
  { destruct v as [s|[]| |s m e]; try discriminate; vm_compute; reflexivity. }
  unfold HeadingControl.handleChange. rewrite E.
  destruct (HeadingControl.snap p); reflexivity.
Qed.

Lemma heading_not_finite_witness :
  isNaN (HeadingControl.handleChange
           {| HeadingControl.value := $0; HeadingControl.step := $1;
              HeadingControl.snap := true |}%js Infinity) = true.
Proof. apply heading_not_finite. reflexivity. Defined.

(** ** HeadingControl.tsx: the keyboard *)

Lemma heading_clamp (h : HeadingControl.Props) v :
  Z.abs v < 2 ^ 53 ->
  Dial.clamp (HeadingControl.dial h) (of_Z v) = of_Z (Z.min 359 (Z.max 0 v)).
Proof.
  intros H. unfold Dial.clamp. cbn [HeadingControl.dial Dial.min Dial.max].
  rewrite Math_max_of_Z, Math_min_of_Z; trivial; try reflexivity. lia.
Qed.

(** X9. The arrow keys do not take a heading round the compass.  Without
    snapping, Arrow Right adds the step, or ten steps with Shift, and
    stops at 359; Arrow Left takes it off and stops at 0. *)
Theorem heading_keys_no_wrap (K S : Z) (shiftKey : bool) :
  0 <= K <= 359 -> 1 <= S <= 10 ^ 6 ->
  let h := {| HeadingControl.value := of_Z K; HeadingControl.step := of_Z S;
              HeadingControl.snap := false |} in
  let d := if shiftKey then 10 * S else S in
  map (HeadingControl.handleChange h)
    (Dial.onKeyDown (HeadingControl.dial h) "ArrowRight" shiftKey)
  = [of_Z (Z.min 359 (K + d))] /\
  map (HeadingControl.handleChange h)
    (Dial.onKeyDown (HeadingControl.dial h) "ArrowLeft" shiftKey)
  = [of_Z (Z.max 0 (K - d))].
Proof.
  intros HK HS h d. change (10 ^ 6) with 1000000 in HS.
  assert (P : 2 ^ 53 = 9007199254740992) by reflexivity.
  assert (Ed : (if shiftKey then Dial.coarse (HeadingControl.dial h)
                else Dial.step (HeadingControl.dial h)) = of_Z d).
  { unfold d, Dial.coarse. cbn [HeadingControl.dial Dial.step h HeadingControl.step].
    destruct shiftKey; trivial.
    rewrite mul_of_Z, Math_max_of_Z by lia. f_equal. lia. }
  assert (N : forall r, 0 <= r < 360 -> HeadingControl.handleChange h (of_Z r) = of_Z r).
  { intros r Hr. unfold HeadingControl.handleChange. cbn [h HeadingControl.snap].
    now apply normalise_residue. }
  unfold Dial.onKeyDown. cbn [HeadingControl.dial Dial.disabled Dial.value h HeadingControl.value].
  change (Dial.step _) with (Dial.step (HeadingControl.dial h)) in Ed.
  cbn [String.eqb Ascii.eqb Bool.eqb orb map].
  fold h. rewrite Ed, add_of_Z, sub_of_Z by (unfold d; destruct shiftKey; lia).
  rewrite !heading_clamp by (unfold d; destruct shiftKey; lia).
  rewrite !N by (unfold d; destruct shiftKey; lia).
  split; do 2 f_equal; unfold d; destruct shiftKey; lia.
Qed.

Lemma heading_keys_no_wrap_witness :
  let h := {| HeadingControl.value := of_Z 355; HeadingControl.step := of_Z 10;
              HeadingControl.snap := false |} in
  let d := if false then 10 * 10 else 10 in
  map (HeadingControl.handleChange h)
    (Dial.onKeyDown (HeadingControl.dial h) "ArrowRight" false)
  = [of_Z (Z.min 359 (355 + d))] /\
  map (HeadingControl.handleChange h)
    (Dial.onKeyDown (HeadingControl.dial h) "ArrowLeft" false)
  = [of_Z (Z.max 0 (355 - d))].
Proof. apply (heading_keys_no_wrap 355 10 false); simpl; lia. Defined.

Local Open Scope Z_scope.
Import JS.

(** ** quantity.ts: what a conversion keeps *)

Lemma binary_round_aux_sign s mx ex lx :
  0 <= mx -> sign (binary_round_aux prec emax s mx ex lx) = s.
Proof.
  intros H. unfold binary_round_aux.
  pose proof (shr_fexp_nonneg mx ex lx H) as H1.
  destruct (shr_fexp prec emax mx ex lx) as [mrs' e'] eqn:E1. simpl in H1.
  pose proof (shr_fexp_nonneg
                (round_nearest_even (shr_m mrs') (loc_of_shr_record mrs')) e' loc_Exact
                (round_nearest_even_nonneg _ _ H1)) as H2.
  destruct (shr_fexp prec emax _ e' loc_Exact) as [mrs'' e''] eqn:E2. simpl in H2.
  destruct (shr_m mrs''); try lia; trivial.
  destruct (e'' <=? emax - prec); reflexivity.
Qed.

Lemma SFdiv_core_nonneg m1 e1 m2 e2 :
  0 < m1 -> 0 < m2 ->
  let '(q, _, _) := SFdiv_core_binary prec emax m1 e1 m2 e2 in 0 <= q.
Proof.
  intros H1 H2. pose proof (SFdiv_core_top m1 e1 m2 e2 H1 H2) as T.
  destruct (SFdiv_core_binary prec emax m1 e1 m2 e2) as [[q e'] l]. apply T.
Qed.

(** Multiplying or dividing by a positive finite number keeps NaN apart,
    the sign, the zeros and the infinities. *)
Lemma scale_keeps (op : number -> number -> number) x f :
  op = mul \/ op = div ->
  isFinite f = true -> isZero f = false -> sign f = false ->
  isNaN (op x f) = isNaN x /\
  (isNaN x = false -> sign (op x f) = sign x) /\
  (isZero x = true -> isZero (op x f) = true) /\
  (isFinite x = false -> isFinite (op x f) = false).
Proof.
  intros Hop Hf Hz Hs.
  destruct f as [sf|sf| |sf mf ef]; try discriminate. cbn [sign] in Hs. subst sf.
  destruct Hop as [-> | ->]; destruct x as [sx|sx| |sx mx ex];
    cbn [mul SFmul div SFdiv isNaN sign isZero isFinite]; rewrite ?xorb_false_r;
    repeat split; try discriminate; trivial.
  - apply binary_round_aux_isNaN. lia.
  - intros _. apply binary_round_aux_sign. lia.
  - pose proof (SFdiv_core_nonneg (Zpos mx) ex (Zpos mf) ef ltac:(lia) ltac:(lia)) as Q.
    destruct (SFdiv_core_binary prec emax (Zpos mx) ex (Zpos mf) ef) as [[q e'] l].
    now apply binary_round_aux_isNaN.
  - intros _.
    pose proof (SFdiv_core_nonneg (Zpos mx) ex (Zpos mf) ef ltac:(lia) ltac:(lia)) as Q.
    destruct (SFdiv_core_binary prec emax (Zpos mx) ex (Zpos mf) ef) as [[q e'] l].
    now apply binary_round_aux_sign.
Qed.

Lemma factors_positive u :
  exists f, Quantity.factors u = Some f /\
            isFinite f = true /\ isZero f = false /\ sign f = false.
Proof.
  destruct (factors_normal u) as (f & Hf & N & S & _). exists f.
  destruct f; try contradiction. repeat split; trivial.
Qed.

(** X10. A conversion, between any two units, returns a quantity in the target
    unit whose value is NaN only if the value converted is, has the sign
    of the value converted, is a zero if that one is and is not finite if
    that one is not. *)
Theorem convert_keeps (q : Quantity.Quantity) (to : Unit.t) :
  exists r,
    Quantity.convert q to = inr r /\ Quantity.unit r = to /\
    isNaN (Quantity.value r) = isNaN (Quantity.value q) /\
    (isNaN (Quantity.value q) = false ->
     sign (Quantity.value r) = sign (Quantity.value q)) /\
    (isZero (Quantity.value q) = true -> isZero (Quantity.value r) = true) /\
    (isFinite (Quantity.value q) = false -> isFinite (Quantity.value r) = false).
Proof.
  destruct (factors_positive (Quantity.unit q)) as (f & Hf & F1 & F2 & F3).
  destruct (factors_positive to) as (g & Hg & G1 & G2 & G3).
  unfold Quantity.convert. rewrite Hf, Hg. eexists. split; [reflexivity|].
  cbn [Quantity.unit Quantity.value]. split; [reflexivity|].
  destruct (scale_keeps mul (Quantity.value q) f (or_introl eq_refl) F1 F2 F3)
    as (A1 & A2 & A3 & A4).
  destruct (scale_keeps div (Quantity.value q * f)%js g (or_intror eq_refl) G1 G2 G3)
    as (B1 & B2 & B3 & B4).
  repeat split.
  - now rewrite B1.
  - intros N. rewrite B2 by (now rewrite A1). now apply A2.
  - intros Z. apply B3. now apply A3.
  - intros I. apply B4. now apply A4.
Qed.

(** *** The units of factor 1 *)

Lemma well_formed_canonical s m e :
  well_formed (S754_finite s m e) = true ->
  fexp prec emax (Zdigits2 (Zpos m) + e) = e /\ e <= emax - prec.
Proof.
  unfold well_formed, valid_binary, bounded, canonical_mantissa. intros W.
  apply andb_prop in W as [W1 W2]. apply Z.eqb_eq in W1. apply Z.leb_le in W2.
  split; trivial.
Qed.

Lemma mul_one x : well_formed x = true -> (x * $1)%js = x.
Proof.
  destruct x as [[]|[]| |s m e]; try reflexivity. intros W.
  destruct (well_formed_canonical s m e W) as [C B].
  change ($1%js) with (S754_finite false 4503599627370496 (-52)).
  cbn [mul SFmul]. rewrite xorb_false_r, Pos2Z.inj_mul.
  change (Zpos 4503599627370496) with (2 ^ 52).
  replace (e + -52) with (e - 52) by lia.
  rewrite binary_round_aux_exact; trivial; lia.
Qed.

Lemma div_one x : well_formed x = true -> (x / $1)%js = x.
Proof.
  destruct x as [[]|[]| |s m e]; try reflexivity. intros W.
  destruct (well_formed_canonical s m e W) as [C B]. rewrite fexp_eq in C.
  pose proof (Zdigits2_pos (Zpos m) ltac:(lia)) as Pd.
  change ($1%js) with (S754_finite false 4503599627370496 (-52)).
  unfold div, SFdiv, SFdiv_core_binary.
  change (Zdigits2 (Zpos 4503599627370496)) with 53. rewrite fexp_eq.
  set (d := Zdigits2 (Zpos m)) in *.
  destruct (Z.eq_dec e (-1074)) as [E|E].
  - assert (He : Z.min (Z.max (d + e - (53 + -52) - 53) (-1074)) (e - -52) = e) by lia.
    rewrite He. replace (e - -52 - e) with 52 by lia. cbv iota.
    rewrite Z.shiftl_mul_pow2 by lia.
    change (Zpos 4503599627370496) with (2 ^ 52).
    pose proof (Z_div_mod (Zpos m * 2 ^ 52) (2 ^ 52) ltac:(lia)) as Hd.
    destruct (Z.div_eucl (Zpos m * 2 ^ 52) (2 ^ 52)) as [q r]. destruct Hd as [Hd Hr].
    assert (Eq : q = Zpos m /\ r = 0) by lia. destruct Eq as [-> ->].
    rewrite new_location_exact, xorb_false_r.
    replace (Zpos m) with (Zpos m * 2 ^ 0) at 1 by (change (2 ^ 0) with 1; lia).
    replace e with (e - 0) at 1 by lia.
    rewrite binary_round_aux_exact; trivial; try lia; fold d; rewrite fexp_eq; lia.
  - assert (He : Z.min (Z.max (d + e - (53 + -52) - 53) (-1074)) (e - -52) = e - 1) by lia.
    rewrite He. replace (e - -52 - (e - 1)) with 53 by lia. cbv iota.
    rewrite Z.shiftl_mul_pow2 by lia.
    change (Zpos 4503599627370496) with (2 ^ 52).
    pose proof (Z_div_mod (Zpos m * 2 ^ 53) (2 ^ 52) ltac:(lia)) as Hd.
    destruct (Z.div_eucl (Zpos m * 2 ^ 53) (2 ^ 52)) as [q r]. destruct Hd as [Hd Hr].
    assert (Eq : q = Zpos m * 2 ^ 1 /\ r = 0).
    { change (2 ^ 53) with (2 ^ 52 * 2) in Hd. change (2 ^ 1) with 2. lia. }
    destruct Eq as [-> ->].
    rewrite new_location_exact, xorb_false_r.
    rewrite binary_round_aux_exact; trivial; try lia; fold d; rewrite fexp_eq; lia.
Qed.

(** X11. Between the units of factor 1, metres and metres per second, a
    conversion gives the value back bit for bit. *)
Theorem convert_factor_one (A B : Unit.t) (v : number) :
  (A = Unit.m \/ A = Unit.ms) -> (B = Unit.m \/ B = Unit.ms) ->
  well_formed v = true ->
  Quantity.convert {| Quantity.value := v; Quantity.unit := A |} B
  = inr {| Quantity.value := v; Quantity.unit := B |}.
Proof.
  intros HA HB W.
  assert (FA : Quantity.factors A = Some $1%js) by (destruct HA as [-> | ->]; reflexivity).
  assert (FB : Quantity.factors B = Some $1%js) by (destruct HB as [-> | ->]; reflexivity).
  unfold Quantity.convert. cbn [Quantity.unit Quantity.value]. rewrite FA, FB.
  now rewrite (mul_one v W), (div_one v W).
Qed.

Lemma convert_factor_one_witness :
  Quantity.convert {| Quantity.value := dec 1234 1; Quantity.unit := Unit.m |} Unit.m
  = inr {| Quantity.value := dec 1234 1; Quantity.unit := Unit.m |}.
Proof.
  apply convert_factor_one.
  - left. reflexivity.
  - left. reflexivity.
  - vm_compute. reflexivity.
Defined.

(** ** quantity.ts: [roundToStep] and the grid of an integer step *)

Lemma of_Z_mul_canon K S :
  K <> 0 -> 0 < S -> Z.abs (K * S) < 2 ^ 53 ->
  of_Z (K * S) = canon (K <? 0) (Z.abs K * S).
Proof.
  intros HK HS HP. rewrite of_Z_canon by nia. f_equal; [|nia].
  destruct (Z.ltb_spec K 0), (Z.ltb_spec (K * S) 0); trivial; nia.
Qed.

(** X12. A multiple of the step is left where it is. *)
Theorem roundToStep_on_grid (K S : Z) :
  1 <= S <= 10 ^ 15 -> Z.abs K < 2 ^ 52 -> Z.abs (K * S) < 2 ^ 53 ->
  Quantity.roundToStep (of_Z (K * S)) (of_Z S) = inr (of_Z (K * S)).
Proof.
  intros HS HK HP. assert (HS0 : 0 < S <= 10 ^ 15) by lia.
  pose proof (step_bounds S HS0) as HS'.
  assert (HS53 : 0 < S < 2 ^ 53) by (change (2 ^ 50) with 1125899906842624 in HS';
                                       change (2 ^ 53) with 9007199254740992; lia).
  rewrite (of_Z_pos S HS53).
  destruct (Z.eq_dec K 0) as [->|N].
  - rewrite Z.mul_0_l, of_Z_0. now apply roundToStep_zero.
  - rewrite of_Z_mul_canon by (trivial; lia).
    rewrite roundToStep_int, second_pass by (trivial; lia). cbv zeta.
    rewrite snap_canon by lia. reflexivity.
Qed.

Lemma roundToStep_on_grid_witness :
  Quantity.roundToStep (of_Z (-7 * 5)) (of_Z 5) = inr (of_Z (-7 * 5)).
Proof. apply (roundToStep_on_grid (-7) 5); simpl; lia. Defined.

Lemma round_half_up_abs_lower s M e :
  e < 0 -> 0 < M ->
  2 * M - 2 ^ (- e) <= Z.abs (round_half_up (cond_Zopp s M) e) * (2 * 2 ^ (- e)).
Proof.
  intros He HM. pose proof (round_half_up_bound (cond_Zopp s M) e He) as B.
  cbv zeta in B.
  assert (HP : 0 < 2 ^ (- e)) by (apply Z.pow_pos_nonneg; lia).
  set (P := 2 ^ (- e)) in *. set (n := round_half_up (cond_Zopp s M) e) in *.
  destruct s; cbn [cond_Zopp] in *.
  - assert (n <= 0) by nia. nia.
  - assert (0 <= n) by nia. nia.
Qed.

(** The first snap, with how far the integer picked is from the exact
    quotient. *)
Lemma first_pass_close v S :
  normal v -> -1024 <= exponent v <= -3 -> 0 < S <= 10 ^ 15 ->
  exists K, 0 <= K < 2 ^ 52 /\ K * S < 2 ^ 53 /\
            Math_round (v / canon false S)
            = (if K =? 0 then S754_zero (sign v) else canon (sign v) K) /\
            (Qabs (inject_Z K * inject_Z S - mag v)
             <= inject_Z S * (1 # 2) + mag v * u53)%Q.
Proof.
  intros Nv Ev HS. pose proof (step_bounds S HS) as HS'.
  assert (HS53 : 0 < S < 2 ^ 53) by (change (2 ^ 50) with 1125899906842624 in HS';
                                       change (2 ^ 53) with 9007199254740992; lia).
  destruct (canon_normal false S HS53) as (Ns & Ss & Es & Ms).
  pose proof (digits_le_50 S HS) as Ds.
  pose proof (mag_lt_pow2 v 50 Nv ltac:(lia)) as Bv.
  pose proof (mag_pos v Nv) as Pv.
  destruct (div_error v (canon false S) Nv Ns) as (M & e & E & NM & He & R);
    try (rewrite Es; lia).
  rewrite E, Ss, xorb_false_r. clear E.
  set (Y := (mag v / mag (canon false S))%Q) in *.
  set (x := (inject_Z (Zpos M) * 2 ^ e)%Q) in *.
  assert (PS : (1 <= inject_Z S)%Q) by (change 1%Q with (inject_Z 1); rewrite <- Zle_Qle; lia).
  assert (BS : (inject_Z S < inject_Z (2 ^ 50))%Q) by (rewrite <- Zlt_Qlt; lia).
  assert (EY : (Y * inject_Z S == mag v)%Q).
  { unfold Y. rewrite Ms. field. lra. }
  assert (PY : (0 <= Y)%Q).
  { unfold Y. rewrite Ms. apply Qle_shift_div_l; lra. }
  apply Qabs_Qle_condition in R. destruct R as [R1 R2].
  change (2 ^ 50)%Q with 1125899906842624%Q in Bv.
  change (inject_Z (2 ^ 50)) with 1125899906842624%Q in BS.
  assert (Eu : (u53 == 1 # 9007199254740992)%Q) by reflexivity.
  assert (BY : (Y <= mag v)%Q) by nra.
  assert (Hx : (x < inject_Z (2 ^ 52))%Q).
  { change (inject_Z (2 ^ 52)) with 4503599627370496%Q. rewrite Eu in R1, R2. lra. }
  pose proof (normal_below_exponent _ _ (proj1 NM) Hx) as He0.
  pose proof (round_half_up_abs (sign v) (Zpos M) e He0 ltac:(lia)) as [Hs Hn].
  pose proof (round_half_up_abs_lower (sign v) (Zpos M) e He0 ltac:(lia)) as Hl.
  set (n := round_half_up (cond_Zopp (sign v) (Zpos M)) e) in *.
  exists (Z.abs n).
  pose proof (pow2_inv e) as Pi.
  assert (E2 : ((2 * inject_Z (Zpos M) + 2 ^ (- e)) * 2 ^ e == 2 * x + 2 ^ (- e) * 2 ^ e)%Q)
    by (unfold x; ring).
  assert (E3 : ((2 * inject_Z (Zpos M) + - 2 ^ (- e)) * 2 ^ e == 2 * x - 2 ^ (- e) * 2 ^ e)%Q)
    by (unfold x; ring).
  assert (Ha : (inject_Z (Z.abs n) * 2 <= 2 * x + 1)%Q).
  { assert (L : (inject_Z (Z.abs n * 2) <= inject_Z (2 * Zpos M + 2 ^ (- e)) * 2 ^ e)%Q).
    { apply scaled_le; lia. }
    rewrite inject_Z_plus, !inject_Z_mult, pow2_inject in L by lia.
    change (inject_Z 2) with 2%Q in L. rewrite E2, Pi in L. exact L. }
  assert (Hb : (2 * x - 1 <= inject_Z (Z.abs n) * 2)%Q).
  { assert (L : (inject_Z (2 * Zpos M - 2 ^ (- e)) * 2 ^ e
                 <= inject_Z (Z.abs n * 2) * 2 ^ (- e) * 2 ^ e)%Q).
    { apply Qmult_le_compat_r; [|apply Qlt_le_weak, pow2_pos].
      rewrite <- (pow2_inject (- e)) by lia. rewrite <- inject_Z_mult, <- Zle_Qle. lia. }
    unfold Z.sub in L.
    rewrite inject_Z_plus, inject_Z_opp, !inject_Z_mult, pow2_inject in L by lia.
    change (inject_Z 2) with 2%Q in L.
    rewrite E3, <- Qmult_assoc, Pi in L. lra. }
  set (a := inject_Z (Z.abs n)) in *.
  assert (Hprod : Z.abs n * S < 2 ^ 53).
  { rewrite Zlt_Qlt, inject_Z_mult. fold a. rewrite Eu in R1, R2.
    change (inject_Z (2 ^ 53)) with 9007199254740992%Q. nra. }
  assert (Hlt : 0 <= Z.abs n < 2 ^ 52).
  { split; [lia|]. rewrite Zlt_Qlt. fold a. rewrite Eu in R1, R2.
    change (inject_Z (2 ^ 52)) with 4503599627370496%Q. lra. }
  split; [exact Hlt|]. split; [exact Hprod|]. split.
  - destruct (Z.eqb_spec (Z.abs n) 0) as [Z0|N0].
    + apply Math_round_finite_zero; trivial. fold n. lia.
    + assert (Hlt' : 0 < Z.abs n < 2 ^ 53)
        by (change (2 ^ 52) with 4503599627370496 in Hlt;
            change (2 ^ 53) with 9007199254740992; lia).
      rewrite (Math_round_finite _ _ _ He0 Hlt'). fold n. rewrite Hs.
      destruct (Z.eqb_spec n 0); [lia|]. now rewrite andb_true_r.
  - rewrite <- EY. set (Sq := inject_Z S) in *.
    assert (Pu : (0 <= u53)%Q) by (rewrite Eu; lra).
    clear Eu Hx BY Bv. set (u := u53) in *. clearbody u.
    apply Qabs_Qle_condition. split; nra.
Qed.

Lemma signed_close (s : bool) (k m c : Q) :
  (Qabs (k - m) <= c ->
   Qabs ((if s then - k else k) - (if s then - m else m)) <= c)%Q.
Proof.
  intros H. destruct s; trivial.
  assert (E : (- k - - m == - (k - m))%Q) by ring. now rewrite E, Qabs_opp.
Qed.

Lemma inject_cond_Zopp (s : bool) z :
  (inject_Z (cond_Zopp s z) == if s then - inject_Z z else inject_Z z)%Q.
Proof. destruct s; cbn [cond_Zopp]; [now rewrite inject_Z_opp|reflexivity]. Qed.

(** X13. [roundToStep] on an integer step returns a multiple of the step, the
    one next to the value: no further from it than half a step, plus the
    rounding of one division. *)
Theorem roundToStep_nearest (v : number) (S : Z) :
  1 <= S <= 10 ^ 15 ->
  well_formed v = true ->
  le (Math_abs v) (of_Z (10 ^ 15)) = true ->
  exists K qv,
    Quantity.roundToStep v (of_Z S) = inr (of_Z (K * S)) /\
    Spec.to_Q v = Some qv /\
    (Qabs (inject_Z (K * S) - qv) <= inject_Z S * (1 # 2) + Qabs qv * u53)%Q.
Proof.
  intros HS W Hv. assert (HS0 : 0 < S <= 10 ^ 15) by lia.
  pose proof (step_bounds S HS0) as HS'.
  assert (HS53 : 0 < S < 2 ^ 53) by (change (2 ^ 50) with 1125899906842624 in HS';
                                       change (2 ^ 53) with 9007199254740992; lia).
  assert (PS : (1 <= inject_Z S)%Q) by (change 1%Q with (inject_Z 1); rewrite <- Zle_Qle; lia).
  assert (Pu : (0 <= u53)%Q) by (change u53 with (1 # 9007199254740992)%Q; lra).
  rewrite (of_Z_pos S HS53).
  destruct (below_1e15 v W Hv) as [Z|(s & m & e & -> & He & Hd & Hn)].
  - clear W Hv. destruct v as [sz| | |]; try discriminate Z.
    exists 0, 0%Q. split; [now apply roundToStep_zero|]. split; [reflexivity|].
    cbn [Z.mul]. change (inject_Z 0) with 0%Q.
    assert (E : (Qabs (0 - 0) == 0)%Q) by reflexivity.
    assert (E' : (Qabs 0 == 0)%Q) by reflexivity. rewrite E, E'. lra.
  - cbn [Spec.to_Q].
    assert (Em : (Qabs (inject_Z (cond_Zopp s (Zpos m)) * 2 ^ e)
                  == inject_Z (Zpos m) * 2 ^ e)%Q).
    { pose proof (pow2_pos e).
      assert (0 < inject_Z (Zpos m))%Q by (change 0%Q with (inject_Z 0); rewrite <- Zlt_Qlt; lia).
      rewrite inject_cond_Zopp. destruct s.
      - assert (E : (- inject_Z (Zpos m) * 2 ^ e == - (inject_Z (Zpos m) * 2 ^ e))%Q) by ring.
        rewrite E, Qabs_opp. apply Qabs_pos. nra.
      - apply Qabs_pos. nra. }
    destruct (Z.le_gt_cases (-1024) e) as [Hlo|Hlo].
    + specialize (Hn ltac:(lia)).
      destruct (first_pass_close _ S Hn ltac:(cbn [exponent]; lia) HS0)
        as (K & HK & HP & E & C).
      cbn [sign mag] in E, C.
      exists (cond_Zopp s K). eexists. split; [|split; [reflexivity|]].
      * rewrite roundToStep_int, E by trivial. cbv zeta.
        destruct (Z.eqb_spec K 0) as [->|N].
        -- rewrite snap_zero. now destruct s.
        -- rewrite snap_canon by lia.
           rewrite of_Z_mul_canon by (destruct s; cbn [cond_Zopp]; lia).
           assert (EK : (cond_Zopp s K <? 0) = s /\ Z.abs (cond_Zopp s K) = K).
           { destruct s; cbn [cond_Zopp]; split; lia. }
           destruct EK as [-> ->]. reflexivity.
      * rewrite Em.
        assert (E1 : (inject_Z (cond_Zopp s K * S)
                      == if s then - (inject_Z K * inject_Z S) else inject_Z K * inject_Z S)%Q).
        { rewrite <- cond_Zopp_mul, inject_cond_Zopp, inject_Z_mult. reflexivity. }
        assert (E2 : (inject_Z (cond_Zopp s (Zpos m)) * 2 ^ e
                      == if s then - (inject_Z (Zpos m) * 2 ^ e) else inject_Z (Zpos m) * 2 ^ e)%Q).
        { rewrite inject_cond_Zopp. destruct s; ring. }
        rewrite E1, E2. apply signed_close. exact C.
    + exists 0. eexists. split; [|split; [reflexivity|]].
      * rewrite roundToStep_int by trivial. cbv zeta.
        rewrite (div_tiny s m e S Hd ltac:(lia) HS53), snap_zero. reflexivity.
      * cbn [Z.mul]. change (inject_Z 0) with 0%Q.
        assert (E0 : forall q, (Qabs (0 - q) == Qabs q)%Q).
        { intros q. assert (E : (0 - q == - q)%Q) by ring. now rewrite E, Qabs_opp. }
        rewrite E0, Em.
        assert (Bm : (inject_Z (Zpos m) < inject_Z (2 ^ 53))%Q).
        { rewrite <- Zlt_Qlt. pose proof (Zdigits2_lt (Zpos m) ltac:(lia)) as B.
          assert (2 ^ Zdigits2 (Zpos m) <= 2 ^ 53) by (apply Z.pow_le_mono_r; lia). lia. }
        pose proof (pow2_le e (-54) ltac:(lia)) as Pe. pose proof (pow2_pos e) as Pp.
        change (2 ^ (-54))%Q with (1 # 18014398509481984)%Q in Pe.
        change (inject_Z (2 ^ 53)) with 9007199254740992%Q in Bm.
        assert (0 < inject_Z (Zpos m))%Q by (change 0%Q with (inject_Z 0); rewrite <- Zlt_Qlt; lia).
        set (mq := inject_Z (Zpos m)) in *. set (t := (2 ^ e)%Q) in *.
        assert (B2 : (mq * t <= 1 # 2)%Q) by nra.
        assert (B3 : (0 <= mq * t)%Q) by nra.
        set (x := (mq * t)%Q) in *. set (sq := inject_Z S) in *.
        set (u := u53) in *. clearbody x sq u. clear - B2 B3 PS Pu.
        nra.
Qed.

Lemma roundToStep_nearest_witness :
  exists K qv,
    Quantity.roundToStep (dec 1234 1) (of_Z 5) = inr (of_Z (K * 5)) /\
    Spec.to_Q (dec 1234 1) = Some qv /\
    (Qabs (inject_Z (K * 5) - qv) <= inject_Z 5 * (1 # 2) + Qabs qv * u53)%Q.
Proof.
  apply roundToStep_nearest.
  - vm_compute. split; discriminate.
  - vm_compute. reflexivity.
  - vm_compute. reflexivity.
Defined.

Local Open Scope Z_scope.
Import JS.

(** ** quantity.ts: the formatters on whole values *)

Lemma toFixed_of_Z K :
  Z.abs K < 2 ^ 53 ->
  toFixed (of_Z K) 0 = inr ((if K <? 0 then "-" else "") ++ string_of_Z (Z.abs K)).
Proof.
  intros H. unfold toFixed. cbn [Nat.ltb Nat.leb]. f_equal.
  destruct (Z.eq_dec K 0) as [->|N]; [reflexivity|].
  rewrite of_Z_canon by lia. apply toFixed_string_canon. lia.
Qed.

Lemma vround_of_Z K :
  0 <= K -> K * 100 < 2 ^ 53 -> Quantity.vround (of_Z K) = of_Z K.
Proof.
  intros H0 H. unfold Quantity.vround.
  rewrite mul_of_Z by lia. rewrite Math_round_of_Z by lia.
  apply div_of_Z; lia.
Qed.

(** X14. [format.length] prints a whole value in full, with its sign and
    without decimals, followed by [ft] for feet and by [m] for every
    other unit. *)
Theorem format_length_int (K : Z) (u : Unit.t) :
  Z.abs K < 2 ^ 53 ->
  Quantity.format_length {| Quantity.value := of_Z K; Quantity.unit := u |}
  = inr ((if K <? 0 then "-" else "") ++ string_of_Z (Z.abs K)
         ++ match u with Unit.ft => " ft" | _ => " m" end).
Proof.
  intros H. unfold Quantity.format_length. cbn [Quantity.value Quantity.unit].
  destruct u; rewrite toFixed_of_Z by trivial; cbn [bind ret];
    now rewrite append_assoc.
Qed.

Lemma format_length_int_witness :
  Quantity.format_length {| Quantity.value := of_Z (-120); Quantity.unit := Unit.ft |}
  = inr ((if -120 <? 0 then "-" else "") ++ string_of_Z (Z.abs (-120))
         ++ match Unit.ft with Unit.ft => " ft" | _ => " m" end).
Proof. apply format_length_int. vm_compute. reflexivity. Defined.

(** X15. [format.speed] prints a whole speed without decimals, followed by the
    label of its unit; a unit of length has no label and prints as
    [undefined]. *)
Theorem format_speed_int (K : Z) (u : Unit.t) :
  0 <= K -> K * 100 < 2 ^ 53 ->
  Quantity.format_speed {| Quantity.value := of_Z K; Quantity.unit := u |}
  = inr (string_of_Z K ++ " "
         ++ match u with
            | Unit.ms => "m/s" | Unit.kmh => "km/h" | Unit.mph => "mph"
            | Unit.kts => "kt" | _ => "undefined"
            end).
Proof.
  intros H0 H. unfold Quantity.format_speed. cbn [Quantity.value Quantity.unit].
  rewrite vround_of_Z by trivial. unfold Quantity.vtrim.
  rewrite Number_isInteger_of_Z, toFixed_of_Z by lia.
  destruct (Z.ltb_spec K 0); [lia|]. rewrite Z.abs_eq by lia.
  cbn [bind ret]. now destruct u.
Qed.

Lemma format_speed_int_witness :
  Quantity.format_speed {| Quantity.value := of_Z 250; Quantity.unit := Unit.kmh |}
  = inr (string_of_Z 250 ++ " "
         ++ match Unit.kmh with
            | Unit.ms => "m/s" | Unit.kmh => "km/h" | Unit.mph => "mph"
            | Unit.kts => "kt" | _ => "undefined"
            end).
Proof. apply format_speed_int; vm_compute; congruence. Defined.

Local Open Scope Z_scope.
Import JS.

(** ** AltitudeControl.tsx and SpeedControl.tsx: the number field and the presets *)

Lemma clamp_of_Z K A B :
  Z.abs K < 2 ^ 53 -> Z.abs A < 2 ^ 53 -> Z.abs B < 2 ^ 53 ->
  AltitudeControl.clamp (of_Z K) (of_Z A) (of_Z B) = of_Z (Z.min B (Z.max A K)).
Proof.
  intros HK HA HB. unfold AltitudeControl.clamp.
  rewrite Math_max_of_Z, Math_min_of_Z by lia. reflexivity.
Qed.

(** X16. A whole number typed into the number field of the altitude control,
    whose limits are whole numbers in the current unit, is emitted in the
    current unit, brought up to the minimum or down to the maximum when it
    lies outside them. *)
Theorem altitude_entry (p : AltitudeControl.Props) (A B K : Z) :
  AltitudeControl.vmin p = inr (of_Z A) ->
  AltitudeControl.vmax p = inr (of_Z B) ->
  Z.abs A < 2 ^ 53 -> Z.abs B < 2 ^ 53 -> 0 <= K < 2 ^ 53 ->
  AltitudeControl.onNumericEntry p (string_of_Z K)
  = inr [{| Quantity.value := of_Z (Z.min B (Z.max A K));
            Quantity.unit := AltitudeControl.u p |}].
Proof.
  intros Ha Hb HA HB HK. unfold AltitudeControl.onNumericEntry.
  rewrite Ha, Hb. cbn [bind ret]. unfold AltitudeControl.NumberField_onChange.
  cbn [map]. unfold AltitudeControl.numberChange.
  rewrite Number_input_string_of_Z, clamp_of_Z by lia. reflexivity.
Qed.

Lemma altitude_entry_witness :
  let p := {| AltitudeControl.value := {| Quantity.value := $1000; Quantity.unit := Unit.ft |};
              AltitudeControl.min := None; AltitudeControl.max := None;
              AltitudeControl.step := None |}%js in
  AltitudeControl.onNumericEntry p (string_of_Z 70000)
  = inr [{| Quantity.value := of_Z (Z.min 60000 (Z.max 0 70000));
            Quantity.unit := AltitudeControl.u p |}].
Proof.
  intros p. apply altitude_entry; try reflexivity; vm_compute; split; congruence.
Defined.

(** X17. The arrow keys pressed in the number field of the altitude control,
    on whole numbers: Arrow Up emits the value plus the step, Arrow Down
    the value minus the step, brought within the limits; no other key
    emits anything. *)
Theorem altitude_number_key (p : AltitudeControl.Props) (A B V S : Z) (key : string) :
  AltitudeControl.vmin p = inr (of_Z A) ->
  AltitudeControl.vmax p = inr (of_Z B) ->
  Quantity.value (AltitudeControl.value p) = of_Z V ->
  AltitudeControl.stp p = of_Z S ->
  Z.abs A < 2 ^ 52 -> Z.abs B < 2 ^ 52 -> Z.abs V < 2 ^ 52 -> Z.abs S < 2 ^ 52 ->
  AltitudeControl.onNumberKey p key
  = inr (if (key =? "ArrowUp")%string then
           [{| Quantity.value := of_Z (Z.min B (Z.max A (V + S)));
               Quantity.unit := AltitudeControl.u p |}]
         else if (key =? "ArrowDown")%string then
           [{| Quantity.value := of_Z (Z.min B (Z.max A (V - S)));
               Quantity.unit := AltitudeControl.u p |}]
         else []).
Proof.
  intros Ha Hb Hv Hs HA HB HV HS.
  assert (P : 2 ^ 53 = 2 * 2 ^ 52) by reflexivity.
  unfold AltitudeControl.onNumberKey. rewrite Ha, Hb, Hv, Hs. cbn [bind ret].
  rewrite Math_round_of_Z by lia. unfold AltitudeControl.NumberField_onKeyDown.
  destruct (String.eqb_spec key "ArrowUp") as [->|N1].
  - cbn [String.eqb Ascii.eqb Bool.eqb app map]. unfold AltitudeControl.numberChange.
    rewrite add_of_Z, clamp_of_Z by lia. reflexivity.
  - destruct (String.eqb_spec key "ArrowDown") as [->|N2]; cbn [app map]; trivial.
    unfold AltitudeControl.numberChange.
    rewrite sub_of_Z, clamp_of_Z by lia. reflexivity.
Qed.

Lemma altitude_number_key_witness :
  let p := {| AltitudeControl.value := {| Quantity.value := $59995; Quantity.unit := Unit.ft |};
              AltitudeControl.min := None; AltitudeControl.max := None;
              AltitudeControl.step := None |}%js in
  AltitudeControl.onNumberKey p "ArrowUp"
  = inr (if ("ArrowUp" =? "ArrowUp")%string then
           [{| Quantity.value := of_Z (Z.min 60000 (Z.max 0 (59995 + 10)));
               Quantity.unit := AltitudeControl.u p |}]
         else if ("ArrowUp" =? "ArrowDown")%string then
           [{| Quantity.value := of_Z (Z.min 60000 (Z.max 0 (59995 - 10)));
               Quantity.unit := AltitudeControl.u p |}]
         else []).
Proof.
  intros p. apply altitude_number_key; try reflexivity; vm_compute; congruence.
Defined.

(** X18. A preset given in the current unit with a whole value is emitted as it
    is, whatever the limits of the control: the presets are not clamped. *)
Theorem altitude_preset (p : AltitudeControl.Props) (K : Z) :
  Z.abs K < 2 ^ 53 ->
  AltitudeControl.onPreset p
    {| Quantity.value := of_Z K; Quantity.unit := AltitudeControl.u p |}
  = inr {| Quantity.value := of_Z K; Quantity.unit := AltitudeControl.u p |}.
Proof.
  intros HK. unfold AltitudeControl.onPreset, AltitudeControl.toCurrent.
  cbn [Quantity.unit Quantity.value].
  assert (E : SpeedControl.unit_eqb (AltitudeControl.u p) (AltitudeControl.u p) = true)
    by now destruct (AltitudeControl.u p).
  rewrite E. cbn [bind ret Quantity.value]. now rewrite Math_round_of_Z.
Qed.

Lemma altitude_preset_witness :
  let p := {| AltitudeControl.value := {| Quantity.value := $1000; Quantity.unit := Unit.ft |};
              AltitudeControl.min := None; AltitudeControl.max := None;
              AltitudeControl.step := None |}%js in
  AltitudeControl.onPreset p
    {| Quantity.value := of_Z 90000; Quantity.unit := AltitudeControl.u p |}
  = inr {| Quantity.value := of_Z 90000; Quantity.unit := AltitudeControl.u p |}.
Proof. intros p. apply altitude_preset. vm_compute. reflexivity. Defined.



Local Open Scope Z_scope.
Import JS.

(** ** Dial.tsx: a disabled dial *)

Lemma handle_disabled atan2 p st ref ev :
  Dial.disabled p = true -> Dial.dragging st = false ->
  snd (Dial.handle atan2 p st ref ev) = inr [] /\
  Dial.dragging (fst (Dial.handle atan2 p st ref ev)) = false.
Proof.
  intros Hd Hs. destruct ev as [x y|x y| |key shiftKey]; cbn [Dial.handle].
  - unfold Dial.onPointerDown. rewrite Hd. now split.
  - unfold Dial.move. rewrite Hs. now split.
  - now split.
  - unfold Dial.onKeyDown. rewrite Hd. now split.
Qed.

(** X20. A disabled dial that is not being dragged never calls [onChange],
    whatever the pointer and the keyboard do, and stays out of a drag. *)
Theorem dial_disabled_silent atan2 (p : Dial.Props) (st : Dial.State)
  (ref : option Dial.DOMRect) (evs : list Dial.Event) :
  Dial.disabled p = true -> Dial.dragging st = false ->
  Forall (fun r => r = inr []) (emissions atan2 p st ref evs) /\
  Dial.dragging (Dial.run atan2 p st ref evs) = false.
Proof.
  intros Hd. revert st. induction evs as [|ev evs IH]; intros st Hs.
  - split; [constructor|exact Hs].
  - destruct (handle_disabled atan2 p st ref ev Hd Hs) as [E D].
    destruct (IH _ D) as [F R]. cbn [emissions Dial.run fold_left]. split.
    + constructor; trivial.
    + exact R.
Qed.

Lemma dial_disabled_silent_witness :
  let p := {| Dial.value := $50; Dial.min := $0; Dial.max := $100; Dial.step := $1;
              Dial.size := $160; Dial.startAngle := (neg Dial.PI * dec 75 2);
              Dial.endAngle := (Dial.PI * dec 75 2); Dial.disabled := true |}%js in
  let box := {| Dial.left := $0; Dial.top := $0; Dial.width := $160;
                Dial.height := $160 |}%js in
  let evs := [Dial.PointerDown $100 $80; Dial.PointerMove $90 $80; Dial.PointerUp;
              Dial.KeyDown "ArrowUp" false]%js in
  Forall (fun r => r = inr [])
    (emissions atan2_on_axis p {| Dial.dragging := false |} (Some box) evs) /\
  Dial.dragging (Dial.run atan2_on_axis p {| Dial.dragging := false |} (Some box) evs)
  = false.
Proof. intros p box evs. apply dial_disabled_silent; reflexivity. Defined.

(** ** Dial.tsx: bounds the wrong way round *)

Lemma Math_min_lt a b : lt a b = true -> Math_min a b = a.
Proof.
  intros H. destruct (lt_isNaN _ _ H) as [Ha Hb].
  destruct (Math_min_cases a b Ha Hb) as ([E|E] & L1 & L2); trivial.
  rewrite E in L1. now rewrite (lt_not_le _ _ H) in L1.
Qed.

Lemma clamp_inverted p v :
  lt (Dial.max p) (Dial.min p) = true -> isNaN v = false -> Dial.clamp p v = Dial.max p.
Proof.
  intros H Hv. destruct (lt_isNaN _ _ H) as [Hmax Hmin]. unfold Dial.clamp.
  destruct (Math_max_cases (Dial.min p) v Hmin Hv) as (_ & L & _).
  apply Math_min_lt. eapply lt_le_trans; eassumption.
Qed.

(** X21. On a dial whose maximum lies below its minimum, clamping sends every
    number to the maximum: each arrow or page key emits the maximum, from
    any finite value and step. *)
Theorem dial_inverted_range (p : Dial.Props) :
  lt (Dial.max p) (Dial.min p) = true ->
  (forall v, isNaN v = false -> Dial.clamp p v = Dial.max p) /\
  (forall key shiftKey w,
      isFinite (Dial.value p) = true -> isFinite (Dial.step p) = true ->
      In w (Dial.onKeyDown p key shiftKey) -> key <> "Home" -> w = Dial.max p).
Proof.
  intros H. split; [intros v; now apply clamp_inverted|].
  intros key shiftKey w Hv Hs.
  pose proof (delta_isNaN p shiftKey Hs) as Hd. pose proof (coarse_isNaN p Hs) as Hc.
  unfold Dial.onKeyDown. destruct (Dial.disabled p); [intros []|].
  destruct (String.eqb_spec key "Home") as [->|N].
  - cbn. intros _ C. now contradiction C.
  - repeat match goal with
           | |- In _ (if ?b then _ else _) -> _ => destruct b
           end; intros Hin _; try (destruct Hin as [<-|[]]); try (now destruct Hin);
      try reflexivity; try (apply clamp_inverted; trivial).
    + now apply add_finite_isNaN.
    + now apply sub_finite_isNaN.
    + now apply add_finite_isNaN.
    + now apply sub_finite_isNaN.
Qed.

Lemma dial_inverted_range_witness :
  let p := {| Dial.value := $50; Dial.min := $100; Dial.max := $0; Dial.step := $1;
              Dial.size := $160; Dial.startAngle := (neg Dial.PI * dec 75 2);
              Dial.endAngle := (Dial.PI * dec 75 2); Dial.disabled := false |}%js in
  Dial.clamp p $50%js = Dial.max p.
Proof.
  intros p. apply (proj1 (dial_inverted_range p ltac:(reflexivity))). reflexivity.
Defined.

(** ** Dial.tsx: the tick marks *)

Lemma add_zero_le v z b :
  isZero z = true -> le v b = true -> le (v + z)%js b = true.
Proof.
  destruct z as [sz| | |]; try discriminate. intros _.
  destruct v as [sv|sv| |sv mv ev]; trivial.
  destruct sv, sz, b as [sb|sb| |sb mb eb]; trivial.
Qed.

Lemma tick_loop_zero cos sin p fuel z major v els :
  isZero z = true ->
  le v (Dial.max p + of_decimal false 1 (-9))%js = true ->
  Dial.tick_loop cos sin p fuel z major v els = None.
Proof.
  intros Hz. revert v els. induction fuel as [|f IH]; intros v els H; trivial.
  cbn [Dial.tick_loop]. rewrite H. apply IH. now apply add_zero_le.
Qed.

(** X22. With [ticks.every] at 0 the loop that draws the tick marks never ends,
    on any dial whose minimum is not above its maximum: however many
    rounds it is given, it has not returned. *)
Theorem ticks_never_end cos sin (p : Dial.Props) (t : Dial.Ticks) (fuel : nat) :
  isZero (Dial.every t) = true ->
  le (Dial.min p) (Dial.max p + of_decimal false 1 (-9))%js = true ->
  Dial.tickEls cos sin p fuel (Some t) = None.
Proof.
  intros Hz H. unfold Dial.tickEls. now rewrite tick_loop_zero.
Qed.

Lemma ticks_never_end_witness :
  Dial.tickEls (fun a => a) (fun a => a) (Dial.defaults $50%js) 1000
    (Some {| Dial.every := $0%js; Dial.majorEvery := None |}) = None.
Proof. apply ticks_never_end; reflexivity. Defined.

(** ** Dial.tsx: from a value to its angle and back *)

(** X23. On a dial with the default range, step and arc, the angle at which a
    whole value between 0 and 100 is drawn is mapped back to that value. *)
Theorem dial_angle_round_trip (v0 : number) (k : Z) :
  0 <= k <= 100 ->
  let p := Dial.defaults v0 in
  Dial.valueFromAngle p (Dial.angleFromValue p (of_Z k)) = inr (of_Z k).
Proof.
  intros H p. subst p.
  assert (G : match Dial.valueFromAngle (Dial.defaults v0)
                      (Dial.angleFromValue (Dial.defaults v0) (of_Z k)) with
              | inr r => number_eqb r (of_Z k)
              | inl _ => false
              end = true).
  { apply (forallb_Zrange
             (fun k => match Dial.valueFromAngle (Dial.defaults v0)
                               (Dial.angleFromValue (Dial.defaults v0) (of_Z k)) with
                       | inr r => number_eqb r (of_Z k)
                       | inl _ => false
                       end) 0 101); [vm_compute; reflexivity|lia]. }
  destruct (Dial.valueFromAngle _ _) as [e|r]; [discriminate|].
  f_equal. now apply number_eqb_eq.
Qed.

Lemma dial_angle_round_trip_witness :
  let p := Dial.defaults $0%js in
  Dial.valueFromAngle p (Dial.angleFromValue p (of_Z 37)) = inr (of_Z 37).
Proof. apply (dial_angle_round_trip $0%js 37). lia. Defined.

(** X24. On the dial of the heading control, with its step of 1, a pointer at
    the angle at which a whole heading between 0 and 359 is drawn makes
    the control emit that heading, snapping or not. *)
Theorem heading_angle_round_trip (v0 : number) (snap : bool) (k : Z) :
  0 <= k <= 359 ->
  let h := {| HeadingControl.value := v0; HeadingControl.step := $1%js;
              HeadingControl.snap := snap |} in
  let p := HeadingControl.dial h in
  exists r,
    Dial.valueFromAngle p (Dial.angleFromValue p (of_Z k)) = inr r /\
    HeadingControl.handleChange h r = of_Z k.
Proof.
  intros H h p. subst h p.
  set (f := fun (b : bool) (k : Z) =>
              let h := {| HeadingControl.value := v0; HeadingControl.step := $1%js;
                          HeadingControl.snap := b |} in
              match Dial.valueFromAngle (HeadingControl.dial h)
                      (Dial.angleFromValue (HeadingControl.dial h) (of_Z k)) with
              | inr r => number_eqb (HeadingControl.handleChange h r) (of_Z k)
              | inl _ => false
              end).
  assert (G : f snap k = true).
  { destruct snap; apply (forallb_Zrange (f _) 0 360); try lia; vm_compute; reflexivity. }
  unfold f in G. cbv zeta in G.
  destruct (Dial.valueFromAngle _ _) as [e|r]; [discriminate|].
  exists r. split; trivial. now apply number_eqb_eq.
Qed.

Lemma heading_angle_round_trip_witness :
  let h := {| HeadingControl.value := $0%js; HeadingControl.step := $1%js;
              HeadingControl.snap := true |} in
  let p := HeadingControl.dial h in
  exists r,
    Dial.valueFromAngle p (Dial.angleFromValue p (of_Z 271)) = inr r /\
    HeadingControl.handleChange h r = of_Z 271.
Proof. apply (heading_angle_round_trip $0%js true 271). lia. Defined.

(** ** Dial.tsx and quantity.ts: the two roundings *)

Lemma split_dot_no_dot s : includes_dot s = false -> split_dot s = [s].
Proof.
  induction s as [|c s IH]; trivial. cbn [includes_dot split_dot].
  destruct (Ascii.eqb c "."); [discriminate|]. intros H. now rewrite (IH H).
Qed.

Lemma decimals_split s :
  Quantity.decimals s = String.length (nth 1 (split_dot (toString s)) "").
Proof.
  unfold Quantity.decimals. destruct (includes_dot (toString s)) eqn:E; trivial.
  now rewrite (split_dot_no_dot _ E).
Qed.

(** X25. The dial rounds to its step as [roundToStep] does: [roundToStep] is
    the dial's [round], followed by the fall back on the value itself when
    the rounded one is not finite, which the dial does not have. *)
Theorem roundToStep_dial_round (v s : number) :
  Quantity.roundToStep v s
  = (r <- Dial.round v s ;; ret (if isFinite r then r else v)).
Proof.
  unfold Quantity.roundToStep, Quantity.rounded, Dial.round.
  now rewrite decimals_split.
Qed.

Local Open Scope Z_scope.
Import JS.

(** ** The order of normal numbers and the order of their values *)

Lemma normal_lex_lt m1 e1 m2 e2 :
  2 ^ 52 <= m1 < 2 ^ 53 -> 2 ^ 52 <= m2 < 2 ^ 53 ->
  e1 < e2 \/ (e1 = e2 /\ m1 < m2) ->
  (inject_Z m1 * 2 ^ e1 < inject_Z m2 * 2 ^ e2)%Q.
Proof.
  intros H1 H2 H.
  assert (Q1 : (inject_Z m1 < inject_Z (2 ^ 53))%Q) by (rewrite <- Zlt_Qlt; lia).
  assert (Q2 : (inject_Z (2 ^ 52) <= inject_Z m2)%Q) by (rewrite <- Zle_Qle; lia).
  assert (Q3 : (0 < inject_Z m1)%Q).
  { change 0%Q with (inject_Z 0). rewrite <- Zlt_Qlt. change (2 ^ 52) with 4503599627370496 in H1. lia. }
  change (inject_Z (2 ^ 53)) with 9007199254740992%Q in Q1.
  change (inject_Z (2 ^ 52)) with 4503599627370496%Q in Q2.
  pose proof (pow2_pos e1) as P1.
  destruct H as [H|[-> H]].
  - pose proof (pow2_le (e1 + 1) e2 ltac:(lia)) as L. rewrite pow2_add in L.
    change (2 ^ 1)%Q with 2%Q in L.
    set (a := (2 ^ e1)%Q) in *. set (b := (2 ^ e2)%Q) in *.
    set (x := inject_Z m1) in *. set (y := inject_Z m2) in *. clearbody a b x y.
    apply Qlt_le_trans with (9007199254740992 * a)%Q; [nra|].
    apply Qle_trans with (4503599627370496 * b)%Q; nra.
  - assert (Q4 : (inject_Z m1 < inject_Z m2)%Q) by (rewrite <- Zlt_Qlt; lia).
    pose proof (pow2_pos e2). nra.
Qed.

(** Either a zero or a normal number. *)
Lemma lt_to_Q x y qx qy :
  (isZero x = true \/ normal x) -> (isZero y = true \/ normal y) ->
  Spec.to_Q x = Some qx -> Spec.to_Q y = Some qy ->
  lt x y = true -> (qx < qy)%Q.
Proof.
  intros Nx Ny Ex Ey H. apply lt_rank in H as (ra & rb & Ra & Rb & L).
  assert (P : forall m e, (0 < inject_Z (Zpos m) * 2 ^ e)%Q).
  { intros m e. pose proof (pow2_pos e).
    assert (0 < inject_Z (Zpos m))%Q by (change 0%Q with (inject_Z 0); rewrite <- Zlt_Qlt; lia).
    nra. }
  assert (Ng : forall m e, (inject_Z (- Zpos m) * 2 ^ e == - (inject_Z (Zpos m) * 2 ^ e))%Q).
  { intros m e. rewrite inject_Z_opp. ring. }
  destruct x as [sx|sx| |sx mx ex], y as [sy|sy| |sy my ey]; try discriminate;
    cbn [Spec.to_Q] in Ex, Ey; injection Ex as <-; injection Ey as <-.
  - cbn in Ra, Rb. injection Ra as <-. injection Rb as <-. cbn in L. lia.
  - destruct sy; cbn in Ra, Rb; injection Ra as <-; injection Rb as <-; cbn in L.
    + lia.
    + cbn [cond_Zopp]. apply P.
  - destruct sx; cbn in Ra, Rb; injection Ra as <-; injection Rb as <-; cbn in L.
    + cbn [cond_Zopp]. rewrite Ng. pose proof (P mx ex). lra.
    + lia.
  - destruct Nx as [Nx|Nx]; [discriminate|]. destruct Ny as [Ny|Ny]; [discriminate|].
    cbn [normal] in Nx, Ny.
    destruct sx, sy; cbn in Ra, Rb; injection Ra as <-; injection Rb as <-; cbn in L;
      cbn [cond_Zopp].
    + rewrite !Ng.
      assert (G : (inject_Z (Zpos my) * 2 ^ ey < inject_Z (Zpos mx) * 2 ^ ex)%Q).
      { apply normal_lex_lt; trivial. lia. }
      lra.
    + rewrite Ng. pose proof (P mx ex). pose proof (P my ey). lra.
    + lia.
    + apply normal_lex_lt; trivial. lia.
Qed.

Lemma le_to_Q x y qx qy :
  (isZero x = true \/ normal x) -> (isZero y = true \/ normal y) ->
  Spec.to_Q x = Some qx -> Spec.to_Q y = Some qy ->
  le x y = true -> (qx <= qy)%Q.
Proof.
  intros Nx Ny Ex Ey H.
  destruct (lt x y) eqn:L.
  - apply Qlt_le_weak. apply (lt_to_Q x y); assumption.
  - destruct (le_isNaN _ _ H) as [Hx Hy].
    pose proof (not_lt_le x y Hx Hy L) as G.
    (* [x <= y] and [y <= x]: the same place in the order *)
    apply le_rank in H as (ra & rb & Ra & Rb & H1).
    apply le_rank in G as (rb' & ra' & Rb' & Ra' & H2).
    rewrite Ra in Ra'. rewrite Rb in Rb'. injection Ra' as <-. injection Rb' as <-.
    assert (E : ra = rb).
    { destruct H1 as [H1|H1]; trivial. destruct H2 as [H2|H2]; [|congruence].
      exfalso. apply (lexlt_irrefl ra). eapply lexlt_trans; eassumption. }
    rewrite E in Ra.
    destruct x as [sx|sx| |sx mx ex], y as [sy|sy| |sy my ey]; try discriminate;
      cbn [Spec.to_Q] in Ex, Ey; injection Ex as <-; injection Ey as <-.
    + lra.
    + destruct sy; cbn in Ra, Rb; congruence.
    + destruct sx; cbn in Ra, Rb; congruence.
    + destruct sx, sy; cbn in Ra, Rb; try congruence.
      * rewrite <- Rb in Ra. injection Ra as E1 E2.
        assert (ex = ey) as -> by lia. subst mx. lra.
      * rewrite <- Rb in Ra. injection Ra as E1 E2. subst. lra.
Qed.

(** ** Dial.tsx: the bound [max + 1e-9] of the tick loop *)

Lemma binary_normalize_wide N :
  2 ^ 81 <= Z.abs N < 2 ^ 110 ->
  exists M e',
    binary_normalize prec emax N (-82) false = S754_finite (N <? 0) M e' /\
    2 ^ 52 <= Zpos M < 2 ^ 53 /\
    (Qabs (inject_Z (Zpos M) * 2 ^ e' - inject_Z (Z.abs N) * 2 ^ (-82))
     <= inject_Z (Z.abs N) * 2 ^ (-82) * u53)%Q.
Proof.
  intros H.
  assert (D : 82 <= Zdigits2 (Z.abs N) <= 110).
  { split.
    - change 82 with (Zdigits2 (2 ^ 81)). apply Zdigits2_mono.
      change (2 ^ 81) with 2417851639229258349412352 in *. lia.
    - apply Zdigits2_le; lia. }
  assert (G : forall s n, Zpos n = Z.abs N ->
              exists M e',
                binary_round prec emax s n (-82) = S754_finite s M e' /\
                2 ^ 52 <= Zpos M < 2 ^ 53 /\
                (Qabs (inject_Z (Zpos M) * 2 ^ e' - inject_Z (Z.abs N) * 2 ^ (-82))
                 <= inject_Z (Z.abs N) * 2 ^ (-82) * u53)%Q).
  { intros s n En. rewrite <- En in *.
    assert (R : binary_round prec emax s n (-82)
                = binary_round_aux prec emax s (Zpos n) (-82) loc_Exact).
    { unfold binary_round. change (Zpos (digits2_pos n)) with (Zdigits2 (Zpos n)).
      rewrite fexp_eq. unfold shl_align.
      destruct (Z.max (Zdigits2 (Zpos n) + -82 - 53) (-1074) - -82) eqn:E; try reflexivity.
      lia. }
    rewrite R.
    destruct (binary_round_aux_normal s (Zpos n) (-82) loc_Exact (inject_Z (Zpos n)))
      as (M & e' & E1 & E2 & _ & E4); try lia.
    - split; [cbn; lia|]. cbn. reflexivity.
    - exists M, e'. repeat split; trivial; lia. }
  destruct N as [|n|n].
  - cbn in H. lia.
  - apply (G false n). reflexivity.
  - apply (G true n). reflexivity.
Qed.

(** The bound of the loop over a whole maximum [B]: a number worth at
    least [B] and less than [B + 1]. *)
Lemma add_eps B :
  0 < Z.abs B <= 10 ^ 6 ->
  exists s M e,
    (of_Z B + of_decimal false 1 (-9))%js = S754_finite s M e /\
    2 ^ 52 <= Zpos M < 2 ^ 53 /\
    (inject_Z B <= inject_Z (cond_Zopp s (Zpos M)) * 2 ^ e)%Q /\
    (inject_Z (cond_Zopp s (Zpos M)) * 2 ^ e < inject_Z B + 1)%Q.
Proof.
  intros HB. change (10 ^ 6) with 1000000 in HB.
  assert (H53 : 0 < Z.abs B < 2 ^ 53) by (change (2 ^ 53) with 9007199254740992; lia).
  pose proof (digits_le_53 _ H53) as Hd.
  rewrite of_Z_canon by trivial. unfold canon.
  change (of_decimal false 1 (-9)) with (S754_finite false 4835703278458517 (-82)).
  rewrite add_finite.
  replace (Z.min (Zdigits2 (Z.abs B) - 53) (-82)) with (-82) by lia.
  rewrite aligned_canon by lia.
  change (Zpos (fst (shl_align 4835703278458517 (-82) (-82)))) with 4835703278458517.
  change (- -82) with 82. cbn [cond_Zopp].
  match goal with |- context [binary_normalize _ _ ?n _ _] => set (N := n) end.
  assert (EN : N = B * 2 ^ 82 + 4835703278458517).
  { unfold N. rewrite cond_Zopp_mul, cond_Zopp_abs. reflexivity. }
  clearbody N. subst N.
  change (2 ^ 82) with 4835703278458516698824704.
  set (N := B * 4835703278458516698824704 + 4835703278458517).
  assert (HN : 2 ^ 81 <= Z.abs N < 2 ^ 110 /\ (N <? 0) = (B <? 0)).
  { change (2 ^ 81) with 2417851639229258349412352.
    change (2 ^ 110) with 1298074214633706907132624082305024. unfold N.
    destruct (Z.ltb_spec B 0), (Z.ltb_spec (B * 4835703278458516698824704 + 4835703278458517) 0);
      lia. }
  destruct HN as [HN Hs].
  destruct (binary_normalize_wide N HN) as (M & e' & E1 & E2 & E3).
  exists (B <? 0), M, e'. rewrite E1, Hs. split; [reflexivity|]. split; [exact E2|].
  assert (P82 : (2 ^ (-82) == 1 # 4835703278458516698824704)%Q) by reflexivity.
  assert (Pu : (u53 == 1 # 9007199254740992)%Q) by reflexivity.
  rewrite P82, Pu in E3. apply Qabs_Qle_condition in E3 as [L U].
  set (V := (inject_Z (Zpos M) * 2 ^ e')%Q) in *.
  assert (B1 : (1 <= inject_Z (Z.abs B) <= 1000000)%Q).
  { change 1%Q with (inject_Z 1). change 1000000%Q with (inject_Z 1000000).
    rewrite <- !Zle_Qle. lia. }
  rewrite inject_cond_Zopp.
  destruct (Z.ltb_spec B 0) as [Neg|Pos].
  - assert (EA : (inject_Z (Z.abs N)
                  == inject_Z (Z.abs B) * 4835703278458516698824704 - 4835703278458517)%Q).
    { replace (Z.abs N) with (Z.abs B * 4835703278458516698824704 - 4835703278458517)
        by (unfold N; lia).
      unfold Zminus. rewrite inject_Z_plus, inject_Z_mult. reflexivity. }
    assert (EB : (inject_Z B == - inject_Z (Z.abs B))%Q).
    { replace B with (- Z.abs B) at 1 by lia. now rewrite inject_Z_opp. }
    assert (EV : (- inject_Z (Zpos M) * 2 ^ e' == - V)%Q) by (unfold V; ring).
    rewrite EA in L, U. rewrite EB, EV.
    set (b := inject_Z (Z.abs B)) in *. clearbody b V. clear - L U B1.
    split; lra.
  - assert (EA : (inject_Z (Z.abs N)
                  == inject_Z (Z.abs B) * 4835703278458516698824704 + 4835703278458517)%Q).
    { replace (Z.abs N) with (Z.abs B * 4835703278458516698824704 + 4835703278458517)
        by (unfold N; lia).
      rewrite inject_Z_plus, inject_Z_mult. reflexivity. }
    assert (EB : (inject_Z B == inject_Z (Z.abs B))%Q) by (rewrite Z.abs_eq by lia; reflexivity).
    rewrite EA in L, U. rewrite EB. fold V.
    set (b := inject_Z (Z.abs B)) in *. clearbody b V. clear - L U B1.
    split; lra.
Qed.

Lemma bound_value B :
  Z.abs B <= 10 ^ 6 ->
  exists s M e,
    (of_Z B + of_decimal false 1 (-9))%js = S754_finite s M e /\
    2 ^ 52 <= Zpos M < 2 ^ 53 /\
    (inject_Z B <= inject_Z (cond_Zopp s (Zpos M)) * 2 ^ e)%Q /\
    (inject_Z (cond_Zopp s (Zpos M)) * 2 ^ e < inject_Z B + 1)%Q.
Proof.
  intros H. destruct (Z.eq_dec B 0) as [->|N]; [|apply add_eps; lia].
  exists false, 4835703278458517%positive, (-82). split; [reflexivity|].
  split; [split; [discriminate|reflexivity]|].
  assert (P82 : (2 ^ (-82) == 1 # 4835703278458516698824704)%Q) by reflexivity.
  cbn [cond_Zopp]. rewrite P82. split; [discriminate|reflexivity].
Qed.

Lemma of_Z_value v :
  Z.abs v < 2 ^ 53 ->
  exists q,
    Spec.to_Q (of_Z v) = Some q /\ (q == inject_Z v)%Q /\
    (isZero (of_Z v) = true \/ normal (of_Z v)).
Proof.
  intros H. destruct (Z.eq_dec v 0) as [->|N].
  - exists 0%Q. repeat split. now left.
  - rewrite of_Z_canon by lia.
    destruct (canon_normal (v <? 0) (Z.abs v) ltac:(lia)) as (Hn & _ & _ & Hm).
    unfold canon in *. cbn [Spec.to_Q mag] in *. eexists. split; [reflexivity|].
    split; [|now right].
    rewrite inject_cond_Zopp.
    destruct (Z.ltb_spec v 0).
    + assert (E : forall a b, (- a * b == - (a * b))%Q) by (intros; ring).
      rewrite E, Hm, <- inject_Z_opp. replace (- Z.abs v) with v by lia. reflexivity.
    + rewrite Hm, Z.abs_eq by lia. reflexivity.
Qed.

(** The test of the loop, on whole numbers: [v <= max + 1e-9] holds
    exactly when [v <= max]. *)
Lemma le_bound v B :
  Z.abs v < 2 ^ 53 -> Z.abs B <= 10 ^ 6 ->
  le (of_Z v) (of_Z B + of_decimal false 1 (-9))%js = (v <=? B).
Proof.
  intros Hv HB.
  destruct (bound_value B HB) as (s & M & e & -> & HM & L & U).
  destruct (of_Z_value v Hv) as (q & Eq & Eq' & Nv).
  set (x := S754_finite s M e).
  assert (Nx : isZero x = true \/ normal x) by now right.
  assert (Ex : Spec.to_Q x = Some (inject_Z (cond_Zopp s (Zpos M)) * 2 ^ e)%Q) by reflexivity.
  assert (Hx : isNaN x = false) by reflexivity.
  assert (Hn : isNaN (of_Z v) = false) by apply binary_normalize_isNaN.
  destruct (Z.leb_spec v B) as [C|C].
  - destruct (le (of_Z v) x) eqn:Le; trivial. exfalso.
    destruct (lt x (of_Z v)) eqn:Lt.
    + pose proof (lt_to_Q x (of_Z v) _ _ Nx Nv Ex Eq Lt) as G. rewrite Eq' in G.
      assert (inject_Z v <= inject_Z B)%Q by (rewrite <- Zle_Qle; lia). lra.
    + pose proof (not_lt_le _ _ Hx Hn Lt). congruence.
  - destruct (le (of_Z v) x) eqn:Le; trivial. exfalso.
    pose proof (le_to_Q (of_Z v) x _ _ Nv Nx Eq Ex Le) as G. rewrite Eq' in G.
    assert (inject_Z (B + 1) <= inject_Z v)%Q by (rewrite <- Zle_Qle; lia).
    rewrite inject_Z_plus in *. change (inject_Z 1) with 1%Q in *. lra.
Qed.

Lemma tick_loop_int cos sin p B E major :
  Dial.max p = of_Z B -> Z.abs B <= 10 ^ 6 -> 0 < E <= 10 ^ 6 ->
  forall n fuel v els,
    (n < fuel)%nat -> - 10 ^ 6 <= v <= B + E ->
    n = Z.to_nat (if v <=? B then (B - v) / E + 1 else 0) ->
    exists els',
      Dial.tick_loop cos sin p fuel (of_Z E) major (of_Z v) els = Some (els ++ els')%list /\
      map Dial.key els' = map (fun i => of_Z (v + Z.of_nat i * E)) (seq 0 n).
Proof.
  intros Hmax HB HE. change (10 ^ 6) with 1000000 in *.
  assert (P : 2 ^ 53 = 9007199254740992) by reflexivity.
  induction n as [|n IH]; intros fuel v els Hf Hv Hn.
  - destruct fuel as [|f]; [lia|]. cbn [Dial.tick_loop].
    rewrite Hmax, le_bound by (change (10 ^ 6) with 1000000; lia).
    destruct (Z.leb_spec v B) as [C|C].
    + pose proof (Z.div_pos (B - v) E ltac:(lia) ltac:(lia)). lia.
    + exists []. split; [now rewrite app_nil_r|reflexivity].
  - destruct fuel as [|f]; [lia|]. cbn [Dial.tick_loop].
    rewrite Hmax, le_bound by (change (10 ^ 6) with 1000000; lia).
    destruct (Z.leb_spec v B) as [C|C]; [|discriminate].
    rewrite add_of_Z by lia.
    destruct (IH f (v + E) (els ++ [Dial.tick cos sin p major (of_Z v)])%list)
      as (els' & E1 & E2); try lia.
    { destruct (Z.leb_spec (v + E) B) as [C'|C'].
      - replace (B - v) with ((B - (v + E)) + 1 * E) in Hn by lia.
        rewrite Z.div_add in Hn by lia.
        pose proof (Z.div_pos (B - (v + E)) E ltac:(lia) ltac:(lia)). lia.
      - rewrite Z.div_small in Hn by lia. cbn in Hn. lia. }
    exists (Dial.tick cos sin p major (of_Z v) :: els'). split.
    + rewrite E1, <- app_assoc. reflexivity.
    + cbn [map seq Dial.key Dial.tick]. f_equal; [f_equal; lia|].
      rewrite E2, <- seq_shift, map_map. apply map_ext. intros i. f_equal. lia.
Qed.

(** X26. On whole numbers the loop of [tickEls] ends and draws one tick mark
    at the minimum and one every [every] units after it, the last one at
    or below the maximum: whole [min <= max] and [every > 0], up to a
    million each. *)
Theorem ticks_integer cos sin (p : Dial.Props) (t : Dial.Ticks) (A B E : Z) (fuel : nat) :
  Dial.min p = of_Z A -> Dial.max p = of_Z B -> Dial.every t = of_Z E ->
  - 10 ^ 6 <= A -> A <= B -> B <= 10 ^ 6 -> 0 < E <= 10 ^ 6 ->
  (Z.to_nat ((B - A) / E) + 1 < fuel)%nat ->
  exists els,
    Dial.tickEls cos sin p fuel (Some t) = Some (Some els) /\
    map Dial.key els
    = map (fun i => of_Z (A + Z.of_nat i * E)) (seq 0 (Z.to_nat ((B - A) / E) + 1)).
Proof.
  intros Hmin Hmax Hev HA HAB HB HE Hf. change (10 ^ 6) with 1000000 in *.
  pose proof (Z.div_pos (B - A) E ltac:(lia) ltac:(lia)) as Hq.
  unfold Dial.tickEls. rewrite Hmin, Hev.
  destruct (tick_loop_int cos sin p B E
              (match Dial.majorEvery t with Some m => m | None => (of_Z E * $5)%js end)
              Hmax ltac:(change (10 ^ 6) with 1000000; lia)
              ltac:(change (10 ^ 6) with 1000000; lia)
              (Z.to_nat ((B - A) / E) + 1)%nat fuel A [])
    as (els & E1 & E2).
  - exact Hf.
  - change (10 ^ 6) with 1000000. lia.
  - destruct (Z.leb_spec A B); lia.
  - rewrite E1. exists els. split; [reflexivity|exact E2].
Qed.

Lemma ticks_integer_witness :
  let h := {| HeadingControl.value := $0%js; HeadingControl.step := $1%js;
              HeadingControl.snap := false |} in
  exists els,
    Dial.tickEls (fun a => a) (fun a => a) (HeadingControl.dial h) 40
      (Some HeadingControl.ticks) = Some (Some els) /\
    map Dial.key els
    = map (fun i => of_Z (0 + Z.of_nat i * 10)) (seq 0 (Z.to_nat ((359 - 0) / 10) + 1)).
Proof.
  intros h. apply ticks_integer; try reflexivity.
  - vm_compute. discriminate.
  - vm_compute. discriminate.
  - vm_compute. discriminate.
  - vm_compute. split; [reflexivity|discriminate].
  - vm_compute. lia.
Defined.
